(** * gdwg::graph<N, E>: a shallow embedding of [src/gdwg_graph.h]

    The header defines a directed, weighted multi-graph as

      std::map<N, std::pair<edge_ptr_set, edge_ptr_set>> g_;

    where an [edge_ptr_set] is a [std::set<std::shared_ptr<edge>,
    EdgePtrComparator>].  The development below follows the header
    member by member: the edge classes, the comparator, the two ordered
    containers, the mutating members (in a state-and-exception monad, since
    they update [g_], allocate edges and throw [std::runtime_error]), the
    const queries and the bidirectional iterator, then the constructors
    from a range, copy and move, [operator==], [operator--], the two
    [erase_edge] overloads on iterators and [operator<<]. *)

From Stdlib Require Import List Bool Arith ZArith Lia String Ascii NArith Sorted.
Import ListNotations.

Set Implicit Arguments.

(** ** Node and weight types

    [N] and [E] are template parameters "copyable, comparable, streamable".
    What the header uses of them is [operator==] / [operator!=] and
    [operator<]; the class below packages these with the laws of a regular,
    strictly totally ordered type. *)

Class Ord (A : Type) : Type := {
  equal : A -> A -> bool;
  less : A -> A -> bool;
  equal_spec : forall x y, reflect (x = y) (equal x y);
  less_irrefl : forall x, less x x = false;
  less_trans : forall x y z, less x y = true -> less y z = true -> less x z = true;
  less_total : forall x y, less x y = false -> less y x = false -> x = y
}.

#[export, refine] Instance Ord_Z : Ord Z :=
  {| equal := Z.eqb; less := Z.ltb |}.
Proof.
  - intros x y. apply Z.eqb_spec.
  - intros x. apply Z.ltb_irrefl.
  - intros x y z. rewrite !Z.ltb_lt. lia.
  - intros x y. rewrite !Z.ltb_ge. lia.
Defined.

(** Addresses of heap objects ([std::make_shared] results, [this]). *)
Definition addr := nat.

(** ** The state-and-exception monad of the mutating members

    A thrown [std::runtime_error] carries its [what()] string and leaves the
    object in whatever state it had reached when the exception was raised,
    so the state is returned on both outcomes. *)

Inductive res (A : Type) : Type :=
| Ret (a : A)
| Throw (what : string).
Arguments Throw {A} what.

Section Monad.
Variable S : Type.

Definition M (A : Type) : Type := S -> res A * S.

Definition ret {A} (a : A) : M A := fun s => (Ret a, s).

Definition throw {A} (what : string) : M A := fun s => (Throw what, s).

Definition bind {A B} (m : M A) (k : A -> M B) : M B :=
  fun s => match m s with
           | (Ret a, s') => k a s'
           | (Throw w, s') => (Throw w, s')
           end.

Definition get : M S := fun s => (Ret s, s).

(** A range-[for] over a container that the body does not modify. *)
Fixpoint for_each {A} (l : list A) (body : A -> M unit) : M unit :=
  match l with
  | [] => ret tt
  | x :: l' => bind (body x) (fun _ => for_each l' body)
  end.
End Monad.

Arguments ret {S A} a.
Arguments throw {S A} what.
Arguments get {S}.

Declare Scope gdwg_scope.
Delimit Scope gdwg_scope with gdwg.
Notation "x <- m ;; k" := (bind m (fun x => k))
  (at level 61, m at next level, right associativity) : gdwg_scope.
Notation "m ;;; k" := (bind m (fun _ => k))
  (at level 61, right associativity) : gdwg_scope.
Notation "x <~ m ;; k" := (match m with Some x => k | None => None end)
  (at level 61, m at next level, right associativity) : gdwg_scope.
Open Scope gdwg_scope.

(** ** The [what()] strings of the [std::runtime_error]s, verbatim. *)

Definition insert_edge_what : string :=
  "Cannot call gdwg::graph<N, E>::insert_edge when either src or dst node does not exist".

Definition replace_node_what : string :=
  "Cannot call gdwg::graph<N, E>::replace_node on a node that doesn't exist".

Definition merge_replace_node_what : string :=
  "Cannot call gdwg::graph<N, E>::merge_replace_node on old or new data if they don't exist in the graph".

Definition erase_edge_what : string :=
  "Cannot call gdwg::graph<N, E>::erase_edge on src or dst if they don't exist in the graph".

Definition is_connected_what : string :=
  "Cannot call gdwg::graph<N, E>::is_connected if src or dst node don't exist in the graph".

Definition edges_what : string :=
  "Cannot call gdwg::graph<N, E>::edges if src or dst node don't exist in the graph".

Definition connections_what : string :=
  "Cannot call gdwg::graph<N, E>::connections if src doesn't exist in the graph".

Section Gdwg.
Context {N E : Type} `{OrdN : Ord N} `{OrdE : Ord E}.

(** ** class edge, unweighted_edge, weighted_edge

    The base class stores [src_], [dst_] and [weight_]; the unweighted
    subclass fills [weight_] with [E{1}] but no member ever reads it
    ([get_weight] answers [std::nullopt], [operator==] compares weights only
    when both sides are weighted), so the variant carries no weight here. *)

Inductive edge : Type :=
| unweighted_edge (src_ dst_ : N)
| weighted_edge (src_ dst_ : N) (weight_ : E).

Definition get_nodes (e : edge) : N * N :=
  match e with
  | unweighted_edge s d => (s, d)
  | weighted_edge s d _ => (s, d)
  end.

Definition is_weighted (e : edge) : bool :=
  match e with
  | unweighted_edge _ _ => false
  | weighted_edge _ _ _ => true
  end.

Definition get_weight (e : edge) : option E :=
  match e with
  | unweighted_edge _ _ => None
  | weighted_edge _ _ w => Some w
  end.

(** [std::optional<E>] comparisons: [nullopt] equals only [nullopt] and is
    less than every value. *)
Definition optional_eq (a b : option E) : bool :=
  match a, b with
  | None, None => true
  | Some x, Some y => equal x y
  | _, _ => false
  end.

Definition optional_lt (a b : option E) : bool :=
  match a, b with
  | _, None => false
  | None, Some _ => true
  | Some x, Some y => less x y
  end.

(** [edge::operator==]. *)
Definition edge_eq (a b : edge) : bool :=
  if negb (equal (fst (get_nodes a)) (fst (get_nodes b)))
     || negb (equal (snd (get_nodes a)) (snd (get_nodes b)))
  then false
  else if is_weighted a && is_weighted b
       then optional_eq (get_weight a) (get_weight b)
       else negb (is_weighted a) && negb (is_weighted b).

(** ** std::shared_ptr<edge>

    A handle is the address [std::make_shared] returned together with the
    object found there.  The header never calls [change_src] / [change_dst],
    so an edge object is immutable once made and the handle can carry it. *)

Record edge_ptr : Type := mk_ptr { address : addr; pointee : edge }.

(** [a == b] on shared pointers compares the stored addresses. *)
Definition ptr_eq (a b : edge_ptr) : bool := Nat.eqb (address a) (address b).

(** struct EdgePtrComparator. *)
Definition EdgePtrComparator (a b : edge_ptr) : bool :=
  (* 0. Check if they are the same *)
  if ptr_eq a b then false
  (* 1. Order by src *)
  else if negb (equal (fst (get_nodes (pointee a))) (fst (get_nodes (pointee b))))
  then less (fst (get_nodes (pointee a))) (fst (get_nodes (pointee b)))
  (* 2. Order by dst *)
  else if negb (equal (snd (get_nodes (pointee a))) (snd (get_nodes (pointee b))))
  then less (snd (get_nodes (pointee a))) (snd (get_nodes (pointee b)))
  (* 3. Order by unweighted first *)
  else if negb (Bool.eqb (is_weighted (pointee a)) (is_weighted (pointee b)))
  then negb (is_weighted (pointee a))
  else
    (* 5. Order by memory address *)
    let by_address := Nat.ltb (address a) (address b) in
    (* 4. Order by weight *)
    if is_weighted (pointee a) && is_weighted (pointee b)
    then if negb (optional_eq (get_weight (pointee a)) (get_weight (pointee b)))
         then optional_lt (get_weight (pointee a)) (get_weight (pointee b))
         else by_address
    else by_address.

(** ** std::set<edge_ptr, EdgePtrComparator>

    An ordered set is the list of its elements in iteration order. *)

Definition edge_ptr_set : Type := list edge_ptr.
Definition edge_ptr_set_pair : Type := (edge_ptr_set * edge_ptr_set)%type.

(** [s.insert(x)]: the new set and the [.second] of the returned pair
    (false when an equivalent element is already there). *)
Fixpoint set_insert (x : edge_ptr) (s : edge_ptr_set) : edge_ptr_set * bool :=
  match s with
  | [] => ([x], true)
  | y :: s' =>
      if EdgePtrComparator x y then (x :: s, true)
      else if EdgePtrComparator y x
           then let (r, b) := set_insert x s' in (y :: r, b)
           else (s, false)
  end.

(** [std::find_if(s.begin(), s.end(), p)]: the position of the first
    element satisfying [p]; [length s] stands for [s.end()]. *)
Fixpoint find_if (p : edge_ptr -> bool) (s : edge_ptr_set) : nat :=
  match s with
  | [] => 0
  | y :: s' => if p y then 0 else S (find_if p s')
  end.

(** [s.erase(it)] for an iterator at position [i]. *)
Fixpoint set_erase_at (i : nat) (s : edge_ptr_set) : edge_ptr_set :=
  match s, i with
  | [], _ => []
  | _ :: s', 0 => s'
  | y :: s', S i' => y :: set_erase_at i' s'
  end.

(** [std::erase_if(s, p)]. *)
Definition erase_if (p : edge_ptr -> bool) (s : edge_ptr_set) : edge_ptr_set :=
  filter (fun e => negb (p e)) s.

(** ** std::map<N, edge_ptr_set_pair>

    The map is the list of its (key, value) pairs in iteration order; key
    equivalence is the one [std::less<N>] induces. *)

Definition store : Type := list (N * edge_ptr_set_pair).

(** [m.find(k)]: the mapped value, [None] for [m.end()]. *)
Fixpoint map_find (k : N) (m : store) : option edge_ptr_set_pair :=
  match m with
  | [] => None
  | (k', v) :: m' =>
      if less k' k then map_find k m'
      else if less k k' then None
      else Some v
  end.

(** The position [m.find(k)] denotes; [length m] stands for [m.end()]. *)
Fixpoint map_find_pos (k : N) (m : store) : nat :=
  match m with
  | [] => 0
  | (k', v) :: m' =>
      if less k' k then S (map_find_pos k m')
      else if less k k' then List.length m
      else 0
  end.

(** [m[k] = v]. *)
Fixpoint map_assign (k : N) (v : edge_ptr_set_pair) (m : store) : store :=
  match m with
  | [] => [(k, v)]
  | (k', v') :: m' =>
      if less k' k then (k', v') :: map_assign k v m'
      else if less k k' then (k, v) :: m
      else (k', v) :: m'
  end.

(** Reading [m[k]] at a key the caller has checked with [is_node]; at an
    absent key [operator[]] would default-construct the empty pair. *)
Definition subscript (m : store) (k : N) : edge_ptr_set_pair :=
  match map_find k m with
  | Some v => v
  | None => ([], [])
  end.

(** Updating through the reference [m[k]]. *)
Definition map_update (k : N) (f : edge_ptr_set_pair -> edge_ptr_set_pair)
           (m : store) : store :=
  map_assign k (f (subscript m k)) m.

(** [m.erase(k)]. *)
Fixpoint map_erase (k : N) (m : store) : store :=
  match m with
  | [] => []
  | (k', v) :: m' =>
      if less k' k then (k', v) :: map_erase k m'
      else if less k k' then m
      else m'
  end.

(** ** class graph

    The object is its one data member [g_]; [brk] is the allocator's next
    unused address, from which [std::make_shared] serves the edge objects
    that stay alive.  Temporaries that die before the member returns take
    the address [brk] and give it back. *)

Record world : Type := mk_world { g_ : store; brk : addr }.

Definition update_g (f : store -> store) : M world unit :=
  fun w => (Ret tt, {| g_ := f (g_ w); brk := brk w |}).

Definition allocated : M world unit :=
  fun w => (Ret tt, {| g_ := g_ w; brk := S (brk w) |}).

(** [graph()], the default constructor. *)
Definition graph_default : world := {| g_ := []; brk := 0 |}.

(** [is_node]: [g_.find(value) != g_.end()]. *)
Definition is_node (g : store) (value : N) : bool :=
  match map_find value g with
  | Some _ => true
  | None => false
  end.

(** [empty]. *)
Definition empty (g : store) : bool :=
  match g with
  | [] => true
  | _ :: _ => false
  end.

(** [nodes]. *)
Definition nodes (g : store) : list N := map fst g.

Definition insert_node (value : N) : M world bool :=
  w <- get ;;
  if is_node (g_ w) value then ret false
  else update_g (map_assign value ([], [])) ;;; ret true.

(** [make_shared] of the right subclass, at address [a]. *)
Definition create_edge_ptr (a : addr) (src dst : N) (weight : option E) : edge_ptr :=
  match weight with
  | None => mk_ptr a (unweighted_edge src dst)
  | Some w => mk_ptr a (weighted_edge src dst w)
  end.

(** The lambda [edge_content_equal]: [*e == *p]. *)
Definition edge_content_equal (p e : edge_ptr) : bool :=
  edge_eq (pointee e) (pointee p).

Definition existed_edge (edges_ptr : edge_ptr_set) (new_edge_ptr : edge_ptr) : bool :=
  let it := find_if (edge_content_equal new_edge_ptr) edges_ptr in
  if Nat.eqb it (List.length edges_ptr) then false else true.

Definition insert_edge (src dst : N) (weight : option E) : M world bool :=
  w <- get ;;
  (* Check src and dst existence first *)
  if negb (is_node (g_ w) src) || negb (is_node (g_ w) dst)
  then throw insert_edge_what
  else
    let new_edge_ptr := create_edge_ptr (brk w) src dst weight in
    if existed_edge (fst (subscript (g_ w) src)) new_edge_ptr
       || existed_edge (snd (subscript (g_ w) dst)) new_edge_ptr
    then ret false
    else
      allocated ;;;
      let (out', linked_out) := set_insert new_edge_ptr (fst (subscript (g_ w) src)) in
      update_g (map_update src (fun p => (out', snd p))) ;;;
      if linked_out then
        w' <- get ;;
        let (in', linked_in) := set_insert new_edge_ptr (snd (subscript (g_ w') dst)) in
        update_g (map_update dst (fun p => (fst p, in'))) ;;;
        ret linked_in
      else ret false.

(** The lambda [insert_new_edge] of [move_node_data]; the result of
    [insert_edge] is discarded. *)
Definition insert_new_edge (e : edge_ptr) (src dst : N) : M world unit :=
  (if is_weighted (pointee e)
   then insert_edge src dst (get_weight (pointee e))
   else insert_edge src dst None) ;;; ret tt.

(** Each loop ranges over a set of [old_node]'s record while [insert_edge]
    inserts into sets of [new_node]'s record and of the other endpoint's
    opposite set, so the set under iteration is the one read when the loop
    starts (the second loop sees what the first one added to the incoming
    set of [old_node]). *)
Definition move_node_data (old_node new_node : N) : M world unit :=
  (* Handle outgoing edges *)
  w <- get ;;
  for_each (fst (subscript (g_ w) old_node))
           (fun e => insert_new_edge e new_node (snd (get_nodes (pointee e)))) ;;;
  (* Handle incoming edges *)
  w' <- get ;;
  for_each (snd (subscript (g_ w') old_node))
           (fun e => insert_new_edge e (fst (get_nodes (pointee e))) new_node) ;;;
  update_g (map_erase old_node).

Definition replace_node (old_data new_data : N) : M world bool :=
  w <- get ;;
  if negb (is_node (g_ w) old_data)
  then throw replace_node_what
  else if is_node (g_ w) new_data then ret false
  else
    insert_node new_data ;;;
    move_node_data old_data new_data ;;;
    ret true.

Definition merge_replace_node (old_data new_data : N) : M world unit :=
  w <- get ;;
  if negb (is_node (g_ w) old_data) || negb (is_node (g_ w) new_data)
  then throw merge_replace_node_what
  else if equal old_data new_data then ret tt
  else move_node_data old_data new_data.

(** The body of the loop of [erase_node] over the entries [node, edge_sets]
    of [g_]. *)
Definition erase_incident (value : N) (entry : N * edge_ptr_set_pair)
  : N * edge_ptr_set_pair :=
  let (node, edge_sets) := entry in
  if negb (equal node value)
  then (node,
        (erase_if (fun e => equal (snd (get_nodes (pointee e))) value) (fst edge_sets),
         erase_if (fun e => equal (fst (get_nodes (pointee e))) value) (snd edge_sets)))
  else entry.

Definition erase_node (value : N) : M world bool :=
  w <- get ;;
  if negb (is_node (g_ w) value) then ret false
  else
    (* 1. Erase all incoming and outgoing edges of the node *)
    update_g (map_update value (fun p => ([], snd p))) ;;;
    update_g (map_update value (fun p => (fst p, []))) ;;;
    (* 2. Go through all other nodes *)
    update_g (map (erase_incident value)) ;;;
    (* 3. Finally, erase the node itself *)
    update_g (map_erase value) ;;;
    ret true.

Definition erase_edge (src dst : N) (weight : option E) : M world bool :=
  w <- get ;;
  if negb (is_node (g_ w) src) || negb (is_node (g_ w) dst)
  then throw erase_edge_what
  else
    let temp_edge_ptr := create_edge_ptr (brk w) src dst weight in
    let outgoing_edges := fst (subscript (g_ w) src) in
    let it := find_if (edge_content_equal temp_edge_ptr) outgoing_edges in
    if negb (Nat.eqb it (List.length outgoing_edges)) then
      update_g (map_update src (fun p => (set_erase_at it (fst p), snd p))) ;;;
      w' <- get ;;
      let incoming_edges := snd (subscript (g_ w') dst) in
      let in_it := find_if (edge_content_equal temp_edge_ptr) incoming_edges in
      if negb (Nat.eqb in_it (List.length incoming_edges)) then
        update_g (map_update dst (fun p => (fst p, set_erase_at in_it (snd p)))) ;;;
        ret true
      else ret false
    else ret false.

Definition clear : M world unit := update_g (fun _ => []).

(** ** const queries: they read [g_] and either return or throw. *)

Definition is_connected (g : store) (src dst : N) : res bool :=
  if negb (is_node g src) || negb (is_node g dst)
  then Throw is_connected_what
  else Ret (existsb (fun e => equal (snd (get_nodes (pointee e))) dst)
                    (fst (subscript g src))).

(** The copy [edges] pushes for one stored edge: a fresh object of the same
    subclass built from [get_nodes] and [get_weight]. *)
Definition copy_edge (e : edge) : edge :=
  match e with
  | weighted_edge _ _ w => weighted_edge (fst (get_nodes e)) (snd (get_nodes e)) w
  | unweighted_edge _ _ => unweighted_edge (fst (get_nodes e)) (snd (get_nodes e))
  end.

Definition edges (g : store) (src dst : N) : res (list edge) :=
  if negb (is_node g src) || negb (is_node g dst)
  then Throw edges_what
  else Ret (map (fun e => copy_edge (pointee e))
                (filter (fun e => equal (snd (get_nodes (pointee e))) dst)
                        (fst (subscript g src)))).

(** [std::set<N>::insert], for [connections]. *)
Fixpoint node_set_insert (x : N) (s : list N) : list N :=
  match s with
  | [] => [x]
  | y :: s' =>
      if less x y then x :: s
      else if less y x then y :: node_set_insert x s'
      else s
  end.

Definition connections (g : store) (src : N) : res (list N) :=
  if negb (is_node g src)
  then Throw connections_what
  else Ret (fold_left (fun unique_dests e =>
                         node_set_insert (snd (get_nodes (pointee e))) unique_dests)
                      (fst (subscript g src)) []).

(** ** class graph<N, E>::iterator

    A [const graph*] is the address of a graph object together with the
    [g_] found there; [None] is [nullptr].  A map or set iterator is the
    position it denotes in its container, the container's length standing
    for [end()]; [None] is a value-initialised (singular) iterator.  Every
    mutation invalidates all iterators, so an iterator is only ever used
    against the [g_] it was made from.  [None] as a result is undefined
    behaviour: a null or singular dereference, or a step past the end. *)

Record graph_ptr : Type := mk_graph_ptr { graph_at : addr; graph_obj : store }.

Record iterator : Type := mk_iterator {
  current_node_ : option nat;
  current_edge_ : option nat;
  graph_ptr_ : option graph_ptr
}.

Record value_type : Type := mk_value { from : N; to : N; weight : option E }.

(** [iterator()]: value-initialises all members. *)
Definition iterator_default : iterator :=
  {| current_node_ := None; current_edge_ := None; graph_ptr_ := None |}.

(** [iterator::end(g)]: [iterator(g->g_.end(), edge_iterator(), g)]. *)
Definition iterator_end (g : graph_ptr) : iterator :=
  {| current_node_ := Some (List.length (graph_obj g));
     current_edge_ := None;
     graph_ptr_ := Some g |}.

(** The node loops of [begin] and [operator++]: starting at position [pos],
    whose entries onward are [m], step over the nodes whose outgoing set is
    empty; the result is the position reached, [pos + length m] at the end
    of the map. *)
Fixpoint skip_empty (m : store) (pos : nat) : nat :=
  match m with
  | [] => pos
  | (_, ([], _)) :: m' => skip_empty m' (S pos)
  | (_, (_ :: _, _)) :: _ => pos
  end.

(** [iterator::begin(g)]. *)
Definition iterator_begin (g : graph_ptr) : iterator :=
  if empty (graph_obj g) then iterator_end g
  else
    let node_it := skip_empty (graph_obj g) 0 in
    if Nat.eqb node_it (List.length (graph_obj g)) then iterator_end g
    else {| current_node_ := Some node_it;
            current_edge_ := Some 0;
            graph_ptr_ := Some g |}.

(** The [value_type] the dereference operator builds from the edge a set
    iterator points at. *)
Definition value_at (e : edge_ptr) : value_type :=
  {| from := fst (get_nodes (pointee e));
     to := snd (get_nodes (pointee e));
     weight := if is_weighted (pointee e) then get_weight (pointee e) else None |}.

(** The dereference operator. *)
Definition deref (it : iterator) : option value_type :=
  g <~ graph_ptr_ it ;;
  i <~ current_node_ it ;;
  j <~ current_edge_ it ;;
  entry <~ nth_error (graph_obj g) i ;;
  e <~ nth_error (fst (snd entry)) j ;;
  Some (value_at e).

(** [operator++]. *)
Definition incr (it : iterator) : option iterator :=
  g <~ graph_ptr_ it ;;
  i <~ current_node_ it ;;
  j <~ current_edge_ it ;;
  entry <~ nth_error (graph_obj g) i ;;
  _ <~ nth_error (fst (snd entry)) j ;;
  (* ++current_edge_ *)
  if Nat.eqb (S j) (List.length (fst (snd entry))) then
    let node_it := skip_empty (skipn (S i) (graph_obj g)) (S i) in
    if Nat.eqb node_it (List.length (graph_obj g)) then Some (iterator_end g)
    else Some {| current_node_ := Some node_it;
                 current_edge_ := Some 0;
                 graph_ptr_ := Some g |}
  else Some {| current_node_ := Some i;
               current_edge_ := Some (S j);
               graph_ptr_ := Some g |}.

(** Pointer comparison [graph_ptr_ != other.graph_ptr_]. *)
Definition graph_ptr_eq (a b : option graph_ptr) : bool :=
  match a, b with
  | None, None => true
  | Some x, Some y => Nat.eqb (graph_at x) (graph_at y)
  | _, _ => false
  end.

(** [==] on the map's value_type [pair<const N, edge_ptr_set_pair>]: keys
    by [operator==] of [N], sets element-wise by shared-pointer equality. *)
Fixpoint set_eq (a b : edge_ptr_set) : bool :=
  match a, b with
  | [], [] => true
  | x :: a', y :: b' => ptr_eq x y && set_eq a' b'
  | _, _ => false
  end.

Definition entry_eq (a b : N * edge_ptr_set_pair) : bool :=
  equal (fst a) (fst b)
  && set_eq (fst (snd a)) (fst (snd b))
  && set_eq (snd (snd a)) (snd (snd b)).

(** [iterator::operator==]. *)
Definition iterator_eq (a b : iterator) : option bool :=
  if negb (graph_ptr_eq (graph_ptr_ a) (graph_ptr_ b)) then Some false
  else
    (* graph_ptr_->g_ and other.graph_ptr_->g_ *)
    ga <~ graph_ptr_ a ;;
    gb <~ graph_ptr_ b ;;
    na <~ current_node_ a ;;
    nb <~ current_node_ b ;;
    let a_end := Nat.eqb na (List.length (graph_obj ga)) in
    let b_end := Nat.eqb nb (List.length (graph_obj gb)) in
    (* Check if both current_node_ iterators are at end *)
    if a_end && b_end then Some true
    (* If only one is at end, they're not equal *)
    else if a_end || b_end then Some false
    else
      (* Compare dereferenced current_node_ *)
      ea <~ nth_error (graph_obj ga) na ;;
      eb <~ nth_error (graph_obj gb) nb ;;
      if negb (entry_eq ea eb) then Some false
      else
        ja <~ current_edge_ a ;;
        jb <~ current_edge_ b ;;
        let a_last := Nat.eqb ja (List.length (fst (snd ea))) in
        let b_last := Nat.eqb jb (List.length (fst (snd eb))) in
        if a_last && b_last then Some true
        else if a_last || b_last then Some false
        else
          (* Compare dereferenced current_edge_ *)
          x <~ nth_error (fst (snd ea)) ja ;;
          y <~ nth_error (fst (snd eb)) jb ;;
          Some (edge_eq (pointee x) (pointee y)).

(** [graph::begin], [graph::end] and [graph::find] on the object at
    address [this]. *)
Definition begin_ (this : addr) (w : world) : iterator :=
  iterator_begin (mk_graph_ptr this (g_ w)).

Definition end_ (this : addr) (w : world) : iterator :=
  iterator_end (mk_graph_ptr this (g_ w)).

Definition find (this : addr) (w : world) (src dst : N) (weight : option E) : iterator :=
  if negb (is_node (g_ w) src) || negb (is_node (g_ w) dst) then end_ this w
  else
    let edges_ptr_set := fst (subscript (g_ w) src) in
    let find_edge_ptr := create_edge_ptr (brk w) src dst weight in
    let it := find_if (edge_content_equal find_edge_ptr) edges_ptr_set in
    if Nat.eqb it (List.length edges_ptr_set) then end_ this w
    else {| current_node_ := Some (map_find_pos src (g_ w));
            current_edge_ := Some it;
            graph_ptr_ := Some (mk_graph_ptr this (g_ w)) |}.

(** The loop [for (auto it = first; it != last; ++it) body]; the fuel
    bounds the number of steps. *)
Fixpoint traverse (fuel : nat) (it last : iterator) : option (list value_type) :=
  match fuel with
  | 0 => None
  | S fuel' =>
      stop <~ iterator_eq it last ;;
      if stop then Some []
      else
        v <~ deref it ;;
        it' <~ incr it ;;
        rest <~ traverse fuel' it' last ;;
        Some (v :: rest)
  end.

(** An iterator that survives [erase_edge(src, dst, weight)] still points
    at the same set element: its position is looked up again, by handle, in
    the updated [g'].  [erase_edge] keeps the node map as it is. *)
Definition revalidate (g' : store) (it : iterator) : option iterator :=
  g <~ graph_ptr_ it ;;
  i <~ current_node_ it ;;
  let this' := mk_graph_ptr (graph_at g) g' in
  if Nat.eqb i (List.length (graph_obj g)) then Some (iterator_end this')
  else
    j <~ current_edge_ it ;;
    entry <~ nth_error (graph_obj g) i ;;
    h <~ nth_error (fst (snd entry)) j ;;
    entry' <~ nth_error g' i ;;
    let j' := find_if (ptr_eq h) (fst (snd entry')) in
    Some {| current_node_ := Some i;
            current_edge_ := if Nat.eqb j' (List.length (fst (snd entry')))
                             then None else Some j';
            graph_ptr_ := Some this' |}.

(** [erase_edge(iterator i)]. *)
Definition erase_edge_at (this : addr) (i : iterator)
  : world -> option (res iterator * world) :=
  fun w =>
    at_end <~ iterator_eq i (end_ this w) ;;
    if at_end then Some (Ret (end_ this w), w)
    else
      (* Copy the edge where the iterator points to *)
      v <~ deref i ;;
      (* Get the iterator to the element after i *)
      next <~ incr i ;;
      (* Erase the edge *)
      match erase_edge (from v) (to v) (weight v) w with
      | (Ret true, w') => r <~ revalidate (g_ w') next ;; Some (Ret r, w')
      | (Ret false, w') => r <~ revalidate (g_ w') i ;; Some (Ret r, w')
      | (Throw what, w') => Some (Throw what, w')
      end.

(** Every handle of every outgoing set, in map order and set order, as the
    dereference operator would show it. *)
Definition stored_values (g : store) : list value_type :=
  flat_map (fun entry : N * edge_ptr_set_pair => map value_at (fst (snd entry))) g.

(** ** Sequences of public operations *)

Inductive op : Type :=
| op_insert_node (value : N)
| op_insert_edge (src dst : N) (weight : option E)
| op_replace_node (old_data new_data : N)
| op_merge_replace_node (old_data new_data : N)
| op_erase_node (value : N)
| op_erase_edge (src dst : N) (weight : option E)
| op_clear.

(** The state a call leaves behind, whether it returns or throws. *)
Definition step (o : op) (w : world) : world :=
  match o with
  | op_insert_node v => snd (insert_node v w)
  | op_insert_edge s d x => snd (insert_edge s d x w)
  | op_replace_node o n => snd (replace_node o n w)
  | op_merge_replace_node o n => snd (merge_replace_node o n w)
  | op_erase_node v => snd (erase_node v w)
  | op_erase_edge s d x => snd (erase_edge s d x w)
  | op_clear => snd (clear w)
  end.

Definition run (ops : list op) (w : world) : world :=
  fold_left (fun w' o => step o w') ops w.

(** A graph state a client can obtain: some sequence of public operations
    applied to a default-constructed graph. *)
Definition reachable (w : world) : Prop :=
  exists ops, run ops graph_default = w.

(** ** The store invariant *)

Definition has_ptr (e : edge_ptr) (s : edge_ptr_set) : bool :=
  existsb (ptr_eq e) s.

(** A stored handle has both endpoints in the node map, sits in its
    source's outgoing set and in its destination's incoming set. *)
Definition linked (g : store) (e : edge_ptr) : bool :=
  is_node g (fst (get_nodes (pointee e)))
  && is_node g (snd (get_nodes (pointee e)))
  && has_ptr e (fst (subscript g (fst (get_nodes (pointee e)))))
  && has_ptr e (snd (subscript g (snd (get_nodes (pointee e))))).

(** Every node value has exactly one record. *)
Fixpoint one_record_each (g : store) : bool :=
  match g with
  | [] => true
  | (k, _) :: g' => negb (existsb (fun entry => equal k (fst entry)) g')
                    && one_record_each g'
  end.

Definition store_invariant (g : store) : bool :=
  one_record_each g
  && forallb (fun entry : N * edge_ptr_set_pair =>
                forallb (linked g) (fst (snd entry))
                && forallb (linked g) (snd (snd entry))) g.

(** ** The canonical edge order, as the specification words it:
    source, then destination, then unweighted before weighted, then
    ascending weight. *)
Definition edge_less (a b : edge) : bool :=
  if less (fst (get_nodes a)) (fst (get_nodes b)) then true
  else if less (fst (get_nodes b)) (fst (get_nodes a)) then false
  else if less (snd (get_nodes a)) (snd (get_nodes b)) then true
  else if less (snd (get_nodes b)) (snd (get_nodes a)) then false
  else match get_weight a, get_weight b with
       | None, Some _ => true
       | Some x, Some y => less x y
       | _, _ => false
       end.

(** ** The traversal, as the specification words it: the concatenation of
    the [edges(s, d)] answers.  A throwing query makes the whole
    enumeration throw. *)

Definition value_of (e : edge) : value_type :=
  {| from := fst (get_nodes e); to := snd (get_nodes e); weight := get_weight e |}.

Fixpoint concat_res {A} (l : list (res (list A))) : res (list A) :=
  match l with
  | [] => Ret []
  | Throw what :: _ => Throw what
  | Ret x :: l' => match concat_res l' with
                   | Ret r => Ret (x ++ r)
                   | Throw what => Throw what
                   end
  end.

(** Pairs taken as: [s] over [nodes()], [d] over [connections(s)], the
    destinations [s] has at least one edge to. *)
Definition edges_by_connections (g : store) : res (list value_type) :=
  concat_res
    (map (fun s =>
            match connections g s with
            | Throw what => Throw what
            | Ret ds =>
                concat_res
                  (map (fun d => match edges g s d with
                                 | Ret es => Ret (map value_of es)
                                 | Throw what => Throw what
                                 end) ds)
            end) (nodes g)).

(** Pairs taken as: [s] and [d] both over [nodes()]; a pair without edges
    contributes the empty answer. *)
Definition edges_by_nodes (g : store) : res (list value_type) :=
  concat_res
    (map (fun s =>
            concat_res
              (map (fun d => match edges g s d with
                             | Ret es => Ret (map value_of es)
                             | Throw what => Throw what
                             end) (nodes g)))
         (nodes g)).

(** The destination of a stored edge, the test [edges] filters with, and
    an outgoing set whose destinations never decrease. *)
Definition dst_of (e : edge_ptr) : N := snd (get_nodes (pointee e)).

Definition to_dst (d : N) (e : edge_ptr) : bool := equal (dst_of e) d.

Definition dst_ordered (out : edge_ptr_set) : Prop :=
  StronglySorted (fun a b => less (dst_of b) (dst_of a) = false) out.

(** ** Well-formed stores

    What the traversal needs of a store: the map keys are strictly
    increasing, the destinations along every outgoing set never decrease
    (as in a set ordered by the comparator whose edges share their source),
    and every destination is a present node. *)
Definition well_formed (g : store) : Prop :=
  StronglySorted (fun a b => less a b = true) (nodes g)
  /\ forall entry, In entry g ->
       dst_ordered (fst (snd entry))
       /\ forall e, In e (fst (snd entry)) -> is_node g (dst_of e) = true.

(** No two handles of a set point at structurally equal edges; and the same
    for every outgoing set of a store. *)
Fixpoint distinct_contents (s : edge_ptr_set) : bool :=
  match s with
  | [] => true
  | x :: s' => negb (existsb (edge_content_equal x) s') && distinct_contents s'
  end.

Definition outgoing_distinct (g : store) : Prop :=
  forall entry, In entry g -> distinct_contents (fst (snd entry)) = true.

(** A member keeps the outgoing sets content-distinct, on whichever outcome
    it ends. *)
Definition keeps_distinct {A : Type} (m : M world A) : Prop :=
  forall w r w', m w = (r, w') ->
                 outgoing_distinct (g_ w) -> outgoing_distinct (g_ w').

(** ** Consistent states

    The state a graph is in as long as every edge is mirrored: the keys are
    strictly increasing; an edge in the outgoing set of [k] has source [k],
    a present destination, sits in the incoming set of that destination and
    was allocated below [brk]; symmetrically for the incoming sets; no set
    holds two structurally equal edges; destinations never decrease along an
    outgoing set. *)
Definition src_of (e : edge_ptr) : N := fst (get_nodes (pointee e)).

Definition consistent (w : world) : Prop :=
  StronglySorted (fun a b => less a b = true) (nodes (g_ w))
  /\ forall k, is_node (g_ w) k = true ->
       (forall e, In e (fst (subscript (g_ w) k)) ->
                  src_of e = k /\ is_node (g_ w) (dst_of e) = true
                  /\ In e (snd (subscript (g_ w) (dst_of e)))
                  /\ address e < brk w)
       /\ (forall e, In e (snd (subscript (g_ w) k)) ->
                     dst_of e = k /\ is_node (g_ w) (src_of e) = true
                     /\ In e (fst (subscript (g_ w) (src_of e)))
                     /\ address e < brk w)
       /\ distinct_contents (fst (subscript (g_ w) k)) = true
       /\ distinct_contents (snd (subscript (g_ w) k)) = true
       /\ dst_ordered (fst (subscript (g_ w) k)).

(** The two operations that rewrite a node. *)
Definition rewrites_node (o : op) : bool :=
  match o with
  | op_replace_node _ _ | op_merge_replace_node _ _ => true
  | _ => false
  end.

End Gdwg.

(** ** Instantiations used by the scenarios: [graph<int, int>] and
    [graph<std::string, int>], as in the test suite. *)

#[export, refine] Instance Ord_string : Ord string :=
  {| equal := String.eqb; less := String.ltb |}.
Proof.
  - intros x y. apply String.eqb_spec.
  - intros x. unfold String.ltb.
    replace (String.compare x x) with Eq; [reflexivity|].
    induction x as [|a x IH]; simpl; [reflexivity|].
    unfold Ascii.compare. rewrite N.compare_refl. exact IH.
  - assert (lt_cmp : forall x y z, String.compare x y = Lt -> String.compare y z = Lt ->
                                   String.compare x z = Lt).
    { induction x as [|a x IH]; intros [|b y] [|c z]; simpl; try congruence.
      unfold Ascii.compare.
      destruct (N.compare_spec (N_of_ascii a) (N_of_ascii b)) as [Hab|Hab|Hab];
        destruct (N.compare_spec (N_of_ascii b) (N_of_ascii c)) as [Hbc|Hbc|Hbc];
        try congruence; intros H1 H2.
      - rewrite Hab, Hbc, N.compare_refl. eauto.
      - rewrite Hab. apply N.compare_lt_iff in Hbc. rewrite Hbc. reflexivity.
      - rewrite <- Hbc. apply N.compare_lt_iff in Hab. rewrite Hab. reflexivity.
      - assert (H : (N_of_ascii a < N_of_ascii c)%N) by lia.
        apply N.compare_lt_iff in H. rewrite H. reflexivity. }
    intros x y z. unfold String.ltb.
    destruct (String.compare x y) eqn:Hxy; try discriminate.
    destruct (String.compare y z) eqn:Hyz; try discriminate.
    rewrite (lt_cmp _ _ _ Hxy Hyz). reflexivity.
  - intros x y. unfold String.ltb. rewrite (String.compare_antisym y x).
    destruct (String.compare x y) eqn:Hxy; simpl; try discriminate.
    intros _ _. apply String.compare_eq_iff. exact Hxy.
Defined.

Definition int_graph : Type := @world Z Z.
Definition string_graph : Type := @world string Z.

(** The address of the graph object the scenarios work on. *)
Definition here : addr := 0.

(** Nodes 1 and 2 with the single unweighted edge 2 -> 1. *)
Definition edge_into_1 : int_graph :=
  run [op_insert_node 1%Z; op_insert_node 2%Z; op_insert_edge 2%Z 1%Z None]
      graph_default.

(** The same graph after [replace_node(1, 3)]. *)
Definition edge_into_1_replaced : int_graph :=
  run [op_replace_node 1%Z 3%Z] edge_into_1.

(** Node 1 with the reflexive edge (1, 1, 45). *)
Definition loop_on_1 : int_graph :=
  run [op_insert_node 1%Z; op_insert_edge 1%Z 1%Z (Some 45%Z)] graph_default.

(** Nodes 1 and 2 with the edge 1 -> 2, then [replace_node(1, 3)], then node
    1 inserted again. *)
Definition node_1_reinserted : int_graph :=
  run [op_insert_node 1%Z; op_insert_node 2%Z; op_insert_edge 1%Z 2%Z None;
       op_replace_node 1%Z 3%Z; op_insert_node 1%Z]
      graph_default.

(** The README's merge example: (A, B, 1), (A, C, 2), (A, D, 3). *)
Definition abcd : string_graph :=
  run [op_insert_node "A"%string; op_insert_node "B"%string;
       op_insert_node "C"%string; op_insert_node "D"%string;
       op_insert_edge "A"%string "B"%string (Some 1%Z);
       op_insert_edge "A"%string "C"%string (Some 2%Z);
       op_insert_edge "A"%string "D"%string (Some 3%Z)]
      graph_default.

(** The README's duplicate example: the same with (B, B, 1) as well. *)
Definition abcd_with_loop : string_graph :=
  run [op_insert_edge "B"%string "B"%string (Some 1%Z)] abcd.

(** Two handles to structurally equal edges at different addresses. *)
Definition twin_low : @edge_ptr Z Z := mk_ptr 0 (unweighted_edge 1%Z 2%Z).
Definition twin_high : @edge_ptr Z Z := mk_ptr 1 (unweighted_edge 1%Z 2%Z).


(** Nodes 1 and 2 without edges, and the same after [insert_edge(1, 2, 5)]. *)
Definition two_nodes : int_graph :=
  run [op_insert_node 1%Z; op_insert_node 2%Z] graph_default.

Definition two_nodes_linked : int_graph :=
  run [op_insert_edge 1%Z 2%Z (Some 5%Z)] two_nodes.

(** ** The remaining members of [graph] and of its iterator *)

Section Members.
Context {N E : Type} `{OrdN : Ord N} `{OrdE : Ord E}.

(** [graph(std::initializer_list<N>)] and [graph(InputIt, InputIt)]: both
    run [g_[node] = edge_ptr_set_pair()] over the range, left to right. *)
Definition graph_of_range (range : list N) : @world N E :=
  {| g_ := fold_left (fun g node => map_assign node ([], []) g) range [];
     brk := 0 |}.

(** [graph(graph&&)] and move assignment from another object:
    [g_ = std::exchange(other.g_, {})].  The result is the new [g_] of
    [*this] and what is left in [other]. *)
Definition graph_move (other : @store N E) : @store N E * @store N E :=
  (other, []).

(** [graph(graph const&)] and copy assignment: [std::move] of a member of a
    const object is a const rvalue, so the map is copied; the copy holds
    shared pointers to the same edge objects, at the same addresses. *)
Definition graph_copy (other : @store N E) : @store N E := other.

(** *** [graph::operator==] *)

(** The loop over [vec1] comparing [vec1.at(i)] with [vec2.at(i)]; the two
    vectors have the same size when it runs. *)
Fixpoint nodes_mismatch (vec1 vec2 : list N) : bool :=
  match vec1, vec2 with
  | x :: vec1', y :: vec2' => negb (equal x y) || nodes_mismatch vec1' vec2'
  | _, _ => false
  end.

(** The test on the individual fields of two [value_type]s. *)
Definition value_differs (value1 value2 : @value_type N E) : bool :=
  negb (equal (from value1) (from value2))
  || negb (equal (to value1) (to value2))
  || negb (optional_eq (weight value1) (weight value2)).

(** The [while] loop and the [return] after it.  Both halves of the loop
    condition compare with [end()] of [*this]. *)
Fixpoint graph_eq_loop (fuel : nat) (this_end other_end g_it other_it : @iterator N E)
  : option bool :=
  match fuel with
  | 0 => None
  | S fuel' =>
      g_done <~ iterator_eq g_it this_end ;;
      leave <~ (if g_done then Some true else iterator_eq other_it this_end) ;;
      if leave then
        (* return g_it == end() and other_it == other.end() *)
        if g_done then iterator_eq other_it other_end else Some false
      else
        value1 <~ deref g_it ;;
        value2 <~ deref other_it ;;
        if value_differs value1 value2 then Some false
        else
          g_it' <~ incr g_it ;;
          other_it' <~ incr other_it ;;
          graph_eq_loop fuel' this_end other_end g_it' other_it'
  end.

Definition graph_eq (fuel : nat) (this other : @graph_ptr N E) : option bool :=
  (* Compare the size of the two maps first *)
  if negb (Nat.eqb (List.length (graph_obj this)) (List.length (graph_obj other)))
  then Some false
  else
    let g_it := iterator_begin this in
    let other_it := iterator_begin other in
    (* Check nodes *)
    if nodes_mismatch (nodes (graph_obj this)) (nodes (graph_obj other))
    then Some false
    else
      (* Handle the case when one of the iterators is already at end *)
      g_done <~ iterator_eq g_it (iterator_end this) ;;
      both <~ (if g_done then iterator_eq other_it (iterator_end other) else Some false) ;;
      if both then Some true
      else
        either <~ (if g_done then Some true
                   else iterator_eq other_it (iterator_end other)) ;;
        if either then Some false
        else graph_eq_loop fuel (iterator_end this) (iterator_end other) g_it other_it.

(** *** [iterator::operator--] *)

Definition decrement_empty_what : string :=
  "Cannot decrement end iterator of an empty graph".

Definition decrement_all_empty_what : string :=
  "Cannot decrement: all nodes are empty".

Definition decrement_begin_what : string :=
  "Cannot decrement iterator before beginning".

(** The loop of the end case, entered with [current_node_] at [pos]: step
    back while the outgoing set is empty.  [Some (Some p)] is the position
    of the node it stops at, [Some None] the throw at [g_.begin()]. *)
Fixpoint back_while_empty (g : @store N E) (pos : nat) : option (option nat) :=
  entry <~ nth_error g pos ;;
  match fst (snd entry) with
  | [] => match pos with
          | 0 => Some None
          | S pos' => back_while_empty g pos'
          end
  | _ :: _ => Some (Some pos)
  end.

(** The [do ... while] of the other case, entered with [current_node_] at
    [pos]: step back once, and on while the outgoing set is empty and the
    position is not [g_.begin()]. *)
Fixpoint back_do_while (g : @store N E) (pos : nat) : option nat :=
  match pos with
  | 0 => None
  | S pos' =>
      entry <~ nth_error g pos' ;;
      match fst (snd entry), pos' with
      | [], S _ => back_do_while g pos'
      | _, _ => Some pos'
      end
  end.

(** [std::prev(s.end())]; undefined on an empty set. *)
Definition prev_end (s : @edge_ptr_set N E) : option nat :=
  match s with
  | [] => None
  | _ :: s' => Some (List.length s')
  end.

(** [operator--]: the outcome and the iterator the call leaves behind. *)
Definition decr (it : @iterator N E) : option (res unit * @iterator N E) :=
  g <~ graph_ptr_ it ;;
  (* Check if we're at the end iterator *)
  at_end <~ iterator_eq it (iterator_end g) ;;
  if at_end then
    if empty (graph_obj g) then Some (Throw decrement_empty_what, it)
    else
      (* Move to the last valid edge *)
      stop <~ back_while_empty (graph_obj g) (List.length (graph_obj g) - 1) ;;
      match stop with
      | None =>
          Some (Throw decrement_all_empty_what,
                {| current_node_ := Some 0;
                   current_edge_ := current_edge_ it;
                   graph_ptr_ := Some g |})
      | Some i =>
          entry <~ nth_error (graph_obj g) i ;;
          j <~ prev_end (fst (snd entry)) ;;
          Some (Ret tt, {| current_node_ := Some i;
                           current_edge_ := Some j;
                           graph_ptr_ := Some g |})
      end
  else
    i <~ current_node_ it ;;
    j <~ current_edge_ it ;;
    (* current_node_->second.first.begin() *)
    _ <~ nth_error (graph_obj g) i ;;
    (* Check if we're at the beginning of the graph *)
    if Nat.eqb i 0 && Nat.eqb j 0 then Some (Throw decrement_begin_what, it)
    else if Nat.eqb j 0 then
      (* Move to the previous node *)
      i' <~ back_do_while (graph_obj g) i ;;
      entry <~ nth_error (graph_obj g) i' ;;
      (* Set to the last edge of the non-empty node we found *)
      j' <~ prev_end (fst (snd entry)) ;;
      Some (Ret tt, {| current_node_ := Some i';
                       current_edge_ := Some j';
                       graph_ptr_ := Some g |})
    else
      Some (Ret tt, {| current_node_ := Some i;
                       current_edge_ := Some (j - 1);
                       graph_ptr_ := Some g |}).

(** *** [erase_edge(iterator i, iterator s)]

    The loop erases through [i] while [s] waits at its element of the live
    map, so after each erasure [s] is looked up again there, as [revalidate]
    does for the iterator [erase_edge(i)] returns.  The fuel bounds the
    number of turns. *)
Fixpoint erase_edge_loop (fuel : nat) (this : addr) (i s : @iterator N E)
  : @world N E -> option (res (@iterator N E) * @world N E) :=
  fun w =>
    match fuel with
    | 0 => None
    | S fuel' =>
        (* Loop until see s *)
        same <~ iterator_eq i s ;;
        if same then Some (Ret i, w)
        else
          match erase_edge_at this i w with
          | None => None
          | Some (Throw what, w') => Some (Throw what, w')
          | Some (Ret i', w') =>
              at_end <~ iterator_eq i' (end_ this w') ;;
              if at_end then Some (Ret (end_ this w'), w')
              else
                s' <~ revalidate (g_ w') s ;;
                erase_edge_loop fuel' this i' s' w'
          end
    end.

Definition erase_edge_range (fuel : nat) (this : addr) (i s : @iterator N E)
  : @world N E -> option (res (@iterator N E) * @world N E) :=
  fun w =>
    same <~ iterator_eq i s ;;
    if same then Some (Ret s, w)
    else
      at_end <~ iterator_eq i (end_ this w) ;;
      if at_end then Some (Ret i, w)
      else erase_edge_loop fuel this i s w.

(** ** Iterator positions

    [points_at g it l]: [it] is an iterator into the graph [g] and the
    values from it to the end of the traversal are [l]. *)
Definition points_at (g : @graph_ptr N E) (it : @iterator N E)
           (l : list (@value_type N E)) : Prop :=
  (it = iterator_end g /\ l = [])
  \/ exists i j entry e,
      it = {| current_node_ := Some i; current_edge_ := Some j; graph_ptr_ := Some g |}
      /\ nth_error (graph_obj g) i = Some entry
      /\ nth_error (fst (snd entry)) j = Some e
      /\ l = map value_at (skipn j (fst (snd entry)))
             ++ stored_values (skipn (S i) (graph_obj g)).

(** ** Tidy stores

    What every public operation keeps, the two node-rewriting ones
    included: the keys are strictly increasing, and every outgoing set is
    strictly increasing in the canonical edge order and holds only edges
    whose source is the key of its record. *)
Definition canonical (s : @edge_ptr_set N E) : Prop :=
  StronglySorted (fun a b => edge_less (pointee a) (pointee b) = true) s.

Definition tidy (g : @store N E) : Prop :=
  StronglySorted (fun a b => less a b = true) (nodes g)
  /\ forall entry, In entry g ->
       canonical (fst (snd entry))
       /\ forall e, In e (fst (snd entry)) -> src_of e = fst entry.

(** The outgoing set of [src] holds an edge of the content
    (src, dst, weight): what [find] and [insert_edge] look for. *)
Definition stores_edge (g : @store N E) (src dst : N) (weight : option E) : Prop :=
  exists h, In h (fst (subscript g src))
            /\ pointee h = pointee (create_edge_ptr 0 src dst weight).

(** The order of the traversal, on the values the iterator shows: source,
    then destination, then weight, an absent weight first. *)
Definition value_less (a b : @value_type N E) : bool :=
  if less (from a) (from b) then true
  else if less (from b) (from a) then false
  else if less (to a) (to b) then true
  else if less (to b) (to a) then false
  else optional_lt (weight a) (weight b).

(** The outgoing sets of a store, in node order: what the traversal walks
    through. *)
Definition outgoing_sets (g : @store N E) : list (@edge_ptr_set N E) :=
  map (fun entry : N * @edge_ptr_set_pair N E => fst (snd entry)) g.

(** The handles of an outgoing set have addresses of their own, all served
    by the allocator already. *)
Definition unshared (w : @world N E) : Prop :=
  forall out, In out (outgoing_sets (g_ w)) ->
              NoDup (map address out) /\ forall e, In e out -> address e < brk w.

(** An iterator that is past the position (node [n], edge [j]): at a later
    edge of the same node, at a later node, or at the end. *)
Definition later (n j : nat) (p : @iterator N E) : Prop :=
  match current_node_ p, current_edge_ p with
  | Some n', Some j' => n < n' \/ (n' = n /\ j < j')
  | _, _ => True
  end.

(** A member keeps a property of [g_], on whichever outcome it ends. *)
Definition keeps (P : @store N E -> Prop) {A : Type} (m : M (@world N E) A) : Prop :=
  forall w r w', m w = (r, w') -> P (g_ w) -> P (g_ w').

End Members.

(** ** Formatted output

    [N] and [E] are streamable; [to_string] is what inserting a value into
    a fresh [std::ostringstream] writes (for [std::string] the header
    specialises it to the string itself).  [operator<<] inserts the node
    into [os] directly, which writes the same text on a stream whose
    formatting flags are the default ones. *)

Class Show (A : Type) : Type := { to_string : A -> string }.

#[export] Instance Show_string : Show string := {| to_string := fun value => value |}.

Section Printing.
Context {N E : Type} `{OrdN : Ord N} `{OrdE : Ord E} `{ShowN : Show N} `{ShowE : Show E}.

Definition newline : string := String (ascii_of_nat 10) EmptyString.

(** [unweighted_edge::print_edge] and [weighted_edge::print_edge]. *)
Definition print_edge (e : @edge N E) : string :=
  match e with
  | unweighted_edge src_ dst_ =>
      (to_string src_ ++ " -> " ++ to_string dst_ ++ " | U")%string
  | weighted_edge src_ dst_ weight_ =>
      (to_string src_ ++ " -> " ++ to_string dst_ ++ " | W | " ++ to_string weight_)%string
  end.

(** [operator<<(std::ostream&, graph const&)]: the text written to [os]. *)
Definition print_graph (g : @store N E) : string :=
  String.concat ""
    (map (fun entry : N * @edge_ptr_set_pair N E =>
            (to_string (fst entry) ++ " (" ++ newline
             ++ String.concat ""
                  (map (fun e => ("  " ++ print_edge (pointee e) ++ newline)%string)
                       (fst (snd entry)))
             ++ ")" ++ newline)%string)
         g).

(** The line [operator<<] writes for an edge, from the value the iterator
    shows for it. *)
Definition print_value (v : @value_type N E) : string :=
  print_edge (pointee (create_edge_ptr 0 (from v) (to v) (weight v))).

End Printing.

(** ** Further scenarios *)

(** The operations that build [two_nodes], [two_nodes_linked],
    [edge_into_1] and [abcd]. *)
Definition two_nodes_ops : list (@op Z Z) :=
  [op_insert_node 1%Z; op_insert_node 2%Z].

Definition two_nodes_linked_ops : list (@op Z Z) :=
  [op_insert_node 1%Z; op_insert_node 2%Z; op_insert_edge 1%Z 2%Z (Some 5%Z)].

Definition edge_into_1_ops : list (@op Z Z) :=
  [op_insert_node 1%Z; op_insert_node 2%Z; op_insert_edge 2%Z 1%Z None].

Definition abcd_ops : list (@op string Z) :=
  [op_insert_node "A"%string; op_insert_node "B"%string;
   op_insert_node "C"%string; op_insert_node "D"%string;
   op_insert_edge "A"%string "B"%string (Some 1%Z);
   op_insert_edge "A"%string "C"%string (Some 2%Z);
   op_insert_edge "A"%string "D"%string (Some 3%Z)].

(** Nodes 1 and 2 with three parallel edges, inserted as (1, 2, 7),
    (1, 2) and (1, 2, 3). *)
Definition parallel_edges_ops : list (@op Z Z) :=
  [op_insert_node 1%Z; op_insert_node 2%Z;
   op_insert_edge 1%Z 2%Z (Some 7%Z); op_insert_edge 1%Z 2%Z None;
   op_insert_edge 1%Z 2%Z (Some 3%Z)].

Definition parallel_edges : int_graph := run parallel_edges_ops graph_default.

(** The README's merge example without its last edge. *)
Definition abc : string_graph :=
  run [op_erase_edge "A"%string "D"%string (Some 3%Z)] abcd.

(** The one edge of [two_nodes_linked], as stored and as the iterator
    shows it; the two graph objects the comparisons are made on. *)
Definition edge_1_2_5 : @edge_ptr Z Z := mk_ptr 0 (weighted_edge 1%Z 2%Z 5%Z).

Definition value_1_2_5 : @value_type Z Z := mk_value 1%Z 2%Z (Some 5%Z).

Definition linked_here : @graph_ptr Z Z := mk_graph_ptr 0 (g_ two_nodes_linked).

Definition linked_there : @graph_ptr Z Z := mk_graph_ptr 1 (g_ two_nodes_linked).

(** A [graph<std::string, std::string>]: nodes A and B with the edge
    (A, B, x). *)
Definition text_graph : @world string string :=
  run [op_insert_node "A"%string; op_insert_node "B"%string;
       op_insert_edge "A"%string "B"%string (Some "x"%string)]
      graph_default.

(** * Properties *)

Unset Implicit Arguments.

Section OrdFacts.
Context {A : Type} `{OrdA : Ord A}.

Lemma equal_refl (x : A) : equal x x = true.
Proof. destruct (equal_spec x x); congruence. Qed.

Lemma equal_true (x y : A) : equal x y = true -> x = y.
Proof. destruct (equal_spec x y); congruence. Qed.

Lemma equal_false (x y : A) : equal x y = false -> x <> y.
Proof. destruct (equal_spec x y); congruence. Qed.

Lemma equal_true_less (x y : A) : equal x y = true -> less x y = false.
Proof. intros H. apply equal_true in H. subst. apply less_irrefl. Qed.

Lemma less_asym (x y : A) : less x y = true -> less y x = false.
Proof.
  intros H. destruct (less y x) eqn:H'; [|reflexivity].
  rewrite <- (less_irrefl x). symmetry. exact (less_trans _ _ _ H H').
Qed.

Lemma equal_false_less (x y : A) :
  equal x y = false -> less x y = negb (less y x).
Proof.
  intros H. apply equal_false in H.
  destruct (less x y) eqn:Hxy.
  - rewrite (less_asym _ _ Hxy). reflexivity.
  - destruct (less y x) eqn:Hyx; [reflexivity|].
    exfalso. apply H. apply less_total; assumption.
Qed.
Lemma less_cases (x y : A) :
  (equal x y = true /\ less x y = false /\ less y x = false)
  \/ (equal x y = false /\ less x y = true /\ less y x = false)
  \/ (equal x y = false /\ less x y = false /\ less y x = true).
Proof.
  destruct (equal x y) eqn:H.
  - left. apply equal_true in H. subst. rewrite less_irrefl. auto.
  - right. pose proof (equal_false_less _ _ H) as H'.
    destruct (less y x); simpl in H'; auto.
Qed.
End OrdFacts.

Section EdgeFacts.
Context {N E : Type} `{OrdN : Ord N} `{OrdE : Ord E}.

Lemma edge_eq_refl (e : @edge N E) : edge_eq e e = true.
Proof. destruct e; unfold edge_eq; simpl; rewrite ?equal_refl; reflexivity. Qed.

Lemma edge_eq_true (a b : @edge N E) : edge_eq a b = true -> a = b.
Proof.
  destruct a as [s d|s d x], b as [s' d'|s' d' y]; unfold edge_eq; simpl;
    destruct (equal_spec s s'), (equal_spec d d'); simpl; try discriminate;
    intros H; subst; try reflexivity.
  apply equal_true in H. subst. reflexivity.
Qed.

Lemma edge_eq_sym (a b : @edge N E) : edge_eq a b = edge_eq b a.
Proof.
  destruct (edge_eq a b) eqn:Hab.
  - apply edge_eq_true in Hab. subst. symmetry. apply edge_eq_refl.
  - destruct (edge_eq b a) eqn:Hba; [|reflexivity].
    apply edge_eq_true in Hba. subst. rewrite edge_eq_refl in Hab. discriminate.
Qed.

Lemma create_edge_ptr_content (a a' : addr) (src dst : N) (weight : option E) :
  pointee (create_edge_ptr a src dst weight) = pointee (create_edge_ptr a' src dst weight).
Proof. destruct weight; reflexivity. Qed.

(** What the comparator computes, step by step: nothing for one and the
    same handle, the address order for structurally equal edges, and the
    canonical content order otherwise. *)
Lemma EdgePtrComparator_unfold (a b : @edge_ptr N E) :
  EdgePtrComparator a b =
    if ptr_eq a b then false
    else if edge_eq (pointee a) (pointee b) then Nat.ltb (address a) (address b)
         else edge_less (pointee a) (pointee b).
Proof.
  destruct a as [p [s d|s d x]], b as [q [s' d'|s' d' y]];
    unfold EdgePtrComparator, edge_eq, edge_less, ptr_eq; simpl;
    destruct (Nat.eqb p q); try reflexivity;
    destruct (less_cases s s') as [(Hs & Hs1 & Hs2)|[(Hs & Hs1 & Hs2)|(Hs & Hs1 & Hs2)]];
    rewrite Hs, ?Hs1, ?Hs2; simpl; try reflexivity;
    destruct (less_cases d d') as [(Hd & Hd1 & Hd2)|[(Hd & Hd1 & Hd2)|(Hd & Hd1 & Hd2)]];
    rewrite Hd, ?Hd1, ?Hd2; simpl; try reflexivity.
  destruct (equal x y); reflexivity.
Qed.

End EdgeFacts.

Section ContainerFacts.
Context {N E : Type} `{OrdN : Ord N} `{OrdE : Ord E}.

Local Abbreviation store := (@store N E).
Local Abbreviation edge_ptr := (@edge_ptr N E).
Local Abbreviation edge_ptr_set_pair := (@edge_ptr_set_pair N E).

(** *** std::map *)

Lemma map_find_assign_same (k : N) (v : edge_ptr_set_pair) (m : store) :
  map_find k (map_assign k v m) = Some v.
Proof.
  induction m as [|[k' v'] m IH]; simpl.
  - rewrite less_irrefl. reflexivity.
  - destruct (less k' k) eqn:H1; simpl.
    + rewrite H1. exact IH.
    + destruct (less k k') eqn:H2; simpl.
      * rewrite less_irrefl. reflexivity.
      * rewrite H1, H2. reflexivity.
Qed.

Lemma map_find_assign_other (k k' : N) (v : edge_ptr_set_pair) (m : store) :
  k <> k' -> map_find k (map_assign k' v m) = map_find k m.
Proof.
  intros Hne. induction m as [|[k1 v1] m IH]; simpl.
  - destruct (less_cases k' k) as [(H & _)|[(_ & H1 & H2)|(_ & H1 & H2)]].
    + apply equal_true in H. congruence.
    + rewrite H1. reflexivity.
    + rewrite H1, H2. reflexivity.
  - destruct (less k1 k') eqn:A1; simpl.
    + destruct (less k1 k); [exact IH | reflexivity].
    + destruct (less k' k1) eqn:A2; simpl.
      * destruct (less_cases k' k) as [(H & _)|[(_ & H1 & H2)|(_ & H1 & H2)]].
        -- apply equal_true in H. congruence.
        -- rewrite H1. reflexivity.
        -- rewrite H1, H2.
           rewrite (less_trans _ _ _ H2 A2).
           rewrite (less_asym _ _ (less_trans _ _ _ H2 A2)). reflexivity.
      * assert (k1 = k') by (apply less_total; assumption). subst k1.
        destruct (less_cases k' k) as [(H & _)|[(_ & H1 & H2)|(_ & H1 & H2)]].
        -- apply equal_true in H. congruence.
        -- rewrite H1. reflexivity.
        -- rewrite H1, H2. reflexivity.
Qed.

Lemma subscript_update_same (k : N) (f : edge_ptr_set_pair -> edge_ptr_set_pair)
      (m : store) :
  subscript (map_update k f m) k = f (subscript m k).
Proof. unfold map_update, subscript at 1. rewrite map_find_assign_same. reflexivity. Qed.

Lemma subscript_update_other (k k' : N) (f : edge_ptr_set_pair -> edge_ptr_set_pair)
      (m : store) :
  k <> k' -> subscript (map_update k' f m) k = subscript m k.
Proof.
  intros H. unfold map_update, subscript at 1 3.
  rewrite map_find_assign_other by exact H. reflexivity.
Qed.

Lemma is_node_update (k k' : N) (f : edge_ptr_set_pair -> edge_ptr_set_pair)
      (m : store) :
  is_node m k = true -> is_node (map_update k' f m) k = true.
Proof.
  unfold is_node, map_update. intros H.
  destruct (equal_spec k k') as [->|Hne].
  - rewrite map_find_assign_same. reflexivity.
  - rewrite map_find_assign_other by exact Hne. exact H.
Qed.

Lemma is_node_subscript (m : store) (k : N) :
  is_node m k = true -> map_find k m = Some (subscript m k).
Proof. unfold is_node, subscript. destruct (map_find k m); [reflexivity|discriminate]. Qed.

Lemma map_find_pos_nth (k : N) (m : store) (v : edge_ptr_set_pair) :
  map_find k m = Some v -> exists k', nth_error m (map_find_pos k m) = Some (k', v).
Proof.
  induction m as [|[k1 v1] m IH]; simpl; [discriminate|].
  destruct (less k1 k); [exact IH|].
  destruct (less k k1); [discriminate|].
  intros H. injection H as ->. exists k1. reflexivity.
Qed.

(** *** std::set and std::find_if *)

Lemma find_if_le (p : edge_ptr -> bool) (s : list edge_ptr) :
  find_if p s <= List.length s.
Proof. induction s as [|y s IH]; simpl; [lia|]. destruct (p y); simpl; lia. Qed.

Lemma find_if_ext (p q : edge_ptr -> bool) (s : list edge_ptr) :
  (forall x, p x = q x) -> find_if p s = find_if q s.
Proof.
  intros H. induction s as [|y s IH]; simpl; [reflexivity|].
  rewrite H, IH. reflexivity.
Qed.

Lemma find_if_found (p : edge_ptr -> bool) (s : list edge_ptr) :
  find_if p s <> List.length s ->
  exists x, nth_error s (find_if p s) = Some x /\ p x = true.
Proof.
  induction s as [|y s IH]; simpl; [congruence|].
  destruct (p y) eqn:Hy; simpl.
  - intros _. exists y. auto.
  - intros H. apply IH. congruence.
Qed.

(** Inserting [x] into a set none of whose elements satisfies [p], when [x]
    does: [find_if] then lands on [x], and erasing there undoes the
    insertion. *)
Lemma find_if_set_insert (p : edge_ptr -> bool) (x : edge_ptr)
      (s r : list edge_ptr) :
  set_insert x s = (r, true) ->
  find_if p s = List.length s ->
  p x = true ->
  find_if p r <> List.length r
  /\ nth_error r (find_if p r) = Some x
  /\ set_erase_at (find_if p r) r = s.
Proof.
  revert r. induction s as [|y s IH]; simpl; intros r Hins Hnone Hx.
  - injection Hins as <-. simpl. rewrite Hx. simpl. auto.
  - destruct (p y) eqn:Hy; [discriminate|].
    injection Hnone as Hnone.
    destruct (EdgePtrComparator x y).
    + injection Hins as <-. simpl. rewrite Hx. simpl. auto.
    + destruct (EdgePtrComparator y x); [|discriminate].
      destruct (set_insert x s) as [r' b] eqn:Hr'.
      injection Hins as <- ->.
      destruct (IH r' eq_refl Hnone Hx) as (H1 & H2 & H3).
      simpl. rewrite Hy. simpl. rewrite H3. repeat split; auto.
Qed.

Lemma existed_edge_false (s : list edge_ptr) (e : edge_ptr) :
  existed_edge s e = false ->
  find_if (edge_content_equal e) s = List.length s.
Proof.
  unfold existed_edge. destruct (Nat.eqb_spec (find_if (edge_content_equal e) s)
                                               (List.length s)); congruence.
Qed.

Lemma edge_content_equal_addr (a a' : addr) (src dst : N) (weight : option E)
      (x : edge_ptr) :
  edge_content_equal (create_edge_ptr a src dst weight) x
  = edge_content_equal (create_edge_ptr a' src dst weight) x.
Proof.
  unfold edge_content_equal.
  rewrite (create_edge_ptr_content a a'). reflexivity.
Qed.

Lemma edge_content_equal_self (a a' : addr) (src dst : N) (weight : option E) :
  edge_content_equal (create_edge_ptr a src dst weight)
                     (create_edge_ptr a' src dst weight) = true.
Proof.
  unfold edge_content_equal.
  rewrite (create_edge_ptr_content a a'). apply edge_eq_refl.
Qed.

End ContainerFacts.

Section EdgeRoundTrip.
Context {N E : Type} `{OrdN : Ord N} `{OrdE : Ord E}.

Local Abbreviation world := (@world N E).

(** What a successful [insert_edge] did: both nodes were present, no equal
    edge sat in either set, and one new handle went into both sets. *)
Lemma insert_edge_true_inv (src dst : N) (weight : option E) (w w1 : world) :
  insert_edge src dst weight w = (Ret true, w1) ->
  let e := create_edge_ptr (brk w) src dst weight in
  is_node (g_ w) src = true /\ is_node (g_ w) dst = true
  /\ existed_edge (fst (subscript (g_ w) src)) e = false
  /\ existed_edge (snd (subscript (g_ w) dst)) e = false
  /\ exists out' in',
      set_insert e (fst (subscript (g_ w) src)) = (out', true)
      /\ set_insert e (snd (subscript (map_update src (fun p => (out', snd p)) (g_ w)) dst))
         = (in', true)
      /\ w1 = {| g_ := map_update dst (fun p => (fst p, in'))
                                  (map_update src (fun p => (out', snd p)) (g_ w));
                 brk := S (brk w) |}.
Proof.
  unfold insert_edge, bind, get, throw, ret, allocated, update_g. simpl.
  destruct (is_node (g_ w) src); simpl; [|discriminate].
  destruct (is_node (g_ w) dst); simpl; [|discriminate].
  destruct (existed_edge (fst (subscript (g_ w) src)) _); simpl; [discriminate|].
  destruct (existed_edge (snd (subscript (g_ w) dst)) _); simpl; [discriminate|].
  destruct (set_insert _ (fst (subscript (g_ w) src))) as [out' [|]] eqn:Hout; simpl;
    [|discriminate].
  destruct (set_insert _ (snd (subscript _ dst))) as [in' b] eqn:Hin; simpl.
  intros H. injection H as -> <-.
  repeat split; auto. exists out', in'. repeat split; auto.
Qed.

Lemma out_after_links (src dst : N) (g : @store N E) (out' x : @edge_ptr_set N E) :
  fst (subscript (map_update dst (fun p => (fst p, x))
                             (map_update src (fun p => (out', snd p)) g)) src) = out'.
Proof.
  destruct (equal_spec src dst) as [<-|Hne].
  - rewrite !subscript_update_same. reflexivity.
  - rewrite subscript_update_other by exact Hne.
    rewrite subscript_update_same. reflexivity.
Qed.

Lemma in_before_link (src dst : N) (g : @store N E) (out' : @edge_ptr_set N E) :
  snd (subscript (map_update src (fun p => (out', snd p)) g) dst) = snd (subscript g dst).
Proof.
  destruct (equal_spec dst src) as [->|Hne].
  - rewrite subscript_update_same. reflexivity.
  - rewrite subscript_update_other by exact Hne. reflexivity.
Qed.

Lemma value_of_created (a : addr) (src dst : N) (weight : option E) :
  value_at (create_edge_ptr a src dst weight)
  = {| from := src; to := dst; weight := weight |}.
Proof. destruct weight; reflexivity. Qed.

(** [find] right after a successful [insert_edge] lands on the new edge. *)
Lemma find_after_insert (this : addr) (src dst : N) (weight : option E) (w w1 : world) :
  insert_edge src dst weight w = (Ret true, w1) ->
  deref (find this w1 src dst weight)
  = Some {| from := src; to := dst; weight := weight |}.
Proof.
  intros Hins.
  destruct (insert_edge_true_inv _ _ _ _ _ Hins)
    as (Hs & Hd & Ho & Hi & out' & in' & Hout & Hin & ->).
  set (g1 := map_update dst (fun p => (fst p, in'))
                        (map_update src (fun p => (out', snd p)) (g_ w))).
  assert (Hs1 : is_node g1 src = true) by (unfold g1; auto using is_node_update).
  assert (Hd1 : is_node g1 dst = true) by (unfold g1; auto using is_node_update).
  assert (Hout1 : fst (subscript g1 src) = out') by apply out_after_links.
  set (p := edge_content_equal (create_edge_ptr (S (brk w)) src dst weight)).
  destruct (find_if_set_insert p _ _ _ Hout) as (Hfound & Hnth & _).
  { rewrite <- (existed_edge_false _ _ Ho). apply find_if_ext.
    intros x. apply edge_content_equal_addr. }
  { apply edge_content_equal_self. }
  unfold find. cbn [g_ brk]. fold g1. rewrite Hs1, Hd1. cbn [negb orb].
  rewrite Hout1. fold p.
  destruct (Nat.eqb_spec (find_if p out') (List.length out')) as [Hlen|_];
    [contradiction|].
  destruct (map_find_pos_nth _ _ _ (is_node_subscript _ _ Hs1)) as (k' & Hpos).
  unfold deref. cbn [graph_ptr_ current_node_ current_edge_ graph_obj].
  rewrite Hpos. cbn [snd]. rewrite Hout1, Hnth.
  f_equal. apply value_of_created.
Qed.

(** [erase_edge] right after a successful [insert_edge] removes the new
    handle from both sets, after which [find] answers [end()]. *)
Lemma erase_after_insert (this : addr) (src dst : N) (weight : option E) (w w1 : world) :
  insert_edge src dst weight w = (Ret true, w1) ->
  exists w2, erase_edge src dst weight w1 = (Ret true, w2)
             /\ find this w2 src dst weight = end_ this w2.
Proof.
  intros Hins.
  destruct (insert_edge_true_inv _ _ _ _ _ Hins)
    as (Hs & Hd & Ho & Hi & out' & in' & Hout & Hin & ->).
  set (g0 := map_update src (fun p => (out', snd p)) (g_ w)) in *.
  set (g1 := map_update dst (fun p => (fst p, in')) g0).
  assert (Hs1 : is_node g1 src = true) by (unfold g1, g0; auto using is_node_update).
  assert (Hd1 : is_node g1 dst = true) by (unfold g1, g0; auto using is_node_update).
  assert (Hout1 : fst (subscript g1 src) = out') by apply out_after_links.
  assert (Hin0 : snd (subscript g0 dst) = snd (subscript (g_ w) dst))
    by apply in_before_link.
  set (p := edge_content_equal (create_edge_ptr (S (brk w)) src dst weight)).
  assert (Hp : forall x, edge_content_equal (create_edge_ptr (brk w) src dst weight) x = p x)
    by (intros x; apply edge_content_equal_addr).
  destruct (find_if_set_insert p _ _ _ Hout) as (Hfound & _ & Herase).
  { rewrite <- (existed_edge_false _ _ Ho). symmetry. apply find_if_ext, Hp. }
  { apply edge_content_equal_self. }
  destruct (find_if_set_insert p _ _ _ Hin) as (Hfound' & _ & Herase').
  { rewrite Hin0. rewrite <- (existed_edge_false _ _ Hi). symmetry.
    apply find_if_ext, Hp. }
  { apply edge_content_equal_self. }
  set (g2 := map_update src (fun q => (set_erase_at (find_if p out') (fst q), snd q)) g1).
  assert (Hin2 : snd (subscript g2 dst) = in').
  { unfold g2. destruct (equal_spec dst src) as [->|Hne].
    - rewrite subscript_update_same. cbn [snd]. unfold g1.
      rewrite subscript_update_same. reflexivity.
    - rewrite subscript_update_other by exact Hne. unfold g1.
      rewrite subscript_update_same. reflexivity. }
  set (g3 := map_update dst (fun q => (fst q, set_erase_at (find_if p in') (snd q))) g2).
  exists {| g_ := g3; brk := S (brk w) |}. split.
  - unfold erase_edge, bind, get, throw, ret, update_g. cbn [g_ brk fst snd].
    fold g1. rewrite Hs1, Hd1. cbn [negb orb]. rewrite Hout1. fold p.
    destruct (Nat.eqb_spec (find_if p out') (List.length out')) as [Hlen|_];
      [contradiction|]. cbn [negb fst snd g_ brk]. fold g2.
    rewrite Hin2.
    destruct (Nat.eqb_spec (find_if p in') (List.length in')) as [Hlen|_];
      [contradiction|]. reflexivity.
  - assert (Hs3 : is_node g3 src = true)
      by (unfold g3, g2; auto using is_node_update).
    assert (Hd3 : is_node g3 dst = true)
      by (unfold g3, g2; auto using is_node_update).
    assert (Hout3 : fst (subscript g3 src) = fst (subscript (g_ w) src)).
    { unfold g3. destruct (equal_spec src dst) as [<-|Hne].
      - rewrite subscript_update_same. cbn [fst]. unfold g2.
        rewrite subscript_update_same. cbn [fst]. rewrite Hout1. exact Herase.
      - rewrite subscript_update_other by exact Hne. unfold g2.
        rewrite subscript_update_same. cbn [fst]. rewrite Hout1. exact Herase. }
    unfold find. cbn [g_ brk]. rewrite Hs3, Hd3. cbn [negb orb]. rewrite Hout3.
    rewrite (find_if_ext _ (edge_content_equal (create_edge_ptr (brk w) src dst weight)))
      by (intros x; apply edge_content_equal_addr).
    rewrite (existed_edge_false _ _ Ho). rewrite Nat.eqb_refl. reflexivity.
Qed.

End EdgeRoundTrip.

Section Traversal.
Context {N E : Type} `{OrdN : Ord N} `{OrdE : Ord E}.

Local Abbreviation store := (@store N E).

Lemma iterator_eq_end_end (g : @graph_ptr N E) :
  iterator_eq (iterator_end g) (iterator_end g) = Some true.
Proof.
  unfold iterator_eq, iterator_end. cbn. rewrite !Nat.eqb_refl. reflexivity.
Qed.

Lemma traverse_end (fuel : nat) (g : @graph_ptr N E) :
  traverse (S fuel) (iterator_end g) (iterator_end g) = Some [].
Proof. cbn [traverse]. rewrite iterator_eq_end_end. reflexivity. Qed.

(** The node loop stops at the first node with a non-empty outgoing set; the
    nodes it steps over contribute no value. *)
Lemma skip_empty_spec (m : store) (pos : nat) :
  exists k, skip_empty m pos = pos + k
            /\ k <= List.length m
            /\ stored_values m = stored_values (skipn k m)
            /\ (k < List.length m ->
                exists entry e, nth_error m k = Some entry
                                /\ nth_error (fst (snd entry)) 0 = Some e).
Proof.
  revert pos. induction m as [|[key [[|e out] inc]] m IH]; intros pos.
  - exists 0. cbn. repeat split; try lia.
  - destruct (IH (S pos)) as (k & H1 & H2 & H3 & H4).
    exists (S k). cbn [skip_empty]. rewrite H1. repeat split; cbn; try lia.
    + exact H3.
    + intros Hk. apply H4. cbn in Hk. lia.
  - exists 0. cbn [skip_empty]. repeat split; try lia; cbn; try lia.
    intros _. eexists. exists e. split; reflexivity.
Qed.

Lemma stored_values_skipn (m : store) (k : nat) (entry : N * edge_ptr_set_pair) :
  nth_error m k = Some entry ->
  stored_values (skipn k m)
  = map value_at (fst (snd entry)) ++ stored_values (skipn (S k) m).
Proof.
  revert k. induction m as [|x m IH]; intros [|k]; cbn; try discriminate.
  - intros H. injection H as ->. reflexivity.
  - intros H. exact (IH k H).
Qed.

Lemma nth_error_skipn_plus {A : Type} (l : list A) (i k : nat) :
  nth_error (skipn i l) k = nth_error l (i + k).
Proof.
  revert l. induction i as [|i IH]; intros [|x l]; cbn; try reflexivity.
  - destruct k; reflexivity.
  - apply IH.
Qed.

Lemma skipn_skipn_plus {A : Type} (l : list A) (i k : nat) :
  skipn k (skipn i l) = skipn (i + k) l.
Proof.
  revert l. induction i as [|i IH]; intros [|x l]; cbn; try reflexivity.
  - destruct k; reflexivity.
  - apply IH.
Qed.

Lemma skipn_nth_cons {A : Type} (l : list A) (j : nat) (x : A) :
  nth_error l j = Some x -> skipn j l = x :: skipn (S j) l.
Proof.
  revert j. induction l as [|y l IH]; intros [|j]; cbn; try discriminate.
  - intros H. injection H as ->. reflexivity.
  - intros H. exact (IH j H).
Qed.

(** From the position (node [i], edge [j]) the loop yields the rest of that
    outgoing set and then every later outgoing set, provided the fuel
    exceeds the number of values left. *)
Lemma traverse_from (fuel : nat) :
  forall (g : @graph_ptr N E) (i j : nat) (entry : N * edge_ptr_set_pair) (e : edge_ptr),
    nth_error (graph_obj g) i = Some entry ->
    nth_error (fst (snd entry)) j = Some e ->
    List.length (skipn j (fst (snd entry)))
    + List.length (stored_values (skipn (S i) (graph_obj g))) < fuel ->
    traverse fuel {| current_node_ := Some i; current_edge_ := Some j; graph_ptr_ := Some g |}
             (iterator_end g)
    = Some (map value_at (skipn j (fst (snd entry)))
            ++ stored_values (skipn (S i) (graph_obj g))).
Proof.
  induction fuel as [|fuel IH]; intros g i j entry e Hi Hj Hfuel; [lia|].
  assert (Hlt : i < List.length (graph_obj g))
    by (apply nth_error_Some; congruence).
  assert (Hjlt : j < List.length (fst (snd entry)))
    by (apply nth_error_Some; congruence).
  rewrite (skipn_nth_cons _ _ _ Hj) in *. cbn [List.length map app] in *.
  cbn [traverse].
  assert (Heq : iterator_eq {| current_node_ := Some i; current_edge_ := Some j;
                               graph_ptr_ := Some g |} (iterator_end g) = Some false).
  { unfold iterator_eq, iterator_end. cbn. rewrite !Nat.eqb_refl. cbn.
    destruct (Nat.eqb_spec i (List.length (graph_obj g))); [lia|reflexivity]. }
  rewrite Heq.
  unfold deref, incr. cbn [graph_ptr_ current_node_ current_edge_].
  rewrite Hi, Hj.
  destruct (Nat.eqb_spec (S j) (List.length (fst (snd entry)))) as [Hlast|Hmore].
  - assert (Hnil : skipn (S j) (fst (snd entry)) = [])
      by (apply skipn_all2; lia).
    rewrite Hnil in *. cbn [map app List.length] in *.
    destruct (skip_empty_spec (skipn (S i) (graph_obj g)) (S i))
      as (k & Hk & Hle & Hvals & Hnext).
    rewrite Hk. rewrite length_skipn in Hle, Hnext.
    destruct (Nat.eqb_spec (S i + k) (List.length (graph_obj g))) as [Hend|Hmid].
    + destruct fuel as [|fuel]; [lia|]. rewrite traverse_end.
      rewrite Hvals. rewrite skipn_all2 by (rewrite length_skipn; lia). reflexivity.
    + destruct Hnext as (entry' & e' & Hentry' & He'); [lia|].
      rewrite nth_error_skipn_plus in Hentry'.
      rewrite Hvals in *. rewrite skipn_skipn_plus in *.
      rewrite (stored_values_skipn _ _ _ Hentry') in *.
      rewrite (IH g (S i + k) 0 entry' e' Hentry' He').
      * reflexivity.
      * rewrite skipn_O. rewrite length_app, length_map in Hfuel. lia.
  - assert (exists e2, nth_error (fst (snd entry)) (S j) = Some e2) as (e2 & He2).
    { destruct (nth_error (fst (snd entry)) (S j)) eqn:Hn; [eauto|].
      apply nth_error_None in Hn. lia. }
    rewrite (IH g i (S j) entry e2 Hi He2).
    + rewrite (skipn_nth_cons _ _ _ He2). reflexivity.
    + lia.
Qed.

Lemma traverse_iterator_begin (g : @graph_ptr N E) (fuel : nat) :
  List.length (stored_values (graph_obj g)) < fuel ->
  traverse fuel (iterator_begin g) (iterator_end g) = Some (stored_values (graph_obj g)).
Proof.
  intros Hfuel. unfold iterator_begin.
  destruct fuel as [|fuel]; [lia|].
  destruct (empty (graph_obj g)) eqn:Hempty.
  - rewrite traverse_end. destruct (graph_obj g); [reflexivity|discriminate].
  - destruct (skip_empty_spec (graph_obj g) 0) as (k & Hk & Hle & Hvals & Hnext).
    rewrite Hk. cbn [Nat.add].
    destruct (Nat.eqb_spec k (List.length (graph_obj g))) as [Hend|Hmid].
    + rewrite traverse_end. rewrite Hvals, skipn_all2 by lia. reflexivity.
    + destruct Hnext as (entry & e & Hentry & He); [lia|].
      rewrite Hvals in *. rewrite (stored_values_skipn _ _ _ Hentry) in *.
      rewrite (traverse_from (S fuel) g k 0 entry e Hentry He).
      * reflexivity.
      * rewrite skipn_O. rewrite length_app, length_map in Hfuel. lia.
Qed.

(** The loop from [begin()] to [end()] terminates and yields every handle of
    every outgoing set, in node order and set order; nodes without outgoing
    edges contribute nothing.  This holds in every state. *)
Lemma traverse_begin_end (this : addr) (w : @world N E) (fuel : nat) :
  List.length (stored_values (g_ w)) < fuel ->
  traverse fuel (begin_ this w) (end_ this w) = Some (stored_values (g_ w)).
Proof.
  intros Hfuel. unfold begin_, end_.
  exact (traverse_iterator_begin (mk_graph_ptr this (g_ w)) fuel Hfuel).
Qed.

End Traversal.

Section ArgumentChecks.
Context {N E : Type} `{OrdN : Ord N} `{OrdE : Ord E}.

Local Abbreviation world := (@world N E).

(** The first statement of each checked member: with a referenced node
    absent it throws its own message and the state is the one it was given.
    This half of the error contract holds in every state. *)
Lemma absent_argument_throws (w : world) :
  (forall src dst weight,
      is_node (g_ w) src = false \/ is_node (g_ w) dst = false ->
      insert_edge src dst weight w = (Throw insert_edge_what, w))
  /\ (forall old_data new_data,
         is_node (g_ w) old_data = false ->
         replace_node old_data new_data w = (Throw replace_node_what, w))
  /\ (forall old_data new_data,
         is_node (g_ w) old_data = false \/ is_node (g_ w) new_data = false ->
         merge_replace_node old_data new_data w = (Throw merge_replace_node_what, w))
  /\ (forall src dst weight,
         is_node (g_ w) src = false \/ is_node (g_ w) dst = false ->
         erase_edge src dst weight w = (Throw erase_edge_what, w))
  /\ (forall src dst,
         is_node (g_ w) src = false \/ is_node (g_ w) dst = false ->
         is_connected (g_ w) src dst = Throw is_connected_what)
  /\ (forall src dst,
         is_node (g_ w) src = false \/ is_node (g_ w) dst = false ->
         edges (g_ w) src dst = Throw edges_what)
  /\ (forall src,
         is_node (g_ w) src = false ->
         connections (g_ w) src = Throw connections_what).
Proof.
  unfold insert_edge, replace_node, merge_replace_node, erase_edge, is_connected,
    edges, connections, bind, get, throw.
  repeat split; intros; cbn;
    repeat match goal with
           | H : _ \/ _ |- _ => destruct H
           | H : is_node _ _ = false |- _ => rewrite H
           end; cbn; rewrite ?orb_true_r; reflexivity.
Qed.

(** With both nodes present, the members that run no nested call do not
    throw, in every state. *)
Lemma present_arguments_do_not_throw (w : world) (src dst : N) (weight : option E) :
  is_node (g_ w) src = true ->
  is_node (g_ w) dst = true ->
  (exists b w', insert_edge src dst weight w = (Ret b, w'))
  /\ (exists b w', erase_edge src dst weight w = (Ret b, w'))
  /\ (exists b, is_connected (g_ w) src dst = Ret b)
  /\ (exists es, edges (g_ w) src dst = Ret es)
  /\ (exists ds, connections (g_ w) src = Ret ds).
Proof.
  intros Hs Hd.
  unfold insert_edge, erase_edge, is_connected, edges, connections, bind, get, throw,
    ret, allocated, update_g.
  cbn. rewrite Hs, Hd. cbn. repeat split; eauto.
  - destruct (existed_edge _ _ || existed_edge _ _); cbn; eauto.
    destruct (set_insert _ (fst (subscript (g_ w) src))) as [out' [|]]; cbn; eauto.
    destruct (set_insert _ (snd (subscript _ dst))) as [in' b]; cbn; eauto.
  - destruct (negb (Nat.eqb _ (List.length (fst (subscript (g_ w) src))))); cbn; eauto.
    destruct (negb (Nat.eqb _ _)); cbn; eauto.
Qed.

End ArgumentChecks.

Section InsertEdge.
Context {N E : Type} `{OrdN : Ord N} `{OrdE : Ord E}.

Local Abbreviation world := (@world N E).
Local Abbreviation edge_ptr := (@edge_ptr N E).

Lemma edge_less_total (a b : @edge N E) :
  edge_eq a b = false -> edge_less a b = false -> edge_less b a = true.
Proof.
  destruct a as [s d|s d x], b as [s' d'|s' d' y]; unfold edge_eq, edge_less; cbn;
    destruct (less_cases s s') as [(A1 & A2 & A3)|[(A1 & A2 & A3)|(A1 & A2 & A3)]];
    destruct (less_cases d d') as [(B1 & B2 & B3)|[(B1 & B2 & B3)|(B1 & B2 & B3)]];
    rewrite ?A1, ?A2, ?A3; cbn; rewrite ?B1, ?B2, ?B3; cbn; try congruence.
  destruct (less_cases x y) as [(C1 & C2 & C3)|[(C1 & C2 & C3)|(C1 & C2 & C3)]];
    rewrite ?C1, ?C2, ?C3; congruence.
Qed.

(** Two handles at different addresses are never equivalent for the
    comparator: one of them is ordered before the other. *)
Lemma EdgePtrComparator_total (x y : edge_ptr) :
  address x <> address y ->
  EdgePtrComparator x y = false -> EdgePtrComparator y x = true.
Proof.
  intros Hne. rewrite !EdgePtrComparator_unfold. unfold ptr_eq.
  destruct (Nat.eqb_spec (address x) (address y)) as [|_]; [contradiction|].
  destruct (Nat.eqb_spec (address y) (address x)) as [|_]; [congruence|].
  rewrite (edge_eq_sym (pointee y) (pointee x)).
  destruct (edge_eq (pointee x) (pointee y)) eqn:Heq.
  - rewrite Nat.ltb_ge, Nat.ltb_lt. lia.
  - apply edge_less_total. exact Heq.
Qed.

(** [std::set::insert] of a handle whose address no element has: it goes in,
    and nothing else changes. *)
Lemma set_insert_fresh (x : edge_ptr) (s : list edge_ptr) :
  (forall y, In y s -> address y <> address x) ->
  snd (set_insert x s) = true
  /\ forall z, In z (fst (set_insert x s)) <-> z = x \/ In z s.
Proof.
  induction s as [|y s IH]; intros Hfresh; cbn.
  - split; [reflexivity|]. intros z. cbn. intuition congruence.
  - destruct (EdgePtrComparator x y) eqn:Hxy; cbn.
    + split; [reflexivity|]. intros z. intuition congruence.
    + rewrite (EdgePtrComparator_total x y); [|
        intros H; apply (Hfresh y); [left; reflexivity|congruence] |exact Hxy].
      destruct IH as [IH1 IH2]; [intros y' Hy'; apply Hfresh; right; exact Hy'|].
      destruct (set_insert x s) as [r b]. cbn in *. split; [exact IH1|].
      intros z. rewrite IH2. intuition.
Qed.

(** An equal edge in the outgoing set of [src]: [insert_edge] returns false
    and the state is unchanged. *)
Lemma insert_edge_duplicate (src dst : N) (weight : option E) (w : world) :
  is_node (g_ w) src = true ->
  is_node (g_ w) dst = true ->
  existed_edge (fst (subscript (g_ w) src)) (create_edge_ptr (brk w) src dst weight) = true ->
  insert_edge src dst weight w = (Ret false, w).
Proof.
  intros Hs Hd Hex. unfold insert_edge, bind, get, ret. cbn.
  rewrite Hs, Hd, Hex. reflexivity.
Qed.

(** No equal edge in the outgoing set of [src] nor in the incoming set of
    [dst], and a fresh address from the allocator: [insert_edge] returns
    true, having put one new handle, the same one, into both sets. *)
Lemma insert_edge_links (src dst : N) (weight : option E) (w : world) :
  let e := create_edge_ptr (brk w) src dst weight in
  is_node (g_ w) src = true ->
  is_node (g_ w) dst = true ->
  existed_edge (fst (subscript (g_ w) src)) e = false ->
  existed_edge (snd (subscript (g_ w) dst)) e = false ->
  (forall y, In y (fst (subscript (g_ w) src)) -> address y <> brk w) ->
  (forall y, In y (snd (subscript (g_ w) dst)) -> address y <> brk w) ->
  exists w',
    insert_edge src dst weight w = (Ret true, w')
    /\ (forall z, In z (fst (subscript (g_ w') src))
                  <-> z = e \/ In z (fst (subscript (g_ w) src)))
    /\ (forall z, In z (snd (subscript (g_ w') dst))
                  <-> z = e \/ In z (snd (subscript (g_ w) dst))).
Proof.
  intros e Hs Hd Ho Hi Hfo Hfi.
  assert (Haddr : address e = brk w) by (unfold e; destruct weight; reflexivity).
  destruct (set_insert_fresh e (fst (subscript (g_ w) src))) as [Ho1 Ho2];
    [intros y Hy; rewrite Haddr; auto|].
  destruct (set_insert e (fst (subscript (g_ w) src))) as [out' b1] eqn:Hout.
  cbn in Ho1, Ho2. subst b1.
  set (g0 := map_update src (fun p => (out', snd p)) (g_ w)).
  assert (Hin0 : snd (subscript g0 dst) = snd (subscript (g_ w) dst))
    by apply in_before_link.
  destruct (set_insert_fresh e (snd (subscript g0 dst))) as [Hi1 Hi2];
    [intros y Hy; rewrite Haddr; rewrite Hin0 in Hy; auto|].
  destruct (set_insert e (snd (subscript g0 dst))) as [in' b2] eqn:Hin.
  cbn in Hi1, Hi2. subst b2.
  exists {| g_ := map_update dst (fun p => (fst p, in')) g0; brk := S (brk w) |}.
  split; [|split].
  - unfold insert_edge, bind, get, ret, allocated, update_g. cbn [g_ brk fst snd].
    rewrite Hs, Hd. fold e. rewrite Ho, Hi. cbn [negb orb]. rewrite Hout.
    cbn [g_ brk fst snd]. fold g0. rewrite Hin. reflexivity.
  - cbn [g_]. unfold g0. rewrite out_after_links. exact Ho2.
  - cbn [g_]. rewrite subscript_update_same. cbn [snd].
    intros z. rewrite Hi2, Hin0. reflexivity.
Qed.

(** [insert_edge(src, dst, weight)] touches the outgoing set of [src] and the
    incoming set of [dst] only.  In [move_node_data], where [new_node]
    differs from [old_node], the calls therefore leave the set a loop ranges
    over as it was when the loop started. *)
Lemma insert_edge_frame (src dst : N) (weight : option E) (w w' : world)
      (r : res bool) (k : N) :
  insert_edge src dst weight w = (r, w') ->
  (k <> src -> fst (subscript (g_ w') k) = fst (subscript (g_ w) k))
  /\ (k <> dst -> snd (subscript (g_ w') k) = snd (subscript (g_ w) k)).
Proof.
  unfold insert_edge, bind, get, throw, ret, allocated, update_g. cbn [g_ brk fst snd].
  destruct (negb (is_node (g_ w) src) || negb (is_node (g_ w) dst));
    [intros H; injection H as <- <-; auto|].
  destruct (existed_edge _ _ || existed_edge _ _);
    [intros H; injection H as <- <-; auto|].
  destruct (set_insert _ (fst (subscript (g_ w) src))) as [out' linked_out].
  cbn [g_ brk fst snd].
  assert (Hout : forall x,
             (k <> src -> fst (subscript (map_update src (fun p => (out', snd p)) (g_ w)) k)
                          = fst (subscript (g_ w) k))
             /\ (k <> dst ->
                 snd (subscript (map_update dst (fun p => (fst p, x))
                                            (map_update src (fun p => (out', snd p)) (g_ w))) k)
                 = snd (subscript (g_ w) k))
             /\ (k <> src ->
                 fst (subscript (map_update dst (fun p => (fst p, x))
                                            (map_update src (fun p => (out', snd p)) (g_ w))) k)
                 = fst (subscript (g_ w) k))
             /\ (k <> dst ->
                 snd (subscript (map_update src (fun p => (out', snd p)) (g_ w)) k)
                 = snd (subscript (g_ w) k))).
  { intros x. repeat split; intros Hk.
    - rewrite subscript_update_other by exact Hk. reflexivity.
    - rewrite subscript_update_other by exact Hk. apply in_before_link.
    - destruct (equal_spec k dst) as [->|Hne].
      + rewrite subscript_update_same. cbn [fst].
        rewrite subscript_update_other by exact Hk. reflexivity.
      + rewrite !subscript_update_other by assumption. reflexivity.
    - apply in_before_link. }
  destruct linked_out.
  - destruct (set_insert _ (snd (subscript _ dst))) as [in' linked_in].
    cbn [g_ brk fst snd]. intros H. injection H as <- <-. cbn [g_].
    destruct (Hout in') as (_ & H2 & H3 & _). auto.
  - intros H. injection H as <- <-. cbn [g_].
    destruct (Hout []) as (H1 & _ & _ & H4). auto.
Qed.

End InsertEdge.

Section TraversalCompleteness.
Context {N E : Type} `{OrdN : Ord N} `{OrdE : Ord E}.

Local Abbreviation store := (@store N E).
Local Abbreviation edge_ptr := (@edge_ptr N E).


Lemma value_of_copy (e : edge_ptr) : value_of (copy_edge (pointee e)) = value_at e.
Proof. destruct e as [a [s d|s d x]]; reflexivity. Qed.

(** *** std::map lookups in a sorted map *)

Lemma map_find_sorted (g : store) (k : N) (v : edge_ptr_set_pair) :
  StronglySorted (fun a b => less a b = true) (nodes g) ->
  In (k, v) g -> map_find k g = Some v.
Proof.
  induction g as [|[k1 v1] g IH]; intros Hs Hin; [contradiction|].
  cbn in Hs. apply StronglySorted_inv in Hs. destruct Hs as [Hs Hall].
  destruct Hin as [Heq|Hin].
  - injection Heq as -> ->. cbn. rewrite less_irrefl. reflexivity.
  - cbn. rewrite Forall_forall in Hall.
    rewrite (Hall k) by (apply (in_map fst _ _ Hin)). exact (IH Hs Hin).
Qed.

(** *** std::set<N>::insert *)

Lemma node_set_insert_in (x : N) (s : list N) (z : N) :
  In z (node_set_insert x s) <-> z = x \/ In z s.
Proof.
  induction s as [|y s IH]; cbn; [intuition congruence|].
  destruct (less x y) eqn:Hxy; cbn; [intuition congruence|].
  destruct (less y x) eqn:Hyx; cbn.
  - rewrite IH. intuition.
  - assert (x = y) by (apply less_total; assumption). subst. intuition.
Qed.

Lemma node_set_insert_sorted (x : N) (s : list N) :
  StronglySorted (fun a b => less a b = true) s ->
  StronglySorted (fun a b => less a b = true) (node_set_insert x s).
Proof.
  induction s as [|y s IH]; intros Hs; cbn.
  - constructor; constructor.
  - apply StronglySorted_inv in Hs. destruct Hs as [Hs Hall].
    destruct (less x y) eqn:Hxy.
    + constructor; [constructor; assumption|].
      constructor; [exact Hxy|].
      rewrite Forall_forall in *. intros z Hz.
      exact (less_trans _ _ _ Hxy (Hall z Hz)).
    + destruct (less y x) eqn:Hyx; [|constructor; assumption].
      constructor; [exact (IH Hs)|].
      rewrite Forall_forall in *. intros z Hz.
      apply node_set_insert_in in Hz. destruct Hz as [->|Hz]; auto.
Qed.

Lemma connections_fold (out : list edge_ptr) (acc : list N) :
  StronglySorted (fun a b => less a b = true) acc ->
  let ds := fold_left (fun unique_dests e => node_set_insert (dst_of e) unique_dests)
                      out acc in
  StronglySorted (fun a b => less a b = true) ds
  /\ forall z, In z ds <-> In z acc \/ exists e, In e out /\ dst_of e = z.
Proof.
  revert acc. induction out as [|e out IH]; intros acc Hacc; cbn.
  - split; [exact Hacc|]. intros z. split; [auto|]. intros [H|(e & [] & _)]. exact H.
  - destruct (IH (node_set_insert (dst_of e) acc) (node_set_insert_sorted _ _ Hacc))
      as [H1 H2].
    split; [exact H1|]. intros z. rewrite H2, node_set_insert_in. split.
    + intros [[->|H]|(e' & He' & Hz)]; eauto.
    + intros [H|(e' & [->|He'] & Hz)]; eauto.
Qed.

(** *** Grouping an outgoing set by destination *)


Lemma comparator_dst_ordered (k : N) (out : list edge_ptr) :
  StronglySorted (fun a b => EdgePtrComparator a b = true) out ->
  (forall e, In e out -> fst (get_nodes (pointee e)) = k) ->
  dst_ordered out.
Proof.
  unfold dst_ordered. induction 1 as [|a out Hs IH Hall]; intros Hsrc; constructor.
  - apply IH. intros e He. apply Hsrc. right. exact He.
  - rewrite Forall_forall in *. intros b Hb. specialize (Hall b Hb).
    assert (Ha : fst (get_nodes (pointee a)) = k) by (apply Hsrc; left; reflexivity).
    assert (Hb' : fst (get_nodes (pointee b)) = k) by (apply Hsrc; right; exact Hb).
    rewrite EdgePtrComparator_unfold in Hall.
    destruct (ptr_eq a b); [discriminate|].
    destruct (edge_eq (pointee a) (pointee b)) eqn:Heq.
    + apply edge_eq_true in Heq. unfold dst_of. rewrite Heq. apply less_irrefl.
    + unfold edge_less in Hall. rewrite Ha, Hb', less_irrefl in Hall.
      unfold dst_of.
      destruct (less (snd (get_nodes (pointee a))) (snd (get_nodes (pointee b)))) eqn:Hd.
      * apply less_asym. exact Hd.
      * destruct (less (snd (get_nodes (pointee b))) (snd (get_nodes (pointee a))));
          [discriminate|reflexivity].
Qed.


(** In a destination-ordered set all of whose destinations are [d] or come
    after [d], the edges to [d] form a prefix. *)
Lemma filter_prefix (d : N) (out : list edge_ptr) :
  dst_ordered out ->
  (forall e, In e out -> dst_of e = d \/ less d (dst_of e) = true) ->
  out = filter (to_dst d) out ++ filter (fun e => negb (to_dst d e)) out.
Proof.
  intros Hs Hd.
  induction Hs as [|a out Hs IH Hall]; [reflexivity|].
  cbn [filter]. destruct (to_dst d a) eqn:Ha; cbn [negb app].
  - f_equal. apply IH. intros e He. apply Hd. right. exact He.
  - unfold to_dst in Ha. apply equal_false in Ha.
    destruct (Hd a (or_introl eq_refl)) as [|Hlt]; [contradiction|].
    assert (Hnone : forall l : list edge_ptr,
               Forall (fun b => less (dst_of b) (dst_of a) = false) l ->
               filter (to_dst d) l = []
               /\ filter (fun e => negb (to_dst d e)) l = l).
    { induction 1 as [|b l Hb _ IHl]; [split; reflexivity|].
      cbn [filter]. destruct (to_dst d b) eqn:Hbd; cbn [negb].
      - unfold to_dst in Hbd. apply equal_true in Hbd. rewrite Hbd in Hb. congruence.
      - destruct IHl as [-> ->]. split; reflexivity. }
    destruct (Hnone out Hall) as [-> ->]. reflexivity.
Qed.

Lemma filter_app_only_second (d : N) (pre post : list edge_ptr) :
  (forall e, In e pre -> to_dst d e = false) ->
  filter (to_dst d) (pre ++ post) = filter (to_dst d) post.
Proof.
  intros H. rewrite filter_app.
  replace (filter (to_dst d) pre) with (@nil edge_ptr); [reflexivity|].
  symmetry. induction pre as [|a pre IH]; [reflexivity|].
  cbn. rewrite (H a (or_introl eq_refl)). apply IH. intros e He. apply H. right. exact He.
Qed.

Lemma dst_ordered_filter (p : edge_ptr -> bool) (out : list edge_ptr) :
  dst_ordered out -> dst_ordered (filter p out).
Proof.
  unfold dst_ordered. induction 1 as [|a out Hs IH Hall]; cbn; [constructor|].
  destruct (p a); [|exact IH]. constructor; [exact IH|].
  rewrite Forall_forall in *. intros b Hb. apply filter_In in Hb. apply Hall, Hb.
Qed.

Lemma flat_map_agree {A B : Type} (f g : A -> list B) (l : list A) :
  (forall x, In x l -> f x = g x) -> flat_map f l = flat_map g l.
Proof.
  induction l as [|x l IH]; intros H; [reflexivity|].
  cbn. rewrite (H x (or_introl eq_refl)).
  rewrite IH by (intros y Hy; apply H; right; exact Hy). reflexivity.
Qed.

(** Concatenating, over a strictly increasing list of destinations that
    covers the set, the edges to each destination gives the set back. *)
Lemma group_by_destination (ds : list N) :
  StronglySorted (fun a b => less a b = true) ds ->
  forall out : list edge_ptr,
    dst_ordered out ->
    (forall e, In e out -> In (dst_of e) ds) ->
    flat_map (fun d => filter (to_dst d) out) ds = out.
Proof.
  induction 1 as [|d ds Hs IH Hall]; intros out Hout Hcover.
  - destruct out as [|e out]; [reflexivity|]. destruct (Hcover e (or_introl eq_refl)).
  - rewrite Forall_forall in Hall. cbn [flat_map].
    assert (Hsplit := filter_prefix d out Hout).
    lapply Hsplit; [clear Hsplit; intros Hsplit|].
    2: { intros e He. destruct (Hcover e He) as [->|Hin]; auto. }
    set (pre := filter (to_dst d) out) in *.
    set (post := filter (fun e => negb (to_dst d e)) out) in *.
    assert (Hrest : flat_map (fun d' => filter (to_dst d') out) ds
                    = flat_map (fun d' => filter (to_dst d') post) ds).
    { apply flat_map_agree. intros d' Hd'. rewrite Hsplit at 1.
      apply filter_app_only_second. intros e He.
      apply filter_In in He. destruct He as [_ He]. unfold to_dst in *.
      apply equal_true in He. rewrite He.
      destruct (equal_spec d d') as [<-|]; [|reflexivity].
      specialize (Hall _ Hd'). rewrite less_irrefl in Hall. discriminate. }
    rewrite Hrest, (IH post).
    + symmetry. exact Hsplit.
    + apply dst_ordered_filter. exact Hout.
    + intros e He. apply filter_In in He. destruct He as [He Hne].
      destruct (Hcover e He) as [Heq|Hin]; [|exact Hin].
      unfold to_dst in Hne. rewrite <- Heq, equal_refl in Hne. discriminate.
Qed.

Lemma concat_res_all_ret {A B : Type} (F : A -> res (list B)) (G : A -> list B)
      (l : list A) :
  (forall x, In x l -> F x = Ret (G x)) ->
  concat_res (map F l) = Ret (flat_map G l).
Proof.
  induction l as [|x l IH]; intros H; [reflexivity|].
  cbn. rewrite (H x (or_introl eq_refl)).
  rewrite IH by (intros y Hy; apply H; right; exact Hy). reflexivity.
Qed.

(** In a well-formed store the [edges(s, d)] answers, concatenated over the
    nodes [s] and their destinations [connections(s)], are the stored
    outgoing edges in map and set order. *)
Lemma edges_by_connections_well_formed (g : store) :
  well_formed g -> edges_by_connections g = Ret (stored_values g).
Proof.
  intros [Hkeys Hrec]. unfold edges_by_connections, stored_values, nodes.
  rewrite map_map.
  apply (concat_res_all_ret
           (fun entry : N * edge_ptr_set_pair =>
              match connections g (fst entry) with
              | Ret ds =>
                  concat_res
                    (map (fun d => match edges g (fst entry) d with
                                   | Ret es => Ret (map value_of es)
                                   | Throw what => Throw what
                                   end) ds)
              | Throw what => Throw what
              end)).
  intros [k [out inc]] Hentry. cbn [fst snd].
  destruct (Hrec _ Hentry) as [Hordered Hedges]. cbn [fst snd] in *.
  pose proof (map_find_sorted g k (out, inc) Hkeys Hentry) as Hfind.
  assert (Hnode : is_node g k = true) by (unfold is_node; rewrite Hfind; reflexivity).
  assert (Hsub : subscript g k = (out, inc)) by (unfold subscript; rewrite Hfind; reflexivity).
  unfold connections. rewrite Hnode, Hsub. cbn [negb fst].
  destruct (connections_fold out [] (SSorted_nil _)) as [Hds Hin].
  unfold dst_of in Hds, Hin.
  set (ds := fold_left _ out []) in *.
  rewrite (concat_res_all_ret _ (fun d => map value_at (filter (to_dst d) out))).
  - f_equal.
    transitivity (map value_at (flat_map (fun d => filter (to_dst d) out) ds)).
    + rewrite !flat_map_concat_map, concat_map, map_map. reflexivity.
    + f_equal. apply (group_by_destination ds Hds out).
      * exact Hordered.
      * intros e He. apply Hin. right. exists e. auto.
  - intros d Hd. apply Hin in Hd. destruct Hd as [[]|(e & He & Hde)].
    unfold edges. rewrite Hnode, Hsub. cbn [fst].
    rewrite <- Hde. pose proof (Hedges e He) as Hdst. unfold dst_of in *.
    rewrite Hdst. cbn [negb orb].
    f_equal. rewrite map_map. apply map_ext. intros x. apply value_of_copy.
Qed.

(** In a well-formed store the traversal from [begin()] to [end()]
    terminates with exactly the concatenated [edges(s, d)] answers. *)
Lemma traversal_complete_well_formed (this : addr) (w : @world N E) (fuel : nat) :
  well_formed (g_ w) ->
  List.length (stored_values (g_ w)) < fuel ->
  exists visited,
    traverse fuel (begin_ this w) (end_ this w) = Some visited
    /\ edges_by_connections (g_ w) = Ret visited.
Proof.
  intros Hwf Hfuel. exists (stored_values (g_ w)). split.
  - exact (traverse_begin_end this w fuel Hfuel).
  - exact (edges_by_connections_well_formed (g_ w) Hwf).
Qed.

End TraversalCompleteness.

(** The store invariant and well-formedness are not vacuous: the README
    graph has both. *)
Lemma abcd_well_formed : store_invariant (g_ abcd) = true /\ well_formed (g_ abcd).
Proof.
  split; [vm_compute; reflexivity|]. split.
  - vm_compute. repeat constructor.
  - intros entry Hin. vm_compute in Hin.
    repeat (destruct Hin as [<-|Hin];
            [split; [unfold dst_ordered; cbn [fst snd]; repeat constructor|] |]);
      try contradiction;
      intros e He; vm_compute in He;
      repeat (destruct He as [<-|He]; [vm_compute; reflexivity|]);
      contradiction.
Qed.

Section OutgoingDistinct.
Context {N E : Type} `{OrdN : Ord N} `{OrdE : Ord E}.

Local Abbreviation world := (@world N E).
Local Abbreviation store := (@store N E).
Local Abbreviation edge_ptr := (@edge_ptr N E).
Local Abbreviation edge_ptr_set_pair := (@edge_ptr_set_pair N E).

(** *** Where the entries of an updated map come from *)

Lemma in_map_assign (k : N) (v : edge_ptr_set_pair) (m : store)
      (entry : N * edge_ptr_set_pair) :
  In entry (map_assign k v m) -> snd entry = v \/ In entry m.
Proof.
  induction m as [|[k1 v1] m IH]; cbn.
  - intros [<-|[]]. left. reflexivity.
  - destruct (less k1 k).
    + intros [<-|H]; [right; left; reflexivity|].
      destruct (IH H); auto.
    + destruct (less k k1).
      * intros [<-|H]; [left; reflexivity|right; exact H].
      * intros [<-|H]; [left; reflexivity|right; right; exact H].
Qed.

Lemma in_map_erase (k : N) (m : store) (entry : N * edge_ptr_set_pair) :
  In entry (map_erase k m) -> In entry m.
Proof.
  induction m as [|[k1 v1] m IH]; cbn; [auto|].
  destruct (less k1 k).
  - intros [<-|H]; auto.
  - destruct (less k k1); auto.
Qed.

Lemma map_find_in (k : N) (m : store) (v : edge_ptr_set_pair) :
  map_find k m = Some v -> exists k', In (k', v) m.
Proof.
  induction m as [|[k1 v1] m IH]; cbn; [discriminate|].
  destruct (less k1 k).
  - intros H. destruct (IH H) as (k' & Hk'). eauto.
  - destruct (less k k1); [discriminate|].
    intros H. injection H as ->. eauto.
Qed.

Lemma outgoing_distinct_subscript (g : store) (k : N) :
  outgoing_distinct g -> distinct_contents (fst (subscript g k)) = true.
Proof.
  intros Hg. unfold subscript. destruct (map_find k g) as [v|] eqn:Hf; [|reflexivity].
  destruct (map_find_in _ _ _ Hf) as (k' & Hin). exact (Hg _ Hin).
Qed.

Lemma outgoing_distinct_update (g : store) (k : N)
      (f : edge_ptr_set_pair -> edge_ptr_set_pair) :
  outgoing_distinct g ->
  distinct_contents (fst (f (subscript g k))) = true ->
  outgoing_distinct (map_update k f g).
Proof.
  intros Hg Hf entry Hin. unfold map_update in Hin.
  apply in_map_assign in Hin. destruct Hin as [->|Hin]; auto.
Qed.

(** *** Set operations that keep the contents distinct *)

Lemma existsb_filter_false (p q : edge_ptr -> bool) (s : list edge_ptr) :
  existsb p s = false -> existsb p (filter q s) = false.
Proof.
  induction s as [|y s IH]; cbn; [auto|].
  intros H. apply orb_false_iff in H. destruct H as [H1 H2].
  destruct (q y); cbn; rewrite ?H1; auto.
Qed.

Lemma distinct_contents_filter (q : edge_ptr -> bool) (s : list edge_ptr) :
  distinct_contents s = true -> distinct_contents (filter q s) = true.
Proof.
  induction s as [|y s IH]; cbn; [auto|].
  intros H. apply andb_true_iff in H. destruct H as [H1 H2].
  destruct (q y); cbn; [|auto].
  rewrite (IH H2), andb_true_r.
  apply negb_true_iff in H1. rewrite (existsb_filter_false _ q _ H1). reflexivity.
Qed.

Lemma existsb_erase_at_false (p : edge_ptr -> bool) (s : list edge_ptr) (i : nat) :
  existsb p s = false -> existsb p (set_erase_at i s) = false.
Proof.
  revert i. induction s as [|y s IH]; intros [|i]; cbn; auto.
  - intros H. apply orb_false_iff in H. tauto.
  - intros H. apply orb_false_iff in H. destruct H as [-> H]. cbn. auto.
Qed.

Lemma distinct_contents_erase_at (s : list edge_ptr) (i : nat) :
  distinct_contents s = true -> distinct_contents (set_erase_at i s) = true.
Proof.
  revert i. induction s as [|y s IH]; intros [|i]; cbn; auto.
  - intros H. apply andb_true_iff in H. tauto.
  - intros H. apply andb_true_iff in H. destruct H as [H1 H2].
    rewrite (IH i H2), andb_true_r.
    apply negb_true_iff in H1. rewrite (existsb_erase_at_false _ _ i H1). reflexivity.
Qed.

Lemma find_if_none (p : edge_ptr -> bool) (s : list edge_ptr) :
  find_if p s = List.length s <-> existsb p s = false.
Proof.
  induction s as [|y s IH]; cbn; [tauto|].
  destruct (p y); cbn; [split; [lia|discriminate]|].
  rewrite <- IH. split; lia.
Qed.

Lemma edge_content_equal_sym (x y : edge_ptr) :
  edge_content_equal x y = edge_content_equal y x.
Proof. unfold edge_content_equal. apply edge_eq_sym. Qed.

Lemma existsb_implied (p q : edge_ptr -> bool) (s : list edge_ptr) :
  (forall z, p z = true -> q z = true) ->
  existsb q s = false -> existsb p s = false.
Proof.
  intros Hpq. induction s as [|y s IH]; cbn; [auto|].
  intros H. apply orb_false_iff in H. destruct H as [H1 H2].
  rewrite (IH H2), orb_false_r.
  destruct (p y) eqn:Hp; [|reflexivity]. rewrite (Hpq y Hp) in H1. discriminate.
Qed.

Lemma existsb_set_insert (p : edge_ptr -> bool) (x : edge_ptr) (s : list edge_ptr) :
  p x = false -> existsb p s = false -> existsb p (fst (set_insert x s)) = false.
Proof.
  intros Hx. induction s as [|y s IH]; cbn.
  - intros _. rewrite Hx. reflexivity.
  - intros H. apply orb_false_iff in H. destruct H as [H1 H2].
    destruct (EdgePtrComparator x y); cbn.
    + rewrite Hx, H1, H2. reflexivity.
    + destruct (EdgePtrComparator y x); cbn.
      * specialize (IH H2). destruct (set_insert x s) as [r b]. cbn in *.
        rewrite H1, IH. reflexivity.
      * rewrite H1, H2. reflexivity.
Qed.

Lemma distinct_contents_insert (x : edge_ptr) (s : list edge_ptr) :
  distinct_contents s = true ->
  existed_edge s x = false ->
  distinct_contents (fst (set_insert x s)) = true.
Proof.
  intros Hs Hx. apply existed_edge_false, find_if_none in Hx.
  revert Hs Hx. induction s as [|y s IH]; cbn; intros Hs Hx; [reflexivity|].
  apply andb_true_iff in Hs. destruct Hs as [Hy Hs].
  apply orb_false_iff in Hx. destruct Hx as [Hxy Hx].
  destruct (EdgePtrComparator x y); cbn.
  - rewrite Hxy, Hx, Hy, Hs. reflexivity.
  - destruct (EdgePtrComparator y x); cbn.
    + specialize (IH Hs Hx).
      pose proof (existsb_set_insert (edge_content_equal y) x s) as Hins.
      destruct (set_insert x s) as [r b]. cbn in *.
      rewrite IH, andb_true_r. apply negb_true_iff. apply Hins.
      * rewrite edge_content_equal_sym. exact Hxy.
      * apply negb_true_iff. exact Hy.
    + rewrite Hy, Hs. reflexivity.
Qed.

(** In a content-distinct set, erasing the first element that equals a given
    edge leaves none that does. *)
Lemma find_if_after_erase (c : edge_ptr) (s : list edge_ptr) :
  distinct_contents s = true ->
  find_if (edge_content_equal c) (set_erase_at (find_if (edge_content_equal c) s) s)
  = List.length (set_erase_at (find_if (edge_content_equal c) s) s).
Proof.
  intros Hs. apply find_if_none. induction s as [|y s IH]; cbn; [reflexivity|].
  cbn in Hs. apply andb_true_iff in Hs. destruct Hs as [Hy Hs].
  destruct (edge_content_equal c y) eqn:Hcy; cbn.
  - apply negb_true_iff in Hy.
    apply (existsb_implied _ (edge_content_equal y)); [|exact Hy].
    intros z Hz. unfold edge_content_equal in *.
    apply edge_eq_true in Hcy, Hz. rewrite Hz, <- Hcy. apply edge_eq_refl.
  - rewrite Hcy. exact (IH Hs).
Qed.

(** *** The members keep the outgoing sets content-distinct *)

Lemma keeps_ret {A : Type} (a : A) : keeps_distinct (@ret world A a).
Proof. intros w r w' H. injection H as <- <-. auto. Qed.

Lemma keeps_throw {A : Type} (what : string) : keeps_distinct (@throw world A what).
Proof. intros w r w' H. injection H as <- <-. auto. Qed.

Lemma keeps_get : keeps_distinct (@get world).
Proof. intros w r w' H. injection H as <- <-. auto. Qed.

Lemma keeps_bind {A B : Type} (m : M world A) (k : A -> M world B) :
  keeps_distinct m -> (forall a, keeps_distinct (k a)) -> keeps_distinct (bind m k).
Proof.
  intros Hm Hk w r w' H Hw. unfold bind in H.
  destruct (m w) as [[a|what] w1] eqn:Hmw.
  - exact (Hk a w1 r w' H (Hm w _ w1 Hmw Hw)).
  - injection H as <- <-. exact (Hm w _ w1 Hmw Hw).
Qed.

Lemma keeps_for_each {A : Type} (l : list A) (body : A -> M world unit) :
  (forall x, keeps_distinct (body x)) -> keeps_distinct (for_each l body).
Proof.
  intros Hbody. induction l as [|x l IH]; cbn [for_each].
  - apply keeps_ret.
  - apply keeps_bind; [apply Hbody|]. intros _. exact IH.
Qed.

Lemma keeps_update_g (f : store -> store) :
  (forall g, outgoing_distinct g -> outgoing_distinct (f g)) ->
  keeps_distinct (update_g f).
Proof. intros Hf w r w' H. injection H as <- <-. cbn [g_]. apply Hf. Qed.

Lemma keeps_insert_node (value : N) : keeps_distinct (insert_node value).
Proof.
  unfold insert_node. apply keeps_bind; [apply keeps_get|]. intros w.
  destruct (is_node (g_ w) value); [apply keeps_ret|].
  apply keeps_bind; [|intros _; apply keeps_ret].
  apply keeps_update_g. intros g Hg entry Hin.
  apply in_map_assign in Hin. destruct Hin as [->|Hin]; auto.
Qed.

Lemma keeps_insert_edge (src dst : N) (weight : option E) :
  keeps_distinct (insert_edge src dst weight).
Proof.
  intros w r w' H Hw. revert H.
  unfold insert_edge, bind, get, throw, ret, allocated, update_g. cbn [g_ brk fst snd].
  destruct (negb (is_node (g_ w) src) || negb (is_node (g_ w) dst));
    [intros H; injection H as <- <-; exact Hw|].
  destruct (existed_edge (fst (subscript (g_ w) src)) _) eqn:Ho; cbn [orb];
    [intros H; injection H as <- <-; exact Hw|].
  destruct (existed_edge (snd (subscript (g_ w) dst)) _);
    [intros H; injection H as <- <-; exact Hw|].
  pose proof (distinct_contents_insert _ _ (outgoing_distinct_subscript _ src Hw) Ho)
    as Hout.
  destruct (set_insert _ (fst (subscript (g_ w) src))) as [out' linked_out].
  cbn [g_ brk fst snd] in *.
  assert (H0 : outgoing_distinct (map_update src (fun p => (out', snd p)) (g_ w)))
    by (apply outgoing_distinct_update; [exact Hw|exact Hout]).
  destruct linked_out.
  - destruct (set_insert _ (snd (subscript _ dst))) as [in' linked_in].
    cbn [g_ brk fst snd]. intros H. injection H as <- <-. cbn [g_].
    apply outgoing_distinct_update; [exact H0|].
    cbn [fst]. apply outgoing_distinct_subscript. exact H0.
  - intros H. injection H as <- <-. exact H0.
Qed.

Lemma keeps_erase_edge (src dst : N) (weight : option E) :
  keeps_distinct (erase_edge src dst weight).
Proof.
  intros w r w' H Hw. revert H.
  unfold erase_edge, bind, get, throw, ret, update_g. cbn [g_ brk fst snd].
  destruct (negb (is_node (g_ w) src) || negb (is_node (g_ w) dst));
    [intros H; injection H as <- <-; exact Hw|].
  destruct (negb (Nat.eqb _ (List.length (fst (subscript (g_ w) src)))));
    [|intros H; injection H as <- <-; exact Hw].
  cbn [g_ brk fst snd].
  match goal with
  | |- context [map_update src ?f (g_ w)] =>
      assert (H0 : outgoing_distinct (map_update src f (g_ w)))
  end.
  { apply outgoing_distinct_update; [exact Hw|]. cbn [fst].
    apply distinct_contents_erase_at, outgoing_distinct_subscript, Hw. }
  destruct (negb (Nat.eqb _ _)); cbn [g_ brk fst snd];
    intros H; injection H as <- <-; cbn [g_]; [|exact H0].
  apply outgoing_distinct_update; [exact H0|].
  cbn [fst]. apply outgoing_distinct_subscript. exact H0.
Qed.

Lemma keeps_erase_node (value : N) : keeps_distinct (erase_node value).
Proof.
  unfold erase_node. apply keeps_bind; [apply keeps_get|]. intros w.
  destruct (negb (is_node (g_ w) value)); [apply keeps_ret|].
  repeat (apply keeps_bind; [|intros _]); try apply keeps_ret; apply keeps_update_g;
    intros g Hg.
  - apply outgoing_distinct_update; [exact Hg|reflexivity].
  - apply outgoing_distinct_update; [exact Hg|].
    cbn [fst]. apply outgoing_distinct_subscript, Hg.
  - intros entry Hin. apply in_map_iff in Hin.
    destruct Hin as ([node [out inc]] & <- & Hin).
    specialize (Hg _ Hin). unfold erase_incident. cbn [fst snd] in *.
    destruct (negb (equal node value)); cbn [fst snd]; [|exact Hg].
    apply distinct_contents_filter. exact Hg.
  - intros entry Hin. apply in_map_erase in Hin. auto.
Qed.

Lemma keeps_clear : keeps_distinct (@clear N E).
Proof. apply keeps_update_g. intros g _ entry []. Qed.

Lemma keeps_move_node_data (old_node new_node : N) :
  keeps_distinct (move_node_data old_node new_node).
Proof.
  assert (Hbody : forall (e : edge_ptr) (s d : N), keeps_distinct (insert_new_edge e s d)).
  { intros e s d. unfold insert_new_edge.
    apply keeps_bind; [|intros _; apply keeps_ret].
    destruct (is_weighted (pointee e)); apply keeps_insert_edge. }
  unfold move_node_data.
  apply keeps_bind; [apply keeps_get|]. intros w.
  apply keeps_bind; [apply keeps_for_each; intros e; apply Hbody|]. intros _.
  apply keeps_bind; [apply keeps_get|]. intros w'.
  apply keeps_bind; [apply keeps_for_each; intros e; apply Hbody|]. intros _.
  apply keeps_update_g. intros g Hg entry Hin. apply in_map_erase in Hin. auto.
Qed.

Lemma keeps_replace_node (old_data new_data : N) :
  keeps_distinct (replace_node old_data new_data).
Proof.
  unfold replace_node. apply keeps_bind; [apply keeps_get|]. intros w.
  destruct (negb (is_node (g_ w) old_data)); [apply keeps_throw|].
  destruct (is_node (g_ w) new_data); [apply keeps_ret|].
  apply keeps_bind; [apply keeps_insert_node|]. intros _.
  apply keeps_bind; [apply keeps_move_node_data|]. intros _. apply keeps_ret.
Qed.

Lemma keeps_merge_replace_node (old_data new_data : N) :
  keeps_distinct (merge_replace_node old_data new_data).
Proof.
  unfold merge_replace_node. apply keeps_bind; [apply keeps_get|]. intros w.
  destruct (negb (is_node (g_ w) old_data) || negb (is_node (g_ w) new_data));
    [apply keeps_throw|].
  destruct (equal old_data new_data); [apply keeps_ret|apply keeps_move_node_data].
Qed.

Lemma keeps_step (o : @op N E) (w : world) :
  outgoing_distinct (g_ w) -> outgoing_distinct (g_ (step o w)).
Proof.
  intros Hw. destruct o as [v|s d x|o n|o n|v|s d x|]; cbn [step].
  - exact (keeps_insert_node v w _ _ (surjective_pairing _) Hw).
  - exact (keeps_insert_edge s d x w _ _ (surjective_pairing _) Hw).
  - exact (keeps_replace_node o n w _ _ (surjective_pairing _) Hw).
  - exact (keeps_merge_replace_node o n w _ _ (surjective_pairing _) Hw).
  - exact (keeps_erase_node v w _ _ (surjective_pairing _) Hw).
  - exact (keeps_erase_edge s d x w _ _ (surjective_pairing _) Hw).
  - exact (keeps_clear w _ _ (surjective_pairing _) Hw).
Qed.

(** Whatever public operations were called, replace_node and
    merge_replace_node included, no outgoing set holds two structurally
    equal edges. *)
Lemma reachable_outgoing_distinct (w : world) :
  reachable w -> outgoing_distinct (g_ w).
Proof.
  intros (ops & <-). unfold run.
  assert (H : forall (l : list (@op N E)) (w0 : world),
             outgoing_distinct (g_ w0) ->
             outgoing_distinct (g_ (fold_left (fun w' o => step o w') l w0))).
  { induction l as [|o l IH]; intros w0 Hw0; cbn; [exact Hw0|].
    apply IH, keeps_step, Hw0. }
  apply H. intros entry [].
Qed.

(** After [erase_edge(src, dst, weight)], whatever it answered, [find(src,
    dst, weight)] is [end()], in every state whose outgoing sets are
    content-distinct. *)
Lemma find_after_erase (this : addr) (src dst : N) (weight : option E) (w : world) :
  outgoing_distinct (g_ w) ->
  let w' := snd (erase_edge src dst weight w) in
  find this w' src dst weight = end_ this w'.
Proof.
  intros Hw. unfold erase_edge, bind, get, throw, ret, update_g. cbn [g_ brk fst snd].
  destruct (is_node (g_ w) src) eqn:Hs; cbn [negb orb];
    [|cbn [snd]; unfold find; rewrite Hs; reflexivity].
  destruct (is_node (g_ w) dst) eqn:Hd; cbn [negb orb];
    [|cbn [snd]; unfold find; rewrite Hs, Hd; reflexivity].
  set (c := create_edge_ptr (brk w) src dst weight).
  set (out := fst (subscript (g_ w) src)).
  assert (Hfind : forall g' b,
             is_node g' src = true -> is_node g' dst = true ->
             find_if (edge_content_equal c) (fst (subscript g' src))
             = List.length (fst (subscript g' src)) ->
             find this {| g_ := g'; brk := b |} src dst weight
             = end_ this {| g_ := g'; brk := b |}).
  { intros g' b Hs' Hd' Hnone. unfold find. cbn [g_ brk]. rewrite Hs', Hd'. cbn [negb orb].
    rewrite (find_if_ext _ (edge_content_equal c))
      by (intros x; apply edge_content_equal_addr).
    rewrite Hnone, Nat.eqb_refl. reflexivity. }
  destruct (Nat.eqb_spec (find_if (edge_content_equal c) out) (List.length out))
    as [Hnone|Hsome]; cbn [negb snd g_ brk].
  - destruct w as [g b]. apply Hfind; assumption.
  - set (g1 := map_update src (fun p => (set_erase_at (find_if (edge_content_equal c) out)
                                                      (fst p), snd p)) (g_ w)).
    assert (Hout1 : fst (subscript g1 src)
                    = set_erase_at (find_if (edge_content_equal c) out) out)
      by (unfold g1; rewrite subscript_update_same; reflexivity).
    assert (Hgone : find_if (edge_content_equal c) (fst (subscript g1 src))
                    = List.length (fst (subscript g1 src))).
    { rewrite Hout1. apply find_if_after_erase.
      apply outgoing_distinct_subscript, Hw. }
    destruct (negb (Nat.eqb _ _)); cbn [snd g_ brk].
    + apply Hfind; try (apply is_node_update; unfold g1; apply is_node_update; assumption).
      destruct (equal_spec src dst) as [<-|Hne].
      * rewrite subscript_update_same. cbn [fst]. exact Hgone.
      * rewrite subscript_update_other by exact Hne. exact Hgone.
    + apply Hfind; try (unfold g1; apply is_node_update; assumption). exact Hgone.
Qed.

Lemma distinct_contents_nth (s : list edge_ptr) :
  distinct_contents s = true ->
  forall (i j : nat) (a b : edge_ptr),
    i < j -> nth_error s i = Some a -> nth_error s j = Some b ->
    edge_eq (pointee a) (pointee b) = false.
Proof.
  induction s as [|y s IH]; intros Hs i j a b Hij Ha Hb.
  - destruct i; discriminate.
  - cbn in Hs. apply andb_true_iff in Hs. destruct Hs as [Hy Hs].
    destruct j as [|j]; [lia|]. cbn in Hb.
    destruct i as [|i]; cbn in Ha.
    + injection Ha as ->. apply negb_true_iff in Hy.
      destruct (edge_eq (pointee a) (pointee b)) eqn:Hab; [|reflexivity].
      assert (Hex : existsb (edge_content_equal a) s = true).
      { apply existsb_exists. exists b. split; [exact (nth_error_In _ _ Hb)|].
        unfold edge_content_equal. rewrite edge_eq_sym. exact Hab. }
      congruence.
    + apply (IH Hs i j); [lia|assumption|assumption].
Qed.

(** In a state reached by public operations the address tie-break never
    decides between two elements of one outgoing set: they differ in
    content, and the comparator orders them by content alone. *)
Lemma reachable_outgoing_order (w : world) (entry : N * edge_ptr_set_pair)
      (i j : nat) (a b : edge_ptr) :
  reachable w -> In entry (g_ w) ->
  i < j ->
  nth_error (fst (snd entry)) i = Some a ->
  nth_error (fst (snd entry)) j = Some b ->
  address a <> address b ->
  EdgePtrComparator a b = edge_less (pointee a) (pointee b)
  /\ EdgePtrComparator b a = edge_less (pointee b) (pointee a).
Proof.
  intros Hw Hin Hij Ha Hb Hne.
  pose proof (distinct_contents_nth _ (reachable_outgoing_distinct w Hw entry Hin)
                                    i j a b Hij Ha Hb) as Hab.
  rewrite !EdgePtrComparator_unfold, (edge_eq_sym (pointee b)), Hab. unfold ptr_eq.
  destruct (Nat.eqb_spec (address a) (address b)); [contradiction|].
  destruct (Nat.eqb_spec (address b) (address a)); [congruence|]. auto.
Qed.

End OutgoingDistinct.

Section Consistency.
Context {N E : Type} `{OrdN : Ord N} `{OrdE : Ord E}.

Local Abbreviation world := (@world N E).
Local Abbreviation store := (@store N E).
Local Abbreviation edge_ptr := (@edge_ptr N E).
Local Abbreviation edge_ptr_set_pair := (@edge_ptr_set_pair N E).

(** *** Keys of an updated map *)

Lemma is_node_assign (k k' : N) (v : edge_ptr_set_pair) (m : store) :
  is_node (map_assign k v m) k' = true <-> k' = k \/ is_node m k' = true.
Proof.
  unfold is_node. destruct (equal_spec k' k) as [->|Hne].
  - rewrite map_find_assign_same. tauto.
  - rewrite map_find_assign_other by exact Hne. split; [auto|]. intros [|]; [contradiction|auto].
Qed.

Lemma is_node_update_iff (k k' : N) (f : edge_ptr_set_pair -> edge_ptr_set_pair) (m : store) :
  is_node m k = true ->
  is_node (map_update k f m) k' = is_node m k'.
Proof.
  intros Hk. unfold map_update.
  destruct (is_node (map_assign k (f (subscript m k)) m) k') eqn:H1.
  - apply is_node_assign in H1. destruct H1 as [->|H1]; congruence.
  - destruct (is_node m k') eqn:H2; [|reflexivity].
    assert (is_node (map_assign k (f (subscript m k)) m) k' = true)
      by (apply is_node_assign; auto).
    congruence.
Qed.

Lemma nodes_assign_present (k : N) (v : edge_ptr_set_pair) (m : store) :
  is_node m k = true -> nodes (map_assign k v m) = nodes m.
Proof.
  unfold is_node, nodes. induction m as [|[k1 v1] m IH]; cbn; [discriminate|].
  destruct (less k1 k); cbn.
  - intros H. f_equal. exact (IH H).
  - destruct (less k k1); [discriminate|reflexivity].
Qed.

Lemma nodes_update_present (k : N) (f : edge_ptr_set_pair -> edge_ptr_set_pair) (m : store) :
  is_node m k = true -> nodes (map_update k f m) = nodes m.
Proof. apply nodes_assign_present. Qed.

Lemma in_nodes_assign (k : N) (v : edge_ptr_set_pair) (m : store) (x : N) :
  In x (nodes (map_assign k v m)) -> x = k \/ In x (nodes m).
Proof.
  unfold nodes. induction m as [|[k1 v1] m IH]; cbn.
  - intros [<-|[]]. auto.
  - destruct (less k1 k); cbn.
    + intros [<-|H]; [auto|]. destruct (IH H); auto.
    + destruct (less k k1); cbn; intros [<-|H]; auto.
Qed.

Lemma nodes_assign_sorted (k : N) (v : edge_ptr_set_pair) (m : store) :
  StronglySorted (fun a b => less a b = true) (nodes m) ->
  StronglySorted (fun a b => less a b = true) (nodes (map_assign k v m)).
Proof.
  unfold nodes. induction m as [|[k1 v1] m IH]; cbn; intros Hs.
  - constructor; constructor.
  - apply StronglySorted_inv in Hs. destruct Hs as [Hs Hall].
    destruct (less k1 k) eqn:H1; cbn.
    + constructor; [exact (IH Hs)|].
      rewrite Forall_forall in *. intros x Hx.
      apply in_nodes_assign in Hx. destruct Hx as [->|Hx]; auto.
    + destruct (less k k1) eqn:H2; cbn.
      * constructor; [constructor; assumption|].
        constructor; [exact H2|].
        rewrite Forall_forall in *. intros x Hx.
        exact (less_trans _ _ _ H2 (Hall x Hx)).
      * constructor; assumption.
Qed.

(** *** Erasing a key of a sorted map *)

Lemma map_find_below (k : N) (m : store) :
  Forall (fun x => less k x = true) (nodes m) -> map_find k m = None.
Proof.
  destruct m as [|[k1 v1] m]; cbn; [reflexivity|].
  intros H. apply Forall_inv in H. cbn in H.
  rewrite (less_asym _ _ H), H. reflexivity.
Qed.

Lemma map_find_erase_same (k : N) (m : store) :
  StronglySorted (fun a b => less a b = true) (nodes m) ->
  map_find k (map_erase k m) = None.
Proof.
  unfold nodes. induction m as [|[k1 v1] m IH]; cbn; intros Hs; [reflexivity|].
  apply StronglySorted_inv in Hs. destruct Hs as [Hs Hall].
  destruct (less k1 k) eqn:H1; cbn.
  - rewrite H1. exact (IH Hs).
  - destruct (less k k1) eqn:H2; cbn.
    + rewrite H1, H2. reflexivity.
    + assert (k1 = k) by (apply less_total; assumption). subst k1.
      apply map_find_below. exact Hall.
Qed.

Lemma map_find_erase_other (k k' : N) (m : store) :
  StronglySorted (fun a b => less a b = true) (nodes m) ->
  k' <> k -> map_find k' (map_erase k m) = map_find k' m.
Proof.
  unfold nodes. induction m as [|[k1 v1] m IH]; cbn; intros Hs Hne; [reflexivity|].
  apply StronglySorted_inv in Hs. destruct Hs as [Hs Hall].
  destruct (less k1 k) eqn:H1; cbn.
  - rewrite (IH Hs Hne). reflexivity.
  - destruct (less k k1) eqn:H2; cbn; [reflexivity|].
    assert (k1 = k) by (apply less_total; assumption). subst k1.
    destruct (less_cases k k') as [(A & _)|[(_ & A1 & A2)|(_ & A1 & A2)]].
    + apply equal_true in A. congruence.
    + rewrite A1. reflexivity.
    + rewrite A1, A2. apply map_find_below.
      rewrite Forall_forall in *. intros x Hx.
      exact (less_trans _ _ _ A2 (Hall x Hx)).
Qed.

Lemma in_nodes_erase (k : N) (m : store) (x : N) :
  In x (nodes (map_erase k m)) -> In x (nodes m).
Proof.
  unfold nodes. induction m as [|[k1 v1] m IH]; cbn; [auto|].
  destruct (less k1 k); cbn.
  - intros [<-|H]; auto.
  - destruct (less k k1); cbn; auto.
Qed.

Lemma nodes_erase_sorted (k : N) (m : store) :
  StronglySorted (fun a b => less a b = true) (nodes m) ->
  StronglySorted (fun a b => less a b = true) (nodes (map_erase k m)).
Proof.
  unfold nodes. induction m as [|[k1 v1] m IH]; cbn; intros Hs; [constructor|].
  pose proof Hs as Hs0.
  apply StronglySorted_inv in Hs. destruct Hs as [Hs Hall].
  destruct (less k1 k) eqn:H1; cbn.
  - constructor; [exact (IH Hs)|].
    rewrite Forall_forall in *. intros x Hx. apply Hall.
    exact (in_nodes_erase k m x Hx).
  - destruct (less k k1); [exact Hs0|exact Hs].
Qed.

(** *** Ordered sets *)

Lemma less_le_trans_false (x y z : N) :
  less y x = false -> less z y = false -> less z x = false.
Proof.
  intros Hxy Hyz. destruct (less z x) eqn:Hzx; [|reflexivity].
  destruct (less_cases x y) as [(A & _)|[(_ & A1 & A2)|(_ & A1 & A2)]].
  - apply equal_true in A. subst. congruence.
  - rewrite (less_trans _ _ _ Hzx A1) in Hyz. discriminate.
  - congruence.
Qed.

Lemma comparator_dst_le (a b : edge_ptr) :
  src_of a = src_of b -> EdgePtrComparator a b = true ->
  less (dst_of b) (dst_of a) = false.
Proof.
  unfold src_of, dst_of. intros Hsrc Hcmp.
  rewrite EdgePtrComparator_unfold in Hcmp.
  destruct (ptr_eq a b); [discriminate|].
  destruct (edge_eq (pointee a) (pointee b)) eqn:Heq.
  - apply edge_eq_true in Heq. rewrite Heq. apply less_irrefl.
  - unfold edge_less in Hcmp. rewrite Hsrc, less_irrefl in Hcmp.
    destruct (less (snd (get_nodes (pointee a))) (snd (get_nodes (pointee b)))) eqn:Hd.
    + apply less_asym. exact Hd.
    + destruct (less (snd (get_nodes (pointee b))) (snd (get_nodes (pointee a))));
        [discriminate|reflexivity].
Qed.

Lemma in_set_insert (x : edge_ptr) (s : list edge_ptr) (z : edge_ptr) :
  In z (fst (set_insert x s)) -> z = x \/ In z s.
Proof.
  induction s as [|y s IH]; cbn.
  - intros [<-|[]]. auto.
  - destruct (EdgePtrComparator x y); cbn.
    + intros [<-|H]; auto.
    + destruct (EdgePtrComparator y x); cbn; [|auto].
      destruct (set_insert x s) as [r b]. cbn in *.
      intros [<-|H]; [auto|]. destruct (IH H); auto.
Qed.

Lemma dst_ordered_insert (x : edge_ptr) (s : list edge_ptr) :
  (forall y, In y s -> src_of y = src_of x) ->
  dst_ordered s -> dst_ordered (fst (set_insert x s)).
Proof.
  unfold dst_ordered. intros Hsrc Hs. induction Hs as [|y s Hs IH Hall]; cbn.
  - constructor; constructor.
  - destruct (EdgePtrComparator x y) eqn:Hxy; cbn.
    + constructor; [constructor; assumption|].
      assert (Hy : less (dst_of y) (dst_of x) = false).
      { apply comparator_dst_le; [|exact Hxy]. symmetry. apply Hsrc. left. reflexivity. }
      constructor; [exact Hy|].
      rewrite Forall_forall in *. intros z Hz.
      exact (less_le_trans_false _ _ _ Hy (Hall z Hz)).
    + destruct (EdgePtrComparator y x) eqn:Hyx; cbn; [|constructor; assumption].
      assert (IH' := IH (fun z Hz => Hsrc z (or_intror Hz))).
      pose proof (in_set_insert x s) as Hin.
      destruct (set_insert x s) as [r b]. cbn in *.
      constructor; [exact IH'|].
      rewrite Forall_forall in *. intros z Hz.
      destruct (Hin z Hz) as [->|Hz']; [|auto].
      apply comparator_dst_le; [|exact Hyx]. apply Hsrc. left. reflexivity.
Qed.

Lemma in_erase_at (s : list edge_ptr) (i : nat) (z : edge_ptr) :
  In z (set_erase_at i s) -> In z s.
Proof.
  revert i. induction s as [|y s IH]; intros [|i]; cbn; auto.
  intros [<-|H]; eauto.
Qed.

Lemma in_erase_at_other (s : list edge_ptr) (i : nat) (h z : edge_ptr) :
  nth_error s i = Some h -> In z s -> z <> h -> In z (set_erase_at i s).
Proof.
  revert i. induction s as [|y s IH]; intros [|i]; cbn; try discriminate.
  - intros H. injection H as ->. intros [<-|Hz] Hne; [contradiction|exact Hz].
  - intros H [<-|Hz] Hne; [left; reflexivity|]. right. exact (IH i H Hz Hne).
Qed.

Lemma distinct_contents_not_in (y : edge_ptr) (s : list edge_ptr) :
  existsb (edge_content_equal y) s = false -> ~ In y s.
Proof.
  intros H Hin.
  assert (existsb (edge_content_equal y) s = true).
  { apply existsb_exists. exists y. split; [exact Hin|].
    unfold edge_content_equal. apply edge_eq_refl. }
  congruence.
Qed.

Lemma erased_not_in (s : list edge_ptr) (i : nat) (h : edge_ptr) :
  distinct_contents s = true -> nth_error s i = Some h -> ~ In h (set_erase_at i s).
Proof.
  revert i. induction s as [|y s IH]; intros [|i] Hs; cbn; try discriminate;
    cbn in Hs; apply andb_true_iff in Hs; destruct Hs as [Hy Hs];
    apply negb_true_iff in Hy.
  - intros H. injection H as ->. apply distinct_contents_not_in. exact Hy.
  - intros H [->|Hin].
    + apply (distinct_contents_not_in h s Hy). exact (nth_error_In _ _ H).
    + exact (IH i Hs H Hin).
Qed.

Lemma dst_ordered_erase_at (s : list edge_ptr) (i : nat) :
  dst_ordered s -> dst_ordered (set_erase_at i s).
Proof.
  unfold dst_ordered. intros Hs. revert i.
  induction Hs as [|y s Hs IH Hall]; intros [|i]; cbn; try constructor; auto.
  rewrite Forall_forall in *. intros z Hz. apply Hall. exact (in_erase_at s i z Hz).
Qed.

(** In a content-distinct set the first element equal to a given edge is
    the only one. *)
Lemma find_if_unique (c h : edge_ptr) (s : list edge_ptr) :
  distinct_contents s = true -> In h s -> edge_content_equal c h = true ->
  nth_error s (find_if (edge_content_equal c) s) = Some h.
Proof.
  induction s as [|y s IH]; intros Hs Hin Hh; [contradiction|].
  cbn in Hs. apply andb_true_iff in Hs. destruct Hs as [Hy Hs].
  apply negb_true_iff in Hy. cbn.
  destruct (edge_content_equal c y) eqn:Hcy; cbn.
  - destruct Hin as [->|Hin]; [reflexivity|]. exfalso.
    assert (existsb (edge_content_equal y) s = true); [|congruence].
    apply existsb_exists. exists h. split; [exact Hin|].
    unfold edge_content_equal in *. apply edge_eq_true in Hcy, Hh.
    rewrite Hh, <- Hcy. apply edge_eq_refl.
  - destruct Hin as [->|Hin]; [congruence|]. exact (IH Hs Hin Hh).
Qed.

Lemma set_insert_mono (x : edge_ptr) (s : list edge_ptr) (z : edge_ptr) :
  In z s -> In z (fst (set_insert x s)).
Proof.
  induction s as [|y s IH]; cbn; [contradiction|].
  destruct (EdgePtrComparator x y); cbn; [auto|].
  destruct (EdgePtrComparator y x); cbn; [|auto].
  destruct (set_insert x s) as [r b]. cbn in *.
  intros [<-|H]; auto.
Qed.

Lemma set_insert_in_self (x : edge_ptr) (s r : list edge_ptr) :
  set_insert x s = (r, true) -> In x r.
Proof.
  revert r. induction s as [|y s IH]; cbn; intros r H.
  - injection H as <-. left. reflexivity.
  - destruct (EdgePtrComparator x y).
    + injection H as <-. left. reflexivity.
    + destruct (EdgePtrComparator y x); [|discriminate].
      destruct (set_insert x s) as [r' b]. injection H as <- ->.
      right. exact (IH r' eq_refl).
Qed.

Lemma create_edge_ptr_fields (a : addr) (src dst : N) (weight : option E) :
  address (create_edge_ptr a src dst weight) = a
  /\ src_of (create_edge_ptr a src dst weight) = src
  /\ dst_of (create_edge_ptr a src dst weight) = dst.
Proof. destruct weight; repeat split. Qed.

(** A structurally equal edge has the same endpoints. *)
Lemma content_equal_endpoints (c h : edge_ptr) :
  edge_content_equal c h = true -> src_of h = src_of c /\ dst_of h = dst_of c.
Proof.
  unfold edge_content_equal, src_of, dst_of. intros H.
  apply edge_eq_true in H. rewrite H. auto.
Qed.

Lemma existed_edge_true (s : list edge_ptr) (c : edge_ptr) :
  existed_edge s c = true ->
  exists h, In h s /\ edge_content_equal c h = true.
Proof.
  unfold existed_edge.
  destruct (Nat.eqb_spec (find_if (edge_content_equal c) s) (List.length s)) as [|Hne];
    [discriminate|]. intros _.
  destruct (find_if_found _ _ Hne) as (h & Hh & Hp).
  exists h. split; [exact (nth_error_In _ _ Hh)|exact Hp].
Qed.

Lemma existed_edge_in (s : list edge_ptr) (c h : edge_ptr) :
  In h s -> edge_content_equal c h = true -> existed_edge s c = true.
Proof.
  intros Hin Hp. unfold existed_edge.
  destruct (Nat.eqb_spec (find_if (edge_content_equal c) s) (List.length s)) as [He|];
    [|reflexivity].
  apply find_if_none in He.
  assert (existsb (edge_content_equal c) s = true)
    by (apply existsb_exists; eauto).
  congruence.
Qed.

(** In a consistent state the outgoing set of [src] holds an edge equal to
    (src, dst, weight) exactly when the incoming set of [dst] does. *)
Lemma existed_edge_mirror (w : world) (src dst : N) (weight : option E) (a : addr) :
  consistent w ->
  is_node (g_ w) src = true -> is_node (g_ w) dst = true ->
  existed_edge (fst (subscript (g_ w) src)) (create_edge_ptr a src dst weight)
  = existed_edge (snd (subscript (g_ w) dst)) (create_edge_ptr a src dst weight).
Proof.
  intros [_ Hc] Hs Hd.
  destruct (create_edge_ptr_fields a src dst weight) as (_ & Hcs & Hcd).
  set (c := create_edge_ptr a src dst weight) in *.
  destruct (existed_edge (fst (subscript (g_ w) src)) c) eqn:Ho.
  - apply existed_edge_true in Ho. destruct Ho as (h & Hin & Hp).
    destruct (content_equal_endpoints _ _ Hp) as [_ Hhd].
    destruct (Hc src Hs) as (HO & _). destruct (HO h Hin) as (_ & _ & Hmirror & _).
    rewrite Hhd, Hcd in Hmirror. symmetry. exact (existed_edge_in _ _ _ Hmirror Hp).
  - destruct (existed_edge (snd (subscript (g_ w) dst)) c) eqn:Hi; [|reflexivity].
    apply existed_edge_true in Hi. destruct Hi as (h & Hin & Hp).
    destruct (content_equal_endpoints _ _ Hp) as [Hhs _].
    destruct (Hc dst Hd) as (_ & HI & _). destruct (HI h Hin) as (_ & _ & Hmirror & _).
    rewrite Hhs, Hcs in Hmirror.
    rewrite (existed_edge_in _ _ _ Hmirror Hp) in Ho. discriminate.
Qed.

Lemma consistent_insert_edge (src dst : N) (weight : option E) (w : world) :
  consistent w -> consistent (snd (insert_edge src dst weight w)).
Proof.
  intros Hw.
  destruct (is_node (g_ w) src) eqn:Hs;
    [|rewrite (proj1 (absent_argument_throws w)) by auto; exact Hw].
  destruct (is_node (g_ w) dst) eqn:Hd;
    [|rewrite (proj1 (absent_argument_throws w)) by auto; exact Hw].
  set (e := create_edge_ptr (brk w) src dst weight).
  destruct (existed_edge (fst (subscript (g_ w) src)) e) eqn:Ho;
    [rewrite (insert_edge_duplicate src dst weight w Hs Hd Ho); exact Hw|].
  assert (Hi : existed_edge (snd (subscript (g_ w) dst)) e = false)
    by (rewrite <- Ho; symmetry; apply existed_edge_mirror; assumption).
  destruct Hw as [Hkeys Hc].
  destruct (create_edge_ptr_fields (brk w) src dst weight) as (Hea & Hes & Hed).
  fold e in Hea, Hes, Hed.
  destruct (insert_edge_links src dst weight w Hs Hd Ho Hi) as (w' & Hrun & _ & _).
  { intros y Hy. destruct (Hc src Hs) as (HO & _).
    destruct (HO y Hy) as (_ & _ & _ & Hlt). lia. }
  { intros y Hy. destruct (Hc dst Hd) as (_ & HI & _).
    destruct (HI y Hy) as (_ & _ & _ & Hlt). lia. }
  rewrite Hrun. cbn [snd].
  destruct (insert_edge_true_inv src dst weight w w' Hrun)
    as (_ & _ & _ & _ & out' & in' & Hout & Hin & ->).
  fold e in Hout, Hin.
  set (g0 := map_update src (fun p => (out', snd p)) (g_ w)) in *.
  set (g1 := map_update dst (fun p => (fst p, in')) g0).
  assert (Hin0 : snd (subscript g0 dst) = snd (subscript (g_ w) dst))
    by apply in_before_link.
  rewrite Hin0 in Hin.
  assert (Hnode : forall k, is_node g1 k = is_node (g_ w) k).
  { intros k. unfold g1.
    rewrite is_node_update_iff by (unfold g0; rewrite is_node_update_iff; assumption).
    unfold g0. apply is_node_update_iff. exact Hs. }
  assert (Hfst : forall k, fst (subscript g1 k)
                           = if equal k src then out' else fst (subscript (g_ w) k)).
  { intros k. destruct (equal_spec k src) as [->|Hne].
    - apply out_after_links.
    - exact (proj1 (insert_edge_frame src dst weight w _ _ k Hrun) Hne). }
  assert (Hsnd : forall k, snd (subscript g1 k)
                           = if equal k dst then in' else snd (subscript (g_ w) k)).
  { intros k. destruct (equal_spec k dst) as [->|Hne].
    - unfold g1. rewrite subscript_update_same. reflexivity.
    - exact (proj2 (insert_edge_frame src dst weight w _ _ k Hrun) Hne). }
  assert (Hmono1 : forall k z, In z (fst (subscript (g_ w) k)) -> In z (fst (subscript g1 k))).
  { intros k z Hz. rewrite Hfst. destruct (equal_spec k src) as [->|_]; [|exact Hz].
    replace out' with (fst (set_insert e (fst (subscript (g_ w) src))))
      by (rewrite Hout; reflexivity).
    apply set_insert_mono. exact Hz. }
  assert (Hmono2 : forall k z, In z (snd (subscript (g_ w) k)) -> In z (snd (subscript g1 k))).
  { intros k z Hz. rewrite Hsnd. destruct (equal_spec k dst) as [->|_]; [|exact Hz].
    replace in' with (fst (set_insert e (snd (subscript (g_ w) dst))))
      by (rewrite Hin; reflexivity).
    apply set_insert_mono. exact Hz. }
  assert (Hnew1 : In e (fst (subscript g1 src)))
    by (rewrite Hfst, equal_refl; exact (set_insert_in_self _ _ _ Hout)).
  assert (Hnew2 : In e (snd (subscript g1 dst)))
    by (rewrite Hsnd, equal_refl; exact (set_insert_in_self _ _ _ Hin)).
  assert (Hold1 : forall k z, In z (fst (subscript g1 k)) ->
                              z = e \/ In z (fst (subscript (g_ w) k))).
  { intros k z. rewrite Hfst. destruct (equal_spec k src) as [->|_]; [|auto].
    replace out' with (fst (set_insert e (fst (subscript (g_ w) src))))
      by (rewrite Hout; reflexivity).
    apply in_set_insert. }
  assert (Hold2 : forall k z, In z (snd (subscript g1 k)) ->
                              z = e \/ In z (snd (subscript (g_ w) k))).
  { intros k z. rewrite Hsnd. destruct (equal_spec k dst) as [->|_]; [|auto].
    replace in' with (fst (set_insert e (snd (subscript (g_ w) dst))))
      by (rewrite Hin; reflexivity).
    apply in_set_insert. }
  split; cbn [g_ brk]; fold g0; fold g1.
  - unfold g1, g0. rewrite !nodes_update_present; try assumption.
    rewrite is_node_update_iff; assumption.
  - intros k Hk. rewrite Hnode in Hk.
    destruct (Hc k Hk) as (HO & HI & HD1 & HD2 & HS).
    split; [|split; [|split; [|split]]].
    + intros z Hz. destruct (Hold1 k z Hz) as [->|Hz'].
      * rewrite Hes, Hed, Hea, Hnode.
        assert (k = src).
        { rewrite Hfst in Hz. destruct (equal_spec k src); [assumption|].
          destruct (HO e Hz) as (_ & _ & _ & Hlt). rewrite Hea in Hlt. lia. }
        subst k. repeat split; auto.
      * destruct (HO z Hz') as (A & B & C & D). rewrite Hnode.
        repeat split; auto.
    + intros z Hz. destruct (Hold2 k z Hz) as [->|Hz'].
      * rewrite Hes, Hed, Hea, Hnode.
        assert (k = dst).
        { rewrite Hsnd in Hz. destruct (equal_spec k dst); [assumption|].
          destruct (HI e Hz) as (_ & _ & _ & Hlt). rewrite Hea in Hlt. lia. }
        subst k. repeat split; auto.
      * destruct (HI z Hz') as (A & B & C & D). rewrite Hnode.
        repeat split; auto.
    + rewrite Hfst. destruct (equal_spec k src) as [->|_]; [|exact HD1].
      replace out' with (fst (set_insert e (fst (subscript (g_ w) src))))
        by (rewrite Hout; reflexivity).
      apply distinct_contents_insert; assumption.
    + rewrite Hsnd. destruct (equal_spec k dst) as [->|_]; [|exact HD2].
      replace in' with (fst (set_insert e (snd (subscript (g_ w) dst))))
        by (rewrite Hin; reflexivity).
      apply distinct_contents_insert; assumption.
    + rewrite Hfst. destruct (equal_spec k src) as [->|_]; [|exact HS].
      replace out' with (fst (set_insert e (fst (subscript (g_ w) src))))
        by (rewrite Hout; reflexivity).
      apply dst_ordered_insert; [|exact HS].
      intros y Hy. rewrite Hes. exact (proj1 (HO y Hy)).
Qed.

Lemma insert_node_unfold (value : N) (w : world) :
  insert_node value w
  = if is_node (g_ w) value then (Ret false, w)
    else (Ret true, {| g_ := map_assign value ([], []) (g_ w); brk := brk w |}).
Proof.
  unfold insert_node, bind, get, ret, update_g. cbn.
  destruct (is_node (g_ w) value); reflexivity.
Qed.

Lemma consistent_insert_node (value : N) (w : world) :
  consistent w -> consistent (snd (insert_node value w)).
Proof.
  intros Hw. rewrite insert_node_unfold.
  destruct (is_node (g_ w) value) eqn:Hv; cbn [snd]; [exact Hw|].
  destruct Hw as [Hkeys Hc].
  set (g1 := map_assign value ([], []) (g_ w)).
  assert (Hsub : forall k, k <> value -> subscript g1 k = subscript (g_ w) k).
  { intros k Hne. exact (subscript_update_other k value (fun _ => ([], [])) (g_ w) Hne). }
  assert (Hnew : subscript g1 value = ([], []))
    by exact (subscript_update_same value (fun _ => ([], [])) (g_ w)).
  assert (Hmono : forall k, is_node (g_ w) k = true -> is_node g1 k = true)
    by (intros k Hk; apply is_node_assign; auto).
  assert (Hother : forall k, is_node (g_ w) k = true -> k <> value)
    by (intros k Hk ->; congruence).
  split; cbn [g_ brk]; fold g1.
  - apply nodes_assign_sorted. exact Hkeys.
  - intros k Hk. destruct (equal_spec k value) as [->|Hne].
    + rewrite Hnew. cbn. repeat split; try contradiction; constructor.
    + apply is_node_assign in Hk. destruct Hk as [|Hk]; [contradiction|].
      destruct (Hc k Hk) as (HO & HI & HD1 & HD2 & HS).
      rewrite (Hsub k Hne). repeat split; auto.
      * exact (proj1 (HO e H)).
      * apply Hmono. exact (proj1 (proj2 (HO e H))).
      * destruct (HO e H) as (_ & B & C & _). rewrite (Hsub _ (Hother _ B)). exact C.
      * exact (proj2 (proj2 (proj2 (HO e H)))).
      * exact (proj1 (HI e H)).
      * apply Hmono. exact (proj1 (proj2 (HI e H))).
      * destruct (HI e H) as (_ & B & C & _). rewrite (Hsub _ (Hother _ B)). exact C.
      * exact (proj2 (proj2 (proj2 (HI e H)))).
Qed.

Lemma consistent_clear (w : world) : consistent w -> consistent (snd (clear w)).
Proof.
  intros _. unfold clear, update_g. cbn. split; [constructor|]. intros k Hk. discriminate.
Qed.

(** Updating the outgoing set of [src] and then the incoming set of [dst]. *)
Lemma fst_after_updates (src dst : N) (F G : @edge_ptr_set N E -> @edge_ptr_set N E)
      (g : store) (k : N) :
  fst (subscript (map_update dst (fun p => (fst p, G (snd p)))
                             (map_update src (fun p => (F (fst p), snd p)) g)) k)
  = if equal k src then F (fst (subscript g src)) else fst (subscript g k).
Proof.
  destruct (equal_spec k src) as [->|Hne].
  - destruct (equal_spec src dst) as [<-|Hne'].
    + rewrite !subscript_update_same. reflexivity.
    + rewrite subscript_update_other by exact Hne'.
      rewrite subscript_update_same. reflexivity.
  - destruct (equal_spec k dst) as [->|Hne'].
    + rewrite subscript_update_same. cbn [fst].
      rewrite subscript_update_other by exact Hne. reflexivity.
    + rewrite !subscript_update_other by assumption. reflexivity.
Qed.

Lemma snd_after_updates (src dst : N) (F G : @edge_ptr_set N E -> @edge_ptr_set N E)
      (g : store) (k : N) :
  snd (subscript (map_update dst (fun p => (fst p, G (snd p)))
                             (map_update src (fun p => (F (fst p), snd p)) g)) k)
  = if equal k dst then G (snd (subscript g dst)) else snd (subscript g k).
Proof.
  destruct (equal_spec k dst) as [->|Hne].
  - rewrite subscript_update_same. cbn [snd].
    destruct (equal_spec dst src) as [->|Hne'].
    + rewrite subscript_update_same. reflexivity.
    + rewrite subscript_update_other by exact Hne'. reflexivity.
  - rewrite subscript_update_other by exact Hne.
    destruct (equal_spec k src) as [->|Hne'].
    + rewrite subscript_update_same. reflexivity.
    + rewrite subscript_update_other by exact Hne'. reflexivity.
Qed.

Lemma snd_after_out_update (src dst : N) (F : @edge_ptr_set N E -> @edge_ptr_set N E)
      (g : store) :
  snd (subscript (map_update src (fun p => (F (fst p), snd p)) g) dst)
  = snd (subscript g dst).
Proof.
  destruct (equal_spec dst src) as [->|Hne].
  - rewrite subscript_update_same. reflexivity.
  - rewrite subscript_update_other by exact Hne. reflexivity.
Qed.

Lemma erase_edge_unfold (src dst : N) (weight : option E) (w : world) :
  erase_edge src dst weight w
  = if negb (is_node (g_ w) src) || negb (is_node (g_ w) dst)
    then (Throw erase_edge_what, w)
    else
      let c := create_edge_ptr (brk w) src dst weight in
      let out := fst (subscript (g_ w) src) in
      let i := find_if (edge_content_equal c) out in
      if negb (Nat.eqb i (List.length out)) then
        let g1 := map_update src (fun p => (set_erase_at i (fst p), snd p)) (g_ w) in
        let inc := snd (subscript g1 dst) in
        let j := find_if (edge_content_equal c) inc in
        if negb (Nat.eqb j (List.length inc))
        then (Ret true,
              {| g_ := map_update dst (fun p => (fst p, set_erase_at j (snd p))) g1;
                 brk := brk w |})
        else (Ret false, {| g_ := g1; brk := brk w |})
      else (Ret false, w).
Proof.
  unfold erase_edge, bind, get, throw, ret, update_g. cbn.
  destruct (negb (is_node (g_ w) src) || negb (is_node (g_ w) dst)); [reflexivity|].
  destruct (negb (Nat.eqb _ (List.length (fst (subscript (g_ w) src))))); [|reflexivity].
  cbn. destruct (negb (Nat.eqb _ _)); reflexivity.
Qed.

Lemma consistent_erase_edge (src dst : N) (weight : option E) (w : world) :
  consistent w -> consistent (snd (erase_edge src dst weight w)).
Proof.
  intros Hw.
  destruct (is_node (g_ w) src) eqn:Hs;
    [|rewrite (proj1 (proj2 (proj2 (proj2 (absent_argument_throws w))))) by auto;
      exact Hw].
  destruct (is_node (g_ w) dst) eqn:Hd;
    [|rewrite (proj1 (proj2 (proj2 (proj2 (absent_argument_throws w))))) by auto;
      exact Hw].
  rewrite erase_edge_unfold. rewrite Hs, Hd. cbn [negb orb]. cbv zeta.
  set (c := create_edge_ptr (brk w) src dst weight).
  destruct (create_edge_ptr_fields (brk w) src dst weight) as (_ & Hcs & Hcd).
  fold c in Hcs, Hcd.
  set (out := fst (subscript (g_ w) src)).
  set (inc := snd (subscript (g_ w) dst)).
  destruct (Nat.eqb_spec (find_if (edge_content_equal c) out) (List.length out))
    as [Hnone|Hsome]; cbn [negb snd]; [exact Hw|].
  cbn [g_ brk].
  destruct (find_if_found _ _ Hsome) as (h & Hh & Hp).
  pose proof (nth_error_In _ _ Hh) as Hhin.
  destruct Hw as [Hkeys Hc].
  destruct (content_equal_endpoints _ _ Hp) as [Hhs Hhd].
  rewrite Hcs in Hhs. rewrite Hcd in Hhd.
  assert (Hhinc : In h inc).
  { destruct (Hc src Hs) as (HO & _). destruct (HO h Hhin) as (_ & _ & C & _).
    rewrite Hhd in C. exact C. }
  assert (Hdinc : distinct_contents inc = true)
    by (destruct (Hc dst Hd) as (_ & _ & _ & D & _); exact D).
  assert (Hdout : distinct_contents out = true)
    by (destruct (Hc src Hs) as (_ & _ & D & _); exact D).
  pose proof (find_if_unique c h inc Hdinc Hhinc Hp) as Hh'.
  rewrite snd_after_out_update. fold inc.
  destruct (Nat.eqb_spec (find_if (edge_content_equal c) inc) (List.length inc))
    as [Hnone'|_]; cbn [negb snd g_ brk].
  { exfalso. rewrite Hnone' in Hh'.
    assert (Hx : nth_error inc (List.length inc) = None) by (apply nth_error_None; lia).
    congruence. }
  set (i := find_if (edge_content_equal c) out) in *.
  set (j := find_if (edge_content_equal c) inc) in *.
  set (g2 := map_update dst (fun p => (fst p, set_erase_at j (snd p)))
                        (map_update src (fun p => (set_erase_at i (fst p), snd p)) (g_ w))).
  assert (Hfst : forall k, fst (subscript g2 k)
                           = if equal k src then set_erase_at i out
                             else fst (subscript (g_ w) k))
    by (intros k; apply (fst_after_updates src dst (set_erase_at i) (set_erase_at j))).
  assert (Hsnd : forall k, snd (subscript g2 k)
                           = if equal k dst then set_erase_at j inc
                             else snd (subscript (g_ w) k))
    by (intros k; apply (snd_after_updates src dst (set_erase_at i) (set_erase_at j))).
  assert (Hnode : forall k, is_node g2 k = is_node (g_ w) k).
  { intros k. unfold g2.
    rewrite is_node_update_iff by (rewrite is_node_update_iff; assumption).
    apply is_node_update_iff. exact Hs. }
  assert (Hsub1 : forall k z, In z (fst (subscript g2 k)) ->
                              In z (fst (subscript (g_ w) k)) /\ (k = src -> z <> h)).
  { intros k z. rewrite Hfst. destruct (equal_spec k src) as [->|Hne].
    - intros Hz. split; [exact (in_erase_at _ _ _ Hz)|].
      intros _ ->. exact (erased_not_in out i h Hdout Hh Hz).
    - intros Hz. split; [exact Hz|]. intros; contradiction. }
  assert (Hsub2 : forall k z, In z (snd (subscript g2 k)) ->
                              In z (snd (subscript (g_ w) k)) /\ (k = dst -> z <> h)).
  { intros k z. rewrite Hsnd. destruct (equal_spec k dst) as [->|Hne].
    - intros Hz. split; [exact (in_erase_at _ _ _ Hz)|].
      intros _ ->. exact (erased_not_in inc j h Hdinc Hh' Hz).
    - intros Hz. split; [exact Hz|]. intros; contradiction. }
  assert (Hkeep1 : forall k z, In z (fst (subscript (g_ w) k)) -> z <> h ->
                               In z (fst (subscript g2 k))).
  { intros k z Hz Hne. rewrite Hfst. destruct (equal_spec k src) as [->|_]; [|exact Hz].
    exact (in_erase_at_other out i h z Hh Hz Hne). }
  assert (Hkeep2 : forall k z, In z (snd (subscript (g_ w) k)) -> z <> h ->
                               In z (snd (subscript g2 k))).
  { intros k z Hz Hne. rewrite Hsnd. destruct (equal_spec k dst) as [->|_]; [|exact Hz].
    exact (in_erase_at_other inc j h z Hh' Hz Hne). }
  split; cbn [g_ brk]; fold g2.
  - unfold g2. rewrite !nodes_update_present; try assumption.
    rewrite is_node_update_iff; assumption.
  - intros k Hk. rewrite Hnode in Hk.
    destruct (Hc k Hk) as (HO & HI & HD1 & HD2 & HS).
    split; [|split; [|split; [|split]]].
    + intros z Hz. destruct (Hsub1 k z Hz) as [Hz' Hzh].
      destruct (HO z Hz') as (A & B & C & D). rewrite Hnode.
      repeat split; auto. apply Hkeep2; [exact C|].
      intros ->. apply Hzh; [|reflexivity]. rewrite <- A. exact Hhs.
    + intros z Hz. destruct (Hsub2 k z Hz) as [Hz' Hzh].
      destruct (HI z Hz') as (A & B & C & D). rewrite Hnode.
      repeat split; auto. apply Hkeep1; [exact C|].
      intros ->. apply Hzh; [|reflexivity]. rewrite <- A. exact Hhd.
    + rewrite Hfst. destruct (equal k src); [|exact HD1].
      apply distinct_contents_erase_at. exact Hdout.
    + rewrite Hsnd. destruct (equal k dst); [|exact HD2].
      apply distinct_contents_erase_at. exact Hdinc.
    + rewrite Hfst. destruct (equal_spec k src) as [->|_]; [|exact HS].
      apply dst_ordered_erase_at. exact HS.
Qed.

Lemma erase_node_unfold (value : N) (w : world) :
  erase_node value w
  = if negb (is_node (g_ w) value) then (Ret false, w)
    else (Ret true,
          {| g_ := map_erase value
                     (map (erase_incident value)
                        (map_update value (fun p => (fst p, []))
                           (map_update value (fun p => ([], snd p)) (g_ w))));
             brk := brk w |}).
Proof.
  unfold erase_node, bind, get, ret, update_g. cbn.
  destruct (negb (is_node (g_ w) value)); reflexivity.
Qed.

Lemma nodes_erase_incident (value : N) (m : store) :
  nodes (map (erase_incident value) m) = nodes m.
Proof.
  unfold nodes. rewrite map_map. apply map_ext.
  intros [k [out inc]]. cbn. destruct (negb (equal k value)); reflexivity.
Qed.

Lemma map_find_erase_incident (value k : N) (m : store) :
  map_find k (map (erase_incident value) m)
  = option_map (fun v => snd (erase_incident value (k, v))) (map_find k m).
Proof.
  induction m as [|[k1 [out inc]] m IH]; [reflexivity|].
  cbn [map erase_incident].
  destruct (negb (equal k1 value)) eqn:Hk; cbn [map_find];
    (destruct (less k1 k) eqn:H1; [exact IH|]);
    (destruct (less k k1) eqn:H2; [reflexivity|]);
    (assert (k1 = k) by (apply less_total; assumption)); subst k1;
    cbn [option_map erase_incident]; rewrite Hk; reflexivity.
Qed.

Lemma consistent_erase_node (value : N) (w : world) :
  consistent w -> consistent (snd (erase_node value w)).
Proof.
  intros Hw. rewrite erase_node_unfold.
  destruct (is_node (g_ w) value) eqn:Hv; cbn [negb snd]; [|exact Hw].
  destruct Hw as [Hkeys Hc].
  set (g1 := map_update value (fun p => (fst p, []))
                        (map_update value (fun p => ([], snd p)) (g_ w))).
  set (g2 := map (erase_incident value) g1).
  set (g3 := map_erase value g2).
  assert (Hv0 : is_node (map_update value (fun p => ([], snd p)) (g_ w)) value = true)
    by (rewrite is_node_update_iff; assumption).
  assert (Hn1 : nodes g1 = nodes (g_ w))
    by (unfold g1; rewrite !nodes_update_present; auto).
  assert (Hn2 : nodes g2 = nodes (g_ w))
    by (unfold g2; rewrite nodes_erase_incident; exact Hn1).
  assert (Hs2 : StronglySorted (fun a b => less a b = true) (nodes g2))
    by (rewrite Hn2; exact Hkeys).
  assert (Hfind : forall k, k <> value ->
             map_find k g3
             = option_map (fun v => snd (erase_incident value (k, v))) (map_find k (g_ w))).
  { intros k Hne. unfold g3. rewrite (map_find_erase_other value k g2 Hs2 Hne).
    unfold g2. rewrite map_find_erase_incident. f_equal.
    unfold g1, map_update. rewrite !map_find_assign_other by exact Hne. reflexivity. }
  assert (Hnode : forall k, k <> value -> is_node g3 k = is_node (g_ w) k).
  { intros k Hne. unfold is_node. rewrite (Hfind k Hne).
    destruct (map_find k (g_ w)); reflexivity. }
  assert (Hgone : is_node g3 value = false).
  { unfold is_node, g3. rewrite (map_find_erase_same value g2 Hs2). reflexivity. }
  assert (Hsub : forall k, k <> value ->
             subscript g3 k
             = (erase_if (fun e => equal (dst_of e) value) (fst (subscript (g_ w) k)),
                erase_if (fun e => equal (src_of e) value) (snd (subscript (g_ w) k)))).
  { intros k Hne. unfold subscript. rewrite (Hfind k Hne).
    destruct (map_find k (g_ w)) as [[out inc]|]; cbn; [|reflexivity].
    destruct (equal_spec k value); [contradiction|reflexivity]. }
  split; cbn [g_ brk]; fold g1; fold g2; fold g3.
  - unfold g3. apply nodes_erase_sorted. exact Hs2.
  - intros k Hk.
    assert (Hne : k <> value) by (intros ->; congruence).
    rewrite (Hnode k Hne) in Hk.
    destruct (Hc k Hk) as (HO & HI & HD1 & HD2 & HS).
    rewrite (Hsub k Hne). cbn [fst snd]. unfold erase_if.
    split; [|split; [|split; [|split]]].
    + intros z Hz. apply filter_In in Hz. destruct Hz as [Hz Hp].
      apply negb_true_iff, equal_false in Hp.
      destruct (HO z Hz) as (A & B & C & D).
      rewrite (Hnode _ Hp), (Hsub _ Hp). cbn [snd]. unfold erase_if.
      repeat split; auto. apply filter_In. split; [exact C|].
      apply negb_true_iff. rewrite A.
      destruct (equal_spec k value); [contradiction|reflexivity].
    + intros z Hz. apply filter_In in Hz. destruct Hz as [Hz Hp].
      apply negb_true_iff, equal_false in Hp.
      destruct (HI z Hz) as (A & B & C & D).
      rewrite (Hnode _ Hp), (Hsub _ Hp). cbn [fst]. unfold erase_if.
      repeat split; auto. apply filter_In. split; [exact C|].
      apply negb_true_iff. rewrite A.
      destruct (equal_spec k value); [contradiction|reflexivity].
    + apply distinct_contents_filter. exact HD1.
    + apply distinct_contents_filter. exact HD2.
    + apply dst_ordered_filter. exact HS.
Qed.

Lemma consistent_default : consistent (@graph_default N E).
Proof. split; [constructor|]. intros k Hk. discriminate. Qed.

Lemma consistent_run (ops : list (@op N E)) (w : world) :
  forallb (fun o => negb (rewrites_node o)) ops = true ->
  consistent w -> consistent (run ops w).
Proof.
  unfold run. revert w. induction ops as [|o ops IH]; intros w Hops Hw; [exact Hw|].
  cbn in Hops. apply andb_true_iff in Hops. destruct Hops as [Ho Hops].
  cbn [fold_left]. apply IH; [exact Hops|].
  destruct o as [v|s d x|o n|o n|v|s d x|]; cbn [step]; try discriminate.
  - apply consistent_insert_node, Hw.
  - apply consistent_insert_edge, Hw.
  - apply consistent_erase_node, Hw.
  - apply consistent_erase_edge, Hw.
  - apply consistent_clear, Hw.
Qed.

Lemma sorted_one_record_each (g : store) :
  StronglySorted (fun a b => less a b = true) (nodes g) -> one_record_each g = true.
Proof.
  unfold nodes. induction g as [|[k v] g IH]; cbn; intros Hs; [reflexivity|].
  apply StronglySorted_inv in Hs. destruct Hs as [Hs Hall].
  rewrite (IH Hs), andb_true_r. apply negb_true_iff.
  destruct (existsb (fun entry => equal k (fst entry)) g) eqn:Hex; [|reflexivity].
  apply existsb_exists in Hex. destruct Hex as (entry & Hin & Heq).
  apply equal_true in Heq. rewrite Forall_forall in Hall.
  specialize (Hall (fst entry) (in_map fst _ _ Hin)).
  rewrite <- Heq, less_irrefl in Hall. discriminate.
Qed.

Lemma in_has_ptr (e : edge_ptr) (s : list edge_ptr) : In e s -> has_ptr e s = true.
Proof.
  intros Hin. unfold has_ptr. apply existsb_exists. exists e.
  split; [exact Hin|]. unfold ptr_eq. apply Nat.eqb_refl.
Qed.

(** A consistent state satisfies the store invariant and is well-formed. *)
Lemma consistent_store_invariant (w : world) :
  consistent w -> store_invariant (g_ w) = true /\ well_formed (g_ w).
Proof.
  intros [Hkeys Hc].
  assert (Hentry : forall k v, In (k, v) (g_ w) ->
                               is_node (g_ w) k = true /\ subscript (g_ w) k = v).
  { intros k v Hin. pose proof (map_find_sorted (g_ w) k v Hkeys Hin) as Hf.
    unfold is_node, subscript. rewrite Hf. auto. }
  split.
  - unfold store_invariant. rewrite (sorted_one_record_each _ Hkeys). cbn [andb].
    apply forallb_forall. intros [k [out inc]] Hin. cbn [fst snd].
    destruct (Hentry _ _ Hin) as [Hk Hsub].
    destruct (Hc k Hk) as (HO & HI & _). rewrite Hsub in HO, HI. cbn [fst snd] in *.
    apply andb_true_iff. split; apply forallb_forall; intros e He; unfold linked.
    + destruct (HO e He) as (A & B & C & _). unfold src_of, dst_of in *.
      rewrite A, Hk, B, Hsub. cbn [andb fst].
      rewrite (in_has_ptr e out He), (in_has_ptr e _ C). reflexivity.
    + destruct (HI e He) as (A & B & C & _). unfold src_of, dst_of in *.
      rewrite A, Hk, B, Hsub. cbn [andb snd].
      rewrite (in_has_ptr e inc He), (in_has_ptr e _ C). reflexivity.
  - split; [exact Hkeys|]. intros [k [out inc]] Hin. cbn [fst snd].
    destruct (Hentry _ _ Hin) as [Hk Hsub].
    destruct (Hc k Hk) as (HO & _ & _ & _ & HS). rewrite Hsub in HO, HS. cbn [fst] in *.
    split; [exact HS|]. intros e He. exact (proj1 (proj2 (HO e He))).
Qed.

(** *** replace_node and merge_replace_node on a consistent state *)

Lemma insert_edge_nodes (src dst : N) (weight : option E) (w w' : world) (r : res bool) :
  insert_edge src dst weight w = (r, w') ->
  forall k, is_node (g_ w') k = is_node (g_ w) k.
Proof.
  unfold insert_edge, bind, get, throw, ret, allocated, update_g. cbn [g_ brk fst snd].
  destruct (is_node (g_ w) src) eqn:Hs; cbn [negb orb];
    [|intros H; injection H as <- <-; reflexivity].
  destruct (is_node (g_ w) dst) eqn:Hd; cbn [negb orb];
    [|intros H; injection H as <- <-; reflexivity].
  destruct (existed_edge _ _ || existed_edge _ _);
    [intros H; injection H as <- <-; reflexivity|].
  destruct (set_insert _ (fst (subscript (g_ w) src))) as [out' linked_out].
  cbn [g_ brk fst snd].
  destruct linked_out.
  - destruct (set_insert _ (snd (subscript _ dst))) as [in' linked_in].
    cbn [g_ brk fst snd]. intros H. injection H as <- <-. cbn [g_]. intros k.
    rewrite is_node_update_iff by (rewrite is_node_update_iff; assumption).
    apply is_node_update_iff. exact Hs.
  - intros H. injection H as <- <-. cbn [g_]. intros k.
    apply is_node_update_iff. exact Hs.
Qed.

(** A loop of [move_node_data] over edges whose rewritten endpoints are
    present runs to its end without throwing. *)
Lemma for_each_insert_new_edge (l : list edge_ptr) (S D : edge_ptr -> N) (w : world) :
  consistent w ->
  (forall e, In e l -> is_node (g_ w) (S e) = true /\ is_node (g_ w) (D e) = true) ->
  exists w', for_each l (fun e => insert_new_edge e (S e) (D e)) w = (Ret tt, w')
             /\ consistent w'
             /\ forall k, is_node (g_ w') k = is_node (g_ w) k.
Proof.
  revert w. induction l as [|e l IH]; intros w Hw Hl; cbn [for_each].
  - exists w. split; [reflexivity|]. split; [exact Hw|reflexivity].
  - destruct (Hl e (or_introl eq_refl)) as [Hs Hd].
    set (x := if is_weighted (pointee e) then get_weight (pointee e) else None).
    destruct (proj1 (present_arguments_do_not_throw w (S e) (D e) x Hs Hd))
      as (b & w1 & Hrun).
    assert (Hw1 : consistent w1).
    { pose proof (consistent_insert_edge (S e) (D e) x w Hw) as H.
      rewrite Hrun in H. exact H. }
    pose proof (insert_edge_nodes _ _ _ _ _ _ Hrun) as Hn1.
    destruct (IH w1 Hw1) as (w' & Hrest & Hw' & Hn').
    { intros e' He'. rewrite !Hn1. apply Hl. right. exact He'. }
    exists w'. split; [|split; [exact Hw'|]].
    + unfold bind at 1. unfold insert_new_edge, bind, ret.
      assert (Hcall : (if is_weighted (pointee e)
                       then insert_edge (S e) (D e) (get_weight (pointee e))
                       else insert_edge (S e) (D e) None) w = (Ret b, w1)).
      { unfold x in Hrun. destruct (is_weighted (pointee e)); exact Hrun. }
      rewrite Hcall. exact Hrest.
    + intros k. rewrite Hn', Hn1. reflexivity.
Qed.

Lemma move_node_data_returns (old_node new_node : N) (w : world) :
  consistent w ->
  is_node (g_ w) old_node = true -> is_node (g_ w) new_node = true ->
  exists w', move_node_data old_node new_node w = (Ret tt, w').
Proof.
  intros Hw Hold Hnew. unfold move_node_data.
  unfold bind at 1. unfold get at 1.
  destruct (for_each_insert_new_edge (fst (subscript (g_ w) old_node))
                                     (fun _ => new_node) dst_of w Hw)
    as (w1 & Hloop1 & Hw1 & Hn1).
  { intros e He. split; [exact Hnew|].
    destruct Hw as [_ Hc]. destruct (Hc old_node Hold) as (HO & _).
    exact (proj1 (proj2 (HO e He))). }
  unfold bind at 1. unfold dst_of in Hloop1. rewrite Hloop1.
  unfold bind at 1. unfold get at 1.
  destruct (for_each_insert_new_edge (snd (subscript (g_ w1) old_node))
                                     src_of (fun _ => new_node) w1 Hw1)
    as (w2 & Hloop2 & Hw2 & Hn2).
  { intros e He. split; [|rewrite Hn1; exact Hnew].
    destruct Hw1 as [_ Hc]. rewrite <- Hn1 in Hold.
    destruct (Hc old_node Hold) as (_ & HI & _).
    exact (proj1 (proj2 (HI e He))). }
  unfold bind at 1. unfold src_of in Hloop2. rewrite Hloop2.
  eexists. reflexivity.
Qed.

(** On a consistent state [replace_node] and [merge_replace_node] throw
    exactly when a node they require is absent. *)
Lemma replace_node_returns (old_data new_data : N) (w : world) :
  consistent w ->
  is_node (g_ w) old_data = true ->
  exists b w', replace_node old_data new_data w = (Ret b, w').
Proof.
  intros Hw Hold. unfold replace_node. unfold bind at 1. unfold get at 1.
  rewrite Hold. cbn [negb].
  destruct (is_node (g_ w) new_data) eqn:Hnew; [eexists; eexists; reflexivity|].
  unfold bind at 1. rewrite insert_node_unfold, Hnew.
  set (w1 := {| g_ := map_assign new_data ([], []) (g_ w); brk := brk w |}).
  assert (Hw1 : consistent w1).
  { pose proof (consistent_insert_node new_data w Hw) as H.
    rewrite insert_node_unfold, Hnew in H. exact H. }
  destruct (move_node_data_returns old_data new_data w1 Hw1) as (w2 & Hmove).
  { apply is_node_assign. auto. }
  { apply is_node_assign. auto. }
  unfold bind at 1. rewrite Hmove. eexists. eexists. reflexivity.
Qed.

Lemma merge_replace_node_returns (old_data new_data : N) (w : world) :
  consistent w ->
  is_node (g_ w) old_data = true -> is_node (g_ w) new_data = true ->
  exists w', merge_replace_node old_data new_data w = (Ret tt, w').
Proof.
  intros Hw Hold Hnew. unfold merge_replace_node. unfold bind at 1. unfold get at 1.
  rewrite Hold, Hnew. cbn [negb orb].
  destruct (equal old_data new_data); [eexists; reflexivity|].
  exact (move_node_data_returns old_data new_data w Hw Hold Hnew).
Qed.

(** On a consistent state [insert_edge] answers false, changing nothing,
    when the outgoing set of [src] holds an equal edge, and otherwise
    returns true with one new handle in the outgoing set of [src] and in the
    incoming set of [dst]. *)
Lemma insert_edge_on_consistent (src dst : N) (weight : option E) (w : world) :
  consistent w ->
  is_node (g_ w) src = true -> is_node (g_ w) dst = true ->
  let e := create_edge_ptr (brk w) src dst weight in
  if existed_edge (fst (subscript (g_ w) src)) e
  then insert_edge src dst weight w = (Ret false, w)
  else exists w',
      insert_edge src dst weight w = (Ret true, w')
      /\ (forall z, In z (fst (subscript (g_ w') src))
                    <-> z = e \/ In z (fst (subscript (g_ w) src)))
      /\ (forall z, In z (snd (subscript (g_ w') dst))
                    <-> z = e \/ In z (snd (subscript (g_ w) dst))).
Proof.
  intros Hw Hs Hd e.
  destruct (existed_edge (fst (subscript (g_ w) src)) e) eqn:Ho.
  - exact (insert_edge_duplicate src dst weight w Hs Hd Ho).
  - assert (Hi : existed_edge (snd (subscript (g_ w) dst)) e = false)
      by (rewrite <- Ho; symmetry; apply existed_edge_mirror; assumption).
    destruct Hw as [_ Hc].
    apply (insert_edge_links src dst weight w Hs Hd Ho Hi).
    + intros y Hy. destruct (Hc src Hs) as (HO & _).
      destruct (HO y Hy) as (_ & _ & _ & Hlt). lia.
    + intros y Hy. destruct (Hc dst Hd) as (_ & HI & _).
      destruct (HI y Hy) as (_ & _ & _ & Hlt). lia.
Qed.

(** Whatever insert_node, insert_edge, erase_node, erase_edge and clear
    calls were made on a default-constructed graph, the state is
    consistent: it satisfies the store invariant, and the traversal from
    [begin()] to [end()] yields exactly the concatenated [edges(s, d)]
    answers. *)
Lemma plain_run_consistent (ops : list (@op N E)) :
  forallb (fun o => negb (rewrites_node o)) ops = true ->
  consistent (run ops graph_default).
Proof. intros Hops. exact (consistent_run ops graph_default Hops consistent_default). Qed.

Lemma plain_run_store_invariant (ops : list (@op N E)) :
  forallb (fun o => negb (rewrites_node o)) ops = true ->
  store_invariant (g_ (run ops graph_default)) = true.
Proof.
  intros Hops. exact (proj1 (consistent_store_invariant _ (plain_run_consistent ops Hops))).
Qed.

Lemma plain_run_traversal_complete (this : addr) (ops : list (@op N E)) (fuel : nat) :
  forallb (fun o => negb (rewrites_node o)) ops = true ->
  List.length (stored_values (g_ (run ops graph_default))) < fuel ->
  exists visited,
    traverse fuel (begin_ this (run ops graph_default)) (end_ this (run ops graph_default))
    = Some visited
    /\ edges_by_connections (g_ (run ops graph_default)) = Ret visited.
Proof.
  intros Hops Hfuel. apply traversal_complete_well_formed; [|exact Hfuel].
  exact (proj2 (consistent_store_invariant _ (plain_run_consistent ops Hops))).
Qed.

End Consistency.

(** * The remaining members *)

Section MapFacts.
Context {N E : Type} `{OrdN : Ord N} `{OrdE : Ord E}.

Local Abbreviation store := (@store N E).
Local Abbreviation edge_ptr := (@edge_ptr N E).
Local Abbreviation edge_ptr_set_pair := (@edge_ptr_set_pair N E).
Local Abbreviation world := (@world N E).

Lemma map_find_key (k : N) (m : store) (v : edge_ptr_set_pair) :
  map_find k m = Some v -> In (k, v) m.
Proof.
  induction m as [|[k' v'] m IH]; cbn; [discriminate|].
  destruct (less k' k) eqn:H1; [intros H; right; exact (IH H)|].
  destruct (less k k') eqn:H2; [discriminate|].
  intros [= ->]. left. rewrite (less_total _ _ H1 H2). reflexivity.
Qed.

Lemma is_node_in_nodes (g : store) (k : N) :
  is_node g k = true -> In k (nodes g).
Proof.
  unfold is_node. destruct (map_find k g) as [v|] eqn:Hv; [|discriminate].
  intros _. apply map_find_key in Hv. unfold nodes.
  change k with (fst (k, v)). apply in_map. exact Hv.
Qed.

Lemma in_nodes_is_node (g : store) (k : N) :
  StronglySorted (fun a b => less a b = true) (nodes g) ->
  In k (nodes g) -> is_node g k = true.
Proof.
  intros Hs Hin. unfold nodes in Hin. apply in_map_iff in Hin.
  destruct Hin as [[k' v] [Hk Hin]]. cbn in Hk. subst k'.
  unfold is_node. rewrite (map_find_sorted g k v Hs Hin). reflexivity.
Qed.

Lemma map_assign_same_value (k : N) (v : edge_ptr_set_pair) (m : store) :
  map_find k m = Some v -> map_assign k v m = m.
Proof.
  induction m as [|[k' v'] m IH]; cbn; [discriminate|].
  destruct (less k' k) eqn:H1; [intros H; rewrite (IH H); reflexivity|].
  destruct (less k k') eqn:H2; [discriminate|].
  intros [= ->]. reflexivity.
Qed.

Lemma in_map_assign_key (k : N) (v : edge_ptr_set_pair) (m : store)
      (entry : N * edge_ptr_set_pair) :
  In entry (map_assign k v m) -> entry = (k, v) \/ In entry m.
Proof.
  induction m as [|[k' v'] m IH]; cbn.
  - intros [H|[]]. left. symmetry. exact H.
  - destruct (less k' k) eqn:H1; cbn.
    + intros [H|H]; [right; left; exact H|].
      destruct (IH H) as [H'|H']; [left; exact H'|right; right; exact H'].
    + destruct (less k k') eqn:H2; cbn.
      * intros [H|[H|H]]; [left; symmetry; exact H|right; left; exact H|right; right; exact H].
      * intros [H|H]; [|right; right; exact H].
        left. rewrite <- H, (less_total _ _ H1 H2). reflexivity.
Qed.

(** The canonical edge order is the lexicographic order on source,
    destination and weight, an absent weight first. *)
Lemma edge_less_spec (a b : @edge N E) :
  edge_less a b = true
  <-> less (fst (get_nodes a)) (fst (get_nodes b)) = true
      \/ (fst (get_nodes a) = fst (get_nodes b)
          /\ (less (snd (get_nodes a)) (snd (get_nodes b)) = true
              \/ (snd (get_nodes a) = snd (get_nodes b)
                  /\ optional_lt (get_weight a) (get_weight b) = true))).
Proof.
  assert (Hw : match get_weight a, get_weight b with
               | None, Some _ => true
               | Some x, Some y => less x y
               | _, _ => false
               end = optional_lt (get_weight a) (get_weight b)).
  { destruct (get_weight a), (get_weight b); reflexivity. }
  unfold edge_less. rewrite Hw.
  destruct (less_cases (fst (get_nodes a)) (fst (get_nodes b)))
    as [(A1 & A2 & A3)|[(A1 & A2 & A3)|(A1 & A2 & A3)]];
    destruct (less_cases (snd (get_nodes a)) (snd (get_nodes b)))
      as [(B1 & B2 & B3)|[(B1 & B2 & B3)|(B1 & B2 & B3)]];
    rewrite ?A2, ?A3, ?B2, ?B3;
    repeat match goal with
           | H : equal _ _ = true |- _ => apply equal_true in H
           | H : equal _ _ = false |- _ => apply equal_false in H
           end;
    intuition congruence.
Qed.

Lemma optional_lt_trans (a b c : option E) :
  optional_lt a b = true -> optional_lt b c = true -> optional_lt a c = true.
Proof.
  destruct a, b, c; cbn; try congruence. apply less_trans.
Qed.

Lemma edge_less_trans (a b c : @edge N E) :
  edge_less a b = true -> edge_less b c = true -> edge_less a c = true.
Proof.
  rewrite !edge_less_spec.
  intros [H1|[E1 [H1|[F1 H1]]]] [H2|[E2 [H2|[F2 H2]]]].
  - left. exact (less_trans _ _ _ H1 H2).
  - left. rewrite <- E2. exact H1.
  - left. rewrite <- E2. exact H1.
  - left. rewrite E1. exact H2.
  - right. split; [congruence|]. left. exact (less_trans _ _ _ H1 H2).
  - right. split; [congruence|]. left. rewrite <- F2. exact H1.
  - left. rewrite E1. exact H2.
  - right. split; [congruence|]. left. rewrite F1. exact H2.
  - right. split; [congruence|]. right. split; [congruence|].
    exact (optional_lt_trans _ _ _ H1 H2).
Qed.

Lemma edge_less_irrefl (a : @edge N E) : edge_less a a = false.
Proof.
  destruct (edge_less a a) eqn:H; [|reflexivity].
  apply edge_less_spec in H.
  destruct H as [H|[_ [H|[_ H]]]]; try (rewrite less_irrefl in H; discriminate).
  destruct (get_weight a); cbn in H; [rewrite less_irrefl in H|]; discriminate.
Qed.

(** Where the comparator puts a handle before another of different content,
    the canonical order does. *)
Lemma comparator_content_less (x y : edge_ptr) :
  edge_content_equal x y = false ->
  EdgePtrComparator x y = true -> edge_less (pointee x) (pointee y) = true.
Proof.
  unfold edge_content_equal. rewrite EdgePtrComparator_unfold, (edge_eq_sym (pointee y)).
  intros ->. destruct (ptr_eq x y); [discriminate|]. auto.
Qed.

Lemma canonical_insert (x : edge_ptr) (s : list edge_ptr) :
  canonical s ->
  existsb (edge_content_equal x) s = false ->
  canonical (fst (set_insert x s)).
Proof.
  unfold canonical.
  induction s as [|y s IH]; intros Hs Hx; cbn.
  - constructor; [constructor|constructor].
  - cbn in Hx. apply orb_false_iff in Hx. destruct Hx as [Hxy Hx].
    inversion Hs as [|? ? Hs' Hy]; subst.
    destruct (EdgePtrComparator x y) eqn:Hc; cbn.
    + pose proof (comparator_content_less x y Hxy Hc) as Hlt.
      constructor; [exact Hs|]. constructor; [exact Hlt|].
      rewrite Forall_forall in *. intros z Hz.
      exact (edge_less_trans _ _ _ Hlt (Hy z Hz)).
    + destruct (EdgePtrComparator y x) eqn:Hc'; [|exact Hs].
      specialize (IH Hs' Hx).
      pose proof (in_set_insert x s) as Hin.
      destruct (set_insert x s) as [r b]. cbn in *.
      constructor; [exact IH|]. rewrite Forall_forall in *. intros z Hz.
      destruct (Hin z Hz) as [->|Hz']; [|exact (Hy z Hz')].
      apply comparator_content_less; [|exact Hc'].
      rewrite edge_content_equal_sym. exact Hxy.
Qed.

Lemma canonical_filter (p : edge_ptr -> bool) (s : list edge_ptr) :
  canonical s -> canonical (filter p s).
Proof.
  unfold canonical. induction s as [|y s IH]; intros Hs; cbn; [constructor|].
  inversion Hs as [|? ? Hs' Hy]; subst.
  destruct (p y); [|exact (IH Hs')].
  constructor; [exact (IH Hs')|]. rewrite Forall_forall in *.
  intros z Hz. apply filter_In in Hz. exact (Hy z (proj1 Hz)).
Qed.

Lemma canonical_erase_at (s : list edge_ptr) (i : nat) :
  canonical s -> canonical (set_erase_at i s).
Proof.
  unfold canonical. revert i. induction s as [|y s IH]; intros i Hs;
    [destruct i; constructor|].
  inversion Hs as [|? ? Hs' Hy]; subst.
  destruct i as [|i]; cbn; [exact Hs'|].
  constructor; [exact (IH i Hs')|]. rewrite Forall_forall in *.
  intros z Hz. exact (Hy z (in_erase_at _ _ _ Hz)).
Qed.

(** A canonical set holds no two structurally equal edges. *)
Lemma canonical_distinct (s : list edge_ptr) :
  canonical s -> distinct_contents s = true.
Proof.
  unfold canonical. induction s as [|y s IH]; intros Hs; cbn; [reflexivity|].
  inversion Hs as [|? ? Hs' Hy]; subst. rewrite (IH Hs'), andb_true_r.
  apply negb_true_iff. destruct (existsb (edge_content_equal y) s) eqn:Hex; [|reflexivity].
  apply existsb_exists in Hex. destruct Hex as [z [Hz Heq]].
  unfold edge_content_equal in Heq. apply edge_eq_true in Heq.
  rewrite Forall_forall in Hy. specialize (Hy z Hz).
  rewrite Heq, edge_less_irrefl in Hy. discriminate.
Qed.

End MapFacts.

Section Tidy.
Context {N E : Type} `{OrdN : Ord N} `{OrdE : Ord E}.

Local Abbreviation store := (@store N E).
Local Abbreviation edge_ptr := (@edge_ptr N E).
Local Abbreviation edge_ptr_set_pair := (@edge_ptr_set_pair N E).
Local Abbreviation world := (@world N E).

Lemma tidy_subscript (g : store) (k : N) :
  tidy g ->
  canonical (fst (subscript g k))
  /\ forall e, In e (fst (subscript g k)) -> src_of e = k.
Proof.
  intros [_ Hg]. unfold subscript. destruct (map_find k g) as [v|] eqn:Hf.
  - exact (Hg _ (map_find_key _ _ _ Hf)).
  - split; [constructor|intros e []].
Qed.

Lemma tidy_update (g : store) (k : N) (f : edge_ptr_set_pair -> edge_ptr_set_pair) :
  tidy g ->
  canonical (fst (f (subscript g k))) ->
  (forall e, In e (fst (f (subscript g k))) -> src_of e = k) ->
  tidy (map_update k f g).
Proof.
  intros [Hs Hg] Hc Hk. split.
  - apply nodes_assign_sorted. exact Hs.
  - intros entry Hin. unfold map_update in Hin. apply in_map_assign_key in Hin.
    destruct Hin as [->|Hin]; [split; assumption|exact (Hg _ Hin)].
Qed.

Lemma tidy_erase (g : store) (k : N) : tidy g -> tidy (map_erase k g).
Proof.
  intros [Hs Hg]. split; [apply nodes_erase_sorted; exact Hs|].
  intros entry Hin. exact (Hg _ (in_map_erase _ _ _ Hin)).
Qed.

(** *** The monad's operations keep whatever their parts keep *)

Lemma ret_keeps (P : store -> Prop) {A : Type} (a : A) : keeps P (@ret world A a).
Proof. intros w r w' H. injection H as <- <-. auto. Qed.

Lemma throw_keeps (P : store -> Prop) {A : Type} (what : string) :
  keeps P (@throw world A what).
Proof. intros w r w' H. injection H as <- <-. auto. Qed.

Lemma get_keeps (P : store -> Prop) : keeps P (@get world).
Proof. intros w r w' H. injection H as <- <-. auto. Qed.

Lemma bind_keeps (P : store -> Prop) {A B : Type} (m : M world A) (k : A -> M world B) :
  keeps P m -> (forall a, keeps P (k a)) -> keeps P (bind m k).
Proof.
  intros Hm Hk w r w' H Hw. unfold bind in H.
  destruct (m w) as [[a|what] w1] eqn:Hmw.
  - exact (Hk a w1 r w' H (Hm w _ w1 Hmw Hw)).
  - injection H as <- <-. exact (Hm w _ w1 Hmw Hw).
Qed.

Lemma for_each_keeps (P : store -> Prop) {A : Type} (l : list A)
      (body : A -> M world unit) :
  (forall x, keeps P (body x)) -> keeps P (for_each l body).
Proof.
  intros Hbody. induction l as [|x l IH]; cbn [for_each].
  - apply ret_keeps.
  - apply bind_keeps; [apply Hbody|]. intros _. exact IH.
Qed.

Lemma update_g_keeps (P : store -> Prop) (f : store -> store) :
  (forall g, P g -> P (f g)) -> keeps P (update_g f).
Proof. intros Hf w r w' H. injection H as <- <-. cbn [g_]. apply Hf. Qed.

(** *** Every member keeps the store tidy *)

Lemma insert_node_tidy (value : N) : keeps tidy (insert_node value).
Proof.
  unfold insert_node. apply bind_keeps; [apply get_keeps|]. intros w.
  destruct (is_node (g_ w) value); [apply ret_keeps|].
  apply bind_keeps; [|intros _; apply ret_keeps].
  apply update_g_keeps. intros g [Hs Hg]. split; [apply nodes_assign_sorted; exact Hs|].
  intros entry Hin. apply in_map_assign_key in Hin.
  destruct Hin as [->|Hin]; [|exact (Hg _ Hin)].
  split; [constructor|intros e []].
Qed.

Lemma insert_edge_tidy (src dst : N) (weight : option E) :
  keeps tidy (insert_edge src dst weight).
Proof.
  intros w r w' H Hw. revert H.
  unfold insert_edge, bind, get, throw, ret, allocated, update_g. cbn [g_ brk fst snd].
  destruct (negb (is_node (g_ w) src) || negb (is_node (g_ w) dst));
    [intros H; injection H as <- <-; exact Hw|].
  destruct (existed_edge (fst (subscript (g_ w) src)) _) eqn:Ho; cbn [orb];
    [intros H; injection H as <- <-; exact Hw|].
  destruct (existed_edge (snd (subscript (g_ w) dst)) _);
    [intros H; injection H as <- <-; exact Hw|].
  destruct (tidy_subscript _ src Hw) as [Hc Hk].
  apply existed_edge_false, find_if_none in Ho.
  pose proof (canonical_insert _ _ Hc Ho) as Hout.
  pose proof (in_set_insert (create_edge_ptr (brk w) src dst weight)
                            (fst (subscript (g_ w) src))) as Hin.
  destruct (set_insert _ (fst (subscript (g_ w) src))) as [out' linked_out].
  cbn [g_ brk fst snd] in *.
  assert (H0 : tidy (map_update src (fun p => (out', snd p)) (g_ w))).
  { apply tidy_update; [exact Hw|exact Hout|]. cbn [fst]. intros e He.
    destruct (Hin e He) as [->|He']; [|exact (Hk e He')].
    apply create_edge_ptr_fields. }
  destruct linked_out.
  - destruct (set_insert _ (snd (subscript _ dst))) as [in' linked_in].
    cbn [g_ brk fst snd]. intros H. injection H as <- <-. cbn [g_].
    apply tidy_update; [exact H0| |]; cbn [fst]; apply tidy_subscript; exact H0.
  - intros H. injection H as <- <-. exact H0.
Qed.

Lemma erase_edge_tidy (src dst : N) (weight : option E) :
  keeps tidy (erase_edge src dst weight).
Proof.
  intros w r w' H Hw. revert H.
  unfold erase_edge, bind, get, throw, ret, update_g. cbn [g_ brk fst snd].
  destruct (negb (is_node (g_ w) src) || negb (is_node (g_ w) dst));
    [intros H; injection H as <- <-; exact Hw|].
  destruct (negb (Nat.eqb _ (List.length (fst (subscript (g_ w) src)))));
    [|intros H; injection H as <- <-; exact Hw].
  cbn [g_ brk fst snd].
  match goal with
  | |- context [map_update src ?f (g_ w)] =>
      assert (H0 : tidy (map_update src f (g_ w)))
  end.
  { destruct (tidy_subscript _ src Hw) as [Hc Hk].
    apply tidy_update; [exact Hw| |]; cbn [fst].
    - apply canonical_erase_at. exact Hc.
    - intros e He. exact (Hk e (in_erase_at _ _ _ He)). }
  destruct (negb (Nat.eqb _ _)); cbn [g_ brk fst snd];
    intros H; injection H as <- <-; cbn [g_]; [|exact H0].
  apply tidy_update; [exact H0| |]; cbn [fst]; apply tidy_subscript; exact H0.
Qed.

Lemma erase_node_tidy (value : N) : keeps tidy (erase_node value).
Proof.
  unfold erase_node. apply bind_keeps; [apply get_keeps|]. intros w.
  destruct (negb (is_node (g_ w) value)); [apply ret_keeps|].
  repeat (apply bind_keeps; [|intros _]); try apply ret_keeps; apply update_g_keeps;
    intros g Hg.
  - apply tidy_update; [exact Hg|constructor|intros e []].
  - apply tidy_update; [exact Hg| |]; cbn [fst]; apply tidy_subscript; exact Hg.
  - destruct Hg as [Hs Hg]. split; [rewrite nodes_erase_incident; exact Hs|].
    intros entry Hin. apply in_map_iff in Hin.
    destruct Hin as ([node [out inc]] & <- & Hin).
    specialize (Hg _ Hin). unfold erase_incident. cbn [fst snd] in *.
    destruct (negb (equal node value)); cbn [fst snd]; [|exact Hg].
    destruct Hg as [Hc Hk]. split; [apply canonical_filter; exact Hc|].
    intros e He. apply filter_In in He. exact (Hk e (proj1 He)).
  - apply tidy_erase. exact Hg.
Qed.

Lemma clear_tidy : keeps tidy (@clear N E).
Proof. apply update_g_keeps. intros g _. split; [constructor|intros entry []]. Qed.

Lemma move_node_data_tidy (old_node new_node : N) :
  keeps tidy (move_node_data old_node new_node).
Proof.
  assert (Hbody : forall (e : edge_ptr) (s d : N), keeps tidy (insert_new_edge e s d)).
  { intros e s d. unfold insert_new_edge.
    apply bind_keeps; [|intros _; apply ret_keeps].
    destruct (is_weighted (pointee e)); apply insert_edge_tidy. }
  unfold move_node_data.
  apply bind_keeps; [apply get_keeps|]. intros w.
  apply bind_keeps; [apply for_each_keeps; intros e; apply Hbody|]. intros _.
  apply bind_keeps; [apply get_keeps|]. intros w'.
  apply bind_keeps; [apply for_each_keeps; intros e; apply Hbody|]. intros _.
  apply update_g_keeps. intros g Hg. apply tidy_erase. exact Hg.
Qed.

Lemma replace_node_tidy (old_data new_data : N) :
  keeps tidy (replace_node old_data new_data).
Proof.
  unfold replace_node. apply bind_keeps; [apply get_keeps|]. intros w.
  destruct (negb (is_node (g_ w) old_data)); [apply throw_keeps|].
  destruct (is_node (g_ w) new_data); [apply ret_keeps|].
  apply bind_keeps; [apply insert_node_tidy|]. intros _.
  apply bind_keeps; [apply move_node_data_tidy|]. intros _. apply ret_keeps.
Qed.

Lemma merge_replace_node_tidy (old_data new_data : N) :
  keeps tidy (merge_replace_node old_data new_data).
Proof.
  unfold merge_replace_node. apply bind_keeps; [apply get_keeps|]. intros w.
  destruct (negb (is_node (g_ w) old_data) || negb (is_node (g_ w) new_data));
    [apply throw_keeps|].
  destruct (equal old_data new_data); [apply ret_keeps|apply move_node_data_tidy].
Qed.

Lemma step_tidy (o : @op N E) (w : world) : tidy (g_ w) -> tidy (g_ (step o w)).
Proof.
  intros Hw. destruct o as [v|s d x|o n|o n|v|s d x|]; cbn [step].
  - exact (insert_node_tidy v w _ _ (surjective_pairing _) Hw).
  - exact (insert_edge_tidy s d x w _ _ (surjective_pairing _) Hw).
  - exact (replace_node_tidy o n w _ _ (surjective_pairing _) Hw).
  - exact (merge_replace_node_tidy o n w _ _ (surjective_pairing _) Hw).
  - exact (erase_node_tidy v w _ _ (surjective_pairing _) Hw).
  - exact (erase_edge_tidy s d x w _ _ (surjective_pairing _) Hw).
  - exact (clear_tidy w _ _ (surjective_pairing _) Hw).
Qed.

Lemma run_tidy (ops : list (@op N E)) (w : world) : tidy (g_ w) -> tidy (g_ (run ops w)).
Proof.
  revert w. unfold run. induction ops as [|o ops IH]; intros w Hw; cbn; [exact Hw|].
  apply IH, step_tidy, Hw.
Qed.

Lemma reachable_tidy (w : world) : reachable w -> tidy (g_ w).
Proof.
  intros (ops & <-). apply run_tidy. split; [constructor|intros entry []].
Qed.

End Tidy.

Section Queries.
Context {N E : Type} `{OrdN : Ord N} `{OrdE : Ord E}.

Local Abbreviation store := (@store N E).
Local Abbreviation edge_ptr := (@edge_ptr N E).
Local Abbreviation edge_ptr_set_pair := (@edge_ptr_set_pair N E).
Local Abbreviation world := (@world N E).

Lemma stored_values_bare (g : store) :
  (forall entry, In entry g -> fst (snd entry) = []) -> stored_values g = [].
Proof.
  unfold stored_values. induction g as [|entry g IH]; intros H; cbn; [reflexivity|].
  rewrite (H entry (or_introl eq_refl)), IH; [reflexivity|].
  intros entry' Hin. apply H. right. exact Hin.
Qed.

Lemma range_fold (range : list N) :
  forall (g : store) (b : addr),
    (forall k v, map_find k g = Some v -> v = ([], [])) ->
    StronglySorted (fun x y => less x y = true) (nodes g) ->
    let g' := fold_left (fun g0 node => map_assign node ([], []) g0) range g in
    {| g_ := g'; brk := b |}
    = run (map (@op_insert_node N E) range) {| g_ := g; brk := b |}
    /\ (forall k v, map_find k g' = Some v -> v = ([], []))
    /\ StronglySorted (fun x y => less x y = true) (nodes g')
    /\ forall k, is_node g' k = true <-> In k range \/ is_node g k = true.
Proof.
  induction range as [|x range IH]; intros g b Hbare Hs; cbn [fold_left map].
  - repeat split; try assumption; [right; assumption|intros [[]|H]; exact H].
  - assert (Hbare' : forall k v, map_find k (map_assign x ([], []) g) = Some v ->
                                 v = ([], [])).
    { intros k v. destruct (equal_spec k x) as [->|Hne].
      - rewrite map_find_assign_same. congruence.
      - rewrite map_find_assign_other by exact Hne. apply Hbare. }
    destruct (IH (map_assign x ([], []) g) b Hbare' (nodes_assign_sorted _ _ _ Hs))
      as (H1 & H2 & H3 & H4).
    repeat split; try assumption.
    + rewrite H1. unfold run. cbn [fold_left step]. f_equal.
      rewrite insert_node_unfold. cbn [g_ brk].
      unfold is_node. destruct (map_find x g) as [v|] eqn:Hv; cbn [snd]; [|reflexivity].
      rewrite (Hbare _ _ Hv) in Hv. rewrite (map_assign_same_value _ _ _ Hv). reflexivity.
    + intros H. apply H4 in H. destruct H as [H|H]; [left; right; exact H|].
      apply is_node_assign in H. destruct H as [->|H]; [left; left; reflexivity|right; exact H].
    + intros H. apply H4. rewrite is_node_assign.
      destruct H as [[->|H]|H]; auto.
Qed.

(** [edges] pushes a copy of each stored edge, equal to the original. *)
Lemma copy_edge_same (e : @edge N E) : copy_edge e = e.
Proof. destruct e; reflexivity. Qed.

Lemma canonical_weights (src : N) (s : list edge_ptr) :
  canonical s ->
  (forall e, In e s -> src_of e = src) ->
  forall dst,
    StronglySorted (fun a b => optional_lt (get_weight a) (get_weight b) = true)
                   (map (fun e => copy_edge (pointee e))
                        (filter (fun e => equal (snd (get_nodes (pointee e))) dst) s)).
Proof.
  unfold canonical. intros Hs Hsrc dst.
  induction s as [|y s IH]; cbn; [constructor|].
  inversion Hs as [|? ? Hs' Hy]; subst.
  assert (IH' := IH Hs' (fun e He => Hsrc e (or_intror He))).
  destruct (equal_spec (snd (get_nodes (pointee y))) dst) as [Hd|Hd]; [|exact IH'].
  cbn [map]. constructor; [exact IH'|].
  rewrite Forall_forall in *. intros z Hz. apply in_map_iff in Hz.
  destruct Hz as (e & <- & He). apply filter_In in He. destruct He as [He Hde].
  apply equal_true in Hde. rewrite !copy_edge_same.
  specialize (Hy e He). apply edge_less_spec in Hy.
  pose proof (Hsrc y (or_introl eq_refl)) as Sy.
  pose proof (Hsrc e (or_intror He)) as Se. unfold src_of in *.
  destruct Hy as [Hy|[_ [Hy|[_ Hy]]]]; [| |exact Hy].
  - rewrite Sy, Se, less_irrefl in Hy. discriminate.
  - rewrite Hd, Hde, less_irrefl in Hy. discriminate.
Qed.

Lemma existsb_filter_nonempty {A : Type} (p : A -> bool) (l : list A) :
  existsb p l = true <-> filter p l <> [].
Proof.
  induction l as [|x l IH]; cbn; [split; [discriminate|congruence]|].
  destruct (p x); cbn; [split; [discriminate|reflexivity]|exact IH].
Qed.

End Queries.

Section NodeProperties.
Context {N E : Type} `{OrdN : Ord N} `{OrdE : Ord E}.

Local Abbreviation store := (@store N E).
Local Abbreviation edge_ptr := (@edge_ptr N E).
Local Abbreviation world := (@world N E).
Local Abbreviation graph_of_range := (@graph_of_range N E _).

(** X2: [insert_node(value)] answers true exactly when [value] was absent;
    afterwards [value] is a node, no other node has appeared or vanished and
    no other record has changed; a node that was present keeps the graph as
    it was, a new node has no edges, and a second call answers false and
    changes nothing.  This holds in every state. *)
Theorem X2_insert_node_adds_once (value : N) (w : world) :
  exists w1,
    insert_node value w = (Ret (negb (is_node (g_ w) value)), w1)
    /\ is_node (g_ w1) value = true
    /\ (forall k, k <> value ->
                  is_node (g_ w1) k = is_node (g_ w) k
                  /\ subscript (g_ w1) k = subscript (g_ w) k)
    /\ (is_node (g_ w) value = true -> w1 = w)
    /\ (is_node (g_ w) value = false -> subscript (g_ w1) value = ([], []))
    /\ insert_node value w1 = (Ret false, w1).
Proof.
  rewrite insert_node_unfold.
  destruct (is_node (g_ w) value) eqn:Hv; cbn [negb].
  - exists w. rewrite insert_node_unfold, Hv. repeat split; try assumption; discriminate.
  - eexists. split; [reflexivity|]. cbn [g_].
    assert (Hnew : is_node (map_assign value ([], []) (g_ w)) value = true)
      by (unfold is_node; rewrite map_find_assign_same; reflexivity).
    repeat split.
    + exact Hnew.
    + unfold is_node. rewrite map_find_assign_other by exact H. reflexivity.
    + unfold subscript. rewrite map_find_assign_other by exact H. reflexivity.
    + discriminate.
    + intros _. unfold subscript. rewrite map_find_assign_same. reflexivity.
    + rewrite insert_node_unfold. cbn [g_]. rewrite Hnew. reflexivity.
Qed.

(** X1: The constructors from an initializer list and from an iterator range
    build the graph that default construction followed by [insert_node] of
    each element, in order, builds: its nodes are strictly increasing (so
    a repeated element is stored once), a value is a node exactly when it
    occurs in the range, and there are no edges. *)
Theorem X1_range_constructor (range : list N) :
  graph_of_range range = run (map (@op_insert_node N E) range) graph_default
  /\ StronglySorted (fun x y => less x y = true) (nodes (g_ (graph_of_range range)))
  /\ (forall k, is_node (g_ (graph_of_range range)) k = true <-> In k range)
  /\ (forall k, In k (nodes (g_ (graph_of_range range))) <-> In k range)
  /\ stored_values (g_ (graph_of_range range)) = [].
Proof.
  destruct (range_fold range [] 0) as (H1 & H2 & H3 & H4);
    [discriminate|constructor|].
  assert (Hnode : forall k, is_node (g_ (graph_of_range range)) k = true <-> In k range).
  { intros k. unfold graph_of_range. cbn [g_]. rewrite H4. cbn.
    split; [intros [H|H]; [exact H|discriminate]|auto]. }
  repeat split.
  - exact H1.
  - exact H3.
  - apply Hnode.
  - apply Hnode.
  - intros Hk. apply Hnode. apply in_nodes_is_node; [exact H3|exact Hk].
  - intros Hk. apply is_node_in_nodes. apply Hnode. exact Hk.
  - apply stored_values_bare. intros [k v] Hin.
    rewrite (H2 k v (map_find_sorted _ _ _ H3 Hin)). reflexivity.
Qed.

(** X3: Whatever public operations were called, [replace_node] and
    [merge_replace_node] included, [nodes()] is strictly increasing, so it
    lists no value twice, and it lists exactly the values [is_node] accepts;
    [empty()] is true exactly when it lists nothing. *)
Theorem X3_nodes_sorted_and_exact (w : world) :
  reachable w ->
  StronglySorted (fun x y => less x y = true) (nodes (g_ w))
  /\ (forall k, is_node (g_ w) k = true <-> In k (nodes (g_ w)))
  /\ (empty (g_ w) = true <-> nodes (g_ w) = []).
Proof.
  intros Hw. destruct (reachable_tidy w Hw) as [Hs _]. repeat split.
  - exact Hs.
  - apply is_node_in_nodes.
  - apply in_nodes_is_node. exact Hs.
  - destruct (g_ w); [reflexivity|discriminate].
  - destruct (g_ w); [reflexivity|discriminate].
Qed.

(** X16: Whatever public operations were called, [edges(src, dst)] on two
    present nodes returns edges that all run from [src] to [dst] and whose
    weights strictly increase in the order of [std::optional]: the
    unweighted edge, if there is one, comes first and only once, then the
    weighted edges by ascending weight, no weight twice. *)
Theorem X16_edges_sorted_by_weight (w : world) (src dst : N) :
  reachable w ->
  is_node (g_ w) src = true -> is_node (g_ w) dst = true ->
  exists es,
    edges (g_ w) src dst = Ret es
    /\ (forall e, In e es -> get_nodes e = (src, dst))
    /\ StronglySorted (fun a b => optional_lt (get_weight a) (get_weight b) = true) es.
Proof.
  intros Hw Hs Hd. unfold edges. rewrite Hs, Hd. cbn [negb orb].
  eexists. split; [reflexivity|].
  destruct (tidy_subscript _ src (reachable_tidy w Hw)) as [Hc Hk]. split.
  - intros e He. apply in_map_iff in He. destruct He as (h & <- & Hh).
    apply filter_In in Hh. destruct Hh as [Hh Hto]. apply equal_true in Hto.
    rewrite copy_edge_same. specialize (Hk h Hh). unfold src_of in Hk.
    rewrite (surjective_pairing (get_nodes (pointee h))), Hk, Hto. reflexivity.
  - exact (canonical_weights src _ Hc Hk dst).
Qed.

(** X14: On two present nodes the three connection queries agree, in every
    state: [is_connected(src, dst)] is true exactly when [edges(src, dst)]
    is not empty, and exactly when [connections(src)] lists [dst]. *)
Theorem X14_connection_queries_agree (g : store) (src dst : N) :
  is_node g src = true -> is_node g dst = true ->
  exists b es ds,
    is_connected g src dst = Ret b
    /\ edges g src dst = Ret es
    /\ connections g src = Ret ds
    /\ (b = true <-> es <> [])
    /\ (b = true <-> In dst ds).
Proof.
  intros Hs Hd. unfold is_connected, edges, connections. rewrite Hs, Hd. cbn [negb orb].
  do 3 eexists. repeat split; try reflexivity.
  - intros H. apply existsb_filter_nonempty in H. intros Hnil.
    apply map_eq_nil in Hnil. contradiction.
  - intros H. apply existsb_filter_nonempty. intros Hnil. apply H.
    rewrite Hnil. reflexivity.
  - intros H. apply existsb_exists in H. destruct H as (e & He & Hto).
    apply equal_true in Hto.
    apply (proj2 (connections_fold (fst (subscript g src)) [] (SSorted_nil _))).
    right. exists e. split; [exact He|exact Hto].
  - intros H.
    apply (proj2 (connections_fold (fst (subscript g src)) [] (SSorted_nil _))) in H.
    destruct H as [[]|(e & He & Hto)]. apply existsb_exists. exists e.
    split; [exact He|]. unfold dst_of in Hto. rewrite Hto. apply equal_refl.
Qed.

(** X15: [connections(src)] on a present node is strictly increasing, so it
    lists no node twice, and it lists exactly the destinations of the edges
    in the outgoing set of [src].  This holds in every state. *)
Theorem X15_connections_sorted_and_exact (g : store) (src : N) :
  is_node g src = true ->
  exists ds,
    connections g src = Ret ds
    /\ StronglySorted (fun x y => less x y = true) ds
    /\ forall d, In d ds <-> exists e, In e (fst (subscript g src)) /\ dst_of e = d.
Proof.
  intros Hs. unfold connections. rewrite Hs. cbn [negb].
  eexists. split; [reflexivity|].
  destruct (connections_fold (fst (subscript g src)) [] (SSorted_nil _)) as [H1 H2].
  split; [exact H1|]. intros d. rewrite (H2 d). cbn.
  split; [intros [[]|H]; exact H|auto].
Qed.

(** X17: [find(src, dst, weight)] never answers with an iterator to another
    edge, in any state: it is [end()] when a node is absent or the outgoing
    set of [src] holds no edge of that content, and otherwise an iterator
    that differs from [end()] and dereferences to exactly
    (src, dst, weight), while [is_connected(src, dst)] is true. *)
Theorem X17_find_exact (this : addr) (w : world) (src dst : N) (weight : option E) :
  let it := find this w src dst weight in
  (it = end_ this w
   /\ (is_node (g_ w) src = false \/ is_node (g_ w) dst = false
       \/ existed_edge (fst (subscript (g_ w) src))
                       (create_edge_ptr (brk w) src dst weight) = false))
  \/ (deref it = Some {| from := src; to := dst; weight := weight |}
      /\ iterator_eq it (end_ this w) = Some false
      /\ is_connected (g_ w) src dst = Ret true
      /\ existed_edge (fst (subscript (g_ w) src))
                      (create_edge_ptr (brk w) src dst weight) = true).
Proof.
  unfold find.
  destruct (is_node (g_ w) src) eqn:Hs; cbn [negb orb]; [|left; auto].
  destruct (is_node (g_ w) dst) eqn:Hd; cbn [negb orb]; [|left; auto].
  set (c := create_edge_ptr (brk w) src dst weight).
  set (out := fst (subscript (g_ w) src)).
  destruct (Nat.eqb_spec (find_if (edge_content_equal c) out) (List.length out))
    as [Hnone|Hsome].
  - left. split; [reflexivity|]. right. right. unfold existed_edge.
    fold c out. rewrite Hnone, Nat.eqb_refl. reflexivity.
  - right. destruct (find_if_found _ _ Hsome) as (h & Hh & Hp).
    destruct (map_find_pos_nth _ _ _ (is_node_subscript _ _ Hs)) as (k' & Hk').
    assert (Hlt : map_find_pos src (g_ w) < List.length (g_ w))
      by (apply nth_error_Some; congruence).
    unfold edge_content_equal in Hp. apply edge_eq_true in Hp.
    repeat split.
    + unfold deref. cbn [graph_ptr_ current_node_ current_edge_ graph_obj].
      rewrite Hk'. cbn [fst snd]. fold out. rewrite Hh. f_equal.
      unfold value_at. rewrite Hp. unfold c. destruct weight; reflexivity.
    + unfold iterator_eq, end_, iterator_end.
      cbn [graph_ptr_ current_node_ current_edge_ graph_obj graph_at graph_ptr_eq].
      rewrite !Nat.eqb_refl. cbn [negb andb orb].
      destruct (Nat.eqb_spec (map_find_pos src (g_ w)) (List.length (g_ w))); [lia|].
      reflexivity.
    + unfold is_connected. rewrite Hs, Hd. cbn [negb orb]. f_equal.
      apply existsb_exists. exists h. split; [exact (nth_error_In _ _ Hh)|].
      rewrite Hp. unfold c. destruct weight; cbn; apply equal_refl.
    + unfold existed_edge. fold c out.
      destruct (Nat.eqb_spec (find_if (edge_content_equal c) out) (List.length out));
        [contradiction|reflexivity].
Qed.

End NodeProperties.

Section Positions.
Context {N E : Type} `{OrdN : Ord N} `{OrdE : Ord E}.

Local Abbreviation store := (@store N E).
Local Abbreviation edge_ptr := (@edge_ptr N E).
Local Abbreviation edge_ptr_set_pair := (@edge_ptr_set_pair N E).
Local Abbreviation graph_ptr := (@graph_ptr N E).
Local Abbreviation iterator := (@iterator N E).

(** The node loop of [begin] and [operator++], with the nodes it steps
    over. *)
Lemma skip_empty_run (m : store) (pos : nat) :
  exists k, skip_empty m pos = pos + k
            /\ k <= List.length m
            /\ (forall q, q < k ->
                          exists entry, nth_error m q = Some entry
                                        /\ fst (snd entry) = [])
            /\ stored_values m = stored_values (skipn k m)
            /\ (k < List.length m ->
                exists entry e, nth_error m k = Some entry
                                /\ nth_error (fst (snd entry)) 0 = Some e).
Proof.
  revert pos. induction m as [|[key [[|e out] inc]] m IH]; intros pos.
  - exists 0. cbn. repeat split; try lia.
  - destruct (IH (S pos)) as (k & H1 & H2 & H3 & H4 & H5).
    exists (S k). cbn [skip_empty]. rewrite H1. repeat split; cbn; try lia.
    + intros [|q] Hq; cbn; [eexists; split; reflexivity|]. apply H3. lia.
    + exact H4.
    + intros Hk. apply H5. cbn in Hk. lia.
  - exists 0. cbn [skip_empty]. repeat split; try lia; cbn; try lia.
    intros _. eexists. exists e. split; reflexivity.
Qed.

Lemma points_at_position (g : graph_ptr) (i j : nat) (entry : N * edge_ptr_set_pair)
      (e : edge_ptr) :
  nth_error (graph_obj g) i = Some entry ->
  nth_error (fst (snd entry)) j = Some e ->
  points_at g {| current_node_ := Some i; current_edge_ := Some j; graph_ptr_ := Some g |}
            (value_at e :: map value_at (skipn (S j) (fst (snd entry)))
                        ++ stored_values (skipn (S i) (graph_obj g))).
Proof.
  intros Hi Hj. right. exists i, j, entry, e. repeat split; try assumption.
  rewrite (skipn_nth_cons _ _ _ Hj). reflexivity.
Qed.

Lemma points_at_cons (g : graph_ptr) (it : iterator) (v : @value_type N E)
      (l : list (@value_type N E)) :
  points_at g it (v :: l) ->
  exists i j entry e,
    it = {| current_node_ := Some i; current_edge_ := Some j; graph_ptr_ := Some g |}
    /\ nth_error (graph_obj g) i = Some entry
    /\ nth_error (fst (snd entry)) j = Some e
    /\ v = value_at e
    /\ l = map value_at (skipn (S j) (fst (snd entry)))
           ++ stored_values (skipn (S i) (graph_obj g)).
Proof.
  intros [[_ H]|(i & j & entry & e & Hit & Hi & Hj & Hl)]; [discriminate|].
  exists i, j, entry, e. rewrite (skipn_nth_cons _ _ _ Hj) in Hl. cbn in Hl.
  injection Hl as -> ->. repeat split; assumption.
Qed.

Lemma points_at_nil (g : graph_ptr) (it : iterator) :
  points_at g it [] -> it = iterator_end g.
Proof.
  intros [[H _]|(i & j & entry & e & Hit & Hi & Hj & Hl)]; [exact H|].
  rewrite (skipn_nth_cons _ _ _ Hj) in Hl. discriminate.
Qed.

Lemma points_at_end (g : graph_ptr) : points_at g (iterator_end g) [].
Proof. left. split; reflexivity. Qed.

Lemma points_at_begin (g : graph_ptr) :
  points_at g (iterator_begin g) (stored_values (graph_obj g)).
Proof.
  unfold iterator_begin. destruct (empty (graph_obj g)) eqn:Hempty.
  - destruct (graph_obj g); [apply points_at_end|discriminate].
  - destruct (skip_empty_run (graph_obj g) 0) as (k & Hk & Hle & _ & Hvals & Hnext).
    rewrite Hk. cbn [Nat.add].
    destruct (Nat.eqb_spec k (List.length (graph_obj g))) as [Hend|Hmid].
    + rewrite Hvals, skipn_all2 by lia. apply points_at_end.
    + destruct Hnext as (entry & e & Hentry & He); [lia|].
      rewrite Hvals, (stored_values_skipn _ _ _ Hentry).
      right. exists k, 0, entry, e. repeat split; assumption.
Qed.

(** From a position, the dereference shows the value there and
    [operator++] moves to the position of the rest. *)
Lemma step_from_position (g : graph_ptr) (i j : nat) (entry : N * edge_ptr_set_pair)
      (e : edge_ptr) :
  nth_error (graph_obj g) i = Some entry ->
  nth_error (fst (snd entry)) j = Some e ->
  let it := {| current_node_ := Some i; current_edge_ := Some j; graph_ptr_ := Some g |} in
  deref it = Some (value_at e)
  /\ exists it', incr it = Some it'
                 /\ points_at g it' (map value_at (skipn (S j) (fst (snd entry)))
                                     ++ stored_values (skipn (S i) (graph_obj g))).
Proof.
  intros Hi Hj it.
  assert (Hlt : i < List.length (graph_obj g)) by (apply nth_error_Some; congruence).
  assert (Hjlt : j < List.length (fst (snd entry)))
    by (apply nth_error_Some; congruence).
  unfold deref, incr, it. cbn [graph_ptr_ current_node_ current_edge_].
  rewrite Hi, Hj. split; [reflexivity|].
  destruct (Nat.eqb_spec (S j) (List.length (fst (snd entry)))) as [Hlast|Hmore].
  - assert (Hnil : skipn (S j) (fst (snd entry)) = []) by (apply skipn_all2; lia).
    rewrite Hnil. cbn [map app].
    destruct (skip_empty_run (skipn (S i) (graph_obj g)) (S i))
      as (k & Hk & Hle & _ & Hvals & Hnext).
    rewrite Hk. rewrite length_skipn in Hle, Hnext.
    destruct (Nat.eqb_spec (S i + k) (List.length (graph_obj g))) as [Hend|Hmid].
    + eexists. split; [reflexivity|].
      rewrite Hvals, skipn_all2 by (rewrite length_skipn; lia). apply points_at_end.
    + destruct Hnext as (entry' & e' & Hentry' & He'); [lia|].
      rewrite nth_error_skipn_plus in Hentry'.
      eexists. split; [reflexivity|].
      rewrite Hvals, skipn_skipn_plus, (stored_values_skipn _ _ _ Hentry').
      right. exists (S i + k), 0, entry', e'. repeat split; assumption.
  - assert (exists e2, nth_error (fst (snd entry)) (S j) = Some e2) as (e2 & He2).
    { destruct (nth_error (fst (snd entry)) (S j)) eqn:Hn; [eauto|].
      apply nth_error_None in Hn. lia. }
    eexists. split; [reflexivity|].
    right. exists i, (S j), entry, e2. repeat split; assumption.
Qed.

(** An iterator at a position differs from every [end()]. *)
Lemma iterator_eq_position_end (g g' : graph_ptr) (i j : nat)
      (entry : N * edge_ptr_set_pair) :
  nth_error (graph_obj g) i = Some entry ->
  iterator_eq {| current_node_ := Some i; current_edge_ := Some j; graph_ptr_ := Some g |}
              (iterator_end g') = Some false.
Proof.
  intros Hi.
  assert (Hlt : i < List.length (graph_obj g)) by (apply nth_error_Some; congruence).
  unfold iterator_eq, iterator_end.
  cbn [graph_ptr_ current_node_ current_edge_ graph_ptr_eq].
  destruct (Nat.eqb (graph_at g) (graph_at g')); cbn [negb]; [|reflexivity].
  rewrite Nat.eqb_refl.
  destruct (Nat.eqb_spec i (List.length (graph_obj g))); [lia|reflexivity].
Qed.

Lemma iterator_eq_ends (g g' : graph_ptr) :
  iterator_eq (iterator_end g) (iterator_end g')
  = Some (Nat.eqb (graph_at g) (graph_at g')).
Proof.
  unfold iterator_eq, iterator_end.
  cbn [graph_ptr_ current_node_ current_edge_ graph_ptr_eq].
  destruct (Nat.eqb (graph_at g) (graph_at g')); cbn [negb]; [|reflexivity].
  rewrite !Nat.eqb_refl. reflexivity.
Qed.

(** *** The backward node loops of [operator--] *)

Lemma back_while_empty_unfold (g : store) (pos : nat) :
  back_while_empty g pos
  = match nth_error g pos with
    | Some entry =>
        match fst (snd entry) with
        | [] => match pos with
                | 0 => Some None
                | S pos' => back_while_empty g pos'
                end
        | _ :: _ => Some (Some pos)
        end
    | None => None
    end.
Proof. destruct pos; reflexivity. Qed.

Lemma back_while_empty_stops (g : store) (i : nat) (entry : N * edge_ptr_set_pair) :
  nth_error g i = Some entry -> fst (snd entry) <> [] ->
  forall pos,
    i <= pos -> pos < List.length g ->
    (forall q, i < q -> q <= pos ->
               exists entry', nth_error g q = Some entry' /\ fst (snd entry') = []) ->
    back_while_empty g pos = Some (Some i).
Proof.
  intros Hi Hne. induction pos as [|pos IH]; intros Hle Hlt Hskip.
  - assert (i = 0) by lia. subst i. rewrite back_while_empty_unfold, Hi.
    destruct (fst (snd entry)); [contradiction|reflexivity].
  - destruct (Nat.eq_dec i (S pos)) as [->|Hneq].
    + rewrite back_while_empty_unfold, Hi.
      destruct (fst (snd entry)); [contradiction|reflexivity].
    + destruct (Hskip (S pos)) as (entry' & He' & Hempty); [lia|lia|].
      rewrite back_while_empty_unfold, He', Hempty.
      apply IH; [lia|lia|]. intros q H1 H2. apply Hskip; lia.
Qed.

Lemma back_while_empty_throws (g : store) :
  forall pos,
    pos < List.length g ->
    (forall q, q <= pos ->
               exists entry', nth_error g q = Some entry' /\ fst (snd entry') = []) ->
    back_while_empty g pos = Some None.
Proof.
  induction pos as [|pos IH]; intros Hlt Hskip.
  - destruct (Hskip 0) as (entry' & He' & Hempty); [lia|].
    rewrite back_while_empty_unfold, He', Hempty. reflexivity.
  - destruct (Hskip (S pos)) as (entry' & He' & Hempty); [lia|].
    rewrite back_while_empty_unfold, He', Hempty.
    apply IH; [lia|]. intros q Hq. apply Hskip. lia.
Qed.

Lemma back_do_while_stops (g : store) (i : nat) (entry : N * edge_ptr_set_pair) :
  nth_error g i = Some entry -> fst (snd entry) <> [] ->
  forall pos,
    i < pos ->
    (forall q, i < q -> q < pos ->
               exists entry', nth_error g q = Some entry' /\ fst (snd entry') = []) ->
    back_do_while g pos = Some i.
Proof.
  intros Hi Hne. induction pos as [|pos IH]; intros Hlt Hskip; [lia|].
  cbn [back_do_while].
  destruct (Nat.eq_dec i pos) as [<-|Hneq].
  - rewrite Hi. destruct (fst (snd entry)); [contradiction|]. reflexivity.
  - destruct (Hskip pos) as (entry' & He' & Hempty); [lia|lia|].
    rewrite He', Hempty. destruct pos as [|pos']; [lia|].
    apply IH; [lia|]. intros q H1 H2. apply Hskip; lia.
Qed.

Lemma prev_end_last (s : list edge_ptr) (j : nat) :
  S j = List.length s -> prev_end s = Some j.
Proof. destruct s; cbn; [discriminate|]. intros H. f_equal. lia. Qed.

Lemma skip_empty_all (m : store) (pos : nat) :
  (forall entry, In entry m -> fst (snd entry) = []) ->
  skip_empty m pos = pos + List.length m.
Proof.
  revert pos. induction m as [|[key [out inc]] m IH]; intros pos H; cbn; [lia|].
  pose proof (H _ (or_introl eq_refl)) as Hout. cbn in Hout. subst out.
  rewrite IH; [lia|]. intros entry Hin. apply H. right. exact Hin.
Qed.

(** The last value of the traversal sits at the end of the last non-empty
    outgoing set. *)
Lemma stored_values_last (g : store) (l : list (@value_type N E)) (v : @value_type N E) :
  stored_values g = l ++ [v] ->
  exists i entry j e,
    nth_error g i = Some entry
    /\ nth_error (fst (snd entry)) j = Some e
    /\ S j = List.length (fst (snd entry))
    /\ value_at e = v
    /\ forall q, i < q -> q < List.length g ->
                 exists entry', nth_error g q = Some entry' /\ fst (snd entry') = [].
Proof.
  revert l. induction g as [|entry g IH] using rev_ind; intros l Hl.
  - destruct l; discriminate.
  - unfold stored_values in Hl. rewrite flat_map_app in Hl. cbn [flat_map] in Hl.
    rewrite app_nil_r in Hl.
    destruct (fst (snd entry)) as [|e0 out0] eqn:Hout using rev_ind.
    + cbn [map] in Hl. rewrite app_nil_r in Hl.
      destruct (IH l Hl) as (i & entry' & j & e & Hi & Hj & Hlast & Hv & Hskip).
      assert (Hlt : i < List.length g) by (apply nth_error_Some; congruence).
      exists i, entry', j, e. repeat split; try assumption.
      * rewrite nth_error_app1 by exact Hlt. exact Hi.
      * intros q H1 H2. rewrite length_app in H2. cbn in H2.
        destruct (Nat.eq_dec q (List.length g)) as [->|Hq].
        -- exists entry. rewrite nth_error_app2, Nat.sub_diag by lia. cbn.
           split; [reflexivity|exact Hout].
        -- destruct (Hskip q) as (entry2 & He2 & Hempty); [lia|lia|].
           exists entry2. rewrite nth_error_app1 by lia. split; assumption.
    + clear IHout0. rewrite map_app in Hl. cbn [map] in Hl.
      rewrite app_assoc in Hl. apply app_inj_tail in Hl. destruct Hl as [_ Hv].
      exists (List.length g), entry, (List.length out0), e0. repeat split.
      * rewrite nth_error_app2, Nat.sub_diag by lia. reflexivity.
      * rewrite Hout, nth_error_app2, Nat.sub_diag by lia. reflexivity.
      * rewrite Hout, length_app. cbn. lia.
      * exact Hv.
      * intros q H1 H2. rewrite length_app in H2. cbn in H2. lia.
Qed.

Lemma stored_values_none (g : store) :
  stored_values g = [] ->
  forall entry, In entry g -> fst (snd entry) = [].
Proof.
  unfold stored_values. induction g as [|entry g IH]; intros H entry';
    [intros []|intros [<-|Hin]].
  - cbn in H. apply app_eq_nil in H. destruct H as [H _].
    apply map_eq_nil in H. exact H.
  - cbn in H. apply app_eq_nil in H. apply IH; tauto.
Qed.

End Positions.

Section Decrement.
Context {N E : Type} `{OrdN : Ord N} `{OrdE : Ord E}.

Local Abbreviation store := (@store N E).
Local Abbreviation edge_ptr := (@edge_ptr N E).
Local Abbreviation edge_ptr_set_pair := (@edge_ptr_set_pair N E).
Local Abbreviation graph_ptr := (@graph_ptr N E).
Local Abbreviation iterator := (@iterator N E).

Lemma decr_position (g : graph_ptr) (i j : nat) (entry : N * edge_ptr_set_pair) :
  nth_error (graph_obj g) i = Some entry ->
  let it := {| current_node_ := Some i; current_edge_ := Some j; graph_ptr_ := Some g |} in
  decr it
  = if Nat.eqb i 0 && Nat.eqb j 0 then Some (Throw decrement_begin_what, it)
    else if Nat.eqb j 0 then
      i' <~ back_do_while (graph_obj g) i ;;
      entry' <~ nth_error (graph_obj g) i' ;;
      j' <~ prev_end (fst (snd entry')) ;;
      Some (Ret tt, {| current_node_ := Some i';
                       current_edge_ := Some j';
                       graph_ptr_ := Some g |})
    else Some (Ret tt, {| current_node_ := Some i;
                          current_edge_ := Some (j - 1);
                          graph_ptr_ := Some g |}).
Proof.
  intros Hi it. unfold decr, it. cbn [graph_ptr_ current_node_ current_edge_].
  rewrite (iterator_eq_position_end g g i j entry Hi), Hi. reflexivity.
Qed.

Lemma decr_end (g : graph_ptr) :
  decr (iterator_end g)
  = if empty (graph_obj g) then Some (Throw decrement_empty_what, iterator_end g)
    else
      stop <~ back_while_empty (graph_obj g) (List.length (graph_obj g) - 1) ;;
      match stop with
      | None =>
          Some (Throw decrement_all_empty_what,
                {| current_node_ := Some 0;
                   current_edge_ := None;
                   graph_ptr_ := Some g |})
      | Some i =>
          entry <~ nth_error (graph_obj g) i ;;
          j <~ prev_end (fst (snd entry)) ;;
          Some (Ret tt, {| current_node_ := Some i;
                           current_edge_ := Some j;
                           graph_ptr_ := Some g |})
      end.
Proof.
  unfold decr. cbn [graph_ptr_ iterator_end]. fold (iterator_end g).
  rewrite iterator_eq_end_end. reflexivity.
Qed.

Lemma back_do_while_first (g : store) :
  forall pos,
    0 < pos ->
    (forall q, q < pos ->
               exists entry', nth_error g q = Some entry' /\ fst (snd entry') = []) ->
    back_do_while g pos = Some 0.
Proof.
  induction pos as [|pos IH]; intros Hlt Hskip; [lia|].
  cbn [back_do_while].
  destruct (Hskip pos) as (entry' & He' & Hempty); [lia|].
  rewrite He', Hempty. destruct pos as [|pos']; [reflexivity|].
  apply IH; [lia|]. intros q Hq. apply Hskip. lia.
Qed.

(** X21: [operator--] undoes [operator++]: from any iterator that can be
    dereferenced, stepping forward and then back returns normally and gives
    the same iterator, whether the step forward stayed in the outgoing set,
    moved over nodes without outgoing edges to a later node, or reached
    [end()]. *)
Theorem X21_decrement_undoes_increment (it : iterator) (v : @value_type N E) :
  deref it = Some v ->
  exists it', incr it = Some it' /\ decr it' = Some (Ret tt, it).
Proof.
  destruct it as [[i|] [j|] [g|]]; unfold deref;
    cbn [graph_ptr_ current_node_ current_edge_]; try discriminate.
  destruct (nth_error (graph_obj g) i) as [entry|] eqn:Hi; [|discriminate].
  destruct (nth_error (fst (snd entry)) j) as [e|] eqn:Hj; [|discriminate].
  intros _.
  assert (Hlt : i < List.length (graph_obj g)) by (apply nth_error_Some; congruence).
  assert (Hjlt : j < List.length (fst (snd entry)))
    by (apply nth_error_Some; congruence).
  assert (Hne : fst (snd entry) <> []) by (intros H; rewrite H in Hj; destruct j; discriminate).
  unfold incr. cbn [graph_ptr_ current_node_ current_edge_]. rewrite Hi, Hj.
  destruct (Nat.eqb_spec (S j) (List.length (fst (snd entry)))) as [Hlast|Hmore].
  - destruct (skip_empty_run (skipn (S i) (graph_obj g)) (S i))
      as (k & Hk & Hle & Hskip & _ & Hnext).
    rewrite Hk. rewrite length_skipn in Hle, Hnext.
    assert (Hskip' : forall q, i < q -> q < S i + k ->
                               exists entry', nth_error (graph_obj g) q = Some entry'
                                              /\ fst (snd entry') = []).
    { intros q H1 H2. destruct (Hskip (q - S i)) as (entry' & He' & Hempty); [lia|].
      rewrite nth_error_skipn_plus in He'.
      replace (S i + (q - S i)) with q in He' by lia. eauto. }
    destruct (Nat.eqb_spec (S i + k) (List.length (graph_obj g))) as [Hend|Hmid].
    + eexists. split; [reflexivity|]. rewrite decr_end.
      destruct (graph_obj g) as [|entry0 g0] eqn:Hg; [cbn in Hlt; lia|].
      cbn [empty]. rewrite <- Hg in *.
      rewrite (back_while_empty_stops _ i entry Hi Hne); [| lia | lia |].
      * rewrite Hi, (prev_end_last _ j Hlast). reflexivity.
      * intros q H1 H2. apply Hskip'; lia.
    + destruct Hnext as (entry' & e' & Hentry' & He'); [lia|].
      rewrite nth_error_skipn_plus in Hentry'.
      eexists. split; [reflexivity|].
      rewrite (decr_position g (S i + k) 0 entry' Hentry').
      cbn [Nat.add Nat.eqb andb].
      rewrite (back_do_while_stops _ i entry Hi Hne (S (i + k))); [|lia|exact Hskip'].
      rewrite Hi, (prev_end_last _ j Hlast). reflexivity.
  - eexists. split; [reflexivity|].
    rewrite (decr_position g i (S j) entry Hi).
    cbn [Nat.eqb]. rewrite andb_false_r. cbn [Nat.sub]. rewrite Nat.sub_0_r. reflexivity.
Qed.

(** X22: [--end()]: when the graph has edges the call returns normally with
    an iterator to the last value of the traversal, from which [operator++]
    leads back to [end()]; when it has none the call throws
    [std::out_of_range], with one message for a graph without nodes and
    another for a graph whose nodes all lack outgoing edges. *)
Theorem X22_decrement_end (g : graph_ptr) :
  (stored_values (graph_obj g) = [] ->
   exists it',
     decr (iterator_end g)
     = Some (Throw (if empty (graph_obj g) then decrement_empty_what
                    else decrement_all_empty_what), it'))
  /\ (forall l v, stored_values (graph_obj g) = l ++ [v] ->
                  exists it', decr (iterator_end g) = Some (Ret tt, it')
                              /\ deref it' = Some v
                              /\ incr it' = Some (iterator_end g)).
Proof.
  split.
  - intros Hnone. rewrite decr_end.
    destruct (graph_obj g) as [|entry0 g0] eqn:Hg; cbn [empty]; [eauto|].
    rewrite <- Hg in *.
    rewrite back_while_empty_throws; [eauto| |].
    + rewrite Hg. cbn. lia.
    + intros q Hq.
      destruct (nth_error (graph_obj g) q) as [entry'|] eqn:Hq'.
      * exists entry'. split; [reflexivity|].
        exact (stored_values_none _ Hnone _ (nth_error_In _ _ Hq')).
      * apply nth_error_None in Hq'. rewrite Hg in Hq', Hq. cbn in Hq', Hq. lia.
  - intros l v Hl.
    destruct (stored_values_last _ _ _ Hl)
      as (i & entry & j & e & Hi & Hj & Hlast & Hv & Hskip).
    assert (Hlt : i < List.length (graph_obj g)) by (apply nth_error_Some; congruence).
    assert (Hne : fst (snd entry) <> [])
      by (intros H; rewrite H in Hj; destruct j; discriminate).
    rewrite decr_end.
    destruct (graph_obj g) as [|entry0 g0] eqn:Hg; [cbn in Hlt; lia|].
    cbn [empty]. rewrite <- Hg in *.
    rewrite (back_while_empty_stops _ i entry Hi Hne); [| lia | lia |].
    + rewrite Hi, (prev_end_last _ j Hlast). eexists. split; [reflexivity|].
      unfold deref, incr. cbn [graph_ptr_ current_node_ current_edge_].
      rewrite Hi, Hj, Hv. split; [reflexivity|].
      rewrite Hlast, Nat.eqb_refl.
      rewrite skip_empty_all.
      * rewrite length_skipn.
        replace (S i + (List.length (graph_obj g) - S i)) with (List.length (graph_obj g))
          by lia.
        rewrite Nat.eqb_refl. reflexivity.
      * intros entry' Hin. apply In_nth_error in Hin. destruct Hin as (q & Hq).
        rewrite nth_error_skipn_plus in Hq.
        destruct (Hskip (S i + q)) as (entry2 & He2 & Hempty);
          [lia|apply nth_error_Some; congruence|].
        congruence.
    + intros q H1 H2. apply Hskip; lia.
Qed.

(** X23: [--begin()] on a graph with edges: when the first node has an
    outgoing edge the call throws [std::out_of_range] ("before beginning")
    and leaves the iterator as it was; when the first node has none, the
    backward loop stops at that node and takes [std::prev] of the end of its
    empty set, which is undefined. *)
Theorem X23_decrement_begin (g : graph_ptr) (key : N) (out inc : @edge_ptr_set N E)
        (rest : store) :
  graph_obj g = (key, (out, inc)) :: rest ->
  stored_values (graph_obj g) <> [] ->
  decr (iterator_begin g)
  = match out with
    | _ :: _ => Some (Throw decrement_begin_what, iterator_begin g)
    | [] => None
    end.
Proof.
  intros Hg Hsome. unfold iterator_begin. rewrite Hg. cbn [empty]. rewrite <- Hg.
  destruct (skip_empty_run (graph_obj g) 0) as (k & Hk & Hle & Hskip & Hvals & Hnext).
  rewrite Hk. cbn [Nat.add].
  destruct (Nat.eqb_spec k (List.length (graph_obj g))) as [Hend|Hmid].
  - exfalso. apply Hsome. rewrite Hvals, skipn_all2 by lia. reflexivity.
  - destruct Hnext as (entry & e & Hentry & He); [lia|].
    rewrite (decr_position g k 0 entry Hentry).
    destruct k as [|k].
    + rewrite Hg in Hentry. cbn in Hentry. injection Hentry as <-. cbn in He.
      destruct out; [discriminate|]. reflexivity.
    + cbn [Nat.eqb andb].
      destruct (Hskip 0) as (entry0 & He0 & Hempty); [lia|].
      rewrite (back_do_while_first _ (S k)); [|lia|exact Hskip].
      rewrite He0, Hempty. cbn [prev_end].
      rewrite Hg in He0. cbn in He0. injection He0 as <-. cbn in Hempty. subst out.
      reflexivity.
Qed.

End Decrement.

Section GraphEquality.
Context {N E : Type} `{OrdN : Ord N} `{OrdE : Ord E}.

Local Abbreviation store := (@store N E).
Local Abbreviation edge_ptr := (@edge_ptr N E).
Local Abbreviation edge_ptr_set_pair := (@edge_ptr_set_pair N E).
Local Abbreviation graph_ptr := (@graph_ptr N E).
Local Abbreviation iterator := (@iterator N E).
Local Abbreviation value_type := (@value_type N E).

Lemma value_differs_false (v1 v2 : value_type) :
  value_differs v1 v2 = false <-> v1 = v2.
Proof.
  destruct v1 as [f1 t1 w1], v2 as [f2 t2 w2]. unfold value_differs. cbn.
  rewrite !orb_false_iff, !negb_false_iff. split.
  - intros [[Hf Ht] Hw]. apply equal_true in Hf, Ht. subst.
    destruct w1, w2; cbn in Hw; try discriminate; [|reflexivity].
    apply equal_true in Hw. subst. reflexivity.
  - intros [= -> -> ->]. rewrite !equal_refl. repeat split.
    destruct w2; cbn; [apply equal_refl|reflexivity].
Qed.

Lemma nodes_mismatch_false (vec1 vec2 : list N) :
  List.length vec1 = List.length vec2 ->
  nodes_mismatch vec1 vec2 = false <-> vec1 = vec2.
Proof.
  revert vec2. induction vec1 as [|x vec1 IH]; intros [|y vec2]; cbn; try discriminate.
  - intros _. split; reflexivity.
  - intros [= Hlen]. rewrite orb_false_iff, negb_false_iff, (IH vec2 Hlen). split.
    + intros [Hx ->]. apply equal_true in Hx. subst. reflexivity.
    + intros [= -> ->]. rewrite equal_refl. split; reflexivity.
Qed.

(** The loop on two iterators that have the same values ahead. *)
Lemma graph_eq_loop_same (this other : graph_ptr) (l : list value_type) :
  forall (fuel : nat) (g_it other_it : iterator),
    points_at this g_it l -> points_at other other_it l ->
    List.length l < fuel ->
    graph_eq_loop fuel (iterator_end this) (iterator_end other) g_it other_it = Some true.
Proof.
  induction l as [|v l IH]; intros fuel g_it other_it Hg Ho Hfuel;
    (destruct fuel as [|fuel]; [cbn in Hfuel; lia|]); cbn [graph_eq_loop].
  - apply points_at_nil in Hg, Ho. subst.
    rewrite !iterator_eq_end_end. reflexivity.
  - destruct (points_at_cons _ _ _ _ Hg) as (i & j & entry & e & -> & Hi & Hj & Hv & Hl).
    destruct (points_at_cons _ _ _ _ Ho) as (i' & j' & entry' & e' & -> & Hi' & Hj' & Hv' & Hl').
    rewrite (iterator_eq_position_end this this i j entry Hi).
    rewrite (iterator_eq_position_end other this i' j' entry' Hi').
    destruct (step_from_position this i j entry e Hi Hj) as (Hd & it1 & Hinc & Hp).
    destruct (step_from_position other i' j' entry' e' Hi' Hj') as (Hd' & it2 & Hinc' & Hp').
    cbn zeta in Hd, Hd', Hinc, Hinc'.
    rewrite Hd, Hd', Hinc, Hinc'. rewrite <- Hv, <- Hv'.
    rewrite (proj2 (value_differs_false v v) eq_refl).
    rewrite <- Hl in Hp. rewrite <- Hl' in Hp'.
    apply IH; [exact Hp|exact Hp'|cbn in Hfuel; lia].
Qed.

(** The loop answers true only on two iterators with the same values
    ahead. *)
Lemma graph_eq_loop_true (this other : graph_ptr) :
  forall (fuel : nat) (l1 l2 : list value_type) (g_it other_it : iterator),
    points_at this g_it l1 -> points_at other other_it l2 ->
    graph_eq_loop fuel (iterator_end this) (iterator_end other) g_it other_it = Some true ->
    l1 = l2.
Proof.
  induction fuel as [|fuel IH]; intros l1 l2 g_it other_it Hg Ho; cbn [graph_eq_loop];
    [discriminate|].
  destruct l1 as [|v1 l1].
  - apply points_at_nil in Hg. subst. rewrite iterator_eq_end_end.
    destruct l2 as [|v2 l2]; [reflexivity|].
    destruct (points_at_cons _ _ _ _ Ho) as (i' & j' & entry' & e' & -> & Hi' & _).
    rewrite (iterator_eq_position_end other other i' j' entry' Hi'). discriminate.
  - destruct (points_at_cons _ _ _ _ Hg) as (i & j & entry & e & -> & Hi & Hj & Hv & Hl).
    rewrite (iterator_eq_position_end this this i j entry Hi).
    destruct l2 as [|v2 l2].
    + apply points_at_nil in Ho. subst. rewrite iterator_eq_ends.
      destruct (Nat.eqb (graph_at other) (graph_at this)); [discriminate|].
      destruct (deref _); discriminate.
    + destruct (points_at_cons _ _ _ _ Ho)
        as (i' & j' & entry' & e' & -> & Hi' & Hj' & Hv' & Hl').
      rewrite (iterator_eq_position_end other this i' j' entry' Hi').
      destruct (step_from_position this i j entry e Hi Hj) as (Hd & it1 & Hinc & Hp).
      destruct (step_from_position other i' j' entry' e' Hi' Hj')
        as (Hd' & it2 & Hinc' & Hp').
      cbn zeta in Hd, Hd', Hinc, Hinc'.
      rewrite Hd, Hd', Hinc, Hinc'. rewrite <- Hv, <- Hv'.
      destruct (value_differs v1 v2) eqn:Hdiff; [discriminate|].
      apply value_differs_false in Hdiff.
      rewrite <- Hl in Hp. rewrite <- Hl' in Hp'.
      intros H. rewrite Hdiff, (IH _ _ _ _ Hp Hp' H). reflexivity.
Qed.

(** The loop on a second graph that runs out of values first, held at
    another address: the loop condition compares [other_it] with the [end()]
    of [*this], which it never equals, so the loop goes on to dereference
    [other.end()]. *)
Lemma graph_eq_loop_overrun (this other : graph_ptr) (l : list value_type) :
  Nat.eqb (graph_at other) (graph_at this) = false ->
  forall (fuel : nat) (more : list value_type) (g_it other_it : iterator),
    more <> [] ->
    points_at this g_it (l ++ more) -> points_at other other_it l ->
    graph_eq_loop fuel (iterator_end this) (iterator_end other) g_it other_it = None.
Proof.
  intros Haddr. induction l as [|v l IH]; intros fuel more g_it other_it Hmore Hg Ho;
    (destruct fuel as [|fuel]; [reflexivity|]); cbn [graph_eq_loop].
  - destruct more as [|v more]; [contradiction|]. cbn [app] in Hg.
    destruct (points_at_cons _ _ _ _ Hg) as (i & j & entry & e & -> & Hi & Hj & Hv & Hl).
    rewrite (iterator_eq_position_end this this i j entry Hi).
    apply points_at_nil in Ho. subst. rewrite iterator_eq_ends, Haddr.
    destruct (deref _); reflexivity.
  - cbn [app] in Hg.
    destruct (points_at_cons _ _ _ _ Hg) as (i & j & entry & e & -> & Hi & Hj & Hv & Hl).
    destruct (points_at_cons _ _ _ _ Ho) as (i' & j' & entry' & e' & -> & Hi' & Hj' & Hv' & Hl').
    rewrite (iterator_eq_position_end this this i j entry Hi).
    rewrite (iterator_eq_position_end other this i' j' entry' Hi').
    destruct (step_from_position this i j entry e Hi Hj) as (Hd & it1 & Hinc & Hp).
    destruct (step_from_position other i' j' entry' e' Hi' Hj') as (Hd' & it2 & Hinc' & Hp').
    cbn zeta in Hd, Hd', Hinc, Hinc'.
    rewrite Hd, Hd', Hinc, Hinc'. rewrite <- Hv, <- Hv'.
    rewrite (proj2 (value_differs_false v v) eq_refl).
    rewrite <- Hl in Hp. rewrite <- Hl' in Hp'.
    apply (IH fuel more); assumption.
Qed.

Lemma graph_eq_same (fuel : nat) (this other : graph_ptr) :
  nodes (graph_obj this) = nodes (graph_obj other) ->
  stored_values (graph_obj this) = stored_values (graph_obj other) ->
  List.length (stored_values (graph_obj this)) < fuel ->
  graph_eq fuel this other = Some true.
Proof.
  intros Hn Hv Hfuel. unfold graph_eq.
  assert (Hlen : List.length (graph_obj this) = List.length (graph_obj other)).
  { unfold nodes in Hn. rewrite <- (length_map fst (graph_obj this)), Hn.
    apply length_map. }
  rewrite Hlen, Nat.eqb_refl. cbn [negb].
  rewrite (proj2 (nodes_mismatch_false _ _ (f_equal (@List.length N) Hn)) Hn).
  pose proof (points_at_begin this) as Hg.
  pose proof (points_at_begin other) as Ho. rewrite <- Hv in Ho.
  destruct (stored_values (graph_obj this)) as [|v l] eqn:Hl.
  - apply points_at_nil in Hg, Ho. cbn zeta.
    rewrite Hg, Ho, !iterator_eq_end_end. reflexivity.
  - destruct (points_at_cons _ _ _ _ Hg) as (i & j & entry & e & Hit & Hi & _).
    destruct (points_at_cons _ _ _ _ Ho) as (i' & j' & entry' & e' & Hit' & Hi' & _).
    assert (E1 : iterator_eq (iterator_begin this) (iterator_end this) = Some false)
      by (rewrite Hit; exact (iterator_eq_position_end this this i j entry Hi)).
    assert (E2 : iterator_eq (iterator_begin other) (iterator_end other) = Some false)
      by (rewrite Hit'; exact (iterator_eq_position_end other other i' j' entry' Hi')).
    cbn zeta. rewrite E1, E2.
    apply (graph_eq_loop_same this other (v :: l)); assumption.
Qed.

(** X24: [operator==] answers true on two graphs, at the same or at
    different addresses, whose [nodes()] are equal and whose traversals
    yield the same values in the same order. *)
Theorem X24_graph_eq_complete (fuel : nat) (this other : graph_ptr) :
  nodes (graph_obj this) = nodes (graph_obj other) ->
  stored_values (graph_obj this) = stored_values (graph_obj other) ->
  List.length (stored_values (graph_obj this)) < fuel ->
  graph_eq fuel this other = Some true.
Proof. exact (graph_eq_same fuel this other). Qed.

(** X25: [operator==] answers true only on graphs whose [nodes()] are equal
    and whose traversals yield the same values in the same order. *)
Theorem X25_graph_eq_sound (fuel : nat) (this other : graph_ptr) :
  graph_eq fuel this other = Some true ->
  nodes (graph_obj this) = nodes (graph_obj other)
  /\ stored_values (graph_obj this) = stored_values (graph_obj other).
Proof.
  unfold graph_eq.
  destruct (Nat.eqb_spec (List.length (graph_obj this)) (List.length (graph_obj other)))
    as [Hlen|]; cbn [negb]; [|discriminate].
  destruct (nodes_mismatch _ _) eqn:Hm; [discriminate|].
  apply nodes_mismatch_false in Hm; [|unfold nodes; rewrite !length_map; exact Hlen].
  pose proof (points_at_begin this) as Hg.
  pose proof (points_at_begin other) as Ho.
  cbn zeta. intros H. split; [exact Hm|].
  assert (E1 : iterator_eq (iterator_begin this) (iterator_end this)
               = Some (match stored_values (graph_obj this) with
                       | [] => true
                       | _ :: _ => false
                       end)).
  { destruct (stored_values (graph_obj this)) as [|v1 l1].
    - apply points_at_nil in Hg. rewrite Hg. apply iterator_eq_end_end.
    - destruct (points_at_cons _ _ _ _ Hg) as (i & j & entry & e & Hit & Hi & _).
      rewrite Hit. exact (iterator_eq_position_end this this i j entry Hi). }
  assert (E2 : iterator_eq (iterator_begin other) (iterator_end other)
               = Some (match stored_values (graph_obj other) with
                       | [] => true
                       | _ :: _ => false
                       end)).
  { destruct (stored_values (graph_obj other)) as [|v2 l2].
    - apply points_at_nil in Ho. rewrite Ho. apply iterator_eq_end_end.
    - destruct (points_at_cons _ _ _ _ Ho) as (i & j & entry & e & Hit & Hi & _).
      rewrite Hit. exact (iterator_eq_position_end other other i j entry Hi). }
  rewrite E1, E2 in H.
  destruct (stored_values (graph_obj this)) as [|v1 l1];
    destruct (stored_values (graph_obj other)) as [|v2 l2];
    try reflexivity; try discriminate.
  exact (graph_eq_loop_true this other fuel _ _ _ _ Hg Ho H).
Qed.

(** X26: A copy compares equal to its source, and a graph that received
    another by move compares equal to the value the source had, while the
    source is left without nodes. *)
Theorem X26_copy_and_move_compare_equal (fuel : nat) (a b : addr) (g : store) :
  List.length (stored_values g) < fuel ->
  graph_eq fuel (mk_graph_ptr a (graph_copy g)) (mk_graph_ptr b g) = Some true
  /\ graph_eq fuel (mk_graph_ptr a (fst (graph_move g))) (mk_graph_ptr b g) = Some true
  /\ empty (snd (graph_move g)) = true.
Proof.
  intros Hfuel. repeat split; apply graph_eq_same; try reflexivity; exact Hfuel.
Qed.

(** X27: [operator==] on a second graph at another address whose nodes are
    the same and whose traversal is a proper, non-empty prefix of the first
    one's: the loop condition compares the second iterator with [end()] of
    the first graph, so after the common values the loop dereferences the
    second graph's [end()], which is undefined; no amount of steps yields an
    answer. *)
Theorem X27_graph_eq_overrun (fuel : nat) (this other : graph_ptr)
        (v : value_type) (l more : list value_type) :
  Nat.eqb (graph_at other) (graph_at this) = false ->
  nodes (graph_obj this) = nodes (graph_obj other) ->
  stored_values (graph_obj other) = v :: l ->
  stored_values (graph_obj this) = (v :: l) ++ more ->
  more <> [] ->
  graph_eq fuel this other = None.
Proof.
  intros Haddr Hn Ho' Hg' Hmore. unfold graph_eq.
  assert (Hlen : List.length (graph_obj this) = List.length (graph_obj other)).
  { unfold nodes in Hn. rewrite <- (length_map fst (graph_obj this)), Hn.
    apply length_map. }
  rewrite Hlen, Nat.eqb_refl. cbn [negb].
  rewrite (proj2 (nodes_mismatch_false _ _ (f_equal (@List.length N) Hn)) Hn).
  pose proof (points_at_begin this) as Hg.
  pose proof (points_at_begin other) as Ho. rewrite Hg' in Hg. rewrite Ho' in Ho.
  cbn [app] in Hg.
  destruct (points_at_cons _ _ _ _ Hg) as (i & j & entry & e & Hit & Hi & _).
  destruct (points_at_cons _ _ _ _ Ho) as (i' & j' & entry' & e' & Hit' & Hi' & _).
  assert (E1 : iterator_eq (iterator_begin this) (iterator_end this) = Some false)
    by (rewrite Hit; exact (iterator_eq_position_end this this i j entry Hi)).
  assert (E2 : iterator_eq (iterator_begin other) (iterator_end other) = Some false)
    by (rewrite Hit'; exact (iterator_eq_position_end other other i' j' entry' Hi')).
  cbn zeta. rewrite E1, E2.
  apply (graph_eq_loop_overrun this other (v :: l) Haddr fuel more); assumption.
Qed.

End GraphEquality.

Section Erasing.
Context {N E : Type} `{OrdN : Ord N} `{OrdE : Ord E}.

Local Abbreviation store := (@store N E).
Local Abbreviation edge_ptr := (@edge_ptr N E).
Local Abbreviation edge_ptr_set_pair := (@edge_ptr_set_pair N E).
Local Abbreviation world := (@world N E).

Lemma in_stored_values (g : store) (v : @value_type N E) :
  In v (stored_values g)
  <-> exists entry e, In entry g /\ In e (fst (snd entry)) /\ v = value_at e.
Proof.
  unfold stored_values. rewrite in_flat_map. split.
  - intros (entry & Hin & Hv). apply in_map_iff in Hv. destruct Hv as (e & <- & He).
    exists entry, e. auto.
  - intros (entry & e & Hin & He & ->). exists entry. split; [exact Hin|].
    apply in_map. exact He.
Qed.

(** What [erase_node] leaves of a store with increasing keys: no record for
    [value], and for every other key its record with the edges to and from
    [value] filtered out. *)
Lemma erase_node_effect (value : N) (w : world) :
  StronglySorted (fun a b => less a b = true) (nodes (g_ w)) ->
  is_node (g_ w) value = true ->
  exists w',
    erase_node value w = (Ret true, w')
    /\ map_find value (g_ w') = None
    /\ forall k, k <> value ->
                 map_find k (g_ w')
                 = option_map (fun v => snd (erase_incident value (k, v)))
                              (map_find k (g_ w)).
Proof.
  intros Hkeys Hv. rewrite erase_node_unfold, Hv. cbn [negb].
  eexists. split; [reflexivity|]. cbn [g_].
  set (g1 := map_update value (fun p => (fst p, []))
                        (map_update value (fun p => ([], snd p)) (g_ w))).
  set (g2 := map (erase_incident value) g1).
  assert (Hv0 : is_node (map_update value (fun p => ([], snd p)) (g_ w)) value = true)
    by (rewrite is_node_update_iff; assumption).
  assert (Hn1 : nodes g1 = nodes (g_ w))
    by (unfold g1; rewrite !nodes_update_present; auto).
  assert (Hs2 : StronglySorted (fun a b => less a b = true) (nodes g2))
    by (unfold g2; rewrite nodes_erase_incident, Hn1; exact Hkeys).
  split.
  - apply map_find_erase_same. exact Hs2.
  - intros k Hne. rewrite (map_find_erase_other value k g2 Hs2 Hne).
    unfold g2. rewrite map_find_erase_incident. f_equal.
    unfold g1, map_update. rewrite !map_find_assign_other by exact Hne. reflexivity.
Qed.

(** X8: [erase_node(value)], whatever public operations were called before:
    it answers whether [value] was a node; afterwards [value] is not a node
    and every other value is a node exactly if it was; an absent [value]
    leaves the graph as it was; and when [value] was present the traversal
    afterwards yields exactly the values it yielded before that neither
    start nor end at [value]. *)
Theorem X8_erase_node_removes_incident_edges (value : N) (w : world) :
  reachable w ->
  exists w',
    erase_node value w = (Ret (is_node (g_ w) value), w')
    /\ is_node (g_ w') value = false
    /\ (forall k, k <> value -> is_node (g_ w') k = is_node (g_ w) k)
    /\ (is_node (g_ w) value = false -> w' = w)
    /\ (is_node (g_ w) value = true ->
        forall v, In v (stored_values (g_ w'))
                  <-> In v (stored_values (g_ w)) /\ from v <> value /\ to v <> value).
Proof.
  intros Hw. pose proof (reachable_tidy w Hw) as Ht.
  destruct (is_node (g_ w) value) eqn:Hv.
  - destruct (erase_node_effect value w (proj1 Ht) Hv) as (w' & Hrun & Hgone & Hfind).
    exists w'. split; [exact Hrun|].
    assert (Ht' : tidy (g_ w'))
      by exact (erase_node_tidy value w _ _ Hrun Ht).
    split; [unfold is_node; rewrite Hgone; reflexivity|].
    split; [intros k Hne; unfold is_node; rewrite (Hfind k Hne);
            destruct (map_find k (g_ w)); reflexivity|].
    split; [discriminate|]. intros _ v. split.
    + intros H. apply in_stored_values in H.
      destruct H as ([k sets'] & e & Hin & He & ->).
      pose proof (map_find_sorted _ _ _ (proj1 Ht') Hin) as Hk.
      assert (Hne : k <> value) by (intros ->; congruence).
      pose proof (proj2 (proj2 Ht' _ Hin) e He) as Hsrc. cbn [fst] in Hsrc.
      rewrite (Hfind k Hne) in Hk.
      destruct (map_find k (g_ w)) as [sets|] eqn:Hk0; [|discriminate].
      cbn in Hk. destruct (equal_spec k value) as [|_]; [contradiction|].
      cbn in Hk. injection Hk as <-. cbn [fst snd] in He.
      unfold erase_if in He. apply filter_In in He. destruct He as [He Hdst].
      apply negb_true_iff in Hdst. apply equal_false in Hdst.
      split; [|split].
      * apply in_stored_values. exists (k, sets), e.
        split; [exact (map_find_key _ _ _ Hk0)|]. split; [exact He|reflexivity].
      * unfold value_at, src_of in *. cbn [from]. congruence.
      * exact Hdst.
    + intros (Hin & Hfrom & Hto).
      apply in_stored_values in Hin. destruct Hin as ([k sets] & e & Hin & He & ->).
      pose proof (proj2 (proj2 Ht _ Hin) e He) as Hsrc. cbn [fst snd] in Hsrc, He.
      unfold value_at, src_of in *. cbn [from to] in Hfrom, Hto.
      assert (Hne : k <> value) by congruence.
      pose proof (Hfind k Hne) as Hk.
      rewrite (map_find_sorted _ _ _ (proj1 Ht) Hin) in Hk. cbn in Hk.
      destruct (equal_spec k value) as [|_]; [contradiction|]. cbn in Hk.
      apply map_find_key in Hk.
      apply in_stored_values. eexists. exists e. split; [exact Hk|].
      split; [|reflexivity]. cbn [fst snd]. unfold erase_if. apply filter_In.
      split; [exact He|]. apply negb_true_iff.
      destruct (equal_spec (snd (get_nodes (pointee e))) value); [contradiction|reflexivity].
  - exists w. rewrite erase_node_unfold, Hv. cbn [negb].
    repeat split; try assumption; discriminate.
Qed.

Lemma create_edge_ptr_injective (a b : addr) (s d s' d' : N) (x x' : option E) :
  pointee (create_edge_ptr a s d x) = pointee (create_edge_ptr b s' d' x') ->
  s = s' /\ d = d' /\ x = x'.
Proof.
  destruct x, x'; cbn; intros H; try discriminate; injection H; intros; subst; auto.
Qed.

Lemma existsb_erase_at_other (p : edge_ptr -> bool) (s : list edge_ptr) (i : nat)
      (h : edge_ptr) :
  nth_error s i = Some h -> p h = false ->
  existsb p (set_erase_at i s) = existsb p s.
Proof.
  revert i. induction s as [|y s IH]; intros [|i]; cbn; try discriminate.
  - intros [= ->] ->. reflexivity.
  - intros Hh Hp. rewrite (IH i Hh Hp). reflexivity.
Qed.

(** [find] answers [end()] exactly when a node is absent or the outgoing
    set of [src] holds no edge of that content. *)
Lemma find_end_iff (this a : addr) (w : world) (s d : N) (x : option E) :
  find this w s d x = end_ this w
  <-> is_node (g_ w) s = false \/ is_node (g_ w) d = false
      \/ existsb (edge_content_equal (create_edge_ptr a s d x))
                 (fst (subscript (g_ w) s)) = false.
Proof.
  unfold find.
  destruct (is_node (g_ w) s); cbn [negb orb]; [|split; auto].
  destruct (is_node (g_ w) d); cbn [negb orb]; [|split; auto].
  rewrite (find_if_ext _ (edge_content_equal (create_edge_ptr a s d x)))
    by (intros y; apply edge_content_equal_addr).
  rewrite <- find_if_none.
  destruct (Nat.eqb_spec (find_if (edge_content_equal (create_edge_ptr a s d x))
                                  (fst (subscript (g_ w) s)))
                         (List.length (fst (subscript (g_ w) s)))) as [Hnone|Hsome].
  - split; auto.
  - split; [discriminate|]. intros [H|[H|H]]; [discriminate|discriminate|contradiction].
Qed.

(** What [erase_edge] does to the node set and to the outgoing sets, on
    whichever answer it ends. *)
Lemma erase_edge_effect (src dst : N) (weight : option E) (w : world) :
  is_node (g_ w) src = true -> is_node (g_ w) dst = true ->
  let c := create_edge_ptr (brk w) src dst weight in
  let out := fst (subscript (g_ w) src) in
  let i := find_if (edge_content_equal c) out in
  let w' := snd (erase_edge src dst weight w) in
  (forall k, is_node (g_ w') k = is_node (g_ w) k)
  /\ (i = List.length out -> erase_edge src dst weight w = (Ret false, w))
  /\ (i <> List.length out ->
      forall k, fst (subscript (g_ w') k)
                = if equal k src then set_erase_at i out else fst (subscript (g_ w) k)).
Proof.
  intros Hs Hd c out i. rewrite erase_edge_unfold, Hs, Hd. cbn [negb orb]. cbv zeta.
  fold c out i.
  destruct (Nat.eqb_spec i (List.length out)) as [Hnone|Hsome]; cbn [negb snd].
  - split; [reflexivity|split; [reflexivity|contradiction]].
  - set (g1 := map_update src (fun p => (set_erase_at i (fst p), snd p)) (g_ w)).
    assert (Hn1 : forall k, is_node g1 k = is_node (g_ w) k)
      by (intros k; unfold g1; apply is_node_update_iff; exact Hs).
    assert (Hf1 : forall k, fst (subscript g1 k)
                            = if equal k src then set_erase_at i out
                              else fst (subscript (g_ w) k)).
    { intros k. unfold g1. destruct (equal_spec k src) as [->|Hne].
      - rewrite subscript_update_same. reflexivity.
      - rewrite subscript_update_other by exact Hne. reflexivity. }
    destruct (negb (Nat.eqb _ _)); cbn [snd g_].
    + split; [|split; [congruence|]].
      * intros k. rewrite is_node_update_iff by (rewrite Hn1; exact Hd). apply Hn1.
      * intros _ k. unfold g1.
        exact (fst_after_updates src dst (set_erase_at i) _ (g_ w) k).
    + split; [exact Hn1|split; [congruence|intros _; exact Hf1]].
Qed.

(** X9: [erase_edge(src, dst, weight)] on present nodes, whatever public
    operations were called before and whatever it answers: no node appears
    or vanishes; afterwards [find(src, dst, weight)] is [end()], and for any
    other (s, d, x) [find] is [end()] exactly if it was before. *)
Theorem X9_erase_edge_removes_one_edge (this : addr) (w : world)
        (src dst : N) (weight : option E) (s d : N) (x : option E) :
  reachable w ->
  is_node (g_ w) src = true -> is_node (g_ w) dst = true ->
  let w' := snd (erase_edge src dst weight w) in
  (forall k, is_node (g_ w') k = is_node (g_ w) k)
  /\ (find this w' s d x = end_ this w'
      <-> find this w s d x = end_ this w \/ (s = src /\ d = dst /\ x = weight)).
Proof.
  intros Hw Hs Hd w'.
  destruct (erase_edge_effect src dst weight w Hs Hd) as (Hn & Hnone & Hsome).
  fold w' in Hn, Hsome. split; [exact Hn|].
  pose proof (find_after_erase this src dst weight w (reachable_outgoing_distinct w Hw))
    as Hgone. cbv zeta in Hgone. fold w' in Hgone.
  set (out := fst (subscript (g_ w) src)) in *.
  set (c := create_edge_ptr (brk w) src dst weight) in *.
  destruct (Nat.eq_dec (find_if (edge_content_equal c) out) (List.length out))
    as [Hi|Hi].
  - assert (Hsame : w' = w) by (unfold w'; rewrite (Hnone Hi); reflexivity).
    rewrite Hsame in *. split; [auto|].
    intros [H|(-> & -> & ->)]; [exact H|exact Hgone].
  - specialize (Hsome Hi).
    destruct (find_if_found _ _ Hi) as (h & Hh & Hp).
    rewrite (find_end_iff this 0 w' s d x), (find_end_iff this 0 w s d x), !Hn, Hsome.
    destruct (equal_spec s src) as [->|Hne]; [|tauto].
    fold out.
    destruct (edge_content_equal (create_edge_ptr 0 src d x) h) eqn:Hq.
    + unfold edge_content_equal in Hp, Hq. apply edge_eq_true in Hp, Hq.
      rewrite Hp in Hq. apply create_edge_ptr_injective in Hq.
      destruct Hq as (_ & <- & <-). split; [auto|]. intros _.
      apply (find_end_iff this 0 w' src dst weight) in Hgone.
      rewrite !Hn, Hsome, equal_refl in Hgone. exact Hgone.
    + rewrite (existsb_erase_at_other _ _ _ h Hh Hq).
      split; [tauto|]. intros [H|(_ & -> & ->)]; [exact H|].
      rewrite (edge_content_equal_addr 0 (brk w)) in Hq. fold c in Hq. congruence.
Qed.

(** X10: [erase_edge(src, dst, weight)] on present nodes of a graph built
    by [insert_node], [insert_edge], [erase_node], [erase_edge] and [clear]:
    when [find(src, dst, weight)] is [end()] it answers false and changes
    nothing; otherwise it answers true, and the store invariant holds
    afterwards. *)
Theorem X10_erase_edge_answer (this : addr) (ops : list (@op N E))
        (src dst : N) (weight : option E) :
  forallb (fun o => negb (rewrites_node o)) ops = true ->
  let w := run ops graph_default in
  is_node (g_ w) src = true -> is_node (g_ w) dst = true ->
  (find this w src dst weight = end_ this w
   /\ erase_edge src dst weight w = (Ret false, w))
  \/ (find this w src dst weight <> end_ this w
      /\ exists w', erase_edge src dst weight w = (Ret true, w')
                    /\ store_invariant (g_ w') = true).
Proof.
  intros Hops w Hs Hd.
  pose proof (plain_run_consistent ops Hops) as Hw. fold w in Hw.
  pose proof (consistent_erase_edge src dst weight w Hw) as Hw'.
  destruct (erase_edge_effect src dst weight w Hs Hd) as (_ & Hnone & _).
  rewrite (find_end_iff this (brk w) w src dst weight), Hs, Hd, <- find_if_none.
  set (c := create_edge_ptr (brk w) src dst weight) in *.
  set (out := fst (subscript (g_ w) src)) in *.
  destruct (Nat.eq_dec (find_if (edge_content_equal c) out) (List.length out))
    as [Hi|Hi].
  - left. split; [auto|exact (Hnone Hi)].
  - right. split; [intros [H|[H|H]]; [discriminate|discriminate|contradiction]|].
    exists (snd (erase_edge src dst weight w)).
    split; [|apply consistent_store_invariant; exact Hw'].
    revert Hw'. rewrite erase_edge_unfold, Hs, Hd. cbn [negb orb]. cbv zeta.
    fold c out.
    destruct (Nat.eqb_spec (find_if (edge_content_equal c) out) (List.length out))
      as [|_]; [contradiction|]. cbn [negb].
    destruct (find_if_found _ _ Hi) as (h & Hh & Hp).
    pose proof (nth_error_In _ _ Hh) as Hhin.
    destruct (content_equal_endpoints _ _ Hp) as [_ Hhd].
    destruct (create_edge_ptr_fields (brk w) src dst weight) as (_ & _ & Hcd).
    fold c in Hcd. rewrite Hcd in Hhd.
    assert (Hhinc : In h (snd (subscript (g_ w) dst))).
    { destruct Hw as [_ Hc]. destruct (Hc src Hs) as (HO & _).
      destruct (HO h Hhin) as (_ & _ & C & _). rewrite Hhd in C. exact C. }
    rewrite snd_after_out_update.
    destruct (Nat.eqb_spec (find_if (edge_content_equal c) (snd (subscript (g_ w) dst)))
                           (List.length (snd (subscript (g_ w) dst)))) as [Hnone'|_];
      cbn [negb snd]; [|reflexivity].
    exfalso. apply find_if_none in Hnone'.
    assert (Hex : existsb (edge_content_equal c) (snd (subscript (g_ w) dst)) = true)
      by (apply existsb_exists; exists h; split; assumption).
    congruence.
Qed.

End Erasing.

Section Moving.
Context {N E : Type} `{OrdN : Ord N} `{OrdE : Ord E}.

Local Abbreviation store := (@store N E).
Local Abbreviation edge_ptr := (@edge_ptr N E).
Local Abbreviation edge_ptr_set_pair := (@edge_ptr_set_pair N E).
Local Abbreviation world := (@world N E).

Lemma stores_edge_existsb (g : store) (a : addr) (s d : N) (x : option E) :
  stores_edge g s d x
  <-> existsb (edge_content_equal (create_edge_ptr a s d x)) (fst (subscript g s)) = true.
Proof.
  unfold stores_edge. rewrite existsb_exists. split.
  - intros (h & Hin & Hh). exists h. split; [exact Hin|].
    unfold edge_content_equal. rewrite Hh, (create_edge_ptr_content 0 a).
    apply edge_eq_refl.
  - intros (h & Hin & Hh). exists h. split; [exact Hin|].
    unfold edge_content_equal in Hh. apply edge_eq_true in Hh.
    rewrite Hh. apply create_edge_ptr_content.
Qed.

Lemma find_not_end_iff (this : addr) (w : world) (s d : N) (x : option E) :
  find this w s d x <> end_ this w
  <-> is_node (g_ w) s = true /\ is_node (g_ w) d = true /\ stores_edge (g_ w) s d x.
Proof.
  rewrite (find_end_iff this 0 w s d x), (stores_edge_existsb (g_ w) 0 s d x).
  destruct (is_node (g_ w) s), (is_node (g_ w) d),
    (existsb (edge_content_equal (create_edge_ptr 0 s d x)) (fst (subscript (g_ w) s)));
    intuition congruence.
Qed.

Lemma stored_edge_fields (h : edge_ptr) (s d : N) (x : option E) :
  pointee h = pointee (create_edge_ptr 0 s d x) ->
  src_of h = s /\ dst_of h = d /\ get_weight (pointee h) = x
  /\ (if is_weighted (pointee h) then get_weight (pointee h) else None) = x.
Proof.
  unfold src_of, dst_of. intros ->. destruct x; cbn; auto.
Qed.

(** One [insert_edge] on a consistent state: it returns, the state stays
    consistent, no set loses an element, and the edge is stored. *)
Lemma insert_edge_grows (src dst : N) (weight : option E) (w : world) :
  consistent w ->
  is_node (g_ w) src = true -> is_node (g_ w) dst = true ->
  exists b w1,
    insert_edge src dst weight w = (Ret b, w1)
    /\ consistent w1
    /\ (forall k, is_node (g_ w1) k = is_node (g_ w) k)
    /\ (forall k z, In z (fst (subscript (g_ w) k)) -> In z (fst (subscript (g_ w1) k)))
    /\ (forall k z, In z (snd (subscript (g_ w) k)) -> In z (snd (subscript (g_ w1) k)))
    /\ stores_edge (g_ w1) src dst weight.
Proof.
  intros Hw Hs Hd.
  pose proof (insert_edge_on_consistent src dst weight w Hw Hs Hd) as H.
  pose proof (consistent_insert_edge src dst weight w Hw) as Hw1.
  cbv zeta in H.
  destruct (existed_edge (fst (subscript (g_ w) src))
                         (create_edge_ptr (brk w) src dst weight)) eqn:Hex.
  - exists false, w. split; [exact H|]. split; [exact Hw|].
    split; [reflexivity|]. split; [auto|]. split; [auto|].
    apply (stores_edge_existsb _ (brk w)).
    destruct (existed_edge_true _ _ Hex) as (h & Hin & Hh).
    apply existsb_exists. exists h. auto.
  - destruct H as (w1 & Hrun & Hout & Hin). rewrite Hrun in Hw1. cbn [snd] in Hw1.
    exists true, w1. split; [exact Hrun|]. split; [exact Hw1|].
    split; [exact (insert_edge_nodes _ _ _ _ _ _ Hrun)|].
    split; [|split].
    + intros k z Hz. destruct (equal_spec k src) as [->|Hne].
      * apply Hout. right. exact Hz.
      * rewrite (proj1 (insert_edge_frame _ _ _ _ _ _ k Hrun) Hne). exact Hz.
    + intros k z Hz. destruct (equal_spec k dst) as [->|Hne].
      * apply Hin. right. exact Hz.
      * rewrite (proj2 (insert_edge_frame _ _ _ _ _ _ k Hrun) Hne). exact Hz.
    + exists (create_edge_ptr (brk w) src dst weight).
      split; [apply Hout; left; reflexivity|apply create_edge_ptr_content].
Qed.

(** A loop of [move_node_data] on a consistent state: it runs to its end,
    no set loses an element, and every edge it was to re-create is
    stored. *)
Lemma for_each_moves (l : list edge_ptr) (S D : edge_ptr -> N) (w : world) :
  consistent w ->
  (forall e, In e l -> is_node (g_ w) (S e) = true /\ is_node (g_ w) (D e) = true) ->
  exists w',
    for_each l (fun e => insert_new_edge e (S e) (D e)) w = (Ret tt, w')
    /\ consistent w'
    /\ (forall k, is_node (g_ w') k = is_node (g_ w) k)
    /\ (forall k z, In z (fst (subscript (g_ w) k)) -> In z (fst (subscript (g_ w') k)))
    /\ (forall k z, In z (snd (subscript (g_ w) k)) -> In z (snd (subscript (g_ w') k)))
    /\ forall e, In e l -> stores_edge (g_ w') (S e) (D e) (get_weight (pointee e)).
Proof.
  revert w. induction l as [|e l IH]; intros w Hw Hl; cbn [for_each].
  - exists w. split; [reflexivity|]. split; [exact Hw|].
    split; [reflexivity|]. split; [auto|]. split; [auto|]. intros e [].
  - destruct (Hl e (or_introl eq_refl)) as [Hs Hd].
    destruct (insert_edge_grows (S e) (D e) (get_weight (pointee e)) w Hw Hs Hd)
      as (b & w1 & Hrun & Hw1 & Hn1 & Hf1 & Hi1 & He1).
    destruct (IH w1 Hw1) as (w' & Hrest & Hw' & Hn' & Hf' & Hi' & He').
    { intros e' He''. rewrite !Hn1. apply Hl. right. exact He''. }
    exists w'. split; [|split; [exact Hw'|split; [|split; [|split]]]].
    + unfold bind at 1. unfold insert_new_edge, bind, ret.
      assert (Hcall : (if is_weighted (pointee e)
                       then insert_edge (S e) (D e) (get_weight (pointee e))
                       else insert_edge (S e) (D e) None) w = (Ret b, w1)).
      { destruct (pointee e); exact Hrun. }
      rewrite Hcall. exact Hrest.
    + intros k. rewrite Hn', Hn1. reflexivity.
    + intros k z Hz. apply Hf', Hf1, Hz.
    + intros k z Hz. apply Hi', Hi1, Hz.
    + intros e' [<-|Hin]; [|exact (He' e' Hin)].
      destruct He1 as (h & Hh & Hc). exists h. split; [apply Hf'; exact Hh|exact Hc].
Qed.

(** [move_node_data] on a consistent state with both nodes present: it
    returns; [old_node] is no longer a node; the edges of the other nodes
    stay; every edge out of [old_node] is stored as an edge out of
    [new_node], and every edge into [old_node] as an edge into
    [new_node]. *)
Lemma move_node_data_moves (old_node new_node : N) (w : world) :
  consistent w ->
  is_node (g_ w) old_node = true -> is_node (g_ w) new_node = true ->
  old_node <> new_node ->
  exists w',
    move_node_data old_node new_node w = (Ret tt, w')
    /\ is_node (g_ w') old_node = false
    /\ (forall k, k <> old_node -> is_node (g_ w') k = is_node (g_ w) k)
    /\ (forall s d x, s <> old_node ->
                      stores_edge (g_ w) s d x -> stores_edge (g_ w') s d x)
    /\ (forall d x, stores_edge (g_ w) old_node d x ->
                    stores_edge (g_ w') new_node
                                (if equal d old_node then new_node else d) x)
    /\ (forall s x, s <> old_node ->
                    stores_edge (g_ w) s old_node x -> stores_edge (g_ w') s new_node x).
Proof.
  intros Hw Hold Hnew Hne. unfold move_node_data.
  unfold bind at 1. unfold get at 1.
  destruct (for_each_moves (fst (subscript (g_ w) old_node))
                           (fun _ => new_node) dst_of w Hw)
    as (w1 & Hloop1 & Hw1 & Hn1 & Hf1 & Hi1 & He1).
  { intros e He. split; [exact Hnew|].
    destruct Hw as [_ Hc]. destruct (Hc old_node Hold) as (HO & _).
    exact (proj1 (proj2 (HO e He))). }
  unfold bind at 1. unfold dst_of in Hloop1. rewrite Hloop1.
  unfold bind at 1. unfold get at 1.
  assert (Hold1 : is_node (g_ w1) old_node = true) by (rewrite Hn1; exact Hold).
  destruct (for_each_moves (snd (subscript (g_ w1) old_node))
                           src_of (fun _ => new_node) w1 Hw1)
    as (w2 & Hloop2 & Hw2 & Hn2 & Hf2 & Hi2 & He2).
  { intros e He. split; [|rewrite Hn1; exact Hnew].
    destruct Hw1 as [_ Hc].
    destruct (Hc old_node Hold1) as (_ & HI & _).
    exact (proj1 (proj2 (HI e He))). }
  unfold bind at 1. unfold src_of in Hloop2. rewrite Hloop2.
  eexists. split; [reflexivity|]. cbn [g_].
  assert (Hkeys : StronglySorted (fun a b => less a b = true) (nodes (g_ w2)))
    by exact (proj1 Hw2).
  assert (Hsub : forall k, k <> old_node ->
                           subscript (map_erase old_node (g_ w2)) k = subscript (g_ w2) k).
  { intros k Hk. unfold subscript. rewrite (map_find_erase_other _ _ _ Hkeys Hk).
    reflexivity. }
  assert (Hstay : forall s d x, s <> old_node -> stores_edge (g_ w2) s d x ->
                                stores_edge (map_erase old_node (g_ w2)) s d x).
  { intros s d x Hs (h & Hh & Hc). exists h. rewrite (Hsub s Hs). auto. }
  split; [unfold is_node; rewrite (map_find_erase_same _ _ Hkeys); reflexivity|].
  split; [intros k Hk; unfold is_node;
          rewrite (map_find_erase_other _ _ _ Hkeys Hk);
          fold (is_node (g_ w2) k); rewrite Hn2, Hn1; reflexivity|].
  split; [|split].
  - intros s d x Hs (h & Hh & Hc). apply Hstay; [exact Hs|].
    exists h. split; [apply Hf2, Hf1; exact Hh|exact Hc].
  - intros d x (h & Hh & Hc).
    destruct (stored_edge_fields _ _ _ _ Hc) as (_ & Hd & Hx & _).
    pose proof (He1 h Hh) as Hmoved. unfold dst_of in Hmoved. fold (dst_of h) in Hmoved.
    rewrite Hd, Hx in Hmoved.
    apply Hstay; [congruence|].
    destruct (equal_spec d old_node) as [->|Hd'].
    + destruct Hmoved as (h1 & Hh1 & Hc1).
      destruct (stored_edge_fields _ _ _ _ Hc1) as (Hs1 & Hd1 & Hx1 & _).
      assert (Hin1 : In h1 (snd (subscript (g_ w1) old_node))).
      { destruct Hw1 as [_ Hc']. rewrite <- Hn1 in Hnew.
        destruct (Hc' new_node Hnew) as (HO & _).
        destruct (HO h1 Hh1) as (_ & _ & C & _). rewrite Hd1 in C. exact C. }
      pose proof (He2 h1 Hin1) as Hmoved2. cbn beta in Hmoved2.
      rewrite Hs1, Hx1 in Hmoved2. exact Hmoved2.
    + destruct Hmoved as (h1 & Hh1 & Hc1). exists h1.
      split; [apply Hf2; exact Hh1|exact Hc1].
  - intros s x Hs (h & Hh & Hc).
    destruct (stored_edge_fields _ _ _ _ Hc) as (Hs0 & Hd & Hx & _).
    apply Hstay; [exact Hs|].
    assert (Hin : In h (snd (subscript (g_ w) old_node))).
    { assert (Hsn : is_node (g_ w) s = true).
      { destruct (is_node (g_ w) s) eqn:Hsn; [reflexivity|].
        unfold is_node in Hsn. unfold subscript in Hh.
        destruct (map_find s (g_ w)); [discriminate|destruct Hh]. }
      destruct Hw as [_ Hc']. destruct (Hc' s Hsn) as (HO & _).
      destruct (HO h Hh) as (_ & _ & C & _). rewrite Hd in C. exact C. }
    pose proof (He2 h (Hi1 _ _ Hin)) as Hmoved2. cbn beta in Hmoved2.
    rewrite Hs0, Hx in Hmoved2. exact Hmoved2.
Qed.

End Moving.

Section Rewriting.
Context {N E : Type} `{OrdN : Ord N} `{OrdE : Ord E}.

Local Abbreviation store := (@store N E).
Local Abbreviation edge_ptr := (@edge_ptr N E).
Local Abbreviation edge_ptr_set_pair := (@edge_ptr_set_pair N E).
Local Abbreviation world := (@world N E).

(** X6: [replace_node(old_data, new_data)] on a graph built by
    [insert_node], [insert_edge], [erase_node], [erase_edge] and [clear],
    with [old_data] present and [new_data] absent: it answers true;
    afterwards [new_data] is a node, [old_data] is not, and no other node
    has appeared or vanished; every edge out of [old_data] is found as an
    edge out of [new_data] (a loop on [old_data] as a loop on [new_data]),
    every edge into [old_data] as an edge into [new_data], and the edges
    between other nodes are still found. *)
Theorem X6_replace_node_moves_edges (this : addr) (ops : list (@op N E))
        (old_data new_data : N) :
  forallb (fun o => negb (rewrites_node o)) ops = true ->
  let w := run ops graph_default in
  is_node (g_ w) old_data = true -> is_node (g_ w) new_data = false ->
  exists w',
    replace_node old_data new_data w = (Ret true, w')
    /\ is_node (g_ w') new_data = true
    /\ is_node (g_ w') old_data = false
    /\ (forall k, k <> old_data -> k <> new_data -> is_node (g_ w') k = is_node (g_ w) k)
    /\ (forall d x, find this w old_data d x <> end_ this w ->
                    find this w' new_data (if equal d old_data then new_data else d) x
                    <> end_ this w')
    /\ (forall s x, s <> old_data ->
                    find this w s old_data x <> end_ this w ->
                    find this w' s new_data x <> end_ this w')
    /\ (forall s d x, s <> old_data -> d <> old_data ->
                      find this w s d x <> end_ this w ->
                      find this w' s d x <> end_ this w').
Proof.
  intros Hops w Hold Hnew.
  pose proof (plain_run_consistent ops Hops) as Hw. fold w in Hw.
  assert (Hne : old_data <> new_data) by (intros ->; congruence).
  unfold replace_node. unfold bind at 1. unfold get at 1.
  rewrite Hold, Hnew. cbn [negb].
  unfold bind at 1. rewrite insert_node_unfold, Hnew.
  set (w1 := {| g_ := map_assign new_data ([], []) (g_ w); brk := brk w |}).
  assert (Hw1 : consistent w1).
  { pose proof (consistent_insert_node new_data w Hw) as H.
    rewrite insert_node_unfold, Hnew in H. exact H. }
  assert (Hn1 : forall k, k <> new_data -> is_node (g_ w1) k = is_node (g_ w) k).
  { intros k Hk. unfold is_node, w1. cbn [g_].
    rewrite map_find_assign_other by exact Hk. reflexivity. }
  assert (Hnew1 : is_node (g_ w1) new_data = true) by (apply is_node_assign; auto).
  assert (Hsub : forall k, subscript (g_ w1) k = subscript (g_ w) k).
  { intros k. unfold subscript, w1. cbn [g_]. destruct (equal_spec k new_data) as [->|Hk].
    - rewrite map_find_assign_same. unfold is_node in Hnew.
      destruct (map_find new_data (g_ w)); [discriminate|reflexivity].
    - rewrite map_find_assign_other by exact Hk. reflexivity. }
  assert (Hst : forall s d x, stores_edge (g_ w) s d x -> stores_edge (g_ w1) s d x).
  { intros s d x (h & Hh & Hc). exists h. rewrite Hsub. auto. }
  destruct (move_node_data_moves old_data new_data w1 Hw1) as
    (w' & Hmove & Hgone & Hn' & Hkeep & Hout & Hin); [rewrite Hn1; auto|exact Hnew1|exact Hne|].
  unfold bind at 1. rewrite Hmove. exists w'. split; [reflexivity|].
  assert (Hnew' : is_node (g_ w') new_data = true) by (rewrite Hn'; auto).
  split; [exact Hnew'|]. split; [exact Hgone|].
  split; [intros k H1 H2; rewrite (Hn' k H1); exact (Hn1 k H2)|].
  split; [|split].
  - intros d x H. apply find_not_end_iff in H. destruct H as (_ & Hd & H).
    apply find_not_end_iff. split; [exact Hnew'|]. split; [|exact (Hout d x (Hst _ _ _ H))].
    destruct (equal_spec d old_data) as [->|Hd']; [exact Hnew'|].
    rewrite (Hn' d Hd'), Hn1; [exact Hd|intros ->; congruence].
  - intros s x Hs H. apply find_not_end_iff in H. destruct H as (Hsn & _ & H).
    apply find_not_end_iff. split; [|split; [exact Hnew'|exact (Hin s x Hs (Hst _ _ _ H))]].
    rewrite (Hn' s Hs), Hn1; [exact Hsn|intros ->; congruence].
  - intros s d x Hs Hd H. apply find_not_end_iff in H. destruct H as (Hsn & Hdn & H).
    apply find_not_end_iff.
    split; [rewrite (Hn' s Hs), Hn1; [exact Hsn|intros ->; congruence]|].
    split; [rewrite (Hn' d Hd), Hn1; [exact Hdn|intros ->; congruence]|].
    exact (Hkeep s d x Hs (Hst _ _ _ H)).
Qed.

(** X7: [merge_replace_node(old_data, new_data)] on a graph built by
    [insert_node], [insert_edge], [erase_node], [erase_edge] and [clear],
    with two different nodes present: it returns; afterwards [old_data] is
    not a node and no other node has appeared or vanished; every edge out
    of [old_data] is found as an edge out of [new_data], every edge into
    [old_data] as an edge into [new_data], and the edges between other
    nodes, those of [new_data] included, are still found. *)
Theorem X7_merge_replace_node_moves_edges (this : addr) (ops : list (@op N E))
        (old_data new_data : N) :
  forallb (fun o => negb (rewrites_node o)) ops = true ->
  let w := run ops graph_default in
  is_node (g_ w) old_data = true -> is_node (g_ w) new_data = true ->
  old_data <> new_data ->
  exists w',
    merge_replace_node old_data new_data w = (Ret tt, w')
    /\ is_node (g_ w') old_data = false
    /\ (forall k, k <> old_data -> is_node (g_ w') k = is_node (g_ w) k)
    /\ (forall d x, find this w old_data d x <> end_ this w ->
                    find this w' new_data (if equal d old_data then new_data else d) x
                    <> end_ this w')
    /\ (forall s x, s <> old_data ->
                    find this w s old_data x <> end_ this w ->
                    find this w' s new_data x <> end_ this w')
    /\ (forall s d x, s <> old_data -> d <> old_data ->
                      find this w s d x <> end_ this w ->
                      find this w' s d x <> end_ this w').
Proof.
  intros Hops w Hold Hnew Hne.
  pose proof (plain_run_consistent ops Hops) as Hw. fold w in Hw.
  unfold merge_replace_node. unfold bind at 1. unfold get at 1.
  rewrite Hold, Hnew. cbn [negb orb].
  destruct (equal_spec old_data new_data) as [|_]; [contradiction|].
  destruct (move_node_data_moves old_data new_data w Hw Hold Hnew Hne) as
    (w' & Hmove & Hgone & Hn' & Hkeep & Hout & Hin).
  exists w'. split; [exact Hmove|]. split; [exact Hgone|]. split; [exact Hn'|].
  assert (Hnew' : is_node (g_ w') new_data = true)
    by (rewrite Hn'; [exact Hnew|congruence]).
  split; [|split].
  - intros d x H. apply find_not_end_iff in H. destruct H as (_ & Hd & H).
    apply find_not_end_iff. split; [exact Hnew'|]. split; [|exact (Hout d x H)].
    destruct (equal_spec d old_data) as [->|Hd']; [exact Hnew'|].
    rewrite (Hn' d Hd'). exact Hd.
  - intros s x Hs H. apply find_not_end_iff in H. destruct H as (Hsn & _ & H).
    apply find_not_end_iff. split; [|split; [exact Hnew'|exact (Hin s x Hs H)]].
    rewrite (Hn' s Hs). exact Hsn.
  - intros s d x Hs Hd H. apply find_not_end_iff in H. destruct H as (Hsn & Hdn & H).
    apply find_not_end_iff.
    split; [rewrite (Hn' s Hs); exact Hsn|].
    split; [rewrite (Hn' d Hd); exact Hdn|].
    exact (Hkeep s d x Hs H).
Qed.

(** X4: [insert_edge(src, dst, weight)] on present nodes of a graph built
    by [insert_node], [insert_edge], [erase_node], [erase_edge] and [clear]:
    when [find(src, dst, weight)] is not [end()] it answers false and
    changes nothing; otherwise it answers true, after which [find]
    dereferences to (src, dst, weight), the nodes are those of before and
    the store invariant holds. *)
Theorem X4_insert_edge_answer (this : addr) (ops : list (@op N E))
        (src dst : N) (weight : option E) :
  forallb (fun o => negb (rewrites_node o)) ops = true ->
  let w := run ops graph_default in
  is_node (g_ w) src = true -> is_node (g_ w) dst = true ->
  (find this w src dst weight <> end_ this w
   /\ insert_edge src dst weight w = (Ret false, w))
  \/ (find this w src dst weight = end_ this w
      /\ exists w', insert_edge src dst weight w = (Ret true, w')
                    /\ deref (find this w' src dst weight)
                       = Some {| from := src; to := dst; weight := weight |}
                    /\ (forall k, is_node (g_ w') k = is_node (g_ w) k)
                    /\ store_invariant (g_ w') = true).
Proof.
  intros Hops w Hs Hd.
  pose proof (plain_run_consistent ops Hops) as Hw. fold w in Hw.
  pose proof (insert_edge_on_consistent src dst weight w Hw Hs Hd) as H.
  pose proof (consistent_insert_edge src dst weight w Hw) as Hw1.
  cbv zeta in H.
  rewrite (find_end_iff this (brk w) w src dst weight), Hs, Hd, <- find_if_none.
  unfold existed_edge in H.
  destruct (Nat.eqb_spec (find_if (edge_content_equal (create_edge_ptr (brk w) src dst weight))
                                  (fst (subscript (g_ w) src)))
                         (List.length (fst (subscript (g_ w) src)))) as [Hnone|Hsome].
  - right. split; [auto|]. destruct H as (w' & Hrun & _).
    exists w'. split; [exact Hrun|].
    split; [exact (find_after_insert this src dst weight w w' Hrun)|].
    split; [exact (insert_edge_nodes _ _ _ _ _ _ Hrun)|].
    rewrite Hrun in Hw1. exact (proj1 (consistent_store_invariant w' Hw1)).
  - left. split; [|exact H].
    intros [H'|[H'|H']]; [discriminate|discriminate|contradiction].
Qed.

(** X5: [insert_edge] never adds or removes a node and never touches an
    outgoing set other than that of [src] or an incoming set other than
    that of [dst], in any state and on any outcome. *)
Theorem X5_insert_edge_frame (src dst : N) (weight : option E) (w : world) (k : N) :
  let w' := snd (insert_edge src dst weight w) in
  is_node (g_ w') k = is_node (g_ w) k
  /\ (k <> src -> fst (subscript (g_ w') k) = fst (subscript (g_ w) k))
  /\ (k <> dst -> snd (subscript (g_ w') k) = snd (subscript (g_ w) k)).
Proof.
  intros w'. split.
  - exact (insert_edge_nodes src dst weight w w' _ (surjective_pairing _) k).
  - exact (insert_edge_frame src dst weight w w' _ k (surjective_pairing _)).
Qed.

(** X13: Every graph built by [insert_node], [insert_edge], [erase_node],
    [erase_edge] and [clear] satisfies the store invariant: one record per
    node, and every stored edge has both endpoints among the nodes and sits
    in the outgoing set of its source and in the incoming set of its
    destination. *)
Theorem X13_plain_operations_keep_store_invariant (ops : list (@op N E)) :
  forallb (fun o => negb (rewrites_node o)) ops = true ->
  store_invariant (g_ (run ops graph_default)) = true.
Proof. exact (plain_run_store_invariant ops). Qed.

(** X20: On every graph built by [insert_node], [insert_edge], [erase_node],
    [erase_edge] and [clear], the loop from [begin()] to [end()] yields
    exactly the concatenation, over the nodes [s] in [nodes()] order and
    the destinations [d] in [connections(s)] order, of the [edges(s, d)]
    answers, and none of these queries throws. *)
Theorem X20_plain_traversal_is_edges_concatenated (this : addr) (ops : list (@op N E))
        (fuel : nat) :
  forallb (fun o => negb (rewrites_node o)) ops = true ->
  List.length (stored_values (g_ (run ops graph_default))) < fuel ->
  exists visited,
    traverse fuel (begin_ this (run ops graph_default)) (end_ this (run ops graph_default))
    = Some visited
    /\ edges_by_connections (g_ (run ops graph_default)) = Ret visited.
Proof. exact (plain_run_traversal_complete this ops fuel). Qed.

(** X12: When a node an operation refers to is absent, [insert_edge],
    [replace_node], [merge_replace_node], [erase_edge], [is_connected],
    [edges] and [connections] each throw their own message and leave the
    graph as it was; with the nodes present, [insert_edge], [erase_edge],
    [is_connected], [edges] and [connections] do not throw.  This holds in
    every state. *)
Theorem X12_argument_checks (w : world) (src dst : N) (weight : option E) :
  (is_node (g_ w) src = false \/ is_node (g_ w) dst = false ->
   insert_edge src dst weight w = (Throw insert_edge_what, w)
   /\ merge_replace_node src dst w = (Throw merge_replace_node_what, w)
   /\ erase_edge src dst weight w = (Throw erase_edge_what, w)
   /\ is_connected (g_ w) src dst = Throw is_connected_what
   /\ edges (g_ w) src dst = Throw edges_what)
  /\ (is_node (g_ w) src = false ->
      replace_node src dst w = (Throw replace_node_what, w)
      /\ connections (g_ w) src = Throw connections_what)
  /\ (is_node (g_ w) src = true -> is_node (g_ w) dst = true ->
      (exists b w', insert_edge src dst weight w = (Ret b, w'))
      /\ (exists b w', erase_edge src dst weight w = (Ret b, w'))
      /\ (exists b, is_connected (g_ w) src dst = Ret b)
      /\ (exists es, edges (g_ w) src dst = Ret es)
      /\ (exists ds, connections (g_ w) src = Ret ds)).
Proof.
  destruct (absent_argument_throws w) as (A1 & A2 & A3 & A4 & A5 & A6 & A7).
  split; [|split].
  - intros H. repeat split; auto.
  - intros H. split; auto.
  - exact (present_arguments_do_not_throw w src dst weight).
Qed.

Lemma value_less_edge_less (a b : edge_ptr) :
  value_less (value_at a) (value_at b) = edge_less (pointee a) (pointee b).
Proof.
  unfold value_less, edge_less, value_at. cbn [from to weight].
  destruct (pointee a), (pointee b); reflexivity.
Qed.

Lemma strongly_sorted_app {A : Type} (R : A -> A -> Prop) (l1 l2 : list A) :
  StronglySorted R l1 -> StronglySorted R l2 ->
  (forall a b, In a l1 -> In b l2 -> R a b) ->
  StronglySorted R (l1 ++ l2).
Proof.
  induction l1 as [|x l1 IH]; intros H1 H2 H12; cbn; [exact H2|].
  inversion H1 as [|? ? H1' Hx]; subst.
  constructor.
  - apply IH; [exact H1'|exact H2|]. intros a b Ha Hb. apply H12; [right; exact Ha|exact Hb].
  - apply Forall_app. split; [exact Hx|].
    apply Forall_forall. intros b Hb. apply H12; [left; reflexivity|exact Hb].
Qed.

Lemma canonical_values_sorted (out : list edge_ptr) :
  canonical out ->
  StronglySorted (fun a b => value_less a b = true) (map value_at out).
Proof.
  unfold canonical. induction out as [|e out IH]; intros Hc; cbn; [constructor|].
  inversion Hc as [|? ? Hc' He]; subst. constructor; [exact (IH Hc')|].
  rewrite Forall_forall in *. intros v Hv. apply in_map_iff in Hv.
  destruct Hv as (e' & <- & He'). rewrite value_less_edge_less. exact (He e' He').
Qed.

Lemma tidy_values_sorted (g : store) :
  tidy g -> StronglySorted (fun a b => value_less a b = true) (stored_values g).
Proof.
  intros [Hkeys Hg]. induction g as [|[k [out inc]] g IH]; cbn; [constructor|].
  cbn in Hkeys. inversion Hkeys as [|? ? Hkeys' Hk]; subst.
  destruct (Hg _ (or_introl eq_refl)) as [Hc Hsrc]. cbn [fst snd] in Hc, Hsrc.
  apply strongly_sorted_app.
  - apply canonical_values_sorted. exact Hc.
  - apply IH; [exact Hkeys'|]. intros entry Hin. apply Hg. right. exact Hin.
  - intros a b Ha Hb. apply in_map_iff in Ha. destruct Ha as (e & <- & He).
    apply in_flat_map in Hb. destruct Hb as (entry & Hin & Hb).
    apply in_map_iff in Hb. destruct Hb as (e' & <- & He').
    pose proof (Hsrc e He) as S1.
    pose proof (proj2 (Hg entry (or_intror Hin)) e' He') as S2.
    rewrite Forall_forall in Hk.
    assert (Hlt : less k (fst entry) = true)
      by (apply Hk; unfold nodes; apply in_map; exact Hin).
    unfold value_less, value_at, src_of in *. cbn [from]. rewrite S1, S2, Hlt. reflexivity.
Qed.

(** X18: The loop from [begin()] to [end()] terminates, in every state, and
    yields one value for every edge of every outgoing set, node after node
    and, within a node, in set order; nodes without outgoing edges are
    stepped over. *)
Theorem X18_traversal_visits_every_stored_edge (this : addr) (w : world) (fuel : nat) :
  List.length (stored_values (g_ w)) < fuel ->
  traverse fuel (begin_ this w) (end_ this w) = Some (stored_values (g_ w)).
Proof. exact (traverse_begin_end this w fuel). Qed.

(** X19: Whatever public operations were called, [replace_node] and
    [merge_replace_node] included, the loop from [begin()] to [end()]
    yields its values in strictly increasing order of source, then
    destination, then weight with an absent weight first; in particular it
    yields no value twice. *)
Theorem X19_traversal_is_sorted (this : addr) (w : world) (fuel : nat) :
  reachable w ->
  List.length (stored_values (g_ w)) < fuel ->
  exists visited,
    traverse fuel (begin_ this w) (end_ this w) = Some visited
    /\ StronglySorted (fun a b => value_less a b = true) visited.
Proof.
  intros Hw Hfuel. exists (stored_values (g_ w)).
  split; [exact (traverse_begin_end this w fuel Hfuel)|].
  apply tidy_values_sorted, reachable_tidy, Hw.
Qed.

End Rewriting.

Section Unshared.
Context {N E : Type} `{OrdN : Ord N} `{OrdE : Ord E}.

Local Abbreviation store := (@store N E).
Local Abbreviation edge_ptr := (@edge_ptr N E).
Local Abbreviation edge_ptr_set := (@edge_ptr_set N E).
Local Abbreviation edge_ptr_set_pair := (@edge_ptr_set_pair N E).
Local Abbreviation world := (@world N E).

Lemma in_outgoing_sets (g : store) (out : edge_ptr_set) :
  In out (outgoing_sets g) <-> exists entry, In entry g /\ fst (snd entry) = out.
Proof.
  unfold outgoing_sets. rewrite in_map_iff. split; intros (entry & H1 & H2); exists entry; auto.
Qed.

Lemma in_outgoing_sets_update (g : store) (k : N)
      (f : edge_ptr_set_pair -> edge_ptr_set_pair) (out : edge_ptr_set) :
  In out (outgoing_sets (map_update k f g)) ->
  out = fst (f (subscript g k)) \/ In out (outgoing_sets g).
Proof.
  rewrite !in_outgoing_sets. intros (entry & Hin & <-).
  unfold map_update in Hin. apply in_map_assign_key in Hin.
  destruct Hin as [->|Hin]; [left; reflexivity|right; exists entry; auto].
Qed.

Lemma in_outgoing_sets_subscript (g : store) (k : N) :
  fst (subscript g k) = [] \/ In (fst (subscript g k)) (outgoing_sets g).
Proof.
  unfold subscript. destruct (map_find k g) as [v|] eqn:Hv; [|left; reflexivity].
  right. apply in_outgoing_sets. exists (k, v). split; [exact (map_find_key _ _ _ Hv)|reflexivity].
Qed.

Lemma unshared_subscript (w : world) (k : N) :
  unshared w ->
  NoDup (map address (fst (subscript (g_ w) k)))
  /\ forall e, In e (fst (subscript (g_ w) k)) -> address e < brk w.
Proof.
  intros Hw. destruct (in_outgoing_sets_subscript (g_ w) k) as [H|H].
  - rewrite H. split; [constructor|intros e []].
  - exact (Hw _ H).
Qed.

Lemma nodup_set_insert (x : edge_ptr) (s : list edge_ptr) :
  NoDup (map address s) ->
  ~ In (address x) (map address s) ->
  NoDup (map address (fst (set_insert x s))).
Proof.
  induction s as [|y s IH]; intros Hs Hx; cbn.
  - constructor; [intros []|constructor].
  - destruct (EdgePtrComparator x y); cbn; [constructor; assumption|].
    destruct (EdgePtrComparator y x); [|exact Hs].
    inversion Hs as [|? ? Hy Hs']; subst.
    specialize (IH Hs' (fun H => Hx (or_intror H))).
    pose proof (in_set_insert x s) as Hin.
    destruct (set_insert x s) as [r b]. cbn in *.
    constructor; [|exact IH]. intros H. apply in_map_iff in H.
    destruct H as (z & Hz & Hzin). destruct (Hin z Hzin) as [->|Hz'].
    + apply Hx. left. symmetry. exact Hz.
    + apply Hy. rewrite <- Hz. apply in_map. exact Hz'.
Qed.

Lemma nodup_erase_at (s : list edge_ptr) (i : nat) :
  NoDup (map address s) -> NoDup (map address (set_erase_at i s)).
Proof.
  revert i. induction s as [|y s IH]; intros i Hs; [destruct i; constructor|].
  inversion Hs as [|? ? Hy Hs']; subst.
  destruct i as [|i]; cbn; [exact Hs'|].
  constructor; [|exact (IH i Hs')]. intros H. apply Hy.
  apply in_map_iff in H. destruct H as (z & Hz & Hzin).
  rewrite <- Hz. apply in_map. exact (in_erase_at _ _ _ Hzin).
Qed.

Lemma nodup_filter (p : edge_ptr -> bool) (s : list edge_ptr) :
  NoDup (map address s) -> NoDup (map address (filter p s)).
Proof.
  induction s as [|y s IH]; intros Hs; cbn; [constructor|].
  inversion Hs as [|? ? Hy Hs']; subst.
  destruct (p y); cbn; [|exact (IH Hs')].
  constructor; [|exact (IH Hs')]. intros H. apply Hy.
  apply in_map_iff in H. destruct H as (z & Hz & Hzin). apply filter_In in Hzin.
  rewrite <- Hz. apply in_map. exact (proj1 Hzin).
Qed.

(** *** The members other than the node-rewriting ones keep the handles
    unshared *)

Lemma insert_node_unshared (value : N) (w : world) :
  unshared w -> unshared (snd (insert_node value w)).
Proof.
  intros Hw. rewrite insert_node_unfold.
  destruct (is_node (g_ w) value); cbn [snd]; [exact Hw|].
  intros out Hout. cbn [g_ brk] in *. apply in_outgoing_sets in Hout.
  destruct Hout as (entry & Hin & <-). apply in_map_assign_key in Hin.
  destruct Hin as [->|Hin].
  - split; [constructor|intros e []].
  - apply Hw. apply in_outgoing_sets. exists entry. auto.
Qed.

Lemma insert_edge_unshared (src dst : N) (weight : option E) (w : world) :
  unshared w -> unshared (snd (insert_edge src dst weight w)).
Proof.
  intros Hw.
  unfold insert_edge, bind, get, throw, ret, allocated, update_g. cbn [g_ brk fst snd].
  destruct (negb (is_node (g_ w) src) || negb (is_node (g_ w) dst)); [exact Hw|].
  destruct (existed_edge (fst (subscript (g_ w) src)) _ || existed_edge _ _); [exact Hw|].
  destruct (unshared_subscript w src Hw) as [Hnd Hlt].
  assert (Hfresh : ~ In (address (create_edge_ptr (brk w) src dst weight))
                     (map address (fst (subscript (g_ w) src)))).
  { intros H. apply in_map_iff in H. destruct H as (z & Hz & Hzin).
    specialize (Hlt z Hzin). rewrite Hz in Hlt.
    rewrite (proj1 (create_edge_ptr_fields (brk w) src dst weight)) in Hlt. lia. }
  pose proof (nodup_set_insert _ _ Hnd Hfresh) as Hout.
  pose proof (in_set_insert (create_edge_ptr (brk w) src dst weight)
                            (fst (subscript (g_ w) src))) as Hin.
  destruct (set_insert _ (fst (subscript (g_ w) src))) as [out' linked_out].
  cbn [g_ brk fst snd] in *.
  set (w1 := {| g_ := map_update src (fun p => (out', snd p)) (g_ w); brk := S (brk w) |}).
  assert (H1 : unshared w1).
  { intros out Ho. unfold w1 in *. cbn [g_ brk] in *.
    apply in_outgoing_sets_update in Ho. cbn [fst] in Ho. destruct Ho as [->|Ho].
    - split; [exact Hout|]. intros e He. destruct (Hin e He) as [->|He'].
      + rewrite (proj1 (create_edge_ptr_fields (brk w) src dst weight)). lia.
      + specialize (Hlt e He'). lia.
    - destruct (Hw out Ho) as [A B]. split; [exact A|]. intros e He.
      specialize (B e He). lia. }
  destruct linked_out; [|exact H1].
  destruct (set_insert _ (snd (subscript _ dst))) as [in' linked_in].
  cbn [g_ brk fst snd]. intros out Ho. cbn [g_ brk] in *.
  apply in_outgoing_sets_update in Ho. cbn [fst] in Ho. destruct Ho as [->|Ho].
  - exact (unshared_subscript w1 dst H1).
  - exact (H1 out Ho).
Qed.

Lemma erase_edge_unshared (src dst : N) (weight : option E) (w : world) :
  unshared w -> unshared (snd (erase_edge src dst weight w)).
Proof.
  intros Hw. rewrite erase_edge_unfold.
  destruct (negb (is_node (g_ w) src) || negb (is_node (g_ w) dst)); [exact Hw|].
  cbv zeta.
  destruct (negb (Nat.eqb _ (List.length (fst (subscript (g_ w) src))))); [|exact Hw].
  match goal with
  | |- context [map_update src ?f (g_ w)] =>
      set (w1 := {| g_ := map_update src f (g_ w); brk := brk w |})
  end.
  assert (H1 : unshared w1).
  { intros out Ho. unfold w1 in *. cbn [g_ brk] in *.
    apply in_outgoing_sets_update in Ho. cbn [fst] in Ho. destruct Ho as [->|Ho].
    - destruct (unshared_subscript w src Hw) as [Hnd Hlt].
      split; [apply nodup_erase_at; exact Hnd|].
      intros e He. exact (Hlt e (in_erase_at _ _ _ He)).
    - exact (Hw out Ho). }
  destruct (negb (Nat.eqb _ _)); cbn [snd]; [|exact H1].
  intros out Ho. cbn [g_ brk] in *.
  apply in_outgoing_sets_update in Ho. cbn [fst] in Ho. destruct Ho as [->|Ho].
  - exact (unshared_subscript w1 dst H1).
  - exact (H1 out Ho).
Qed.

Lemma erase_node_unshared (value : N) (w : world) :
  unshared w -> unshared (snd (erase_node value w)).
Proof.
  intros Hw. rewrite erase_node_unfold.
  destruct (negb (is_node (g_ w) value)); cbn [snd]; [exact Hw|].
  intros out Ho. cbn [g_ brk] in *. apply in_outgoing_sets in Ho.
  destruct Ho as (entry & Hin & <-). apply in_map_erase in Hin.
  apply in_map_iff in Hin. destruct Hin as ([node [out0 inc0]] & <- & Hin).
  assert (H0 : NoDup (map address out0) /\ forall e, In e out0 -> address e < brk w).
  { assert (Ho : In out0 (outgoing_sets
                            (map_update value (fun p => (fst p, []))
                               (map_update value (fun p => ([], snd p)) (g_ w)))))
      by (apply in_outgoing_sets; exists (node, (out0, inc0)); auto).
    apply in_outgoing_sets_update in Ho. cbn [fst] in Ho.
    destruct Ho as [->|Ho].
    - rewrite subscript_update_same. cbn [fst]. split; [constructor|intros e []].
    - apply in_outgoing_sets_update in Ho. cbn [fst] in Ho.
      destruct Ho as [->|Ho]; [split; [constructor|intros e []]|exact (Hw _ Ho)]. }
  unfold erase_incident. destruct (negb (equal node value)); cbn [fst snd]; [|exact H0].
  destruct H0 as [A B]. split; [apply nodup_filter; exact A|].
  intros e He. apply filter_In in He. exact (B e (proj1 He)).
Qed.

Lemma plain_run_unshared (ops : list (@op N E)) :
  forallb (fun o => negb (rewrites_node o)) ops = true ->
  unshared (run ops graph_default).
Proof.
  assert (H : forall w, unshared w ->
                        forallb (fun o => negb (rewrites_node o)) ops = true ->
                        unshared (run ops w)).
  { unfold run. induction ops as [|o ops IH]; intros w Hw Hops; cbn; [exact Hw|].
    cbn in Hops. apply andb_true_iff in Hops. destruct Hops as [Ho Hops].
    apply IH; [|exact Hops].
    destruct o as [v|s d x|o n|o n|v|s d x|]; cbn [step]; try discriminate.
    - apply insert_node_unshared, Hw.
    - apply insert_edge_unshared, Hw.
    - apply erase_node_unshared, Hw.
    - apply erase_edge_unshared, Hw.
    - intros out []. }
  intros Hops. apply H; [intros out []|exact Hops].
Qed.

End Unshared.

Section EraseAtIterator.
Context {N E : Type} `{OrdN : Ord N} `{OrdE : Ord E}.

Local Abbreviation store := (@store N E).
Local Abbreviation edge_ptr := (@edge_ptr N E).
Local Abbreviation edge_ptr_set := (@edge_ptr_set N E).
Local Abbreviation edge_ptr_set_pair := (@edge_ptr_set_pair N E).
Local Abbreviation world := (@world N E).
Local Abbreviation graph_ptr := (@graph_ptr N E).
Local Abbreviation iterator := (@iterator N E).
Local Abbreviation value_type := (@value_type N E).

(** *** Replacing one element of a list *)

Lemma replaced_nth {A : Type} (l : list A) (n : nat) (x : A) :
  n < List.length l ->
  nth_error (firstn n l ++ x :: skipn (S n) l) n = Some x.
Proof.
  intros Hn. rewrite nth_error_app2; rewrite length_firstn, Nat.min_l by lia; [|lia].
  rewrite Nat.sub_diag. reflexivity.
Qed.

Lemma replaced_skipn {A : Type} (l : list A) (n m : nat) (x : A) :
  n < List.length l -> n < m ->
  skipn m (firstn n l ++ x :: skipn (S n) l) = skipn m l.
Proof.
  intros Hn Hm. rewrite skipn_app, length_firstn, Nat.min_l by lia.
  rewrite (skipn_all2 (firstn n l)) by (rewrite length_firstn; lia).
  cbn [app]. destruct (m - n) as [|d] eqn:Hd; [lia|].
  rewrite skipn_cons, skipn_skipn. f_equal. lia.
Qed.

Lemma replaced_later {A : Type} (l : list A) (n m : nat) (x : A) :
  n < List.length l -> n < m ->
  nth_error (firstn n l ++ x :: skipn (S n) l) m = nth_error l m.
Proof.
  intros Hn Hm.
  rewrite <- (Nat.add_0_r m) at 1. rewrite <- nth_error_skipn_plus.
  rewrite (replaced_skipn l n m x Hn Hm), nth_error_skipn_plus, Nat.add_0_r. reflexivity.
Qed.

Lemma split_at {A : Type} (l : list A) (n : nat) (x : A) :
  nth_error l n = Some x -> l = firstn n l ++ x :: skipn (S n) l.
Proof.
  intros H. rewrite <- (skipn_nth_cons _ _ _ H). symmetry. apply firstn_skipn.
Qed.

(** *** The sets *)

Lemma erase_at_split (s : list edge_ptr) (j : nat) :
  set_erase_at j s = firstn j s ++ skipn (S j) s.
Proof.
  revert j. induction s as [|y s IH]; intros [|j]; cbn; try reflexivity.
  rewrite IH. reflexivity.
Qed.

Lemma skipn_erase_at (s : list edge_ptr) (j : nat) :
  skipn j (set_erase_at j s) = skipn (S j) s.
Proof.
  revert j. induction s as [|y s IH]; intros [|j]; cbn; try reflexivity. apply IH.
Qed.

Lemma find_if_ptr_at (s : list edge_ptr) (j : nat) (h : edge_ptr) :
  NoDup (map address s) -> nth_error s j = Some h -> find_if (ptr_eq h) s = j.
Proof.
  revert j. induction s as [|y s IH]; intros [|j] Hs Hj; cbn in *; try discriminate.
  - injection Hj as ->. unfold ptr_eq. rewrite Nat.eqb_refl. reflexivity.
  - inversion Hs as [|? ? Hy Hs']; subst.
    unfold ptr_eq at 1. destruct (Nat.eqb_spec (address h) (address y)) as [Heq|_].
    + exfalso. apply Hy. rewrite <- Heq. apply in_map. exact (nth_error_In _ _ Hj).
    + rewrite (IH j Hs' Hj). reflexivity.
Qed.

Lemma find_if_content_at (c : edge_ptr) (s : list edge_ptr) (j : nat) (h : edge_ptr) :
  distinct_contents s = true -> nth_error s j = Some h ->
  pointee c = pointee h ->
  find_if (edge_content_equal c) s = j.
Proof.
  intros Hs Hj Hc.
  assert (Hh : edge_content_equal c h = true)
    by (unfold edge_content_equal; rewrite Hc; apply edge_eq_refl).
  revert j Hs Hj. induction s as [|y s IH]; intros [|j] Hs Hj; cbn in *; try discriminate.
  - injection Hj as ->. rewrite Hh. reflexivity.
  - apply andb_true_iff in Hs. destruct Hs as [Hy Hs].
    destruct (edge_content_equal c y) eqn:Hcy.
    + exfalso. apply negb_true_iff in Hy.
      assert (Hex : existsb (edge_content_equal y) s = true).
      { apply existsb_exists. exists h. split; [exact (nth_error_In _ _ Hj)|].
        unfold edge_content_equal in *. apply edge_eq_true in Hcy.
        rewrite Hcy, Hc. apply edge_eq_refl. }
      congruence.
    + rewrite (IH j Hs Hj). reflexivity.
Qed.

Lemma created_from_value (a : addr) (h : edge_ptr) :
  pointee (create_edge_ptr a (from (value_at h)) (to (value_at h)) (weight (value_at h)))
  = pointee h.
Proof. unfold value_at. destruct (pointee h); reflexivity. Qed.

(** *** The outgoing sets of an updated store *)

Lemma stored_values_outgoing (g : store) :
  stored_values g = flat_map (map value_at) (outgoing_sets g).
Proof.
  unfold stored_values, outgoing_sets. induction g as [|entry g IH]; cbn; [reflexivity|].
  rewrite IH. reflexivity.
Qed.

Lemma outgoing_sets_skipn (g : store) (m : nat) :
  outgoing_sets (skipn m g) = skipn m (outgoing_sets g).
Proof. unfold outgoing_sets. symmetry. apply skipn_map. Qed.

Lemma outgoing_sets_assign_same (k : N) (v v' : edge_ptr_set_pair) (g : store) :
  map_find k g = Some v -> fst v' = fst v ->
  outgoing_sets (map_assign k v' g) = outgoing_sets g.
Proof.
  intros Hv Hfst. unfold outgoing_sets.
  induction g as [|[k0 v0] g IH]; cbn [map_find map_assign] in *; [discriminate|].
  destruct (less k0 k) eqn:H1; [cbn [map]; rewrite (IH Hv); reflexivity|].
  destruct (less k k0) eqn:H2; [discriminate|]. injection Hv as ->. cbn [map fst snd].
  rewrite Hfst. reflexivity.
Qed.

Lemma outgoing_sets_assign_at (g : store) :
  StronglySorted (fun a b => less a b = true) (nodes g) ->
  forall (n : nat) (k : N) (v v' : edge_ptr_set_pair),
    nth_error g n = Some (k, v) ->
    outgoing_sets (map_assign k v' g)
    = firstn n (outgoing_sets g) ++ fst v' :: skipn (S n) (outgoing_sets g).
Proof.
  induction g as [|[k0 v0] g IH]; intros Hs n k v v' Hn; [destruct n; discriminate|].
  cbn in Hs. inversion Hs as [|? ? Hs' Hk0]; subst.
  destruct n as [|n]; cbn in Hn.
  - injection Hn as -> ->. cbn. rewrite less_irrefl. reflexivity.
  - assert (Hlt : less k0 k = true).
    { rewrite Forall_forall in Hk0. apply Hk0.
      change k with (fst (k, v)). apply in_map. exact (nth_error_In _ _ Hn). }
    cbn [map_assign]. rewrite Hlt. specialize (IH Hs' n k v v' Hn).
    unfold outgoing_sets in *. cbn [map firstn skipn app]. rewrite IH. reflexivity.
Qed.

Lemma nth_outgoing_sets (g : store) (n : nat) (out : edge_ptr_set) :
  nth_error (outgoing_sets g) n = Some out ->
  exists entry, nth_error g n = Some entry /\ fst (snd entry) = out.
Proof.
  unfold outgoing_sets. rewrite nth_error_map.
  destruct (nth_error g n) as [entry|]; cbn; [|discriminate].
  intros [= <-]. exists entry. auto.
Qed.

(** *** [operator++], case by case *)

Lemma incr_cases (g : graph_ptr) (n j : nat) (entry : N * edge_ptr_set_pair)
      (h : edge_ptr) :
  nth_error (graph_obj g) n = Some entry ->
  nth_error (fst (snd entry)) j = Some h ->
  let it := {| current_node_ := Some n; current_edge_ := Some j; graph_ptr_ := Some g |} in
  (exists e2, nth_error (fst (snd entry)) (S j) = Some e2
              /\ incr it = Some {| current_node_ := Some n; current_edge_ := Some (S j);
                                   graph_ptr_ := Some g |})
  \/ (S j = List.length (fst (snd entry))
      /\ incr it = Some (iterator_end g)
      /\ stored_values (skipn (S n) (graph_obj g)) = [])
  \/ (S j = List.length (fst (snd entry))
      /\ exists n2 entry2 e2,
          n < n2 /\ nth_error (graph_obj g) n2 = Some entry2
          /\ nth_error (fst (snd entry2)) 0 = Some e2
          /\ incr it = Some {| current_node_ := Some n2; current_edge_ := Some 0;
                               graph_ptr_ := Some g |}
          /\ stored_values (skipn (S n) (graph_obj g))
             = stored_values (skipn n2 (graph_obj g))).
Proof.
  intros Hn Hj it.
  assert (Hlt : n < List.length (graph_obj g)) by (apply nth_error_Some; congruence).
  assert (Hjlt : j < List.length (fst (snd entry)))
    by (apply nth_error_Some; congruence).
  unfold incr, it. cbn [graph_ptr_ current_node_ current_edge_]. rewrite Hn, Hj.
  destruct (Nat.eqb_spec (S j) (List.length (fst (snd entry)))) as [Hlast|Hmore].
  - right.
    destruct (skip_empty_run (skipn (S n) (graph_obj g)) (S n))
      as (k & Hk & Hle & _ & Hvals & Hnext).
    rewrite Hk. rewrite length_skipn in Hle, Hnext.
    destruct (Nat.eqb_spec (S n + k) (List.length (graph_obj g))) as [Hend|Hmid].
    + left. split; [exact Hlast|]. split; [reflexivity|].
      rewrite Hvals, skipn_all2 by (rewrite length_skipn; lia). reflexivity.
    + right. split; [exact Hlast|].
      destruct Hnext as (entry' & e' & Hentry' & He'); [lia|].
      rewrite nth_error_skipn_plus in Hentry'.
      exists (S n + k), entry', e'. split; [lia|]. split; [exact Hentry'|].
      split; [exact He'|]. split; [reflexivity|].
      rewrite Hvals, skipn_skipn_plus. reflexivity.
  - left.
    destruct (nth_error (fst (snd entry)) (S j)) as [e2|] eqn:He2.
    + exists e2. split; reflexivity.
    + apply nth_error_None in He2. lia.
Qed.

Lemma traverse_points_at (g : graph_ptr) (it : iterator) (l : list value_type)
      (fuel : nat) :
  points_at g it l -> List.length l < fuel ->
  traverse fuel it (iterator_end g) = Some l.
Proof.
  intros [[-> ->]|(i & j & entry & e & -> & Hi & Hj & ->)] Hfuel.
  - destruct fuel as [|fuel]; [cbn in Hfuel; lia|]. apply traverse_end.
  - apply (traverse_from fuel g i j entry e Hi Hj).
    rewrite length_app, length_map in Hfuel. exact Hfuel.
Qed.

Lemma nth_erase_at_later (s : list edge_ptr) (j j' : nat) :
  j < List.length s -> j < j' ->
  nth_error (set_erase_at j s) (j' - 1) = nth_error s j'.
Proof.
  intros Hj Hlt. rewrite erase_at_split, nth_error_app2;
    rewrite length_firstn, Nat.min_l by lia; [|lia].
  rewrite nth_error_skipn_plus. f_equal. lia.
Qed.

Lemma skipn_erase_at_later (s : list edge_ptr) (j j' : nat) :
  j < List.length s -> j < j' ->
  skipn (j' - 1) (set_erase_at j s) = skipn j' s.
Proof.
  intros Hj Hlt. rewrite erase_at_split, skipn_app, length_firstn, Nat.min_l by lia.
  rewrite (skipn_all2 (firstn j s)) by (rewrite length_firstn; lia).
  cbn [app]. rewrite skipn_skipn. f_equal. lia.
Qed.

Lemma points_at_end_nil (g : graph_ptr) (l : list value_type) :
  points_at g (iterator_end g) l -> l = [].
Proof.
  intros [[_ H]|(i & j & entry & e & Hit & _)]; [exact H|discriminate].
Qed.

Lemma points_at_suffix (g : graph_ptr) (it : iterator) (l : list value_type) :
  points_at g it l -> exists before, stored_values (graph_obj g) = before ++ l.
Proof.
  intros [[_ ->]|(i & j & entry & e & _ & Hi & Hj & ->)].
  - exists (stored_values (graph_obj g)). rewrite app_nil_r. reflexivity.
  - exists (stored_values (firstn i (graph_obj g)) ++ map value_at (firstn j (fst (snd entry)))).
    rewrite <- (firstn_skipn i (graph_obj g)) at 1.
    unfold stored_values at 1. rewrite flat_map_app. fold (stored_values (firstn i (graph_obj g))).
    fold (stored_values (skipn i (graph_obj g))).
    rewrite (stored_values_skipn _ _ _ Hi).
    rewrite <- (firstn_skipn j (fst (snd entry))) at 1. rewrite map_app, <- !app_assoc.
    reflexivity.
Qed.

Lemma iterator_eq_end_position (g g' : graph_ptr) (i j : nat)
      (entry : N * edge_ptr_set_pair) :
  nth_error (graph_obj g) i = Some entry ->
  iterator_eq (iterator_end g')
              {| current_node_ := Some i; current_edge_ := Some j; graph_ptr_ := Some g |}
  = Some false.
Proof.
  intros Hi.
  assert (Hlt : i < List.length (graph_obj g)) by (apply nth_error_Some; congruence).
  unfold iterator_eq, iterator_end.
  cbn [graph_ptr_ current_node_ current_edge_ graph_ptr_eq].
  destruct (Nat.eqb (graph_at g') (graph_at g)); cbn [negb]; [|reflexivity].
  rewrite Nat.eqb_refl.
  destruct (Nat.eqb_spec i (List.length (graph_obj g))); [lia|reflexivity].
Qed.

Lemma iterator_eq_end_by_suffix (g : graph_ptr) (it : iterator) (l : list value_type) :
  points_at g it l ->
  iterator_eq it (iterator_end g) = Some (match l with [] => true | _ :: _ => false end).
Proof.
  destruct l as [|v l]; intros H.
  - apply points_at_nil in H. subst. apply iterator_eq_end_end.
  - destruct (points_at_cons _ _ _ _ H) as (i & j & entry & e & -> & Hi & _).
    exact (iterator_eq_position_end g g i j entry Hi).
Qed.

(** *** An iterator that survives an erasure

    When the edge at (node [n], edge [j]) leaves its outgoing set, an
    iterator past that position is found again at the same element, with
    the same values ahead of it. *)
Lemma revalidate_later (this : addr) (g0 g' : store) (n j : nat) (out : edge_ptr_set) :
  nth_error (outgoing_sets g0) n = Some out -> j < List.length out ->
  (forall o, In o (outgoing_sets g0) -> NoDup (map address o)) ->
  outgoing_sets g'
  = firstn n (outgoing_sets g0) ++ set_erase_at j out :: skipn (S n) (outgoing_sets g0) ->
  forall (p : iterator) (l : list value_type),
    later n j p -> points_at (mk_graph_ptr this g0) p l ->
    exists p', revalidate g' p = Some p' /\ points_at (mk_graph_ptr this g') p' l.
Proof.
  intros Hn Hj Hnd Houts p l Hlater Hp.
  assert (Hnlt : n < List.length (outgoing_sets g0)) by (apply nth_error_Some; congruence).
  assert (Hlen0 : List.length (outgoing_sets g0) = List.length g0)
    by (unfold outgoing_sets; apply length_map).
  assert (Hrest : forall m, n < m -> stored_values (skipn m g') = stored_values (skipn m g0)).
  { intros m Hm. rewrite !stored_values_outgoing, !outgoing_sets_skipn, Houts.
    rewrite replaced_skipn by lia. reflexivity. }
  destruct Hp as [[-> ->]|(n' & j' & entry' & e' & -> & Hn' & Hj' & ->)].
  - unfold revalidate, iterator_end.
    cbn [graph_ptr_ current_node_ current_edge_ graph_obj graph_at].
    rewrite Nat.eqb_refl. eexists. split; [reflexivity|]. apply points_at_end.
  - cbn [graph_obj] in Hn'. unfold later in Hlater. cbn [current_node_ current_edge_] in Hlater.
    assert (Hn'lt : n' < List.length g0) by (apply nth_error_Some; congruence).
    assert (Hj'lt : j' < List.length (fst (snd entry'))) by (apply nth_error_Some; congruence).
    assert (Hnth' : nth_error (outgoing_sets g0) n' = Some (fst (snd entry')))
      by (unfold outgoing_sets; rewrite nth_error_map, Hn'; reflexivity).
    unfold revalidate. cbn [graph_ptr_ current_node_ current_edge_ graph_obj graph_at].
    destruct (Nat.eqb_spec n' (List.length g0)) as [|_]; [lia|].
    rewrite Hn', Hj'.
    destruct Hlater as [Hlt|[Heq Hlt]].
    + destruct (nth_outgoing_sets g' n' (fst (snd entry'))) as (entry2 & Hn2 & Hout2).
      { rewrite Houts, replaced_later by lia. exact Hnth'. }
      rewrite Hn2, Hout2.
      rewrite (find_if_ptr_at _ j' e' (Hnd _ (nth_error_In _ _ Hnth')) Hj').
      destruct (Nat.eqb_spec j' (List.length (fst (snd entry')))) as [|_]; [lia|].
      eexists. split; [reflexivity|].
      right. exists n', j', entry2, e'. split; [reflexivity|].
      split; [exact Hn2|]. split; [rewrite Hout2; exact Hj'|].
      cbn [graph_obj]. rewrite Hout2, (Hrest (S n')) by lia. reflexivity.
    + subst n'. rewrite Hn in Hnth'. injection Hnth' as Hout. subst out.
      destruct (nth_outgoing_sets g' n (set_erase_at j (fst (snd entry'))))
        as (entry2 & Hn2 & Hout2).
      { rewrite Houts. apply replaced_nth. lia. }
      rewrite Hn2, Hout2.
      assert (Hat : nth_error (set_erase_at j (fst (snd entry'))) (j' - 1) = Some e')
        by (rewrite nth_erase_at_later by lia; exact Hj').
      rewrite (find_if_ptr_at _ (j' - 1) e');
        [|apply nodup_erase_at; exact (Hnd _ (nth_error_In _ _ Hn))|exact Hat].
      destruct (Nat.eqb_spec (j' - 1) (List.length (set_erase_at j (fst (snd entry')))))
        as [Habs|_].
      * exfalso. assert (j' - 1 < List.length (set_erase_at j (fst (snd entry'))))
          by (apply nth_error_Some; congruence). lia.
      * eexists. split; [reflexivity|].
        right. exists n, (j' - 1), entry2, e'. split; [reflexivity|].
        split; [exact Hn2|]. split; [rewrite Hout2; exact Hat|].
        cbn [graph_obj].
        rewrite Hout2, (Hrest (S n)), skipn_erase_at_later by lia. reflexivity.
Qed.

(** *** One [erase_edge(i)] at a position of a consistent graph *)
Lemma erase_edge_at_position (this : addr) (w : world) (n j : nat) (k : N)
      (out inc : edge_ptr_set) (h : edge_ptr) :
  consistent w -> unshared w ->
  nth_error (g_ w) n = Some (k, (out, inc)) ->
  nth_error out j = Some h ->
  let g := mk_graph_ptr this (g_ w) in
  let after := map value_at (skipn (S j) out) ++ stored_values (skipn (S n) (g_ w)) in
  exists r w' before,
    erase_edge_at this {| current_node_ := Some n; current_edge_ := Some j;
                          graph_ptr_ := Some g |} w = Some (Ret r, w')
    /\ consistent w' /\ unshared w'
    /\ nodes (g_ w') = nodes (g_ w)
    /\ stored_values (g_ w) = before ++ value_at h :: after
    /\ stored_values (g_ w') = before ++ after
    /\ points_at (mk_graph_ptr this (g_ w')) r after
    /\ forall p l, later n j p -> points_at g p l ->
                   exists p', revalidate (g_ w') p = Some p'
                              /\ points_at (mk_graph_ptr this (g_ w')) p' l.
Proof.
  intros Hw Hu Hn Hj g after.
  assert (Hnlt : n < List.length (g_ w)) by (apply nth_error_Some; congruence).
  assert (Hjlt : j < List.length out) by (apply nth_error_Some; congruence).
  pose proof Hw as [Hkeys Hc].
  pose proof (map_find_sorted _ _ _ Hkeys (nth_error_In _ _ Hn)) as Hfind.
  assert (Hk : is_node (g_ w) k = true) by (unfold is_node; rewrite Hfind; reflexivity).
  assert (Hsub : subscript (g_ w) k = (out, inc))
    by (unfold subscript; rewrite Hfind; reflexivity).
  destruct (Hc k Hk) as (HO & _ & Hdist & _). rewrite Hsub in HO, Hdist. cbn [fst] in HO, Hdist.
  destruct (HO h (nth_error_In _ _ Hj)) as (Hsrc & Hdn & Hhinc & _).
  (* the call of erase_edge *)
  assert (Hfrom : from (value_at h) = k) by exact Hsrc.
  set (c := create_edge_ptr (brk w) k (dst_of h) (weight (value_at h))).
  assert (Hcp : pointee c = pointee h)
    by (unfold c; rewrite <- Hfrom; apply created_from_value).
  pose proof (find_if_content_at c out j h Hdist Hj Hcp) as Hfj.
  assert (Hrun : exists j2,
             erase_edge (from (value_at h)) (to (value_at h)) (weight (value_at h)) w
             = (Ret true,
                {| g_ := map_update (dst_of h)
                                    (fun p => (fst p, set_erase_at j2 (snd p)))
                                    (map_update k (fun p => (set_erase_at j (fst p), snd p))
                                                (g_ w));
                   brk := brk w |})).
  { rewrite Hfrom. change (to (value_at h)) with (dst_of h).
    rewrite erase_edge_unfold, Hk, Hdn. cbn [negb orb]. cbv zeta.
    fold c. rewrite Hsub. cbn [fst]. rewrite Hfj.
    destruct (Nat.eqb_spec j (List.length out)) as [|_]; [lia|]. cbn [negb].
    rewrite snd_after_out_update.
    destruct (Nat.eqb_spec (find_if (edge_content_equal c) (snd (subscript (g_ w) (dst_of h))))
                           (List.length (snd (subscript (g_ w) (dst_of h))))) as [Hnone|_];
      cbn [negb].
    - exfalso. apply find_if_none in Hnone.
      assert (Hex : existsb (edge_content_equal c) (snd (subscript (g_ w) (dst_of h))) = true).
      { apply existsb_exists. exists h. split; [exact Hhinc|].
        unfold edge_content_equal. rewrite Hcp. apply edge_eq_refl. }
      congruence.
    - eexists. reflexivity. }
  destruct Hrun as (j2 & Hrun).
  pose proof (consistent_erase_edge (from (value_at h)) (to (value_at h))
                                    (weight (value_at h)) w Hw) as Hw'.
  pose proof (erase_edge_unshared (from (value_at h)) (to (value_at h))
                                  (weight (value_at h)) w Hu) as Hu'.
  rewrite Hrun in Hw', Hu'. cbn [snd] in Hw', Hu'.
  set (g1 := map_update k (fun p => (set_erase_at j (fst p), snd p)) (g_ w)) in *.
  set (g2 := map_update (dst_of h) (fun p => (fst p, set_erase_at j2 (snd p))) g1) in *.
  set (w' := {| g_ := g2; brk := brk w |}) in *.
  (* the outgoing sets afterwards *)
  assert (Hd1 : is_node g1 (dst_of h) = true)
    by (unfold g1; apply is_node_update; exact Hdn).
  assert (Houts1 : outgoing_sets g1
                   = firstn n (outgoing_sets (g_ w))
                     ++ set_erase_at j out :: skipn (S n) (outgoing_sets (g_ w))).
  { unfold g1, map_update. rewrite Hsub. cbn [fst snd].
    exact (outgoing_sets_assign_at _ Hkeys n k (out, inc) _ Hn). }
  assert (Houts2 : outgoing_sets g2
                   = firstn n (outgoing_sets (g_ w))
                     ++ set_erase_at j out :: skipn (S n) (outgoing_sets (g_ w))).
  { rewrite <- Houts1. unfold g2, map_update.
    apply (outgoing_sets_assign_same _ (subscript g1 (dst_of h)));
      [apply is_node_subscript; exact Hd1|reflexivity]. }
  assert (Hnth : nth_error (outgoing_sets (g_ w)) n = Some out).
  { unfold outgoing_sets. rewrite nth_error_map, Hn. reflexivity. }
  assert (Hnodes : nodes g2 = nodes (g_ w)).
  { unfold g2. rewrite nodes_update_present by exact Hd1.
    unfold g1. apply nodes_update_present. exact Hk. }
  (* the values *)
  set (before := flat_map (map value_at) (firstn n (outgoing_sets (g_ w)))
                 ++ map value_at (firstn j out)).
  assert (Hvals : stored_values (g_ w) = before ++ value_at h :: after).
  { unfold before, after. rewrite stored_values_outgoing at 1.
    rewrite (split_at _ _ _ Hnth) at 1. rewrite flat_map_app. cbn [flat_map].
    rewrite (split_at _ _ _ Hj) at 1. rewrite map_app. cbn [map].
    rewrite stored_values_outgoing, outgoing_sets_skipn.
    rewrite <- !app_assoc. reflexivity. }
  assert (Hvals' : stored_values g2 = before ++ after).
  { unfold before, after. rewrite stored_values_outgoing, Houts2.
    rewrite flat_map_app. cbn [flat_map]. rewrite erase_at_split, map_app.
    rewrite stored_values_outgoing, outgoing_sets_skipn.
    rewrite <- !app_assoc. reflexivity. }
  (* the iterators that survive *)
  assert (Hsurvive : forall p l, later n j p -> points_at g p l ->
                                 exists p', revalidate g2 p = Some p'
                                            /\ points_at (mk_graph_ptr this g2) p' l).
  { apply (revalidate_later this (g_ w) g2 n j out Hnth Hjlt); [|exact Houts2].
    intros o Ho. exact (proj1 (Hu o Ho)). }
  (* the iterator returned *)
  destruct (step_from_position g n j _ h Hn Hj) as (Hderef & next & Hnext & Hpoints).
  cbn zeta in Hderef, Hnext. cbn [fst snd graph_obj g] in Hpoints.
  assert (Hlater : later n j next).
  { pose proof (incr_cases g n j _ h Hn Hj) as Hcases. cbn zeta in Hcases.
    rewrite Hnext in Hcases.
    destruct Hcases as [(e2 & _ & [= ->])|[(_ & [= ->] & _)|(_ & n2 & entry2 & e2 & Hn2
                                                           & _ & _ & [= ->] & _)]];
      unfold later; cbn [current_node_ current_edge_ iterator_end]; auto. }
  destruct (Hsurvive next _ Hlater Hpoints) as (r & Hr & Hrp).
  exists r, w', before. split.
  { unfold erase_edge_at. unfold end_. fold g.
    rewrite (iterator_eq_position_end g g n j _ Hn), Hderef, Hnext, Hrun.
    cbn [g_ w']. rewrite Hr. reflexivity. }
  split; [exact Hw'|]. split; [exact Hu'|]. split; [exact Hnodes|].
  split; [exact Hvals|]. split; [exact Hvals'|]. split; [exact Hrp|exact Hsurvive].
Qed.

(** X11: [erase_edge(i)] for an iterator [i] of the graph that can be
    dereferenced, on a graph built by [insert_node], [insert_edge],
    [erase_node], [erase_edge] and [clear]: it returns normally; the nodes
    stay; the traversal loses exactly the value [i] showed, at the place
    [i] was; and the iterator returned is at the value that followed, that
    is, the loop from it to [end()] yields the values that were after
    [i]. *)
Theorem X11_erase_edge_at_returns_next (this : addr) (ops : list (@op N E))
        (i : iterator) (v : value_type) :
  forallb (fun o => negb (rewrites_node o)) ops = true ->
  let w := run ops graph_default in
  graph_ptr_ i = Some (mk_graph_ptr this (g_ w)) ->
  deref i = Some v ->
  exists r w' before after,
    erase_edge_at this i w = Some (Ret r, w')
    /\ nodes (g_ w') = nodes (g_ w)
    /\ stored_values (g_ w) = before ++ v :: after
    /\ stored_values (g_ w') = before ++ after
    /\ forall fuel, List.length after < fuel ->
                    traverse fuel r (end_ this w') = Some after.
Proof.
  intros Hops w Hg Hd.
  pose proof (plain_run_consistent ops Hops) as Hw. fold w in Hw.
  pose proof (plain_run_unshared ops Hops) as Hu. fold w in Hu.
  destruct i as [[n|] [j|] [g|]]; unfold deref in Hd;
    cbn [graph_ptr_ current_node_ current_edge_] in Hd, Hg; try discriminate.
  injection Hg as ->. cbn [graph_obj] in Hd.
  destruct (nth_error (g_ w) n) as [[k [out inc]]|] eqn:Hn; [|discriminate].
  cbn [fst snd] in Hd.
  destruct (nth_error out j) as [h|] eqn:Hj; [|discriminate].
  injection Hd as <-.
  destruct (erase_edge_at_position this w n j k out inc h Hw Hu Hn Hj)
    as (r & w' & before & Hcall & _ & _ & Hnodes & Hvals & Hvals' & Hrp & _).
  exists r, w', before, (map value_at (skipn (S j) out) ++ stored_values (skipn (S n) (g_ w))).
  split; [exact Hcall|]. split; [exact Hnodes|]. split; [exact Hvals|].
  split; [exact Hvals'|].
  intros fuel Hfuel. unfold end_.
  exact (traverse_points_at _ r _ fuel Hrp Hfuel).
Qed.

End EraseAtIterator.

Section PrintingFacts.
Context {N E : Type} `{OrdN : Ord N} `{OrdE : Ord E} `{ShowN : Show N} `{ShowE : Show E}.

Local Abbreviation store := (@store N E).
Local Abbreviation edge_ptr := (@edge_ptr N E).
Local Abbreviation world := (@world N E).

Lemma filter_all {A : Type} (p : A -> bool) (l : list A) :
  (forall x, In x l -> p x = true) -> filter p l = l.
Proof.
  induction l as [|x l IH]; intros H; cbn; [reflexivity|].
  rewrite (H x (or_introl eq_refl)), IH; [reflexivity|].
  intros y Hy. apply H. right. exact Hy.
Qed.

Lemma filter_none {A : Type} (p : A -> bool) (l : list A) :
  (forall x, In x l -> p x = false) -> filter p l = [].
Proof.
  induction l as [|x l IH]; intros H; cbn; [reflexivity|].
  rewrite (H x (or_introl eq_refl)). apply IH.
  intros y Hy. apply H. right. exact Hy.
Qed.

(** In a tidy store the values of the traversal that start at a node are
    the outgoing set of that node. *)
Lemma values_from (g : store) :
  tidy g ->
  forall entry, In entry g ->
                filter (fun v => equal (from v) (fst entry)) (stored_values g)
                = map value_at (fst (snd entry)).
Proof.
  induction g as [|[k0 [out0 inc0]] g IH]; intros [Hkeys Hg] entry Hin; [destruct Hin|].
  cbn in Hkeys. inversion Hkeys as [|? ? Hkeys' Hk0]; subst.
  rewrite Forall_forall in Hk0.
  assert (Ht : tidy g) by (split; [exact Hkeys'|intros e He; apply Hg; right; exact He]).
  assert (Hfirst : forall v, In v (map value_at out0) -> from v = k0).
  { intros v Hv. apply in_map_iff in Hv. destruct Hv as (e & <- & He).
    exact (proj2 (Hg _ (or_introl eq_refl)) e He). }
  assert (Hrest : forall v, In v (stored_values g) -> less k0 (from v) = true).
  { intros v Hv. apply in_stored_values in Hv. destruct Hv as (entry' & e & Hin' & He & ->).
    pose proof (proj2 (Hg _ (or_intror Hin')) e He) as Hsrc. unfold src_of in Hsrc.
    cbn [value_at from]. rewrite Hsrc. apply Hk0. unfold nodes. apply in_map. exact Hin'. }
  change (stored_values ((k0, (out0, inc0)) :: g))
    with (map value_at out0 ++ stored_values g).
  rewrite filter_app. destruct Hin as [<-|Hin]; cbn [fst snd].
  - rewrite filter_all, filter_none, app_nil_r; [reflexivity| |].
    + intros v Hv. specialize (Hrest v Hv).
      destruct (equal_spec (from v) k0) as [Heq|]; [|reflexivity].
      rewrite Heq, less_irrefl in Hrest. discriminate.
    + intros v Hv. rewrite (Hfirst v Hv). apply equal_refl.
  - rewrite filter_none, (IH Ht entry Hin); [reflexivity|].
    intros v Hv. rewrite (Hfirst v Hv).
    assert (Hlt : less k0 (fst entry) = true)
      by (apply Hk0; unfold nodes; apply in_map; exact Hin).
    destruct (equal_spec k0 (fst entry)) as [Heq|]; [|reflexivity].
    rewrite Heq, less_irrefl in Hlt. discriminate.
Qed.

Lemma print_value_at (e : edge_ptr) : print_value (value_at e) = print_edge (pointee e).
Proof. unfold print_value. rewrite created_from_value. reflexivity. Qed.

(** X28: Whatever public operations were called, the text [operator<<]
    writes is made of one block per node of [nodes()], in that order: the
    node, " (", a new line, then one line of two spaces and [print_edge] for
    each value the loop from [begin()] to [end()] yields with that node as
    source, in the order of the loop, then ")" and a new line. *)
Theorem X28_print_graph_follows_traversal (w : world) :
  reachable w ->
  print_graph (g_ w)
  = String.concat ""
      (map (fun s =>
              (to_string s ++ " (" ++ newline
               ++ String.concat ""
                    (map (fun v => ("  " ++ print_value v ++ newline)%string)
                         (filter (fun v => equal (from v) s) (stored_values (g_ w))))
               ++ ")" ++ newline)%string)
           (nodes (g_ w))).
Proof.
  intros Hw. pose proof (reachable_tidy w Hw) as Ht.
  unfold print_graph, nodes. rewrite map_map. f_equal.
  apply map_ext_in. intros entry Hin.
  rewrite (values_from _ Ht entry Hin), map_map.
  f_equal. f_equal. f_equal. f_equal. f_equal.
  apply map_ext. intros e. rewrite print_value_at. reflexivity.
Qed.

End PrintingFacts.

Section EraseRange.
Context {N E : Type} `{OrdN : Ord N} `{OrdE : Ord E}.

Local Abbreviation store := (@store N E).
Local Abbreviation edge_ptr := (@edge_ptr N E).
Local Abbreviation edge_ptr_set := (@edge_ptr_set N E).
Local Abbreviation edge_ptr_set_pair := (@edge_ptr_set_pair N E).
Local Abbreviation world := (@world N E).
Local Abbreviation graph_ptr := (@graph_ptr N E).
Local Abbreviation iterator := (@iterator N E).
Local Abbreviation value_type := (@value_type N E).

(** *** How many values lie ahead of a position *)

Lemma values_ahead_step (g : store) (m : nat) (entry : N * edge_ptr_set_pair) :
  nth_error g m = Some entry ->
  List.length (stored_values (skipn m g))
  = List.length (fst (snd entry)) + List.length (stored_values (skipn (S m) g)).
Proof.
  intros H. rewrite (stored_values_skipn _ _ _ H), length_app, length_map. reflexivity.
Qed.

Lemma values_ahead_mono (g : store) (m m' : nat) :
  m <= m' ->
  List.length (stored_values (skipn m' g)) <= List.length (stored_values (skipn m g)).
Proof.
  induction 1 as [|m' Hle IH]; [lia|].
  destruct (nth_error g m') as [entry|] eqn:Hm.
  - rewrite (values_ahead_step _ _ _ Hm) in IH. lia.
  - apply nth_error_None in Hm. rewrite (skipn_all2 g) by lia. cbn. lia.
Qed.

Lemma values_ahead_before (g : store) (n1 j1 n2 j2 : nat)
      (entry1 entry2 : N * edge_ptr_set_pair) :
  nth_error g n1 = Some entry1 -> j1 < List.length (fst (snd entry1)) ->
  nth_error g n2 = Some entry2 -> j2 < List.length (fst (snd entry2)) ->
  n1 < n2 \/ (n1 = n2 /\ j1 < j2) ->
  List.length (map value_at (skipn j2 (fst (snd entry2)))
               ++ stored_values (skipn (S n2) g))
  < List.length (map value_at (skipn j1 (fst (snd entry1)))
                 ++ stored_values (skipn (S n1) g)).
Proof.
  intros H1 Hj1 H2 Hj2 Hlt. rewrite !length_app, !length_map, !length_skipn.
  destruct Hlt as [Hlt|[-> Hlt]].
  - pose proof (values_ahead_mono g (S n1) n2 Hlt) as Hmono.
    rewrite (values_ahead_step _ _ _ H2) in Hmono. lia.
  - rewrite H1 in H2. injection H2 as ->. lia.
Qed.

Lemma later_by_suffix (g : graph_ptr) (n j : nat) (entry : N * edge_ptr_set_pair)
      (h : edge_ptr) (p : iterator) (l : list value_type) :
  nth_error (graph_obj g) n = Some entry ->
  nth_error (fst (snd entry)) j = Some h ->
  points_at g p l ->
  List.length l < List.length (map value_at (skipn j (fst (snd entry)))
                               ++ stored_values (skipn (S n) (graph_obj g))) ->
  later n j p.
Proof.
  intros Hn Hj [[-> ->]|(n' & j' & entry' & e' & -> & Hn' & Hj' & ->)] Hlen.
  - exact I.
  - unfold later. cbn [current_node_ current_edge_].
    assert (Hjlt : j < List.length (fst (snd entry))) by (apply nth_error_Some; congruence).
    assert (Hj'lt : j' < List.length (fst (snd entry')))
      by (apply nth_error_Some; congruence).
    destruct (Nat.lt_trichotomy n n') as [H|[H|H]]; [left; exact H| |].
    + subst n'. destruct (Nat.lt_trichotomy j j') as [H|[H|H]]; [right; auto| |].
      * subst j'. rewrite Hn in Hn'. injection Hn' as <-. lia.
      * pose proof (values_ahead_before _ n j' n j entry' entry Hn' Hj'lt Hn Hjlt
                                         (or_intror (conj eq_refl H))). lia.
    + pose proof (values_ahead_before _ n' j' n j entry' entry Hn' Hj'lt Hn Hjlt
                                       (or_introl H)). lia.
Qed.

(** *** [operator==] on two positions of a consistent graph *)

Lemma set_eq_refl (s : list edge_ptr) : set_eq s s = true.
Proof.
  induction s as [|x s IH]; cbn; [reflexivity|].
  unfold ptr_eq. rewrite Nat.eqb_refl. exact IH.
Qed.

Lemma entry_eq_refl (entry : N * edge_ptr_set_pair) : entry_eq entry entry = true.
Proof. unfold entry_eq. rewrite equal_refl, !set_eq_refl. reflexivity. Qed.

Lemma keys_differ (g : store) (n1 n2 : nat) (entry1 entry2 : N * edge_ptr_set_pair) :
  StronglySorted (fun a b => less a b = true) (nodes g) ->
  n1 < n2 ->
  nth_error g n1 = Some entry1 -> nth_error g n2 = Some entry2 ->
  less (fst entry1) (fst entry2) = true.
Proof.
  revert n1 n2. induction g as [|e0 g IH]; intros n1 n2 Hs Hlt H1 H2;
    [destruct n1; discriminate|].
  cbn in Hs. inversion Hs as [|? ? Hs' H0]; subst.
  destruct n2 as [|n2]; [lia|]. cbn in H2.
  destruct n1 as [|n1]; cbn in H1.
  - injection H1 as <-. rewrite Forall_forall in H0. apply H0.
    unfold nodes. apply in_map. exact (nth_error_In _ _ H2).
  - apply (IH n1 n2 Hs'); [lia|assumption|assumption].
Qed.

Lemma iterator_eq_positions (g : graph_ptr) (n1 j1 n2 j2 : nat)
      (entry1 entry2 : N * edge_ptr_set_pair) (e1 e2 : edge_ptr) :
  StronglySorted (fun a b => less a b = true) (nodes (graph_obj g)) ->
  (forall entry, In entry (graph_obj g) -> distinct_contents (fst (snd entry)) = true) ->
  nth_error (graph_obj g) n1 = Some entry1 -> nth_error (fst (snd entry1)) j1 = Some e1 ->
  nth_error (graph_obj g) n2 = Some entry2 -> nth_error (fst (snd entry2)) j2 = Some e2 ->
  iterator_eq {| current_node_ := Some n1; current_edge_ := Some j1; graph_ptr_ := Some g |}
              {| current_node_ := Some n2; current_edge_ := Some j2; graph_ptr_ := Some g |}
  = Some (Nat.eqb n1 n2 && Nat.eqb j1 j2).
Proof.
  intros Hkeys Hdist H1 Hj1 H2 Hj2.
  assert (Hn1 : n1 < List.length (graph_obj g)) by (apply nth_error_Some; congruence).
  assert (Hn2 : n2 < List.length (graph_obj g)) by (apply nth_error_Some; congruence).
  assert (Hl1 : j1 < List.length (fst (snd entry1))) by (apply nth_error_Some; congruence).
  assert (Hl2 : j2 < List.length (fst (snd entry2))) by (apply nth_error_Some; congruence).
  unfold iterator_eq. cbn [graph_ptr_ current_node_ current_edge_ graph_ptr_eq].
  rewrite Nat.eqb_refl. cbn [negb].
  destruct (Nat.eqb_spec n1 (List.length (graph_obj g))) as [|_]; [lia|].
  destruct (Nat.eqb_spec n2 (List.length (graph_obj g))) as [|_]; [lia|].
  cbn [andb orb]. rewrite H1, H2.
  destruct (Nat.eqb_spec n1 n2) as [Heq|Hne].
  - subst n2. rewrite H1 in H2. injection H2 as <-.
    rewrite entry_eq_refl. cbn [negb andb]. rewrite Hj1, Hj2.
    destruct (Nat.eqb_spec j1 (List.length (fst (snd entry1)))) as [|_]; [lia|].
    destruct (Nat.eqb_spec j2 (List.length (fst (snd entry1)))) as [|_]; [lia|].
    cbn [andb orb]. f_equal.
    pose proof (Hdist _ (nth_error_In _ _ H1)) as Hd.
    destruct (Nat.eqb_spec j1 j2) as [Hj|Hj].
    + subst j2. rewrite Hj1 in Hj2. injection Hj2 as <-. apply edge_eq_refl.
    + destruct (Nat.lt_trichotomy j1 j2) as [H|[H|H]]; [|contradiction|].
      * exact (distinct_contents_nth _ Hd j1 j2 e1 e2 H Hj1 Hj2).
      * rewrite edge_eq_sym. exact (distinct_contents_nth _ Hd j2 j1 e2 e1 H Hj2 Hj1).
  - assert (Hkey : equal (fst entry1) (fst entry2) = false).
    { destruct (equal_spec (fst entry1) (fst entry2)) as [Heq|]; [|reflexivity].
      exfalso. destruct (Nat.lt_trichotomy n1 n2) as [H|[H|H]]; [|contradiction|].
      - pose proof (keys_differ _ _ _ _ _ Hkeys H H1 H2) as Hlt.
        rewrite Heq, less_irrefl in Hlt. discriminate.
      - pose proof (keys_differ _ _ _ _ _ Hkeys H H2 H1) as Hlt.
        rewrite Heq, less_irrefl in Hlt. discriminate. }
    unfold entry_eq. rewrite Hkey. reflexivity.
Qed.

(** Two iterators of a consistent graph compare equal exactly when the same
    values lie ahead of them. *)
Lemma iterator_eq_by_suffix (this : addr) (w : world) (a b : iterator)
      (mid post : list value_type) :
  consistent w ->
  points_at (mk_graph_ptr this (g_ w)) a (mid ++ post) ->
  points_at (mk_graph_ptr this (g_ w)) b post ->
  iterator_eq a b = Some (match mid with [] => true | _ :: _ => false end).
Proof.
  intros Hw Ha Hb. set (g := mk_graph_ptr this (g_ w)) in *.
  assert (Hg : StronglySorted (fun a b => less a b = true) (nodes (graph_obj g))
               /\ forall entry, In entry (graph_obj g) ->
                                distinct_contents (fst (snd entry)) = true).
  { destruct Hw as [Hkeys Hc]. split; [exact Hkeys|].
    intros [k v] Hin. pose proof (map_find_sorted _ _ _ Hkeys Hin) as Hf.
    assert (Hk : is_node (g_ w) k = true) by (unfold is_node; rewrite Hf; reflexivity).
    destruct (Hc k Hk) as (_ & _ & D & _). unfold subscript in D. rewrite Hf in D. exact D. }
  destruct Hb as [[-> ->]|(n2 & j2 & entry2 & e2 & -> & Hn2 & Hj2 & Hpost)].
  - rewrite app_nil_r in Ha. exact (iterator_eq_end_by_suffix g a mid Ha).
  - assert (Hl2 : j2 < List.length (fst (snd entry2))) by (apply nth_error_Some; congruence).
    destruct Ha as [[-> Hnil]|(n1 & j1 & entry1 & e1 & -> & Hn1 & Hj1 & Hall)].
    + apply app_eq_nil in Hnil. destruct Hnil as [_ Hnil]. rewrite Hnil in Hpost.
      rewrite (skipn_nth_cons _ _ _ Hj2) in Hpost. discriminate.
    + assert (Hl1 : j1 < List.length (fst (snd entry1)))
        by (apply nth_error_Some; congruence).
      rewrite (iterator_eq_positions g n1 j1 n2 j2 entry1 entry2 e1 e2
                                     (proj1 Hg) (proj2 Hg) Hn1 Hj1 Hn2 Hj2).
      f_equal.
      assert (Hlen : List.length (mid ++ post) = List.length mid + List.length post)
        by apply length_app.
      rewrite Hall, Hpost in Hlen.
      destruct (Nat.eqb_spec n1 n2) as [Hn|Hn]; cbn [andb].
      * subst n2. rewrite Hn1 in Hn2. injection Hn2 as <-.
        destruct (Nat.eqb_spec j1 j2) as [Hj|Hj].
        -- subst j2. destruct mid; [reflexivity|]. cbn [List.length] in Hlen. lia.
        -- destruct mid; [|reflexivity]. exfalso. cbn [List.length] in Hlen.
           rewrite !length_app, !length_map, !length_skipn in Hlen. lia.
      * destruct mid; [|reflexivity]. exfalso. cbn [List.length Nat.add] in Hlen.
        destruct (Nat.lt_trichotomy n1 n2) as [H|[H|H]]; [|contradiction|].
        -- pose proof (values_ahead_before _ n1 j1 n2 j2 entry1 entry2 Hn1 Hl1 Hn2 Hl2
                                           (or_introl H)). lia.
        -- pose proof (values_ahead_before _ n2 j2 n1 j1 entry2 entry1 Hn2 Hl2 Hn1 Hl1
                                           (or_introl H)). lia.
Qed.

(** *** The loop of [erase_edge(i, s)] *)
Lemma erase_edge_loop_erases (this : addr) (mid : list value_type) :
  forall (w : world) (i s : iterator) (before post : list value_type) (fuel : nat),
    consistent w -> unshared w ->
    points_at (mk_graph_ptr this (g_ w)) i (mid ++ post) ->
    points_at (mk_graph_ptr this (g_ w)) s post ->
    stored_values (g_ w) = before ++ mid ++ post ->
    List.length mid < fuel ->
    exists r w',
      erase_edge_loop fuel this i s w = Some (Ret r, w')
      /\ nodes (g_ w') = nodes (g_ w)
      /\ stored_values (g_ w') = before ++ post
      /\ points_at (mk_graph_ptr this (g_ w')) r post.
Proof.
  induction mid as [|v mid IH]; intros w i s before post fuel Hw Hu Hi Hs Hvals Hfuel;
    (destruct fuel as [|fuel]; [cbn in Hfuel; lia|]); cbn [erase_edge_loop].
  - rewrite (iterator_eq_by_suffix this w i s [] post Hw Hi Hs).
    exists i, w. split; [reflexivity|]. split; [reflexivity|]. split; [exact Hvals|exact Hi].
  - rewrite (iterator_eq_by_suffix this w i s (v :: mid) post Hw Hi Hs).
    cbn [app] in Hi.
    destruct (points_at_cons _ _ _ _ Hi) as (n & j & [k [out inc]] & h & -> & Hn & Hj & Hv & Hl).
    cbn [graph_obj fst snd] in Hn, Hj, Hl.
    destruct (erase_edge_at_position this w n j k out inc h Hw Hu Hn Hj)
      as (r & w1 & before1 & Hcall & Hw1 & Hu1 & Hnodes & Hvals0 & Hvals1 & Hrp & Hsurvive).
    cbn zeta in Hcall. rewrite Hcall.
    rewrite <- Hl in Hvals0, Hvals1, Hrp. rewrite <- Hv in Hvals0.
    assert (Hb : before1 = before).
    { cbn [app] in Hvals. rewrite Hvals in Hvals0.
      exact (eq_sym (app_inv_tail _ _ _ Hvals0)). }
    subst before1.
    unfold end_. rewrite (iterator_eq_end_by_suffix _ r _ Hrp).
    destruct (mid ++ post) as [|v' rest] eqn:Hrest.
    + apply app_eq_nil in Hrest. destruct Hrest as [-> ->].
      exists (iterator_end (mk_graph_ptr this (g_ w1))), w1.
      split; [reflexivity|]. split; [exact Hnodes|]. split; [exact Hvals1|].
      apply points_at_end.
    + rewrite <- Hrest in *.
      assert (Hlater : later n j s).
      { apply (later_by_suffix (mk_graph_ptr this (g_ w)) n j (k, (out, inc)) h s post Hn Hj Hs).
        cbn [graph_obj fst snd]. rewrite (skipn_nth_cons _ _ _ Hj). cbn [map app List.length].
        rewrite <- Hl, length_app. lia. }
      destruct (Hsurvive s post Hlater Hs) as (s1 & Hs1 & Hsp).
      rewrite Hs1.
      destruct (IH w1 r s1 before post fuel Hw1 Hu1 Hrp Hsp Hvals1) as
        (r' & w' & Hloop & Hnodes' & Hvals' & Hrp'); [cbn in Hfuel; lia|].
      exists r', w'. split; [exact Hloop|]. split; [congruence|].
      split; [exact Hvals'|exact Hrp'].
Qed.

(** X29: [erase_edge(i, s)] on a graph built by [insert_node],
    [insert_edge], [erase_node], [erase_edge] and [clear], for two iterators
    of the graph with [s] reached from [i] after the values [mid]: it
    returns normally; the nodes stay; the traversal loses exactly [mid], at
    the place they were; and the iterator returned is where [s] was, that
    is, the loop from it to [end()] yields the values that were ahead of
    [s]. *)
Theorem X29_erase_edge_range_erases_between (this : addr) (ops : list (@op N E))
        (i s : iterator) (mid post : list value_type) (fuel : nat) :
  forallb (fun o => negb (rewrites_node o)) ops = true ->
  let w := run ops graph_default in
  points_at (mk_graph_ptr this (g_ w)) i (mid ++ post) ->
  points_at (mk_graph_ptr this (g_ w)) s post ->
  List.length mid < fuel ->
  exists r w' before,
    erase_edge_range fuel this i s w = Some (Ret r, w')
    /\ nodes (g_ w') = nodes (g_ w)
    /\ stored_values (g_ w) = before ++ mid ++ post
    /\ stored_values (g_ w') = before ++ post
    /\ forall fuel', List.length post < fuel' ->
                     traverse fuel' r (end_ this w') = Some post.
Proof.
  intros Hops w Hi Hs Hfuel.
  pose proof (plain_run_consistent ops Hops) as Hw. fold w in Hw.
  pose proof (plain_run_unshared ops Hops) as Hu. fold w in Hu.
  destruct (points_at_suffix _ _ _ Hi) as (before & Hvals). cbn [graph_obj] in Hvals.
  unfold erase_edge_range.
  rewrite (iterator_eq_by_suffix this w i s mid post Hw Hi Hs).
  destruct mid as [|v mid].
  - exists s, w, before. split; [reflexivity|]. split; [reflexivity|].
    split; [exact Hvals|]. split; [exact Hvals|].
    intros fuel' Hfuel'. exact (traverse_points_at _ s post fuel' Hs Hfuel').
  - unfold end_. rewrite (iterator_eq_end_by_suffix _ i _ Hi). cbn [app].
    destruct (erase_edge_loop_erases this (v :: mid) w i s before post fuel
                                     Hw Hu Hi Hs Hvals Hfuel)
      as (r & w' & Hloop & Hnodes & Hvals' & Hrp).
    exists r, w', before. split; [exact Hloop|]. split; [exact Hnodes|].
    split; [exact Hvals|]. split; [exact Hvals'|].
    intros fuel' Hfuel'. exact (traverse_points_at _ r post fuel' Hrp Hfuel').
Qed.

End EraseRange.

(** * The claims *)

Section Claims.
Context {N E : Type} `{OrdN : Ord N} `{OrdE : Ord E}.

(** C4 (as amended): [EdgePtrComparator] orders two handles by edge content
    first, in the canonical order source, destination, unweighted before
    weighted, weight, and falls back on the storage address when the two
    edges are structurally equal: a handle is never before itself, edges of
    different content are ordered by content alone, and structurally equal
    edges at different addresses are ordered by address. *)
Theorem C4_comparator_is_content_then_address (a b : @edge_ptr N E) :
  EdgePtrComparator a b =
    if ptr_eq a b then false
    else if edge_eq (pointee a) (pointee b) then Nat.ltb (address a) (address b)
         else edge_less (pointee a) (pointee b).
Proof. exact (EdgePtrComparator_unfold a b). Qed.

(** C8: when [insert_edge(src, dst, weight)] returned true, [find(src, dst,
    weight)] yields an iterator whose dereference is (src, dst, weight);
    the following [erase_edge(src, dst, weight)] returns true, and after it
    the same [find] yields [end()].  More generally, in every state reached
    by public operations, [find(src, dst, weight)] after
    [erase_edge(src, dst, weight)] yields [end()]. *)
Theorem C8_find_round_trip (this : addr) (src dst : N) (weight : option E)
        (w w1 : @world N E) :
  insert_edge src dst weight w = (Ret true, w1) ->
  deref (find this w1 src dst weight)
  = Some {| from := src; to := dst; weight := weight |}
  /\ (exists w2, erase_edge src dst weight w1 = (Ret true, w2)
                 /\ find this w2 src dst weight = end_ this w2)
  /\ (forall w', reachable w' ->
                 find this (snd (erase_edge src dst weight w')) src dst weight
                 = end_ this (snd (erase_edge src dst weight w'))).
Proof.
  intros H. split; [|split].
  - exact (find_after_insert this src dst weight w w1 H).
  - exact (erase_after_insert this src dst weight w w1 H).
  - intros w' Hw'.
    exact (find_after_erase this src dst weight w' (reachable_outgoing_distinct w' Hw')).
Qed.

(** C9 (at the failing input): comparing two value-initialised iterators
    passes the pointer test, both [graph_ptr_] being null, and then
    evaluates [graph_ptr_->g_.end()] through the null pointer, which is
    undefined behaviour rather than the answer true.  Against [begin()] or
    [end()] of any graph the pointer test fails and the answer is false. *)
Theorem C9_value_initialised_iterators :
  iterator_eq (@iterator_default N E) iterator_default = None
  /\ forall (this : addr) (w : @world N E),
      iterator_eq iterator_default (begin_ this w) = Some false
      /\ iterator_eq (begin_ this w) iterator_default = Some false
      /\ iterator_eq iterator_default (end_ this w) = Some false
      /\ iterator_eq (end_ this w) iterator_default = Some false.
Proof.
  split; [reflexivity|]. intros this w.
  unfold begin_, end_, iterator_begin.
  destruct (empty _); [repeat split; reflexivity|].
  destruct (Nat.eqb _ _); repeat split; reflexivity.
Qed.

(** C10: [erase_edge(i)] with [i] equal to [end()] is defined, returns
    [end()] and leaves the graph, allocator included, exactly as it was:
    for [i] the iterator [end()] itself, and for any [i] that [operator==]
    finds equal to it. *)
Theorem C10_erase_edge_at_end (this : addr) (i : @iterator N E) (w : @world N E) :
  erase_edge_at this (end_ this w) w = Some (Ret (end_ this w), w)
  /\ (iterator_eq i (end_ this w) = Some true ->
      erase_edge_at this i w = Some (Ret (end_ this w), w)).
Proof.
  split.
  - unfold erase_edge_at, end_. rewrite iterator_eq_end_end. reflexivity.
  - intros H. unfold erase_edge_at. rewrite H. reflexivity.
Qed.

End Claims.

Local Open Scope Z_scope.
Local Open Scope string_scope.

(** C1 (at the failing input): on nodes {1, 2} with the edge 2 -> 1,
    [replace_node(1, 3)] returns true, inserts 3, creates 2 -> 3 and erases
    the record of 1, but the original handle 2 -> 1 stays in the outgoing set
    of 2 and the traversal still yields it.  On node 1 with the reflexive
    edge (1, 1, 45), [replace_node(1, 5)] does create (5, 5, 45) but leaves
    (5, 1, 45) and (1, 5, 45) in the sets of 5. *)
Theorem C1_replace_node_keeps_original_edges :
  is_node (g_ edge_into_1) 1 = true
  /\ is_node (g_ edge_into_1) 3 = false
  /\ replace_node 1 3 edge_into_1 = (Ret true, edge_into_1_replaced)
  /\ g_ edge_into_1_replaced
     = [(2, ([mk_ptr 0%nat (unweighted_edge 2 1); mk_ptr 1%nat (unweighted_edge 2 3)], []));
        (3, ([], [mk_ptr 1%nat (unweighted_edge 2 3)]))]
  /\ traverse 3 (begin_ here edge_into_1_replaced) (end_ here edge_into_1_replaced)
     = Some [mk_value 2 1 None; mk_value 2 3 None]
  /\ exists w', replace_node 1 5 loop_on_1 = (Ret true, w')
                /\ g_ w' = [(5, ([mk_ptr 1%nat (weighted_edge 5 1 45);
                                  mk_ptr 3%nat (weighted_edge 5 5 45)],
                                 [mk_ptr 2%nat (weighted_edge 1 5 45);
                                  mk_ptr 3%nat (weighted_edge 5 5 45)]))].
Proof.
  repeat split; try (vm_compute; reflexivity).
  exists (snd (replace_node 1 5 loop_on_1)). split; vm_compute; reflexivity.
Qed.

(** C2 (at the failing input): the state insert_node(1), insert_node(2),
    insert_edge(2, 1) satisfies the store invariant; after
    [replace_node(1, 3)] the reachable state does not: the handle 2 -> 1 is
    still stored in the outgoing set of 2 while node 1 has no record. *)
Theorem C2_replace_node_breaks_store_invariant :
  reachable edge_into_1
  /\ store_invariant (g_ edge_into_1) = true
  /\ reachable edge_into_1_replaced
  /\ store_invariant (g_ edge_into_1_replaced) = false
  /\ has_ptr (mk_ptr 0%nat (unweighted_edge 2 1)) (fst (subscript (g_ edge_into_1_replaced) 2))
     = true
  /\ is_node (g_ edge_into_1_replaced) 1 = false.
Proof.
  repeat split; try (vm_compute; reflexivity).
  - exists [op_insert_node 1; op_insert_node 2; op_insert_edge 2 1 None]. vm_compute; reflexivity.
  - exists [op_insert_node 1; op_insert_node 2; op_insert_edge 2 1 None;
            op_replace_node 1 3].
    vm_compute; reflexivity.
Qed.

(** C3 (at the failing input): after insert_node(1), insert_node(2),
    insert_edge(1, 2), replace_node(1, 3), insert_node(1), nodes 1 and 2 are
    present and no edge 1 -> 2 is observable ([is_connected] is false,
    [edges] is empty, [find] is [end()], the traversal yields only 3 -> 2),
    yet [insert_edge(1, 2)] returns false and changes nothing: the handle
    1 -> 2 left in the incoming set of 2 makes [existed_edge] answer true. *)
Theorem C3_insert_edge_rejected_by_stale_handle :
  reachable node_1_reinserted
  /\ is_node (g_ node_1_reinserted) 1 = true
  /\ is_node (g_ node_1_reinserted) 2 = true
  /\ is_connected (g_ node_1_reinserted) 1 2 = Ret false
  /\ edges (g_ node_1_reinserted) 1 2 = Ret []
  /\ find here node_1_reinserted 1 2 None = end_ here node_1_reinserted
  /\ traverse 2 (begin_ here node_1_reinserted) (end_ here node_1_reinserted)
     = Some [mk_value 3 2 None]
  /\ insert_edge 1 2 None node_1_reinserted = (Ret false, node_1_reinserted).
Proof.
  repeat split; try (vm_compute; reflexivity).
  exists [op_insert_node 1; op_insert_node 2; op_insert_edge 1 2 None;
          op_replace_node 1 3; op_insert_node 1].
  vm_compute; reflexivity.
Qed.

(** C5 (at the failing input): in the reachable state left by
    insert_node(1), insert_node(2), insert_edge(2, 1), replace_node(1, 3),
    node 2 is present and 4 is not, yet [replace_node(2, 4)] throws, with the
    message of [insert_edge], after it has inserted node 4; and
    [merge_replace_node(2, 3)], both nodes present, throws the message of
    [insert_edge] as well. *)
Theorem C5_replace_node_throws_after_mutating :
  reachable edge_into_1_replaced
  /\ is_node (g_ edge_into_1_replaced) 2 = true
  /\ is_node (g_ edge_into_1_replaced) 3 = true
  /\ is_node (g_ edge_into_1_replaced) 4 = false
  /\ (exists w',
        replace_node 2 4 edge_into_1_replaced
        = (Throw insert_edge_what,
           w')
        /\ is_node (g_ w') 4 = true)
  /\ merge_replace_node 2 3 edge_into_1_replaced
     = (Throw insert_edge_what,
        edge_into_1_replaced).
Proof.
  repeat split; try (vm_compute; reflexivity).
  - exists [op_insert_node 1; op_insert_node 2; op_insert_edge 2 1 None;
            op_replace_node 1 3].
    reflexivity.
  - exists (snd (replace_node 2 4 edge_into_1_replaced)). split; vm_compute; reflexivity.
Qed.

(** C6: on nodes A, B, C, D with edges (A, B, 1), (A, C, 2), (A, D, 3),
    [merge_replace_node(A, B)] leaves nodes B, C, D and the traversal yields
    exactly (B, B, 1), (B, C, 2), (B, D, 3); with (B, B, 1) present
    beforehand the result is the same, (B, B, 1) occurring once. *)
Theorem C6_merge_replace_node_example :
  traverse 4 (begin_ here abcd) (end_ here abcd)
  = Some [mk_value "A" "B" (Some 1); mk_value "A" "C" (Some 2); mk_value "A" "D" (Some 3)]
  /\ (exists w', merge_replace_node "A" "B" abcd = (Ret tt, w')
                 /\ nodes (g_ w') = ["B"; "C"; "D"]
                 /\ traverse 4 (begin_ here w') (end_ here w')
                    = Some [mk_value "B" "B" (Some 1); mk_value "B" "C" (Some 2);
                            mk_value "B" "D" (Some 3)]
                 /\ edges_by_nodes (g_ w')
                    = Ret [mk_value "B" "B" (Some 1); mk_value "B" "C" (Some 2);
                           mk_value "B" "D" (Some 3)])
  /\ traverse 5 (begin_ here abcd_with_loop) (end_ here abcd_with_loop)
     = Some [mk_value "A" "B" (Some 1); mk_value "A" "C" (Some 2); mk_value "A" "D" (Some 3);
             mk_value "B" "B" (Some 1)]
  /\ (exists w', merge_replace_node "A" "B" abcd_with_loop = (Ret tt, w')
                 /\ nodes (g_ w') = ["B"; "C"; "D"]
                 /\ traverse 4 (begin_ here w') (end_ here w')
                    = Some [mk_value "B" "B" (Some 1); mk_value "B" "C" (Some 2);
                            mk_value "B" "D" (Some 3)]
                 /\ edges_by_nodes (g_ w')
                    = Ret [mk_value "B" "B" (Some 1); mk_value "B" "C" (Some 2);
                           mk_value "B" "D" (Some 3)]).
Proof.
  split; [vm_compute; reflexivity|].
  split; [exists (snd (merge_replace_node "A" "B" abcd)); repeat split; vm_compute; reflexivity|].
  split; [vm_compute; reflexivity|].
  exists (snd (merge_replace_node "A" "B" abcd_with_loop)); repeat split; vm_compute; reflexivity.
Qed.

(** C7 (at the failing input): in the reachable state left by
    insert_node(1), insert_node(2), insert_edge(2, 1), replace_node(1, 3) the
    traversal from [begin()] to [end()] yields 2 -> 1 and 2 -> 3, while
    [edges(2, 1)] throws, node 1 being absent: concatenating the [edges]
    answers over the destinations [connections] lists throws, and over the
    pairs of present nodes it gives 2 -> 3 alone. *)
Theorem C7_traversal_yields_edge_no_query_returns :
  reachable edge_into_1_replaced
  /\ traverse 3 (begin_ here edge_into_1_replaced) (end_ here edge_into_1_replaced)
     = Some [mk_value 2 1 None; mk_value 2 3 None]
  /\ connections (g_ edge_into_1_replaced) 2 = Ret [1; 3]
  /\ edges (g_ edge_into_1_replaced) 2 1
     = Throw edges_what
  /\ edges_by_connections (g_ edge_into_1_replaced)
     = Throw edges_what
  /\ edges_by_nodes (g_ edge_into_1_replaced) = Ret [mk_value 2 3 None].
Proof.
  repeat split; try (vm_compute; reflexivity).
  exists [op_insert_node 1; op_insert_node 2; op_insert_edge 2 1 None;
          op_replace_node 1 3].
  vm_compute; reflexivity.
Qed.

(** C4, the claim as stated fails: two structurally equal edges at addresses
    0 and 1 do not compare equivalent, the lower address is ordered first. *)
Lemma C4_counterexample :
  edge_eq (pointee twin_low) (pointee twin_high) = true
  /\ EdgePtrComparator twin_low twin_high = true
  /\ EdgePtrComparator twin_high twin_low = false
  /\ ~ (forall a b : @edge_ptr Z Z,
          edge_eq (pointee a) (pointee b) = true ->
          EdgePtrComparator a b = false /\ EdgePtrComparator b a = false).
Proof.
  repeat split; try (vm_compute; reflexivity).
  intros H. destruct (H twin_low twin_high eq_refl) as [H1 _]. discriminate H1.
Qed.

(** C8 at nodes 1, 2 and the edge (1, 2, 5). *)
Lemma C8_find_round_trip_witness :
  insert_edge 1 2 (Some 5) two_nodes = (Ret true, two_nodes_linked)
  /\ (deref (find here two_nodes_linked 1 2 (Some 5)) = Some (mk_value 1 2 (Some 5))
      /\ (exists w2, erase_edge 1 2 (Some 5) two_nodes_linked = (Ret true, w2)
                     /\ find here w2 1 2 (Some 5) = end_ here w2)
      /\ (forall w', reachable w' ->
                     find here (snd (erase_edge 1 2 (Some 5) w')) 1 2 (Some 5)
                     = end_ here (snd (erase_edge 1 2 (Some 5) w')))).
Proof.
  split; [vm_compute; reflexivity|].
  apply (C8_find_round_trip here 1 2 (Some 5) two_nodes two_nodes_linked).
  vm_compute; reflexivity.
Defined.

(** C10 at a graph without edges, whose [begin()] equals its [end()]. *)
Lemma C10_erase_edge_at_end_witness :
  iterator_eq (begin_ here two_nodes) (end_ here two_nodes) = Some true
  /\ erase_edge_at here (begin_ here two_nodes) two_nodes
     = Some (Ret (end_ here two_nodes), two_nodes).
Proof.
  split; [vm_compute; reflexivity|].
  apply (C10_erase_edge_at_end here (begin_ here two_nodes) two_nodes).
  vm_compute; reflexivity.
Defined.

(** * The further properties at concrete graphs *)

Lemma two_nodes_linked_reachable : reachable two_nodes_linked.
Proof. exists two_nodes_linked_ops. vm_compute. reflexivity. Defined.

Lemma parallel_edges_reachable : reachable parallel_edges.
Proof. exists parallel_edges_ops. reflexivity. Defined.

(** X3 at nodes 1, 2 and the edge (1, 2, 5). *)
Lemma X3_nodes_sorted_and_exact_witness :
  reachable two_nodes_linked
  /\ (StronglySorted (fun x y => less x y = true) (nodes (g_ two_nodes_linked))
      /\ (forall k, is_node (g_ two_nodes_linked) k = true
                    <-> In k (nodes (g_ two_nodes_linked)))
      /\ (empty (g_ two_nodes_linked) = true <-> nodes (g_ two_nodes_linked) = [])).
Proof.
  split; [exact two_nodes_linked_reachable|].
  exact (X3_nodes_sorted_and_exact two_nodes_linked two_nodes_linked_reachable).
Defined.

(** X4 at nodes 1 and 2 without edges and the new edge (1, 2, 5). *)
Lemma X4_insert_edge_answer_witness :
  forallb (fun o => negb (rewrites_node o)) two_nodes_ops = true
  /\ is_node (g_ two_nodes) 1 = true
  /\ is_node (g_ two_nodes) 2 = true
  /\ ((find here two_nodes 1 2 (Some 5) <> end_ here two_nodes
       /\ insert_edge 1 2 (Some 5) two_nodes = (Ret false, two_nodes))
      \/ (find here two_nodes 1 2 (Some 5) = end_ here two_nodes
          /\ exists w', insert_edge 1 2 (Some 5) two_nodes = (Ret true, w')
                        /\ deref (find here w' 1 2 (Some 5)) = Some value_1_2_5
                        /\ (forall k, is_node (g_ w') k = is_node (g_ two_nodes) k)
                        /\ store_invariant (g_ w') = true)).
Proof.
  split; [reflexivity|]. split; [vm_compute; reflexivity|].
  split; [vm_compute; reflexivity|].
  apply (X4_insert_edge_answer here two_nodes_ops 1 2 (Some 5));
    vm_compute; reflexivity.
Defined.

(** X6 at nodes 1, 2 and the edge 2 -> 1, with [replace_node(1, 3)]. *)
Lemma X6_replace_node_moves_edges_witness :
  forallb (fun o => negb (rewrites_node o)) edge_into_1_ops = true
  /\ is_node (g_ edge_into_1) 1 = true
  /\ is_node (g_ edge_into_1) 3 = false
  /\ exists w',
      replace_node 1 3 edge_into_1 = (Ret true, w')
      /\ is_node (g_ w') 3 = true
      /\ is_node (g_ w') 1 = false
      /\ (forall k, k <> 1 -> k <> 3 -> is_node (g_ w') k = is_node (g_ edge_into_1) k)
      /\ (forall d x, find here edge_into_1 1 d x <> end_ here edge_into_1 ->
                      find here w' 3 (if equal d 1 then 3 else d) x <> end_ here w')
      /\ (forall s x, s <> 1 ->
                      find here edge_into_1 s 1 x <> end_ here edge_into_1 ->
                      find here w' s 3 x <> end_ here w')
      /\ (forall s d x, s <> 1 -> d <> 1 ->
                        find here edge_into_1 s d x <> end_ here edge_into_1 ->
                        find here w' s d x <> end_ here w').
Proof.
  split; [reflexivity|]. split; [vm_compute; reflexivity|].
  split; [vm_compute; reflexivity|].
  apply (X6_replace_node_moves_edges here edge_into_1_ops 1 3);
    vm_compute; reflexivity.
Defined.

(** X7 at the README's merge example, with [merge_replace_node(A, B)]. *)
Lemma X7_merge_replace_node_moves_edges_witness :
  forallb (fun o => negb (rewrites_node o)) abcd_ops = true
  /\ is_node (g_ abcd) "A" = true
  /\ is_node (g_ abcd) "B" = true
  /\ "A" <> "B"
  /\ exists w',
      merge_replace_node "A" "B" abcd = (Ret tt, w')
      /\ is_node (g_ w') "A" = false
      /\ (forall k, k <> "A" -> is_node (g_ w') k = is_node (g_ abcd) k)
      /\ (forall d x, find here abcd "A" d x <> end_ here abcd ->
                      find here w' "B" (if equal d "A" then "B" else d) x <> end_ here w')
      /\ (forall s x, s <> "A" ->
                      find here abcd s "A" x <> end_ here abcd ->
                      find here w' s "B" x <> end_ here w')
      /\ (forall s d x, s <> "A" -> d <> "A" ->
                        find here abcd s d x <> end_ here abcd ->
                        find here w' s d x <> end_ here w').
Proof.
  split; [reflexivity|]. split; [vm_compute; reflexivity|].
  split; [vm_compute; reflexivity|]. split; [discriminate|].
  apply (X7_merge_replace_node_moves_edges here abcd_ops "A" "B");
    try (vm_compute; reflexivity). discriminate.
Defined.

(** X8 at nodes 1, 2 and the edge (1, 2, 5), with [erase_node(1)]. *)
Lemma X8_erase_node_removes_incident_edges_witness :
  reachable two_nodes_linked
  /\ exists w',
      erase_node 1 two_nodes_linked = (Ret (is_node (g_ two_nodes_linked) 1), w')
      /\ is_node (g_ w') 1 = false
      /\ (forall k, k <> 1 -> is_node (g_ w') k = is_node (g_ two_nodes_linked) k)
      /\ (is_node (g_ two_nodes_linked) 1 = false -> w' = two_nodes_linked)
      /\ (is_node (g_ two_nodes_linked) 1 = true ->
          forall v, In v (stored_values (g_ w'))
                    <-> In v (stored_values (g_ two_nodes_linked))
                        /\ from v <> 1 /\ to v <> 1).
Proof.
  split; [exact two_nodes_linked_reachable|].
  exact (X8_erase_node_removes_incident_edges 1 two_nodes_linked
                                              two_nodes_linked_reachable).
Defined.

(** X9 at nodes 1, 2 and the edge (1, 2, 5), erased, seen from the
    unweighted edge 1 -> 2. *)
Lemma X9_erase_edge_removes_one_edge_witness :
  reachable two_nodes_linked
  /\ is_node (g_ two_nodes_linked) 1 = true
  /\ is_node (g_ two_nodes_linked) 2 = true
  /\ (forall k, is_node (g_ (snd (erase_edge 1 2 (Some 5) two_nodes_linked))) k
                = is_node (g_ two_nodes_linked) k)
  /\ (find here (snd (erase_edge 1 2 (Some 5) two_nodes_linked)) 1 2 None
      = end_ here (snd (erase_edge 1 2 (Some 5) two_nodes_linked))
      <-> find here two_nodes_linked 1 2 None = end_ here two_nodes_linked
          \/ (1 = 1 /\ 2 = 2 /\ None = Some 5)).
Proof.
  split; [exact two_nodes_linked_reachable|]. split; [vm_compute; reflexivity|].
  split; [vm_compute; reflexivity|].
  apply (X9_erase_edge_removes_one_edge here two_nodes_linked 1 2 (Some 5) 1 2 None
                                        two_nodes_linked_reachable);
    vm_compute; reflexivity.
Defined.

(** X10 at nodes 1, 2 and the edge (1, 2, 5), erased. *)
Lemma X10_erase_edge_answer_witness :
  forallb (fun o => negb (rewrites_node o)) two_nodes_linked_ops = true
  /\ is_node (g_ two_nodes_linked) 1 = true
  /\ is_node (g_ two_nodes_linked) 2 = true
  /\ ((find here two_nodes_linked 1 2 (Some 5) = end_ here two_nodes_linked
       /\ erase_edge 1 2 (Some 5) two_nodes_linked = (Ret false, two_nodes_linked))
      \/ (find here two_nodes_linked 1 2 (Some 5) <> end_ here two_nodes_linked
          /\ exists w', erase_edge 1 2 (Some 5) two_nodes_linked = (Ret true, w')
                        /\ store_invariant (g_ w') = true)).
Proof.
  split; [reflexivity|]. split; [vm_compute; reflexivity|].
  split; [vm_compute; reflexivity|].
  apply (X10_erase_edge_answer here two_nodes_linked_ops 1 2 (Some 5));
    vm_compute; reflexivity.
Defined.

(** X11 at nodes 1, 2 and the edge (1, 2, 5), erased through [begin()]. *)
Lemma X11_erase_edge_at_returns_next_witness :
  forallb (fun o => negb (rewrites_node o)) two_nodes_linked_ops = true
  /\ graph_ptr_ (begin_ here two_nodes_linked)
     = Some (mk_graph_ptr here (g_ two_nodes_linked))
  /\ deref (begin_ here two_nodes_linked) = Some value_1_2_5
  /\ exists r w' before after,
      erase_edge_at here (begin_ here two_nodes_linked) two_nodes_linked
      = Some (Ret r, w')
      /\ nodes (g_ w') = nodes (g_ two_nodes_linked)
      /\ stored_values (g_ two_nodes_linked) = (before ++ value_1_2_5 :: after)%list
      /\ stored_values (g_ w') = (before ++ after)%list
      /\ forall fuel, (List.length after < fuel)%nat ->
                      traverse fuel r (end_ here w') = Some after.
Proof.
  split; [reflexivity|]. split; [vm_compute; reflexivity|].
  split; [vm_compute; reflexivity|].
  apply (X11_erase_edge_at_returns_next here two_nodes_linked_ops
                                        (begin_ here two_nodes_linked) value_1_2_5);
    vm_compute; reflexivity.
Defined.

(** X29 at three parallel edges, erased from [begin()] to [end()]. *)
Lemma X29_erase_edge_range_erases_between_witness :
  forallb (fun o => negb (rewrites_node o)) parallel_edges_ops = true
  /\ points_at (mk_graph_ptr here (g_ parallel_edges)) (begin_ here parallel_edges)
               (stored_values (g_ parallel_edges) ++ [])%list
  /\ points_at (mk_graph_ptr here (g_ parallel_edges)) (end_ here parallel_edges) []
  /\ (List.length (stored_values (g_ parallel_edges)) < 4)%nat
  /\ exists r w' before,
      erase_edge_range 4 here (begin_ here parallel_edges) (end_ here parallel_edges)
                       parallel_edges = Some (Ret r, w')
      /\ nodes (g_ w') = nodes (g_ parallel_edges)
      /\ stored_values (g_ parallel_edges)
         = (before ++ stored_values (g_ parallel_edges) ++ [])%list
      /\ stored_values (g_ w') = (before ++ [])%list
      /\ forall fuel', (List.length (@nil (@value_type Z Z)) < fuel')%nat ->
                       traverse fuel' r (end_ here w') = Some [].
Proof.
  assert (H1 : points_at (mk_graph_ptr here (g_ parallel_edges))
                         (begin_ here parallel_edges)
                         (stored_values (g_ parallel_edges) ++ [])%list)
    by (rewrite app_nil_r; apply points_at_begin).
  assert (H2 : points_at (mk_graph_ptr here (g_ parallel_edges))
                         (end_ here parallel_edges) [])
    by apply points_at_end.
  assert (H3 : (List.length (stored_values (g_ parallel_edges)) < 4)%nat)
    by (vm_compute; apply le_n).
  split; [reflexivity|]. split; [exact H1|]. split; [exact H2|]. split; [exact H3|].
  exact (X29_erase_edge_range_erases_between here parallel_edges_ops
           (begin_ here parallel_edges) (end_ here parallel_edges)
           (stored_values (g_ parallel_edges)) [] 4%nat eq_refl H1 H2 H3).
Defined.

(** X12 at nodes 1 and 2, for the absent node 3 and for the two present
    ones. *)
Lemma X12_argument_checks_witness :
  (is_node (g_ two_nodes) 3 = false
   /\ insert_edge 1 3 None two_nodes = (Throw insert_edge_what, two_nodes)
   /\ merge_replace_node 1 3 two_nodes = (Throw merge_replace_node_what, two_nodes)
   /\ erase_edge 1 3 None two_nodes = (Throw erase_edge_what, two_nodes)
   /\ is_connected (g_ two_nodes) 1 3 = Throw is_connected_what
   /\ edges (g_ two_nodes) 1 3 = Throw edges_what)
  /\ (is_node (g_ two_nodes) 1 = true
      /\ is_node (g_ two_nodes) 2 = true
      /\ (exists b w', insert_edge 1 2 None two_nodes = (Ret b, w'))
      /\ (exists b w', erase_edge 1 2 None two_nodes = (Ret b, w'))
      /\ (exists b, is_connected (g_ two_nodes) 1 2 = Ret b)
      /\ (exists es, edges (g_ two_nodes) 1 2 = Ret es)
      /\ (exists ds, connections (g_ two_nodes) 1 = Ret ds)).
Proof.
  split.
  - split; [vm_compute; reflexivity|].
    apply (proj1 (X12_argument_checks two_nodes 1 3 None)).
    right. vm_compute. reflexivity.
  - split; [vm_compute; reflexivity|]. split; [vm_compute; reflexivity|].
    apply (proj2 (proj2 (X12_argument_checks two_nodes 1 2 None)));
      vm_compute; reflexivity.
Defined.

(** X13 at nodes 1, 2 and the edge (1, 2, 5). *)
Lemma X13_plain_operations_keep_store_invariant_witness :
  forallb (fun o => negb (rewrites_node o)) two_nodes_linked_ops = true
  /\ store_invariant (g_ (run two_nodes_linked_ops graph_default)) = true.
Proof.
  split; [reflexivity|].
  apply (X13_plain_operations_keep_store_invariant two_nodes_linked_ops). reflexivity.
Defined.

(** X14 at nodes 1, 2 and the edge (1, 2, 5). *)
Lemma X14_connection_queries_agree_witness :
  is_node (g_ two_nodes_linked) 1 = true
  /\ is_node (g_ two_nodes_linked) 2 = true
  /\ exists b es ds,
      is_connected (g_ two_nodes_linked) 1 2 = Ret b
      /\ edges (g_ two_nodes_linked) 1 2 = Ret es
      /\ connections (g_ two_nodes_linked) 1 = Ret ds
      /\ (b = true <-> es <> [])
      /\ (b = true <-> In 2 ds).
Proof.
  split; [vm_compute; reflexivity|]. split; [vm_compute; reflexivity|].
  apply (X14_connection_queries_agree (g_ two_nodes_linked) 1 2);
    vm_compute; reflexivity.
Defined.

(** X15 at the README's merge example, for the node A. *)
Lemma X15_connections_sorted_and_exact_witness :
  is_node (g_ abcd) "A" = true
  /\ exists ds,
      connections (g_ abcd) "A" = Ret ds
      /\ StronglySorted (fun x y => less x y = true) ds
      /\ forall d, In d ds <-> exists e, In e (fst (subscript (g_ abcd) "A"))
                                         /\ dst_of e = d.
Proof.
  split; [vm_compute; reflexivity|].
  apply (X15_connections_sorted_and_exact (g_ abcd) "A"). vm_compute. reflexivity.
Defined.

(** X16 at three parallel edges inserted as (1, 2, 7), (1, 2), (1, 2, 3). *)
Lemma X16_edges_sorted_by_weight_witness :
  reachable parallel_edges
  /\ is_node (g_ parallel_edges) 1 = true
  /\ is_node (g_ parallel_edges) 2 = true
  /\ exists es,
      edges (g_ parallel_edges) 1 2 = Ret es
      /\ (forall e, In e es -> get_nodes e = (1, 2))
      /\ StronglySorted (fun a b => optional_lt (get_weight a) (get_weight b) = true) es.
Proof.
  split; [exact parallel_edges_reachable|]. split; [vm_compute; reflexivity|].
  split; [vm_compute; reflexivity|].
  apply (X16_edges_sorted_by_weight parallel_edges 1 2 parallel_edges_reachable);
    vm_compute; reflexivity.
Defined.

(** X18 at nodes 1, 2 and the edge (1, 2, 5). *)
Lemma X18_traversal_visits_every_stored_edge_witness :
  (List.length (stored_values (g_ two_nodes_linked)) < 2)%nat
  /\ traverse 2 (begin_ here two_nodes_linked) (end_ here two_nodes_linked)
     = Some (stored_values (g_ two_nodes_linked)).
Proof.
  assert (H : (List.length (stored_values (g_ two_nodes_linked)) < 2)%nat)
    by (vm_compute; apply le_n).
  split; [exact H|].
  exact (X18_traversal_visits_every_stored_edge here two_nodes_linked 2%nat H).
Defined.

(** X19 at three parallel edges inserted as (1, 2, 7), (1, 2), (1, 2, 3). *)
Lemma X19_traversal_is_sorted_witness :
  reachable parallel_edges
  /\ (List.length (stored_values (g_ parallel_edges)) < 4)%nat
  /\ exists visited,
      traverse 4 (begin_ here parallel_edges) (end_ here parallel_edges) = Some visited
      /\ StronglySorted (fun a b => value_less a b = true) visited.
Proof.
  assert (H : (List.length (stored_values (g_ parallel_edges)) < 4)%nat)
    by (vm_compute; apply le_n).
  split; [exact parallel_edges_reachable|]. split; [exact H|].
  exact (X19_traversal_is_sorted here parallel_edges 4%nat parallel_edges_reachable H).
Defined.

(** X20 at the README's merge example. *)
Lemma X20_plain_traversal_is_edges_concatenated_witness :
  forallb (fun o => negb (rewrites_node o)) abcd_ops = true
  /\ (List.length (stored_values (g_ (run abcd_ops graph_default))) < 4)%nat
  /\ exists visited,
      traverse 4 (begin_ here (run abcd_ops graph_default))
               (end_ here (run abcd_ops graph_default))
      = Some visited
      /\ edges_by_connections (g_ (run abcd_ops graph_default)) = Ret visited.
Proof.
  assert (H : (List.length (stored_values (g_ (run abcd_ops graph_default))) < 4)%nat)
    by (vm_compute; apply le_n).
  split; [reflexivity|]. split; [exact H|].
  exact (X20_plain_traversal_is_edges_concatenated here abcd_ops 4%nat eq_refl H).
Defined.

(** X21 at [begin()] of nodes 1, 2 and the edge (1, 2, 5), where
    [operator++] reaches [end()]. *)
Lemma X21_decrement_undoes_increment_witness :
  deref (begin_ here two_nodes_linked) = Some value_1_2_5
  /\ exists it', incr (begin_ here two_nodes_linked) = Some it'
                 /\ decr it' = Some (Ret tt, begin_ here two_nodes_linked).
Proof.
  split; [vm_compute; reflexivity|].
  apply (X21_decrement_undoes_increment (begin_ here two_nodes_linked) value_1_2_5).
  vm_compute. reflexivity.
Defined.

(** X22 at nodes 1, 2 and the edge (1, 2, 5). *)
Lemma X22_decrement_end_witness :
  stored_values (graph_obj linked_here) = ([] ++ [value_1_2_5])%list
  /\ exists it', decr (iterator_end linked_here) = Some (Ret tt, it')
                 /\ deref it' = Some value_1_2_5
                 /\ incr it' = Some (iterator_end linked_here).
Proof.
  split; [vm_compute; reflexivity|].
  apply (proj2 (X22_decrement_end linked_here) [] value_1_2_5).
  vm_compute. reflexivity.
Defined.

(** X23 at nodes 1, 2 and the edge (1, 2, 5), whose first node has the
    edge. *)
Lemma X23_decrement_begin_witness :
  graph_obj linked_here = (1, ([edge_1_2_5], [])) :: [(2, ([], [edge_1_2_5]))]
  /\ stored_values (graph_obj linked_here) <> []
  /\ decr (iterator_begin linked_here)
     = Some (Throw decrement_begin_what, iterator_begin linked_here).
Proof.
  split; [vm_compute; reflexivity|]. split; [vm_compute; discriminate|].
  apply (X23_decrement_begin linked_here 1 [edge_1_2_5] [] [(2, ([], [edge_1_2_5]))]).
  - vm_compute. reflexivity.
  - vm_compute. discriminate.
Defined.

(** X24 at the same nodes and edge held by graph objects at two
    addresses. *)
Lemma X24_graph_eq_complete_witness :
  nodes (graph_obj linked_here) = nodes (graph_obj linked_there)
  /\ stored_values (graph_obj linked_here) = stored_values (graph_obj linked_there)
  /\ (List.length (stored_values (graph_obj linked_here)) < 2)%nat
  /\ graph_eq 2 linked_here linked_there = Some true.
Proof.
  assert (H : (List.length (stored_values (graph_obj linked_here)) < 2)%nat)
    by (vm_compute; apply le_n).
  split; [reflexivity|]. split; [reflexivity|]. split; [exact H|].
  exact (X24_graph_eq_complete 2%nat linked_here linked_there eq_refl eq_refl H).
Defined.

(** X25 at the same two graph objects. *)
Lemma X25_graph_eq_sound_witness :
  graph_eq 2 linked_here linked_there = Some true
  /\ nodes (graph_obj linked_here) = nodes (graph_obj linked_there)
  /\ stored_values (graph_obj linked_here) = stored_values (graph_obj linked_there).
Proof.
  assert (H : graph_eq 2 linked_here linked_there = Some true)
    by (vm_compute; reflexivity).
  split; [exact H|].
  exact (X25_graph_eq_sound 2%nat linked_here linked_there H).
Defined.

(** X26 at nodes 1, 2 and the edge (1, 2, 5). *)
Lemma X26_copy_and_move_compare_equal_witness :
  (List.length (stored_values (g_ two_nodes_linked)) < 2)%nat
  /\ graph_eq 2 (mk_graph_ptr 1%nat (graph_copy (g_ two_nodes_linked)))
              (mk_graph_ptr 0%nat (g_ two_nodes_linked)) = Some true
  /\ graph_eq 2 (mk_graph_ptr 1%nat (fst (graph_move (g_ two_nodes_linked))))
              (mk_graph_ptr 0%nat (g_ two_nodes_linked)) = Some true
  /\ empty (snd (graph_move (g_ two_nodes_linked))) = true.
Proof.
  assert (H : (List.length (stored_values (g_ two_nodes_linked)) < 2)%nat)
    by (vm_compute; apply le_n).
  split; [exact H|].
  exact (X26_copy_and_move_compare_equal 2%nat 1%nat 0%nat (g_ two_nodes_linked) H).
Defined.

(** X27 at the README's merge example compared with the same graph without
    its last edge, held at another address. *)
Lemma X27_graph_eq_overrun_witness :
  Nat.eqb 1%nat 0%nat = false
  /\ nodes (g_ abcd) = nodes (g_ abc)
  /\ stored_values (g_ abc) = mk_value "A" "B" (Some 1) :: [mk_value "A" "C" (Some 2)]
  /\ stored_values (g_ abcd)
     = ((mk_value "A" "B" (Some 1) :: [mk_value "A" "C" (Some 2)])
        ++ [mk_value "A" "D" (Some 3)])%list
  /\ graph_eq 5 (mk_graph_ptr 0%nat (g_ abcd)) (mk_graph_ptr 1%nat (g_ abc)) = None.
Proof.
  split; [reflexivity|]. split; [vm_compute; reflexivity|].
  split; [vm_compute; reflexivity|]. split; [vm_compute; reflexivity|].
  apply (X27_graph_eq_overrun 5%nat (mk_graph_ptr 0%nat (g_ abcd)) (mk_graph_ptr 1%nat (g_ abc))
                              (mk_value "A" "B" (Some 1)) [mk_value "A" "C" (Some 2)]
                              [mk_value "A" "D" (Some 3)]);
    try (vm_compute; reflexivity). discriminate.
Defined.

(** X28 at the nodes A, B and the edge (A, B, x) of a
    [graph<std::string, std::string>]. *)
Lemma X28_print_graph_follows_traversal_witness :
  reachable text_graph
  /\ print_graph (g_ text_graph)
     = String.concat ""
         (map (fun s =>
                 to_string s ++ " (" ++ newline
                 ++ String.concat ""
                      (map (fun v => "  " ++ print_value v ++ newline)
                           (filter (fun v => equal (from v) s)
                                   (stored_values (g_ text_graph))))
                 ++ ")" ++ newline)
              (nodes (g_ text_graph))).
Proof.
  assert (H : reachable text_graph)
    by (exists [op_insert_node "A"; op_insert_node "B";
                op_insert_edge "A" "B" (Some "x")]; reflexivity).
  split; [exact H|]. exact (X28_print_graph_follows_traversal text_graph H).
Defined.
